(** * Stellaris definitions generator

    A shallow embedding of the requirement builders ([CivicsBuilder],
    [OriginsBuilder], [TraitsBuilder], [EthicsBuilder]) and of the
    configuration-language parser ([ParadoxParser]), with the properties
    the specification states about them and further properties of the
    code.

    Conventions of the embedding

    - A JavaScript value is a [value].  An object is the list of its own
      enumerable properties in insertion order; inherited properties are
      not modelled, except where the code can reach them through a name
      it does not choose: the names that [this.opposites] of
      [EthicsBuilder] inherits, and the [toString] method that a
      conversion to a string calls.  (JavaScript enumerates integer-like
      names first; no statement below depends on the enumeration order of
      such names.)
    - A string is a [string]; a character stands for one code unit, so
      texts range over the code units below 256.
    - A number is the decimal [mant / 10 ^ scale]; rounding to binary64 is
      not modelled.  The only operations the requirement builders and
      the parser perform on numbers are the truthiness test and [typeof].
      What [EthicsBuilder] and the cost of a trait need beyond that
      (printing a number, reading a string as a number, [parseInt], the
      comparison with [0]) is a parameter of their sections.
    - A thrown [TypeError] is [None] in the [option] monad.  Loops whose
      termination is not structural take fuel, and [None] also stands for
      exhausted fuel; the functions that hide the fuel are proved to
      return.  The call stack is modelled where the depth of the calls
      follows the input, in the parser: [_parseValue_on] and the
      functions after it run with a number of frames and throw
      [RangeError] when a call does not fit.  Elsewhere the stack is
      not modelled; the only other recursion, that of [_gather], is as
      deep as the value it is given.
    - Arrays that the builders create are fresh references, and the only
      arrays mutated in place are those; lists are therefore passed by
      value, and reference equality of arrays is [false].
      [applyBidirectionalToParsedData] mutates its argument: there the
      trait blocks are the plain objects of a parse tree, which share no
      array, and the update of a block stands for its mutation.
    - The collections passed to the builders ([civicsFile], [originsFile],
      [parsedData], each civics file, [traitsLookup] when it is not
      [null], [ethicsFile], [authoritiesFile]) are plain objects; a
      filter function is a pure predicate, taken by the truthiness of
      what it returns.  [console.log] is not modelled. *)

From Stdlib Require Import ZArith Lia Ascii String DecimalString.
From stdpp Require Import base option list strings gmap sorting.

Local Open Scope string_scope.
Local Open Scope list_scope.
Set Warnings "-register-all".
Set Default Proof Using "Type".
Set Warnings "-clear-no-such-hyp".

(** ** JavaScript values *)

Inductive value : Type :=
| VUndef
| VNull
| VBool (b : bool)
| VNum (mant : Z) (scale : nat)
| VStr (s : string)
| VArr (items : list value)
| VObj (props : list (string * value)).

(** Own-property lookup in a property list. *)
Fixpoint assoc {A : Type} (k : string) (ps : list (string * A)) : option A :=
  match ps with
  | [] => None
  | (k', v) :: ps' => if decide (k' = k) then Some v else assoc k ps'
  end.

Definition keys {A : Type} (ps : list (string * A)) : list string := ps.*1.

(** [o[k] = v] on a plain object.  The name [__proto__] reaches the
    prototype setter of [Object.prototype] and never creates an own
    property. *)
Fixpoint assoc_set {A : Type} (k : string) (v : A) (ps : list (string * A))
  : list (string * A) :=
  match ps with
  | [] => [(k, v)]
  | (k', v') :: ps' =>
      if decide (k' = k) then (k', v) :: ps' else (k', v') :: assoc_set k v ps'
  end.

Definition obj_set {A : Type} (k : string) (v : A) (ps : list (string * A))
  : list (string * A) :=
  if decide (k = "__proto__") then ps else assoc_set k v ps.

(** Truthiness ([if (x)], [!x], [x && y]). *)
Definition truthy (v : value) : bool :=
  match v with
  | VUndef | VNull => false
  | VBool b => b
  | VNum m _ => negb (m =? 0)%Z
  | VStr s => negb (String.eqb s EmptyString)
  | VArr _ | VObj _ => true
  end.

Definition isArray (v : value) : bool :=
  match v with VArr _ => true | _ => false end.

(** [typeof v === 'object'] *)
Definition typeof_object (v : value) : bool :=
  match v with VNull | VArr _ | VObj _ => true | _ => false end.

(** [v.k] for a receiver that is not [null] or [undefined].  Only objects
    carry the names the modelled code reads. *)
Definition get (v : value) (k : string) : value :=
  match v with
  | VObj ps => default VUndef (assoc k ps)
  | _ => VUndef
  end.

(** [v.k] for an arbitrary receiver: reading a property of [null] or
    [undefined] throws. *)
Definition getE (v : value) (k : string) : option value :=
  match v with
  | VUndef | VNull => None
  | _ => Some (get v k)
  end.

(** The canonical name of array index [i]. *)
Definition index_key (i : nat) : string :=
  NilZero.string_of_uint (Nat.to_uint i).

Definition indexed {A : Type} (l : list A) : list (string * A) :=
  imap (fun i x => (index_key i, x)) l.

(** [Object.entries(v)]; throws on [null] and [undefined]. *)
Definition entries (v : value) : option (list (string * value)) :=
  match v with
  | VUndef | VNull => None
  | VObj ps => Some ps
  | VArr l => Some (indexed l)
  | VStr s =>
      Some (indexed ((fun c => VStr (String c EmptyString)) <$> list_ascii_of_string s))
  | VBool _ | VNum _ _ => Some []
  end.

(** SameValueZero, the equality of [Set], [Map] and [Array.includes].
    Two array or object operands are always distinct references here. *)
Definition same_value_zero (a b : value) : bool :=
  match a, b with
  | VUndef, VUndef | VNull, VNull => true
  | VBool x, VBool y => bool_decide (x = y)
  | VNum m1 s1, VNum m2 s2 => (m1 * 10 ^ Z.of_nat s2 =? m2 * 10 ^ Z.of_nat s1)%Z
  | VStr x, VStr y => String.eqb x y
  | _, _ => false
  end.

Definition includes (l : list value) (x : value) : bool :=
  existsb (same_value_zero x) l.

(** [[...new Set(l)]]: the elements of [l] in first-occurrence order. *)
Definition set_add (acc : list value) (x : value) : list value :=
  if includes acc x then acc else acc ++ [x].

Definition dedupe (l : list value) : list value := fold_left set_add l [].

Definition str_set_add (acc : list string) (x : string) : list string :=
  if decide (x ∈ acc) then acc else acc ++ [x].

Definition dedupe_str (l : list string) : list string :=
  fold_left str_set_add l [].

(** [Array.prototype.sort()] on strings: ascending code-unit order. *)
Definition str_le (a b : string) : Prop := String.leb a b = true.

#[global] Instance str_le_dec : RelDecision str_le.
Proof. intros a b. unfold str_le. apply _. Defined.

#[global] Instance str_le_total : Total str_le.
Proof. intros a b. unfold str_le. apply String.leb_total. Qed.

Definition sort_strings (l : list string) : list string := merge_sort str_le l.

(** ** JavaScript strings *)

(** [s.startsWith(p)] gives [is_Some (strip_prefix p s)]. *)
Fixpoint strip_prefix (p s : string) : option string :=
  match p with
  | EmptyString => Some s
  | String a p' =>
      match s with
      | String b s' => if decide (a = b) then strip_prefix p' s' else None
      | EmptyString => None
      end
  end.

Definition startsWith (s p : string) : bool := bool_decide (is_Some (strip_prefix p s)).

(** [s.replace(p, r)] for a string pattern [p] and a replacement [r]
    without [$]: the first occurrence of [p] is replaced. *)
Fixpoint replace (p r s : string) : string :=
  match strip_prefix p s with
  | Some rest => r +:+ rest
  | None =>
      match s with
      | EmptyString => s
      | String c s' => String c (replace p r s')
      end
  end.

(** ** The shared extraction helpers

    [_gather], [_handle] and [_handleCulture] have the same text in
    [CivicsBuilder] and in [OriginsBuilder]. *)

Fixpoint _gather (x : value) : list string :=
  match x with
  | VUndef | VNull => []
  | VStr s => [s]
  | VArr l =>
      (fix each (l : list value) : list string :=
         match l with
         | [] => []
         | v :: l' => _gather v ++ each l'
         end) l
  | VObj ps =>
      let in_value :=
        (fix find (ps : list (string * value)) : option (list string) :=
           match ps with
           | [] => None
           | (k, v) :: ps' =>
               if decide (k = "value") then Some (_gather v) else find ps'
           end) ps in
      match in_value with
      | Some out => out
      | None =>
          (fix each (ps : list (string * value)) : list string :=
             match ps with
             | [] => []
             | (_, v) :: ps' => _gather v ++ each ps'
             end) ps
      end
  | VBool _ | VNum _ _ => []
  end.

(** A required atom is a bare identifier or a group of alternatives. *)
Definition atom (s : string) : value := VStr s.
Definition group (g : list string) : value := VArr (atom <$> g).

(** [if (group.length) yesArr.push(group)] *)
Definition push_group (yesArr : list value) (g : list string) : list value :=
  match g with
  | [] => yesArr
  | _ => yesArr ++ [group g]
  end.

(** The [OR] part of [_handle]: an array of blocks gives one group per
    block, a single truthy block gives one group. *)
Definition push_or_groups (OR : value) (yesArr : list value) : list value :=
  match OR with
  | VArr orGroups =>
      fold_left (fun acc orGroup => push_group acc (_gather orGroup)) orGroups yesArr
  | _ => if truthy OR then push_group yesArr (_gather OR) else yesArr
  end.

Definition _handle (block : value) (arrs : list value * list string)
  : list value * list string :=
  let '(yesArr, noArr) := arrs in
  if negb (truthy block) then (yesArr, noArr) else
  let yesArr := push_or_groups (get block "OR") yesArr in
  let noArr :=
    if truthy (get block "NOR") then noArr ++ _gather (get block "NOR") else noArr in
  let noArr :=
    if truthy (get block "NOT") then noArr ++ _gather (get block "NOT") else noArr in
  let yesArr :=
    if truthy (get block "value")
    then yesArr ++ (atom <$> _gather (get block "value")) else yesArr in
  (yesArr, noArr).

(** The [OR] part of [_handleCulture]: the gathered identifiers are
    spread into the array. *)
Definition push_or_spread (OR : value) (yesArr : list value) : list value :=
  match OR with
  | VArr orGroups =>
      fold_left (fun acc orGroup => acc ++ (atom <$> _gather orGroup)) orGroups yesArr
  | _ => if truthy OR then yesArr ++ (atom <$> _gather OR) else yesArr
  end.

Definition _handleCulture (block : value) (arrs : list value * list string)
  : list value * list string :=
  let '(yesArr, noArr) := arrs in
  if negb (truthy block) then (yesArr, noArr) else
  let yesArr := push_or_spread (get block "OR") yesArr in
  let noArr :=
    if truthy (get block "NOR") then noArr ++ _gather (get block "NOR") else noArr in
  let noArr :=
    if truthy (get block "NOT") then noArr ++ _gather (get block "NOT") else noArr in
  let yesArr :=
    if truthy (get block "value")
    then yesArr ++ (atom <$> _gather (get block "value")) else yesArr in
  (yesArr, noArr).

(** The blocks under one key of a condition node: an array whose first
    element is a plain object is a list of blocks (duplicate keys), anything
    else is a single block. *)
Definition blocks_of (val : value) : list value :=
  match val with
  | VArr ((VObj _ :: _) as l) => l
  | _ => [val]
  end.

(** [for (const x of l) body(x)] in the error monad. *)
Fixpoint for_each {A S : Type} (body : S -> A -> option S) (l : list A) (s : S)
  : option S :=
  match l with
  | [] => Some s
  | x :: l' => s' ← body s x; for_each body l' s'
  end.

(** Incompatibility maps: [Map<string, Set<string>>].  The sets are read
    back only through [Array.from(...).sort()], which does not depend on
    their insertion order. *)
Definition ensure (k : string) (m : gmap string (gset string))
  : gmap string (gset string) :=
  match m !! k with
  | Some _ => m
  | None => <[k := ∅]> m
  end.

(** [m.get(k).add(x)] for a key that is present. *)
Definition add_to (k x : string) (m : gmap string (gset string))
  : gmap string (gset string) :=
  alter (fun s => s ∪ {[x]}) k m.

Definition sorted_members (s : gset string) : list string :=
  sort_strings (elements s).

(** Membership in an incompatibility map. *)
Definition related (m : gmap string (gset string)) (a b : string) : Prop :=
  exists s, m !! a = Some s /\ b ∈ s.

(** ** CivicsBuilder *)

Module CivicsBuilder.

Inductive facet := Authorities | Civics | Ethics | SpeciesArchetype | Culture.

#[global] Instance facet_eq_dec : EqDecision facet.
Proof. solve_decision. Defined.

Record lists (A : Type) := Lists {
  authorities : list A;
  civics : list A;
  ethics : list A;
  species_archetype : list A;
  culture : list A
}.
Arguments Lists {A}.
Arguments authorities {A}.
Arguments civics {A}.
Arguments ethics {A}.
Arguments species_archetype {A}.
Arguments culture {A}.

(** One entry of the returned definitions: [{ yes, no }]. *)
Record def := Def { yes : lists value; no : lists string }.

Definition sel {A : Type} (f : facet) (r : lists A) : list A :=
  match f with
  | Authorities => authorities r
  | Civics => civics r
  | Ethics => ethics r
  | SpeciesArchetype => species_archetype r
  | Culture => culture r
  end.

Definition upd {A : Type} (f : facet) (l : list A) (r : lists A) : lists A :=
  match f with
  | Authorities => Lists l (civics r) (ethics r) (species_archetype r) (culture r)
  | Civics => Lists (authorities r) l (ethics r) (species_archetype r) (culture r)
  | Ethics => Lists (authorities r) (civics r) l (species_archetype r) (culture r)
  | SpeciesArchetype => Lists (authorities r) (civics r) (ethics r) l (culture r)
  | Culture => Lists (authorities r) (civics r) (ethics r) (species_archetype r) l
  end.

Definition map_lists {A B : Type} (g : list A -> list B) (r : lists A) : lists B :=
  Lists (g (authorities r)) (g (civics r)) (g (ethics r))
        (g (species_archetype r)) (g (culture r)).

Definition empty_lists {A : Type} : lists A := Lists [] [] [] [] [].
Definition empty_def : def := Def empty_lists empty_lists.

(** Run a handler on the two arrays of one facet. *)
Definition on_facet (f : facet)
    (h : list value * list string -> list value * list string) (d : def) : def :=
  let '(y, n) := h (sel f (yes d), sel f (no d)) in
  Def (upd f y (yes d)) (upd f n (no d)).

Definition dispatch (key : string) (v : value) (d : def) : def :=
  if decide (key = "ethics") then on_facet Ethics (_handle v) d
  else if decide (key = "authority" \/ key = "authorities")
    then on_facet Authorities (_handle v) d
  else if decide (key = "civics") then on_facet Civics (_handle v) d
  else if decide (key = "species_archetype" \/ key = "species_archetypes")
    then on_facet SpeciesArchetype (_handle v) d
  else if decide (key = "species_class") then on_facet SpeciesArchetype (_handle v) d
  else if decide (key = "graphical_culture") then on_facet Culture (_handleCulture v) d
  else d.

Definition _extractReqs (node : value) (d : def) : option def :=
  ps ← entries node;
  Some (fold_left
          (fun d '(key, val) => fold_left (fun d v => dispatch key v d) (blocks_of val) d)
          ps d).

(** The availability pre-filter.  [typeof null] is ['object'], so a
    [null] entry of the [NOT] list throws. *)
Fixpoint scan_not_blocks (notBlocks : list value) : option bool :=
  match notBlocks with
  | [] => Some false
  | notBlock :: rest =>
      if typeof_object notBlock then
        dlc ← getE notBlock "host_has_dlc";
        if truthy dlc then Some true else scan_not_blocks rest
      else scan_not_blocks rest
  end.

Definition _requiresNoDLC (civicData : value) : option bool :=
  playable ← getE civicData "playable";
  if negb (truthy playable) then Some false else
  if truthy (get playable "NOT") then
    scan_not_blocks
      (match get playable "NOT" with VArr l => l | one => [one] end)
  else Some false.

(** The walk over the [potential] and [possible] sections of one civic:
    the requirement lists as extracted, before deduplication. *)
Definition walk (civicData : value) : option def :=
  d ← (if truthy (get civicData "potential")
       then _extractReqs (get civicData "potential") empty_def
       else Some empty_def);
  if truthy (get civicData "possible") then
    match get civicData "possible" with
    | VArr blocks => for_each (fun d possibleBlock => _extractReqs possibleBlock d) blocks d
    | possible => _extractReqs possible d
    end
  else Some d.

(** [yes.x = [...new Set(yes.x)]; no.x = [...new Set(no.x)]] for every facet. *)
Definition dedupe_def (d : def) : def :=
  Def (map_lists dedupe (yes d)) (map_lists dedupe_str (no d)).

(** The loop body of [build] after the two filters. *)
Definition extract (civicData : value) : option def :=
  d ← walk civicData;
  Some (dedupe_def d).

Definition rejected (filterFn : option (string -> value -> bool))
    (civicName : string) (civicData : value) : bool :=
  match filterFn with
  | Some f => negb (f civicName civicData)
  | None => false
  end.

(** The first loop of [build]: the definitions before the closure. *)
Definition collect (civicsFile : list (string * value))
    (filterFn : option (string -> value -> bool)) : option (list (string * def)) :=
  for_each
    (fun defs '(civicName, civicData) =>
       skip ← _requiresNoDLC civicData;
       if skip : bool then Some defs else
       if rejected filterFn civicName civicData then Some defs else
       d ← extract civicData;
       Some (obj_set civicName d defs))
    civicsFile [].

Definition first_pass (defs : list (string * def)) : gmap string (gset string) :=
  fold_left
    (fun m '(civicName, civicData) =>
       fold_left
         (fun m forbiddenCivic =>
            add_to forbiddenCivic civicName
              (ensure forbiddenCivic (add_to civicName forbiddenCivic m)))
         (civics (no civicData)) (ensure civicName m))
    defs ∅.

Definition second_pass (incompatibilities : gmap string (gset string))
    (defs : list (string * def)) : list (string * def) :=
  (fun '(civicName, civicData) =>
     match incompatibilities !! civicName with
     | Some s => (civicName, Def (yes civicData) (upd Civics (sorted_members s) (no civicData)))
     | None => (civicName, civicData)
     end) <$> defs.

Definition _makeBidirectional (defs : list (string * def)) : list (string * def) :=
  second_pass (first_pass defs) defs.

Definition build (civicsFile : list (string * value))
    (filterFn : option (string -> value -> bool)) : option (list (string * def)) :=
  defs ← collect civicsFile filterFn;
  Some (_makeBidirectional defs).

End CivicsBuilder.

(** ** OriginsBuilder *)

Module OriginsBuilder.

Inductive facet :=
  Authorities | Civics | Ethics | SpeciesClass | SpeciesArchetype | Culture.

#[global] Instance facet_eq_dec : EqDecision facet.
Proof. solve_decision. Defined.

Record lists (A : Type) := Lists {
  authorities : list A;
  civics : list A;
  ethics : list A;
  species_class : list A;
  species_archetype : list A;
  culture : list A
}.
Arguments Lists {A}.
Arguments authorities {A}.
Arguments civics {A}.
Arguments ethics {A}.
Arguments species_class {A}.
Arguments species_archetype {A}.
Arguments culture {A}.

Record def := Def { yes : lists value; no : lists string }.

Definition sel {A : Type} (f : facet) (r : lists A) : list A :=
  match f with
  | Authorities => authorities r
  | Civics => civics r
  | Ethics => ethics r
  | SpeciesClass => species_class r
  | SpeciesArchetype => species_archetype r
  | Culture => culture r
  end.

Definition upd {A : Type} (f : facet) (l : list A) (r : lists A) : lists A :=
  match f with
  | Authorities =>
      Lists l (civics r) (ethics r) (species_class r) (species_archetype r) (culture r)
  | Civics =>
      Lists (authorities r) l (ethics r) (species_class r) (species_archetype r) (culture r)
  | Ethics =>
      Lists (authorities r) (civics r) l (species_class r) (species_archetype r) (culture r)
  | SpeciesClass =>
      Lists (authorities r) (civics r) (ethics r) l (species_archetype r) (culture r)
  | SpeciesArchetype =>
      Lists (authorities r) (civics r) (ethics r) (species_class r) l (culture r)
  | Culture =>
      Lists (authorities r) (civics r) (ethics r) (species_class r) (species_archetype r) l
  end.

Definition map_lists {A B : Type} (g : list A -> list B) (r : lists A) : lists B :=
  Lists (g (authorities r)) (g (civics r)) (g (ethics r)) (g (species_class r))
        (g (species_archetype r)) (g (culture r)).

Definition empty_lists {A : Type} : lists A := Lists [] [] [] [] [] [].
Definition empty_def : def := Def empty_lists empty_lists.

Definition on_facet (f : facet)
    (h : list value * list string -> list value * list string) (d : def) : def :=
  let '(y, n) := h (sel f (yes d), sel f (no d)) in
  Def (upd f y (yes d)) (upd f n (no d)).

Definition dispatch (key : string) (v : value) (d : def) : def :=
  if decide (key = "ethics") then on_facet Ethics (_handle v) d
  else if decide (key = "authority" \/ key = "authorities")
    then on_facet Authorities (_handle v) d
  else if decide (key = "civics") then on_facet Civics (_handle v) d
  else if decide (key = "species_class") then on_facet SpeciesClass (_handle v) d
  else if decide (key = "species_archetype") then on_facet SpeciesArchetype (_handle v) d
  else if decide (key = "graphical_culture") then on_facet Culture (_handleCulture v) d
  else d.

Definition _extractReqs (node : value) (d : def) : option def :=
  ps ← entries node;
  Some (fold_left
          (fun d '(key, val) => fold_left (fun d v => dispatch key v d) (blocks_of val) d)
          ps d).

(** A [potential] or [possible] section: one block or an array of blocks. *)
Definition extract_section (section : value) (d : def) : option def :=
  if truthy section then
    match section with
    | VArr blocks => for_each (fun d block => _extractReqs block d) blocks d
    | block => _extractReqs block d
    end
  else Some d.

Definition flatten_item (item : value) : value :=
  match item with
  | VArr [x] => x
  | _ => item
  end.

Definition _flattenSingleElementGroups (yes : lists value) : lists value :=
  map_lists (fun l => flatten_item <$> l) yes.

(** [traitsLookup] is [null] or a plain object. *)
Definition _extractTraitRequirements (traitsBlock : value) (yes : lists value)
    (traitsLookup : list (string * value)) : lists value :=
  fold_left
    (fun yes traitId =>
       let traitData := default VUndef (assoc traitId traitsLookup) in
       if negb (truthy traitData) then yes else
       if truthy (get traitData "allowed_archetypes") then
         let archetypes :=
           match get traitData "allowed_archetypes" with
           | VArr l => l
           | one => [one]
           end in
         upd SpeciesArchetype (species_archetype yes ++ [VArr archetypes]) yes
       else yes)
    (_gather (get traitsBlock "trait")) yes.

(** The walk over the [potential] and [possible] sections of one origin:
    the requirement lists as extracted, before deduplication. *)
Definition walk (originData : value) : option def :=
  potential ← getE originData "potential";
  d ← extract_section potential empty_def;
  extract_section (get originData "possible") d.

Definition dedupe_def (d : def) : def :=
  Def (map_lists dedupe (yes d)) (map_lists dedupe_str (no d)).

(** [if (originData.traits && traitsLookup) ...] *)
Definition with_traits (originData : value)
    (traitsLookup : option (list (string * value))) (d : def) : def :=
  match traitsLookup with
  | Some lookup =>
      if truthy (get originData "traits")
      then Def (_extractTraitRequirements (get originData "traits") (yes d) lookup) (no d)
      else d
  | None => d
  end.

(** The requirement set of one origin before single-element groups are
    flattened. *)
Definition extract (originData : value) (traitsLookup : option (list (string * value)))
  : option def :=
  d ← walk originData;
  Some (with_traits originData traitsLookup (dedupe_def d)).

Definition rejected (filterFn : option (string -> value -> bool))
    (originName : string) (originData : value) : bool :=
  match filterFn with
  | Some f => negb (f originName originData)
  | None => false
  end.

Definition collect (originsFile : list (string * value))
    (filterFn : option (string -> value -> bool))
    (traitsLookup : option (list (string * value))) : option (list (string * def)) :=
  for_each
    (fun defs '(originName, originData) =>
       if rejected filterFn originName originData then Some defs else
       d ← extract originData traitsLookup;
       Some (obj_set originName (Def (_flattenSingleElementGroups (yes d)) (no d)) defs))
    originsFile [].

Definition _extractForbiddenValues (block : value) : list string :=
  if negb (truthy block) then [] else
  let forbidden :=
    if truthy (get block "NOT") then _gather (get block "NOT") else [] in
  if truthy (get block "NOR") then
    let norBlocks :=
      match get block "NOR" with VArr l => l | one => [one] end in
    forbidden ++ flat_map _gather norBlocks
  else forbidden.

Definition _extractOriginRestrictions (civicData : value) : option (list string) :=
  potential ← getE civicData "potential";
  let forbiddenOrigins :=
    if truthy potential && truthy (get potential "origin")
    then _extractForbiddenValues (get potential "origin") else [] in
  let possibleBlocks :=
    match get civicData "possible" with
    | VArr l => l
    | possible => if truthy possible then [possible] else []
    end in
  Some (fold_left
          (fun forbiddenOrigins possible =>
             if truthy possible && truthy (get possible "origin") then
               fold_left
                 (fun acc originBlock => acc ++ _extractForbiddenValues originBlock)
                 (blocks_of (get possible "origin")) forbiddenOrigins
             else forbiddenOrigins)
          possibleBlocks forbiddenOrigins).

Definition first_pass (defs : list (string * def)) : gmap string (gset string) :=
  fold_left
    (fun m '(originName, originData) =>
       fold_left (fun m forbiddenCivic => add_to originName forbiddenCivic m)
                 (civics (no originData)) (ensure originName m))
    defs ∅.

Definition scan_civic (m : gmap string (gset string)) (entry : string * value)
  : option (gmap string (gset string)) :=
  let '(civicName, civicData) := entry in
  forbiddenOrigins ← _extractOriginRestrictions civicData;
  Some (fold_left
          (fun m originName =>
             match m !! originName with
             | Some _ => add_to originName civicName m
             | None => m
             end)
          forbiddenOrigins m).

Definition second_pass (civicsFiles : list (list (string * value)))
    (m : gmap string (gset string)) : option (gmap string (gset string)) :=
  for_each (fun m civicsFile => for_each scan_civic civicsFile m) civicsFiles m.

Definition third_pass (incompatibilities : gmap string (gset string))
    (defs : list (string * def)) : list (string * def) :=
  (fun '(originName, originData) =>
     match incompatibilities !! originName with
     | Some s => (originName,
                  Def (yes originData) (upd Civics (sorted_members s) (no originData)))
     | None => (originName, originData)
     end) <$> defs.

Definition _makeBidirectional (defs : list (string * def))
    (civicsFiles : list (list (string * value))) : option (list (string * def)) :=
  m ← second_pass civicsFiles (first_pass defs);
  Some (third_pass m defs).

Definition build (originsFile : list (string * value))
    (filterFn : option (string -> value -> bool))
    (traitsLookup : option (list (string * value)))
    (civicsFiles : list (list (string * value))) : option (list (string * def)) :=
  defs ← collect originsFile filterFn traitsLookup;
  _makeBidirectional defs civicsFiles.

End OriginsBuilder.

(** ** TraitsBuilder *)

Module TraitsBuilder.

Section WithCost.

(** [_extractCost] relies on [parseInt] and [NaN]; the closure neither
    reads nor writes what it returns.  It is kept abstract: a function
    from the trait data to the [cost] and [modifiers] fields, which
    may throw. *)
Context {cost_info : Type}.
Variable _extractCost : value -> option cost_info.

(** One entry of the result: [{ cost, no, species_class?, modifiers? }]. *)
Record traitDef := TraitDef {
  cost : cost_info;
  no : list value;
  species_class : option (list value)
}.

(** [_extractOpposites] and [_extractSpeciesClass]: a string or an
    array under the given key, copied into a fresh array. *)
Definition string_or_array (field : value) : list value :=
  if truthy field then
    match field with
    | VStr s => [VStr s]
    | VArr l => l
    | _ => []
    end
  else [].

Definition _extractOpposites (data : value) : list value :=
  string_or_array (get data "opposites").

Definition _extractSpeciesClass (data : value) : list value :=
  string_or_array (get data "species_class").

Definition rejected (filterFn : option (string -> value -> bool))
    (id : string) (data : value) : bool :=
  match filterFn with
  | Some f => negb (f id data)
  | None => false
  end.

(** [data.initial === false || data.initial === 'no'] *)
Definition not_initial (initial : value) : bool :=
  match initial with
  | VBool false => true
  | VStr s => String.eqb s "no"
  | _ => false
  end.

(** The first pass of [build]. *)
Definition collect (parsedData : list (string * value))
    (filterFn : option (string -> value -> bool)) : option (list (string * traitDef)) :=
  for_each
    (fun result '(id, data) =>
       initial ← getE data "initial";
       if not_initial initial then Some result else
       if rejected filterFn id data then Some result else
       c ← _extractCost data;
       let speciesClass := _extractSpeciesClass data in
       let traitDef :=
         TraitDef c (_extractOpposites data)
                  (match speciesClass with [] => None | _ => Some speciesClass end) in
       Some (obj_set id traitDef result))
    parsedData [].

(** [oppositeDef.no.push(id)] on the entry stored under [target]. *)
Definition push_no (target id : string) (definitions : list (string * traitDef))
  : list (string * traitDef) :=
  (fun '(k, d) =>
     if decide (k = target)
     then (k, TraitDef (cost d) (no d ++ [VStr id]) (species_class d))
     else (k, d)) <$> definitions.

(** The body of the inner loop for one [oppositeId] of trait [id]. *)
Definition reverse_entry (id : string) (definitions : list (string * traitDef))
    (oppositeId : value) : list (string * traitDef) :=
  match oppositeId with
  | VStr o =>
      match assoc o definitions with
      | Some oppositeDef =>
          if includes (no oppositeDef) (VStr id) then definitions
          else push_no o id definitions
      | None => definitions
      end
  | _ => definitions
  end.

(** One round of the outer loop.  The array [def.no] is read when the
    round starts: the inner loop never pushes to the array it iterates
    (see [own_list_stable]). *)
Definition round (definitions : list (string * traitDef)) (id : string)
  : list (string * traitDef) :=
  match assoc id definitions with
  | Some d => fold_left (reverse_entry id) (no d) definitions
  | None => definitions
  end.

Definition _makeBidirectional (definitions : list (string * traitDef))
  : list (string * traitDef) :=
  fold_left round (keys definitions) definitions.

Definition build (parsedData : list (string * value))
    (filterFn : option (string -> value -> bool)) : option (list (string * traitDef)) :=
  result ← collect parsedData filterFn;
  Some (_makeBidirectional result).

End WithCost.

Arguments TraitDef {cost_info}.
Arguments cost {cost_info}.
Arguments no {cost_info}.
Arguments species_class {cost_info}.

(** *** Queries on trait data *)

(** [Array.isArray(x) ? x : [x]] *)
Definition as_array (x : value) : list value :=
  match x with
  | VArr l => l
  | _ => [x]
  end.

(** The trait's own list in the three queries: a string gives one
    element, an array is taken as it is, anything else gives none. *)
Definition own_list (field : value) : list value :=
  match field with
  | VStr _ => [field]
  | VArr l => l
  | _ => []
  end.

Definition hasSpeciesClass (data speciesClasses : value) : option bool :=
  field ← getE data "species_class";
  if negb (truthy field) then Some false else
  let classesToCheck := as_array speciesClasses in
  let traitClasses := own_list field in
  Some (existsb (fun tc => includes classesToCheck tc) traitClasses).

Definition hasAllowedArchetype (data archetypes : value) : option bool :=
  field ← getE data "allowed_archetypes";
  if negb (truthy field) then Some false else
  let archetypesToCheck := as_array archetypes in
  let traitArchetypes := own_list field in
  Some (existsb (fun ta => includes archetypesToCheck ta) traitArchetypes).

Definition isOnlyForArchetypes (data archetypes : value) : option bool :=
  field ← getE data "allowed_archetypes";
  if negb (truthy field) then Some false else
  let archetypesToCheck := as_array archetypes in
  let traitArchetypes := own_list field in
  Some (bool_decide (0 < length traitArchetypes)
        && forallb (fun ta => includes archetypesToCheck ta) traitArchetypes).

(** *** Cost and modifiers

    [parseInt] and an assignment [modifiers[v] = ...] first turn a value
    that is not a string into one.  On an object this calls its
    [toString] method: an own entry of that name hides the inherited
    method and is not callable, and the conversion throws; the inherited
    method of an array converts each element that is not [null] or
    [undefined]. *)
Fixpoint stringifies (v : value) : bool :=
  match v with
  | VArr l => forallb stringifies l
  | VObj ps => negb (bool_decide ("toString" ∈ keys ps))
  | _ => true
  end.

(** [parseInt] and the comparison with [0] work on numbers that the
    decimal model does not hold ([NaN] among them).  [number] is the type
    of the numbers of JavaScript, [finite m s] the number a [VNum m s]
    holds, [is_zero x] is [x === 0], and on a value that converts to a
    string [parseInt v] is the number read and [toPropertyKey v] the
    property name. *)

Section WithParseInt.
Context {number : Type}.
Variable finite : Z -> nat -> number.
Variable parseInt : value -> number.
Variable is_zero : number -> bool.
Variable toPropertyKey : value -> string.

Definition is_undefined (v : value) : bool :=
  match v with
  | VUndef => true
  | _ => false
  end.

(** [parseInt(v)] *)
Definition parseIntE (v : value) : option number :=
  if stringifies v then Some (parseInt v) else None.

(** The property name in [modifiers[conditionValue] = ...] *)
Definition key_of (conditionValue : value) : option string :=
  match conditionValue with
  | VStr s => Some s
  | _ => if stringifies conditionValue then Some (toPropertyKey conditionValue) else None
  end.

(** The loop variable [mod] of the source is [block] here. *)
Definition _extractModifiers (modifierData : value) : option (list (string * number)) :=
  let modifierArray := as_array modifierData in
  for_each
    (fun modifiers block =>
       if typeof_object block then
         ps ← entries block;
         for_each
           (fun modifiers '(key, conditionValue) =>
              if startsWith key "has_" then
                if is_undefined (get block "add") then Some modifiers
                else
                  name ← key_of conditionValue;
                  n ← parseIntE (get block "add");
                  Some (obj_set name n modifiers)
              else Some modifiers)
           ps modifiers
       else Some modifiers)
    modifierArray [].

(** Returns [(cost, modifiers)]. *)
Definition _extractCost (data : value) : option (number * list (string * number)) :=
  dcost ← getE data "cost";
  if is_undefined dcost then Some (finite 0 0, []) else
  match dcost with
  | VNum m s => Some (finite m s, [])
  | VNull | VArr _ | VObj _ =>
      base ← getE dcost "base";
      cost ← (if is_undefined base then Some (finite 0 0) else parseIntE base);
      modifiers ← (if truthy (get dcost "modifier")
                   then _extractModifiers (get dcost "modifier")
                   else Some []);
      cost ← (if is_zero cost && negb (truthy base) then parseIntE dcost else Some cost);
      Some (cost, modifiers)
  | _ =>
      cost ← parseIntE dcost;
      Some (cost, [])
  end.

End WithParseInt.

(** *** The closure on the parsed data

    [applyBidirectionalToParsedData] mutates the trait blocks of
    [parsedData] in place.  Every trait's data is a plain object here, the
    list of its own properties, and the blocks are distinct objects that
    share no array, as in the tree the parser returns; an update of the
    block stored under a key then stands for the mutation. *)

Definition trait_block : Type := list (string * value).

(** The three statements on [oppositeData]: make [opposites] an array,
    then push [id] unless it is there. *)
Definition add_opposite (id : string) (oppositeData : trait_block) : trait_block :=
  let current := default VUndef (assoc "opposites" oppositeData) in
  let arr := if negb (truthy current) then [] else as_array current in
  let arr := if includes arr (VStr id) then arr else arr ++ [VStr id] in
  obj_set "opposites" (VArr arr) oppositeData.

(** The body of the inner loop.  The keys of [traitsMap] are strings, so
    [traitsMap.has] fails on any other value. *)
Definition mirror_opposite (id : string) (parsedData : list (string * trait_block))
    (oppositeId : value) : list (string * trait_block) :=
  match oppositeId with
  | VStr o =>
      match assoc o parsedData with
      | Some oppositeData => assoc_set o (add_opposite id oppositeData) parsedData
      | None => parsedData
      end
  | _ => parsedData
  end.

(** One round of the second loop, on the data as the earlier rounds left
    it.  The inner loop never pushes to the array it iterates. *)
Definition mirror_round (parsedData : list (string * trait_block)) (id : string)
  : list (string * trait_block) :=
  match assoc id parsedData with
  | Some data =>
      let opposites := default VUndef (assoc "opposites" data) in
      if truthy opposites
      then fold_left (mirror_opposite id) (as_array opposites) parsedData
      else parsedData
  | None => parsedData
  end.

Definition applyBidirectionalToParsedData (parsedData : list (string * trait_block))
  : list (string * trait_block) :=
  fold_left mirror_round (keys parsedData) parsedData.

End TraitsBuilder.

(** ** EthicsBuilder *)

Module EthicsBuilder.

(** [this.opposites] *)
Definition opposites : list (string * string) :=
  [ ("ethic_authoritarian", "ethic_egalitarian");
    ("ethic_egalitarian", "ethic_authoritarian");
    ("ethic_xenophobe", "ethic_xenophile");
    ("ethic_xenophile", "ethic_xenophobe");
    ("ethic_militarist", "ethic_pacifist");
    ("ethic_pacifist", "ethic_militarist");
    ("ethic_spiritualist", "ethic_materialist");
    ("ethic_materialist", "ethic_spiritualist") ].

(** [this.opposites] is an object literal and [this.opposites[baseName]]
    also reaches what it inherits from [Object.prototype]: under each of
    these names a function or an object, which is truthy and has no
    [replace] method. *)
Definition object_prototype_names : list string :=
  [ "constructor"; "hasOwnProperty"; "isPrototypeOf"; "propertyIsEnumerable";
    "toLocaleString"; "toString"; "valueOf"; "__proto__";
    "__defineGetter__"; "__defineSetter__"; "__lookupGetter__"; "__lookupSetter__" ].

Definition nullish (v : value) : bool :=
  match v with
  | VUndef | VNull => true
  | _ => false
  end.

(** [a ?? b] *)
Definition nullish_or (a b : value) : value := if nullish a then b else a.

(** [v?.k] *)
Definition optional_get (v : value) (k : string) : value :=
  if nullish v then VUndef else get v k.

(** The incompatible ethics of one name: the other degree of the same
    ethic, then the opposite ethic in both degrees.  [None] is the
    [TypeError] of calling [opposite.replace] on an inherited property. *)
Definition incompatible_of (ethicName : string) : option (list string) :=
  let incompatible :=
    if startsWith ethicName "ethic_fanatic_"
    then str_set_add [] ("ethic_" +:+ replace "ethic_fanatic_" EmptyString ethicName)
    else str_set_add [] ("ethic_fanatic_" +:+ replace "ethic_" EmptyString ethicName) in
  let baseName :=
    if startsWith ethicName "ethic_fanatic_"
    then replace "ethic_fanatic_" "ethic_" ethicName
    else ethicName in
  match assoc baseName opposites with
  | Some opposite =>
      Some (str_set_add (str_set_add incompatible opposite)
              ("ethic_fanatic_" +:+ replace "ethic_" EmptyString opposite))
  | None =>
      if decide (baseName ∈ object_prototype_names) then None else Some incompatible
  end.

Section WithNumbers.

(** The decimal model of numbers does not fix how a number prints or
    which strings read as numbers.  [number] is the type of the numbers
    of JavaScript, [finite m s] the number a [VNum m s] holds, [toString]
    is [String(x)] on a number, and [numeric v] is [Number(v)] for a
    string [v] that is not blank and does not read as [NaN]. *)
Context {number : Type}.
Variable finite : Z -> nat -> number.
Variable numeric : string -> option number.
Variable toString : Z -> nat -> string.

Definition _toNumberOrDefault (v : value) (def : number) : number :=
  match v with
  | VNum m s => finite m s
  | VStr s => default def (numeric s)
  | _ => def
  end.

Fixpoint _gather (x : value) : list string :=
  match x with
  | VUndef | VNull => []
  | VStr s => [s]
  | VNum m s => [toString m s]
  | VArr l =>
      (fix each (l : list value) : list string :=
         match l with
         | [] => []
         | v :: l' => _gather v ++ each l'
         end) l
  | VObj ps =>
      let in_value :=
        (fix find (ps : list (string * value)) : option (list string) :=
           match ps with
           | [] => None
           | (k, v) :: ps' =>
               if decide (k = "value") then Some (_gather v) else find ps'
           end) ps in
      match in_value with
      | Some out => out
      | None =>
          (fix each (ps : list (string * value)) : list string :=
             match ps with
             | [] => []
             | (_, v) :: ps' => _gather v ++ each ps'
             end) ps
      end
  | VBool _ => []
  end.

(** Returns [(orList, norList)]. *)
Definition _extractOrNor (node : value) : list string * list string :=
  if negb (truthy node) then ([], []) else
  let orList :=
    _gather (nullish_or (get node "OR")
               (nullish_or (get node "Or") (nullish_or (get node "or") VNull))) in
  let norList :=
    _gather (nullish_or (get node "NOR")
               (nullish_or (get node "Nor") (nullish_or (get node "nor") VNull))) in
  match orList, norList with
  | [], [] => (_gather node, [])
  | _, _ => (orList, norList)
  end.

(** The body of the loop over the authorities: whether [authName] is
    pushed to [allowedAuthorities]. *)
Definition allows (ethicName : string) (authData : value) : bool :=
  let ethicsNode := optional_get (optional_get authData "possible") "ethics" in
  if negb (truthy ethicsNode) then false else
  let '(orList, norList) := _extractOrNor ethicsNode in
  if bool_decide (ethicName ∈ norList) then false
  else if bool_decide (0 < length orList) && negb (bool_decide (ethicName ∈ orList))
  then false
  else true.

(** One entry of the result. *)
Record ethicDef := EthicDef {
  cost : number;
  incompatible_ethics : list string;
  required_authorities : list string
}.

Definition build (ethicsFile authoritiesFile : list (string * value))
  : option (list (string * ethicDef)) :=
  for_each
    (fun defs '(ethicName, ethicData) =>
       if decide (ethicName = "ethic_gestalt_consciousness") then Some defs else
       let cost := _toNumberOrDefault (optional_get ethicData "cost") (finite 1 0) in
       let allowedAuthorities :=
         (filter (fun auth => allows ethicName auth.2 = true) authoritiesFile).*1 in
       incompatible ← incompatible_of ethicName;
       Some (obj_set ethicName (EthicDef cost incompatible allowedAuthorities) defs))
    ethicsFile [].

End WithNumbers.

Arguments EthicDef {number}.
Arguments cost {number}.
Arguments incompatible_ethics {number}.
Arguments required_authorities {number}.

End EthicsBuilder.

(** ** ParadoxParser *)

Module ParadoxParser.

(** *** Characters *)

Definition dquote : ascii := "034"%char.
Definition backslash : ascii := "\"%char.
Definition newline : ascii := "010"%char.
Definition carriage_return : ascii := "013"%char.
Definition hash : ascii := "#"%char.

(** [/\s/] on the code units below 256. *)
Definition isWhitespace (c : ascii) : bool :=
  let n := nat_of_ascii c in
  bool_decide (n = 9 \/ n = 10 \/ n = 11 \/ n = 12 \/ n = 13 \/ n = 32 \/ n = 160).

Definition isSpecial (c : ascii) : bool :=
  bool_decide (c ∈ ["{"; "}"; "="; ">"; "<"; "!"; dquote]%char).

Definition isDigit (c : ascii) : bool :=
  let n := nat_of_ascii c in bool_decide (48 <= n <= 57).

(** [text.replace(/\r\n?/g, '\n')] *)
Fixpoint normalize_newlines (src : list ascii) : list ascii :=
  match src with
  | [] => []
  | c :: rest =>
      if decide (c = carriage_return) then
        match rest with
        | c' :: rest' =>
            if decide (c' = newline) then newline :: normalize_newlines rest'
            else newline :: normalize_newlines rest
        | [] => [newline]
        end
      else c :: normalize_newlines rest
  end.

(** The number of consecutive backslashes that end just before
    position [i]: [k = i - 1; while (k >= 0 && src[k] === '\\') { bs++; k--; }]. *)
Fixpoint backslashes_before (src : list ascii) (i : nat) : nat :=
  match i with
  | 0 => 0
  | S k =>
      match src !! k with
      | Some c => if decide (c = backslash) then S (backslashes_before src k) else 0
      | None => 0
      end
  end.

(** [while (i < src.length && src[i] !== '\n') i++], on the characters
    from position [i] on. *)
Fixpoint skip_to_newline (rest : list ascii) (i : nat) : nat :=
  match rest with
  | [] => i
  | c :: rest' => if decide (c = newline) then i else skip_to_newline rest' (S i)
  end.

(** The loop of [_stripComments]; [None] when the fuel runs out. *)
Fixpoint strip_loop (fuel : nat) (src : list ascii) (i : nat) (inQuote : bool)
    (out : list ascii) : option (list ascii) :=
  match fuel with
  | 0 => None
  | S fuel =>
      match src !! i with
      | None => Some out
      | Some ch =>
          if decide (ch = dquote) then
            let inQuote :=
              if Nat.even (backslashes_before src i) then negb inQuote else inQuote in
            strip_loop fuel src (S i) inQuote (out ++ [ch])
          else if negb inQuote && bool_decide (ch = hash) then
            let i := skip_to_newline (drop i src) i in
            let out := if decide (i < length src) then out ++ [newline] else out in
            strip_loop fuel src (S i) inQuote out
          else strip_loop fuel src (S i) inQuote (out ++ [ch])
      end
  end.

Definition _stripComments (src : list ascii) : option (list ascii) :=
  strip_loop (S (length src)) src 0 false [].

(** *** Tokens *)

Inductive token_type := TOpen | TClose | TEquals | TString | TNumber | TWord | TOp.

#[global] Instance token_type_eq_dec : EqDecision token_type.
Proof. solve_decision. Defined.

Record token := Token { type : token_type; tvalue : string }.

(** The inner loop of the quoted-string case, on the characters from
    position [j] on: returns the position after the string and its text. *)
Fixpoint read_string (src rest : list ascii) (j : nat) (str : list ascii)
  : nat * list ascii :=
  match rest with
  | [] => (j, str)
  | c :: rest' =>
      if bool_decide (c = dquote) && Nat.even (backslashes_before src j)
      then (S j, str)
      else read_string src rest' (S j) (str ++ [c])
  end.

(** [while (j < L && !isWhitespace(src[j]) && !specials.has(src[j])) j++] *)
Fixpoint word_end (rest : list ascii) (j : nat) : nat :=
  match rest with
  | [] => j
  | c :: rest' => if isWhitespace c || isSpecial c then j else word_end rest' (S j)
  end.

Fixpoint all_digits (l : list ascii) : bool :=
  match l with
  | [] => true
  | c :: l' => isDigit c && all_digits l'
  end.

Definition digits1 (l : list ascii) : bool :=
  match l with [] => false | _ => all_digits l end.

(** The first maximal run of digits of [l] and what follows it. *)
Fixpoint span_digits (l : list ascii) : list ascii * list ascii :=
  match l with
  | c :: l' =>
      if isDigit c then let '(ds, rest) := span_digits l' in (c :: ds, rest)
      else ([], l)
  | [] => ([], [])
  end.

(** [/^-?\d+(\.\d+)?$/] *)
Definition is_number_literal (word : list ascii) : bool :=
  let body := match word with "-"%char :: w => w | w => w end in
  let '(int_part, rest) := span_digits body in
  digits1 int_part &&
  match rest with
  | [] => true
  | "."%char :: frac => digits1 frac
  | _ => false
  end.

Definition slice (src : list ascii) (i j : nat) : list ascii :=
  take (j - i) (drop i src).

Definition push (tokens : list token) (t : token_type) (text : list ascii) : list token :=
  tokens ++ [Token t (string_of_list_ascii text)].

(** The loop of [_tokenize]; [None] when the fuel runs out. *)
Fixpoint tokenize_loop (fuel : nat) (src : list ascii) (i : nat) (tokens : list token)
  : option (list token) :=
  match fuel with
  | 0 => None
  | S fuel =>
      match src !! i with
      | None => Some tokens
      | Some ch =>
          if isWhitespace ch then tokenize_loop fuel src (S i) tokens
          else if decide (ch = "{"%char) then tokenize_loop fuel src (S i) (push tokens TOpen [ch])
          else if decide (ch = "}"%char) then tokenize_loop fuel src (S i) (push tokens TClose [ch])
          else if decide (ch = "="%char) then tokenize_loop fuel src (S i) (push tokens TEquals [ch])
          else if decide (ch = dquote) then
            let '(j, str) := read_string src (drop (S i) src) (S i) [] in
            tokenize_loop fuel src j (push tokens TString str)
          else if bool_decide (ch = ">"%char \/ ch = "<"%char \/ ch = "!"%char) then
            if decide (src !! (S i) = Some "="%char)
            then tokenize_loop fuel src (i + 2) (push tokens TOp [ch; "="%char])
            else tokenize_loop fuel src (i + 1) (push tokens TOp [ch])
          else
            let j := word_end (drop i src) i in
            let word := slice src i j in
            tokenize_loop fuel src j
              (push tokens (if is_number_literal word then TNumber else TWord) word)
      end
  end.

Definition _tokenize (src : list ascii) : option (list token) :=
  tokenize_loop (S (length src)) src 0 [].


(** *** Values of literals *)

Definition digits_value (l : list ascii) : Z :=
  fold_left (fun acc c => 10 * acc + (Z.of_nat (nat_of_ascii c) - 48))%Z l 0%Z.

(** [Number(tk.value)] on a number token. *)
Definition Number (literal : string) : value :=
  let w := list_ascii_of_string literal in
  let '(negative, body) :=
    match w with
    | "-"%char :: b => (true, b)
    | b => (false, b)
    end in
  let '(int_part, rest) := span_digits body in
  let frac := match rest with "."%char :: f => f | _ => [] end in
  let m := digits_value (int_part ++ frac) in
  VNum (if negative : bool then (- m)%Z else m) (length frac).

(** *** The parser state

    The parser reads [this.tokens] through [this.idx] only; the state is
    the list of tokens from [idx] on.  [None] is a thrown [TypeError] or
    exhausted fuel. *)

Definition parser (A : Type) : Type := list token -> option (A * list token).

#[global] Instance parser_ret : MRet parser := fun A a ts => Some (a, ts).
#[global] Instance parser_bind : MBind parser := fun A B f m ts =>
  match m ts with
  | Some (a, ts') => f a ts'
  | None => None
  end.

Definition throw {A : Type} : parser A := fun _ => None.

Definition _peek : parser (option token) := fun ts => Some (head ts, ts).
Definition _next : parser (option token) := fun ts => Some (head ts, tail ts).

(** [tk.value]: throws when [tk] is [undefined]. *)
Definition value_of (tk : option token) : parser string :=
  match tk with
  | Some t => mret (tvalue t)
  | None => throw
  end.

Definition has_type (t : token_type) (tk : option token) : bool :=
  match tk with
  | Some k => bool_decide (type k = t)
  | None => false
  end.

Definition _assign (obj : list (string * value)) (key : string) (v : value)
  : list (string * value) :=
  match assoc key obj with
  | Some old =>
      let arr := match old with VArr l => l | _ => [old] end in
      assoc_set key (VArr (arr ++ [v])) obj
  | None => obj_set key v obj
  end.

Definition space : string := " ".
Definition quoted (s : string) : string :=
  String dquote (s +:+ String dquote EmptyString).

(** The end of [_parseBlock]: list, mapping, or mapping with [items]. *)
Definition resolve (obj : list (string * value)) (list : list value) : value :=
  match obj with
  | [] => VArr list
  | _ =>
      match list with
      | [] => VObj obj
      | _ => VObj (obj_set "items" (VArr list) obj)
      end
  end.

Definition word_value (w : string) : value :=
  if decide (w = "yes") then VBool true
  else if decide (w = "no") then VBool false
  else VStr w.

(** The two provisional containers of a block: [obj] and [list]. *)
Definition containers : Type := list (string * value) * list value.

(** [_parseValue], [_parseBlock] and the [while (true)] loop of
    [_parseBlock], which fills the two containers until the closing brace
    or the end of the input. *)
Fixpoint _parseValue (fuel : nat) : parser value :=
  match fuel with
  | 0 => throw
  | S fuel =>
      tk ← _peek;
      match tk with
      | None => mret VNull
      | Some tk =>
          match type tk with
          | TOpen => _ ← _next; _parseBlock fuel
          | TString => _ ← _next; mret (VStr (tvalue tk))
          | TNumber => _ ← _next; mret (Number (tvalue tk))
          | TWord => _ ← _next; mret (word_value (tvalue tk))
          | TOp => _ ← _next; mret (VStr (tvalue tk))
          | TClose | TEquals => _ ← _next; mret (VStr (tvalue tk))
          end
      end
  end
with _parseBlock (fuel : nat) : parser value :=
  match fuel with
  | 0 => throw
  | S fuel =>
      collected ← block_loop fuel [] [];
      mret (resolve collected.1 collected.2)
  end
with block_loop (fuel : nat) (obj : list (string * value)) (list : list value)
  : parser containers :=
  match fuel with
  | 0 => throw
  | S fuel =>
      tk ← _peek;
      match tk with
      | None => mret (obj, list)
      | Some tk =>
          match type tk with
          | TClose => _ ← _next; mret (obj, list)
          | TWord =>
              name ← _next ≫= value_of;
              nxt ← _peek;
              if has_type TEquals nxt then
                _ ← _next;
                val ← _parseValue fuel;
                block_loop fuel (_assign obj name val) list
              else if has_type TOp nxt then
                op ← _next ≫= value_of;
                operand ← _peek;
                match operand with
                | Some operand =>
                    let repr :=
                      if decide (type operand = TString)
                      then name +:+ space +:+ op +:+ space +:+ quoted (tvalue operand)
                      else name +:+ space +:+ op +:+ space +:+ tvalue operand in
                    _ ← _next;
                    block_loop fuel obj (list ++ [VStr repr])
                | None =>
                    block_loop fuel obj (list ++ [VStr (name +:+ space +:+ op)])
                end
              else if has_type TOpen nxt then
                val ← _parseValue fuel;
                block_loop fuel (_assign obj name val) list
              else block_loop fuel obj (list ++ [VStr name])
          | TOpen =>
              val ← _parseValue fuel;
              block_loop fuel obj (list ++ [val])
          | TString =>
              s ← _next ≫= value_of;
              block_loop fuel obj (list ++ [VStr s])
          | TNumber =>
              s ← _next ≫= value_of;
              block_loop fuel obj (list ++ [Number s])
          | TOp | TEquals =>
              s ← _next ≫= value_of;
              block_loop fuel obj (list ++ [VStr s])
          end
      end
  end.

(** The loop of [parse] over the top-level tokens. *)
Fixpoint parse_loop (fuel : nat) (out : list (string * value))
  : parser (list (string * value)) :=
  match fuel with
  | 0 => throw
  | S fuel =>
      tk ← _peek;
      match tk with
      | None => mret out
      | Some tk =>
          if negb (bool_decide (type tk = TWord)) then
            _ ← _next; parse_loop fuel out
          else
            name ← _next ≫= value_of;
            nxt ← _peek;
            if has_type TEquals nxt then
              _ ← _next;
              val ← _parseValue fuel;
              parse_loop fuel (_assign out name val)
            else parse_loop fuel (_assign out name (VBool true))
      end
  end.

(** Fuel that covers every loop round and every nested call on [tokens]. *)
Definition enough (tokens : list token) : nat := 3 * length tokens + 3.

Definition parse_tokens (tokens : list token) : option (list (string * value)) :=
  fst <$> parse_loop (enough tokens) [] tokens.

Definition parse (text : string) : option value :=
  src ← _stripComments (normalize_newlines (list_ascii_of_string text));
  tokens ← _tokenize src;
  out ← parse_tokens tokens;
  Some (VObj out).

(** *** The call stack

    [_parseValue] and [_parseBlock] call each other, a pair of calls for
    every block that is open, so how deep the calls nest follows the
    input.  The functions below are the parser with the call stack:
    [frames] is the number of nested calls that still fit on it.  Every
    call takes one frame until it returns, also the call of a helper or
    of a built-in method ([_peek], [_next], [_assign], [Number],
    [push]), and a call that does not fit throws [RangeError].  In every
    body the calls of [_assign], [Number] and [push] come after a call
    of [_peek] or [_next], and fit where that one did.  [frames] counts
    the call of the function itself for [_parseValue_on] and
    [_parseBlock_on], and the calls made from the body for the two
    loops.  [fuel] bounds the loop rounds as before. *)

Inductive thrown := TypeError | RangeError.

Inductive outcome (A : Type) : Type :=
| Returns (a : A) (rest : list token)
| Throws (e : thrown)
| Unfinished.
Arguments Returns {A}.
Arguments Throws {A}.
Arguments Unfinished {A}.

(** [x ← m; k x] on outcomes. *)
Definition and_then {A B : Type} (m : outcome A) (k : A -> list token -> outcome B)
  : outcome B :=
  match m with
  | Returns a rest => k a rest
  | Throws e => Throws e
  | Unfinished => Unfinished
  end.

(** The call of a helper from a body with [frames] frames above it. *)
Definition call {A : Type} (frames : nat) (helper : parser A) (ts : list token)
  : outcome A :=
  match frames with
  | 0 => Throws RangeError
  | S _ =>
      match helper ts with
      | Some (a, ts') => Returns a ts'
      | None => Throws TypeError
      end
  end.

Fixpoint _parseValue_on (fuel frames : nat) (ts : list token) {struct fuel}
  : outcome value :=
  match fuel, frames with
  | 0, _ => Unfinished
  | _, 0 => Throws RangeError
  | S fuel, S frames =>
      and_then (call frames _peek ts) (fun tk ts =>
      match tk with
      | None => Returns VNull ts
      | Some tk =>
          match type tk with
          | TOpen => and_then (call frames _next ts) (fun _ ts => _parseBlock_on fuel frames ts)
          | TString => and_then (call frames _next ts) (fun _ ts => Returns (VStr (tvalue tk)) ts)
          | TNumber => and_then (call frames _next ts) (fun _ ts => Returns (Number (tvalue tk)) ts)
          | TWord => and_then (call frames _next ts) (fun _ ts => Returns (word_value (tvalue tk)) ts)
          | TOp => and_then (call frames _next ts) (fun _ ts => Returns (VStr (tvalue tk)) ts)
          | TClose | TEquals =>
              and_then (call frames _next ts) (fun _ ts => Returns (VStr (tvalue tk)) ts)
          end
      end)
  end
with _parseBlock_on (fuel frames : nat) (ts : list token) {struct fuel}
  : outcome value :=
  match fuel, frames with
  | 0, _ => Unfinished
  | _, 0 => Throws RangeError
  | S fuel, S frames =>
      and_then (block_loop_on fuel frames [] [] ts) (fun collected ts =>
      Returns (resolve collected.1 collected.2) ts)
  end
with block_loop_on (fuel frames : nat) (obj : list (string * value)) (list : list value)
    (ts : Datatypes.list token) {struct fuel} : outcome containers :=
  match fuel with
  | 0 => Unfinished
  | S fuel =>
      and_then (call frames _peek ts) (fun tk ts =>
      match tk with
      | None => Returns (obj, list) ts
      | Some tk =>
          match type tk with
          | TClose => and_then (call frames _next ts) (fun _ ts => Returns (obj, list) ts)
          | TWord =>
              and_then (call frames (_next ≫= value_of) ts) (fun name ts =>
              and_then (call frames _peek ts) (fun nxt ts =>
              if has_type TEquals nxt then
                and_then (call frames _next ts) (fun _ ts =>
                and_then (_parseValue_on fuel frames ts) (fun val ts =>
                block_loop_on fuel frames (_assign obj name val) list ts))
              else if has_type TOp nxt then
                and_then (call frames (_next ≫= value_of) ts) (fun op ts =>
                and_then (call frames _peek ts) (fun operand ts =>
                match operand with
                | Some operand =>
                    let repr :=
                      if decide (type operand = TString)
                      then name +:+ space +:+ op +:+ space +:+ quoted (tvalue operand)
                      else name +:+ space +:+ op +:+ space +:+ tvalue operand in
                    and_then (call frames _next ts) (fun _ ts =>
                    block_loop_on fuel frames obj (list ++ [VStr repr]) ts)
                | None =>
                    block_loop_on fuel frames obj (list ++ [VStr (name +:+ space +:+ op)]) ts
                end))
              else if has_type TOpen nxt then
                and_then (_parseValue_on fuel frames ts) (fun val ts =>
                block_loop_on fuel frames (_assign obj name val) list ts)
              else block_loop_on fuel frames obj (list ++ [VStr name]) ts))
          | TOpen =>
              and_then (_parseValue_on fuel frames ts) (fun val ts =>
              block_loop_on fuel frames obj (list ++ [val]) ts)
          | TString =>
              and_then (call frames (_next ≫= value_of) ts) (fun s ts =>
              block_loop_on fuel frames obj (list ++ [VStr s]) ts)
          | TNumber =>
              and_then (call frames (_next ≫= value_of) ts) (fun s ts =>
              block_loop_on fuel frames obj (list ++ [Number s]) ts)
          | TOp | TEquals =>
              and_then (call frames (_next ≫= value_of) ts) (fun s ts =>
              block_loop_on fuel frames obj (list ++ [VStr s]) ts)
          end
      end)
  end.

(** The loop of [parse], with [frames] frames above the body of [parse]. *)
Fixpoint parse_loop_on (fuel frames : nat) (out : list (string * value))
    (ts : list token) {struct fuel} : outcome (list (string * value)) :=
  match fuel with
  | 0 => Unfinished
  | S fuel =>
      and_then (call frames _peek ts) (fun tk ts =>
      match tk with
      | None => Returns out ts
      | Some tk =>
          if negb (bool_decide (type tk = TWord)) then
            and_then (call frames _next ts) (fun _ ts => parse_loop_on fuel frames out ts)
          else
            and_then (call frames (_next ≫= value_of) ts) (fun name ts =>
            and_then (call frames _peek ts) (fun nxt ts =>
            if has_type TEquals nxt then
              and_then (call frames _next ts) (fun _ ts =>
              and_then (_parseValue_on fuel frames ts) (fun val ts =>
              parse_loop_on fuel frames (_assign out name val) ts))
            else parse_loop_on fuel frames (_assign out name (VBool true)) ts))
      end)
  end.

Definition parse_tokens_on (frames : nat) (tokens : list token)
  : outcome (list (string * value)) :=
  parse_loop_on (enough tokens) frames [] tokens.

(** The calls of the lexer have returned when the token loop starts.
    They nest three deep on a text that is not empty ([_tokenize], its
    [isWhitespace] and [test]) and two deep on the empty text
    ([_tokenize] and the constructor of [Set]). *)
Definition lexer_depth (src : list ascii) : nat :=
  match src with
  | [] => 2
  | _ => 3
  end.

(** [parse], with [frames] frames above its body. *)
Definition parse_on (frames : nat) (text : string) : outcome value :=
  match _stripComments (normalize_newlines (list_ascii_of_string text)) with
  | Some src =>
      if (frames <? lexer_depth src)%nat then Throws RangeError else
      match _tokenize src with
      | Some tokens =>
          and_then (parse_tokens_on frames tokens) (fun out ts => Returns (VObj out) ts)
      | None => Unfinished
      end
  | None => Unfinished
  end.

End ParadoxParser.


(** * Vocabulary of the specification *)

(** The [OR] blocks of a facet node: the elements of an array of blocks,
    or the single block. *)
Definition blocks_under (node : value) : list value :=
  match node with
  | VArr l => l
  | _ => if truthy node then [node] else []
  end.

Definition or_nodes (block : value) : list value := blocks_under (get block "OR").

(** One alternative group per [OR] block whose gathered list is not empty;
    empty lists are dropped. *)
Definition as_group (g : list string) : option value :=
  match g with
  | [] => None
  | _ => Some (group g)
  end.

Definition required_groups (block : value) : list value :=
  omap as_group (_gather <$> or_nodes block).

(** The identifiers of all [OR] blocks, as bare atoms. *)
Definition flattened_groups (block : value) : list value :=
  atom <$> concat (_gather <$> or_nodes block).

Definition required_atoms (block : value) : list value :=
  if truthy (get block "value") then atom <$> _gather (get block "value") else [].

Definition forbidden_atoms (block : value) : list string :=
  (if truthy (get block "NOR") then _gather (get block "NOR") else [])
  ++ (if truthy (get block "NOT") then _gather (get block "NOT") else []).

(** A handler keeps the alternative groups when every [OR] block with a
    non-empty gathered list becomes one element of the required list. *)
Definition keeps_groups
    (h : value -> list value * list string -> list value * list string) : Prop :=
  forall block yesArr noArr,
    h block (yesArr, noArr) =
      (yesArr ++ required_groups block ++ required_atoms block,
       noArr ++ forbidden_atoms block).

(** The facet schema of each builder: raw key, facet, handler. *)
Definition civics_schema : list (string * CivicsBuilder.facet) :=
  [ ("ethics", CivicsBuilder.Ethics);
    ("authority", CivicsBuilder.Authorities);
    ("authorities", CivicsBuilder.Authorities);
    ("civics", CivicsBuilder.Civics);
    ("species_archetype", CivicsBuilder.SpeciesArchetype);
    ("species_archetypes", CivicsBuilder.SpeciesArchetype);
    ("species_class", CivicsBuilder.SpeciesArchetype) ].

Definition origins_schema : list (string * OriginsBuilder.facet) :=
  [ ("ethics", OriginsBuilder.Ethics);
    ("authority", OriginsBuilder.Authorities);
    ("authorities", OriginsBuilder.Authorities);
    ("civics", OriginsBuilder.Civics);
    ("species_class", OriginsBuilder.SpeciesClass);
    ("species_archetype", OriginsBuilder.SpeciesArchetype) ].

(** What one block [v] under the key [key] of a condition node adds to
    the required list of the facet [f]: under a key of the schema, its
    groups and then its atoms; under [graphical_culture], for the culture
    facet, the identifiers of its groups as bare atoms and then its
    atoms; nothing under any other key or for any other facet. *)
Definition civics_required (f : CivicsBuilder.facet) (key : string) (v : value)
  : list value :=
  if decide ((key, f) ∈ civics_schema) then required_groups v ++ required_atoms v
  else if decide (key = "graphical_culture" /\ f = CivicsBuilder.Culture)
  then flattened_groups v ++ required_atoms v
  else [].

Definition origins_required (f : OriginsBuilder.facet) (key : string) (v : value)
  : list value :=
  if decide ((key, f) ∈ origins_schema) then required_groups v ++ required_atoms v
  else if decide (key = "graphical_culture" /\ f = OriginsBuilder.Culture)
  then flattened_groups v ++ required_atoms v
  else [].

(** What a condition node with the entries [ps] adds to the required
    list of a facet: entry by entry, and under each entry block by block
    (a repeated key holds the list of its blocks). *)
Definition node_required (required : string -> value -> list value)
    (ps : list (string * value)) : list value :=
  ps ≫= (fun entry => blocks_of entry.2 ≫= required entry.1).

(** An availability block excludes a civic when it is a block whose [NOT]
    entry, or one of its [NOT] entries, is a block with a truthy
    [host_has_dlc]. *)
Definition dlc_block (notBlock : value) : Prop :=
  (exists ps, notBlock = VObj ps) /\ truthy (get notBlock "host_has_dlc") = true.

Definition requires_no_dlc (civicData : value) : Prop :=
  exists ps, get civicData "playable" = VObj ps
    /\ exists notBlock, notBlock ∈ blocks_under (get (VObj ps) "NOT") /\ dlc_block notBlock.

Definition accepted (filterFn : option (string -> value -> bool))
    (name : string) (data : value) : Prop :=
  forall f, filterFn = Some f -> f name data = true.

(** An origin node forbids [O] when its [NOT] or [NOR] entry gathers [O]. *)
Definition wraps (originBlock : value) (O : string) : Prop :=
  exists k, (k = "NOT" \/ k = "NOR")
    /\ truthy (get originBlock k) = true /\ O ∈ _gather (get originBlock k).

(** A civic declares the origin [O] forbidden in its single [potential]
    block, or in its [possible] block or one of its [possible] blocks,
    under the [origin] key (one block or several). *)
Inductive declares_forbidden_origin (civicData : value) (O : string) : Prop :=
| in_potential ps :
    get civicData "potential" = VObj ps ->
    wraps (get (VObj ps) "origin") O ->
    declares_forbidden_origin civicData O
| in_possible possible originBlock :
    possible ∈ blocks_under (get civicData "possible") ->
    originBlock ∈ blocks_of (get possible "origin") ->
    wraps originBlock O ->
    declares_forbidden_origin civicData O.

(** The rewrite of one entry by the last pass of a closure: the forbidden
    civics become the sorted members of the entry's incompatibility set. *)
Definition civics_closed_def (m : gmap string (gset string)) (k : string)
    (d : CivicsBuilder.def) : CivicsBuilder.def :=
  match m !! k with
  | Some s =>
      CivicsBuilder.Def (CivicsBuilder.yes d)
        (CivicsBuilder.upd CivicsBuilder.Civics (sorted_members s) (CivicsBuilder.no d))
  | None => d
  end.

Definition origins_closed_def (m : gmap string (gset string)) (k : string)
    (d : OriginsBuilder.def) : OriginsBuilder.def :=
  match m !! k with
  | Some s =>
      OriginsBuilder.Def (OriginsBuilder.yes d)
        (OriginsBuilder.upd OriginsBuilder.Civics (sorted_members s) (OriginsBuilder.no d))
  | None => d
  end.

(** The first occurrences of the elements of a list, in order. *)
Fixpoint first_occurrences (l : list string) : list string :=
  match l with
  | [] => []
  | x :: l' => x :: filter (fun y => y ≠ x) (first_occurrences l')
  end.

(** The bare identifiers and the groups of a required list. *)
Definition bare_atoms (l : list value) : list string :=
  omap (fun v => match v with VStr s => Some s | _ => None end) l.

Definition groups_of (l : list value) : list value :=
  filter (fun v => isArray v = true) l.

(** An element of a required list as the extractor produces it. *)
Definition atom_or_group (v : value) : Prop :=
  (exists s, v = atom s) \/ (exists ids, ids ≠ [] /\ v = group ids).

(** A required list reduced to first-occurrence order, as the
    specification words it: a bare identifier is dropped when the same
    identifier occurred before it ([seen] holds the earlier ones), and
    every other element, an alternative group, stays where it is. *)
Fixpoint first_atoms (seen : list string) (l : list value) : list value :=
  match l with
  | [] => []
  | VStr s :: l' =>
      if decide (s ∈ seen) then first_atoms seen l'
      else VStr s :: first_atoms (s :: seen) l'
  | v :: l' => v :: first_atoms seen l'
  end.

(** Every required list of an origin holds atoms and non-empty groups only. *)
Definition well_shaped (d : OriginsBuilder.def) : Prop :=
  forall f, Forall atom_or_group (OriginsBuilder.sel f (OriginsBuilder.yes d)).

(** Trait [a] lists trait [b] among its opposites. *)
Definition opposes {cost_info : Type}
    (definitions : list (string * @TraitsBuilder.traitDef cost_info)) (a b : string) : Prop :=
  exists d, assoc a definitions = Some d /\ VStr b ∈ TraitsBuilder.no d.

(** The number of open braces of a token sequence. *)
Definition opens (tokens : list ParadoxParser.token) : nat :=
  length (filter (fun t => ParadoxParser.type t = ParadoxParser.TOpen) tokens).

(** A word, an equals sign and [n] open braces: [a = { { ... {]. *)
Definition deep (n : nat) : list ParadoxParser.token :=
  ParadoxParser.Token ParadoxParser.TWord "a"
  :: ParadoxParser.Token ParadoxParser.TEquals "="
  :: replicate n (ParadoxParser.Token ParadoxParser.TOpen "{").

(** The outcome [o] of a run with [frames] frames, against the result
    [r] of the same run without a stack: the same result, or
    [RangeError] where fewer than [bound] frames were given. *)
Definition within_stack {A : Type} (bound frames : nat)
    (o : ParadoxParser.outcome A) (r : A * list ParadoxParser.token) : Prop :=
  o = ParadoxParser.Returns r.1 r.2
  \/ (o = ParadoxParser.Throws ParadoxParser.RangeError /\ frames < bound).

(** *** Blocks and documents made of items

    [value_at ts after v]: followed by the tokens [after], [_parseValue]
    reads exactly the tokens [ts] and returns [v].  The value may be cut
    short by the end of the input ([after] is then empty). *)

Definition value_at (ts after : list ParadoxParser.token) (v : value) : Prop :=
  exists F, forall fuel,
    F <= fuel -> ParadoxParser._parseValue fuel (ts ++ after) = Some (v, after).

(** The items of a block, as the loop of [_parseBlock] tells them apart:
    a bare word; an assignment [k = value]; an assignment without the
    equals sign, [k { ... }]; a comparison [w op operand] (the operand is
    missing when the input ends after the operator); a block without a
    name, [{ ... }]; a quoted string, a number, an operator or an equals
    sign standing alone. *)
Inductive item :=
| Bare (w : string)
| Pair (k e : string) (ts : list ParadoxParser.token) (v : value)
| Implicit (k : string) (ts : list ParadoxParser.token) (v : value)
| Comparison (w op : string) (operand : option ParadoxParser.token)
| Anonymous (ts : list ParadoxParser.token) (v : value)
| Literal (t : ParadoxParser.token).

Definition item_tokens (it : item) : list ParadoxParser.token :=
  match it with
  | Bare w => [ParadoxParser.Token ParadoxParser.TWord w]
  | Pair k e ts _ =>
      ParadoxParser.Token ParadoxParser.TWord k
      :: ParadoxParser.Token ParadoxParser.TEquals e :: ts
  | Implicit k ts _ => ParadoxParser.Token ParadoxParser.TWord k :: ts
  | Comparison w op operand =>
      ParadoxParser.Token ParadoxParser.TWord w
      :: ParadoxParser.Token ParadoxParser.TOp op :: option_list operand
  | Anonymous ts _ => ts
  | Literal t => [t]
  end.

Definition tokens_of (items : list item) : list ParadoxParser.token :=
  concat (item_tokens <$> items).

(** An item is what the loop reads when [after] follows it: the word of
    a bare item is followed by no equals sign, operator or open brace;
    the value of an assignment is the one [_parseValue] reads there; a
    block opens with a brace. *)
Definition item_ok (it : item) (after : list ParadoxParser.token) : Prop :=
  match it with
  | Bare _ =>
      ParadoxParser.has_type ParadoxParser.TEquals (head after) = false
      /\ ParadoxParser.has_type ParadoxParser.TOp (head after) = false
      /\ ParadoxParser.has_type ParadoxParser.TOpen (head after) = false
  | Pair _ _ ts v => value_at ts after v
  | Implicit _ ts v =>
      ParadoxParser.has_type ParadoxParser.TOpen (head ts) = true /\ value_at ts after v
  | Comparison _ _ operand => operand = None -> after = []
  | Anonymous ts v =>
      ParadoxParser.has_type ParadoxParser.TOpen (head ts) = true /\ value_at ts after v
  | Literal t =>
      ParadoxParser.type t = ParadoxParser.TString
      \/ ParadoxParser.type t = ParadoxParser.TNumber
      \/ ParadoxParser.type t = ParadoxParser.TOp
      \/ ParadoxParser.type t = ParadoxParser.TEquals
  end.

(** The items of a block that [tail] follows. *)
Fixpoint items_ok (items : list item) (tail : list ParadoxParser.token) : Prop :=
  match items with
  | [] => True
  | it :: items' => item_ok it (tokens_of items' ++ tail) /\ items_ok items' tail
  end.

(** The keyed assignments of a block, with and without equals sign, in
    source order. *)
Definition assignments (items : list item) : list (string * value) :=
  omap (fun it =>
          match it with
          | Pair k _ _ v | Implicit k _ v => Some (k, v)
          | _ => None
          end) items.

(** The text kept for a comparison. *)
Definition comparison_text (w op : string) (operand : option ParadoxParser.token)
  : string :=
  match operand with
  | Some t =>
      if decide (ParadoxParser.type t = ParadoxParser.TString)
      then w +:+ ParadoxParser.space +:+ op +:+ ParadoxParser.space
             +:+ ParadoxParser.quoted (ParadoxParser.tvalue t)
      else w +:+ ParadoxParser.space +:+ op +:+ ParadoxParser.space
             +:+ ParadoxParser.tvalue t
  | None => w +:+ ParadoxParser.space +:+ op
  end.

Definition literal_value (t : ParadoxParser.token) : value :=
  match ParadoxParser.type t with
  | ParadoxParser.TNumber => ParadoxParser.Number (ParadoxParser.tvalue t)
  | _ => VStr (ParadoxParser.tvalue t)
  end.

(** The items of a block that carry no key, in source order. *)
Definition bare_items (items : list item) : list value :=
  omap (fun it =>
          match it with
          | Bare w => Some (VStr w)
          | Comparison w op operand => Some (VStr (comparison_text w op operand))
          | Anonymous _ v => Some v
          | Literal t => Some (literal_value t)
          | Pair _ _ _ _ | Implicit _ _ _ => None
          end) items.

(** The items of the top level, as the loop of [parse] tells them apart:
    a token that is not a word, which is skipped; an assignment
    [k = value]; a word that no equals sign follows, which is assigned
    [true]. *)
Inductive top_item :=
| Stray (t : ParadoxParser.token)
| TopPair (k e : string) (ts : list ParadoxParser.token) (v : value)
| TopBare (w : string).

Definition top_item_tokens (it : top_item) : list ParadoxParser.token :=
  match it with
  | Stray t => [t]
  | TopPair k e ts _ =>
      ParadoxParser.Token ParadoxParser.TWord k
      :: ParadoxParser.Token ParadoxParser.TEquals e :: ts
  | TopBare w => [ParadoxParser.Token ParadoxParser.TWord w]
  end.

Definition top_tokens_of (items : list top_item) : list ParadoxParser.token :=
  concat (top_item_tokens <$> items).

Definition top_item_ok (it : top_item) (after : list ParadoxParser.token) : Prop :=
  match it with
  | Stray t => ParadoxParser.type t ≠ ParadoxParser.TWord
  | TopPair _ _ ts v => value_at ts after v
  | TopBare _ => ParadoxParser.has_type ParadoxParser.TEquals (head after) = false
  end.

Fixpoint top_items_ok (items : list top_item) : Prop :=
  match items with
  | [] => True
  | it :: items' => top_item_ok it (top_tokens_of items') /\ top_items_ok items'
  end.

Definition top_assignments (items : list top_item) : list (string * value) :=
  omap (fun it =>
          match it with
          | Stray _ => None
          | TopPair k _ _ v => Some (k, v)
          | TopBare w => Some (w, VBool true)
          end) items.

(** The tokens of a text: line endings, comments, lexer. *)
Definition lex (text : string) : option (list ParadoxParser.token) :=
  src ← ParadoxParser._stripComments
          (ParadoxParser.normalize_newlines (list_ascii_of_string text));
  ParadoxParser._tokenize src.

Definition assign_all (obj : list (string * value)) (l : list (string * value))
  : list (string * value) :=
  fold_left (fun o '(k, v) => ParadoxParser._assign o k v) l obj.

(** The values assigned to [k], in source order. *)
Definition values_of (k : string) (l : list (string * value)) : list value :=
  snd <$> filter (fun kv => kv.1 = k) l.

(** The value of a key after the assignments [vs], starting from [old]. *)
Definition coalesce_step (acc : option value) (v : value) : option value :=
  Some match acc with
       | None => v
       | Some old => VArr ((match old with VArr l => l | _ => [old] end) ++ [v])
       end.

Definition coalesce (old : option value) (vs : list value) : option value :=
  fold_left coalesce_step vs old.

(** The closing of a block: the end of the input, or a closing brace. *)
Definition closes (tail rest : list ParadoxParser.token) : Prop :=
  (tail = [] /\ rest = [])
  \/ exists c, tail = ParadoxParser.Token ParadoxParser.TClose c :: rest.

(** * Vocabulary of the further properties *)

(** The opposites a trait block lists: the elements of a truthy
    [opposites] entry, taken as an array. *)
Definition listed (data : TraitsBuilder.trait_block) : list value :=
  let opposites := default VUndef (assoc "opposites" data) in
  if truthy opposites then TraitsBuilder.as_array opposites else [].

Definition lists_opposite (parsedData : list (string * TraitsBuilder.trait_block))
    (a b : string) : Prop :=
  exists data, assoc a parsedData = Some data /\ VStr b ∈ listed data.

(** The two degrees of the ethic with the short name [x]. *)
Definition regular (x : string) : string := "ethic_" +:+ x.
Definition fanatic (x : string) : string := "ethic_fanatic_" +:+ x.

(** A name of one of the two forms, [ethic_x] or [ethic_fanatic_x], where
    [x] does not itself begin with [fanatic_]. *)
Definition well_named (a : string) : Prop :=
  exists x, startsWith x "fanatic_" = false
            /\ (a = regular x \/ a = fanatic x).

(** [after] has the keys of [before], and every trait block of [after]
    is the block of [before] with the same entries under every name but
    [opposites], whose listed elements are kept in place, new ones coming
    after them. *)
Definition only_opposites_grow
    (before after : list (string * TraitsBuilder.trait_block)) : Prop :=
  keys after = keys before
  /\ forall a d, assoc a before = Some d ->
       exists d', assoc a after = Some d'
         /\ (forall k, k ≠ "opposites" -> assoc k d' = assoc k d)
         /\ listed d `prefix_of` listed d'.

(** The incompatible ethics of a degree of the ethic [x], [first] being
    the other degree: the opposite ethic, if [x] has one, follows in both
    degrees. *)
Definition with_opposites (first x : string) : option (list string) :=
  match assoc (regular x) EthicsBuilder.opposites with
  | Some opposite =>
      Some (str_set_add (str_set_add [first] opposite)
              ("ethic_fanatic_" +:+ replace "ethic_" EmptyString opposite))
  | None => Some [first]
  end.

(** [null] or [undefined]. *)
Definition missing (v : value) : Prop := v = VUndef \/ v = VNull.


(** Every list of [d'] starts with the list of [d]. *)
Definition civics_extends (d d' : CivicsBuilder.def) : Prop :=
  forall f,
    CivicsBuilder.sel f (CivicsBuilder.yes d) `prefix_of` CivicsBuilder.sel f (CivicsBuilder.yes d')
    /\ CivicsBuilder.sel f (CivicsBuilder.no d) `prefix_of` CivicsBuilder.sel f (CivicsBuilder.no d').

Definition origins_extends (d d' : OriginsBuilder.def) : Prop :=
  forall f,
    OriginsBuilder.sel f (OriginsBuilder.yes d) `prefix_of` OriginsBuilder.sel f (OriginsBuilder.yes d')
    /\ OriginsBuilder.sel f (OriginsBuilder.no d) `prefix_of` OriginsBuilder.sel f (OriginsBuilder.no d').

(** [after] has the keys of [before], and every entry of [after] is the
    entry of [before] with the same cost and species classes and a [no]
    list that starts with the list of [before]. *)
Definition only_no_grows {cost_info : Type}
    (before after : list (string * @TraitsBuilder.traitDef cost_info)) : Prop :=
  keys after = keys before
  /\ forall a d, assoc a before = Some d ->
       exists d', assoc a after = Some d'
         /\ TraitsBuilder.cost d' = TraitsBuilder.cost d
         /\ TraitsBuilder.species_class d' = TraitsBuilder.species_class d
         /\ TraitsBuilder.no d `prefix_of` TraitsBuilder.no d'.

(** The number of line breaks of a text. *)
Definition line_breaks (src : list ascii) : nat :=
  length (filter (fun c => c = ParadoxParser.newline) src).

(** What the lexer guarantees of a token: the punctuation tokens carry
    their own text, an operator is one of the six comparison operators, a
    number matches the number pattern, and a word is a non-empty run of
    characters that are neither white space nor special and that does
    not match the number pattern. *)
Definition well_lexed (t : ParadoxParser.token) : Prop :=
  let text := list_ascii_of_string (ParadoxParser.tvalue t) in
  match ParadoxParser.type t with
  | ParadoxParser.TOpen => ParadoxParser.tvalue t = "{"
  | ParadoxParser.TClose => ParadoxParser.tvalue t = "}"
  | ParadoxParser.TEquals => ParadoxParser.tvalue t = "="
  | ParadoxParser.TOp => ParadoxParser.tvalue t ∈ [">"; "<"; "!"; ">="; "<="; "!="]
  | ParadoxParser.TNumber => ParadoxParser.is_number_literal text = true
  | ParadoxParser.TWord =>
      text ≠ []
      /\ Forall (fun c => ParadoxParser.isWhitespace c = false
                          /\ ParadoxParser.isSpecial c = false) text
      /\ ParadoxParser.is_number_literal text = false
  | ParadoxParser.TString => True
  end.

(** A value all of whose keys, at every depth, satisfy [W]. *)
Inductive keyed_by (W : string -> Prop) : value -> Prop :=
| keyed_undefined : keyed_by W VUndef
| keyed_null : keyed_by W VNull
| keyed_bool b : keyed_by W (VBool b)
| keyed_number m s : keyed_by W (VNum m s)
| keyed_string s : keyed_by W (VStr s)
| keyed_array l : Forall (keyed_by W) l -> keyed_by W (VArr l)
| keyed_object ps :
    Forall (fun kv => W kv.1 /\ keyed_by W kv.2) ps -> keyed_by W (VObj ps).

(** [k] is the text of a word token of [tokens]. *)
Definition word_of (tokens : list ParadoxParser.token) (k : string) : Prop :=
  exists tk, tk ∈ tokens /\ ParadoxParser.type tk = ParadoxParser.TWord
             /\ ParadoxParser.tvalue tk = k.

(** The tokens that a block takes as bare items when no [=], operator or
    brace follows them, and the item each one gives: a word stays a
    string in a list, [yes] and [no] included. *)
Definition scalar_token (t : ParadoxParser.token) : Prop :=
  ParadoxParser.type t = ParadoxParser.TWord
  \/ ParadoxParser.type t = ParadoxParser.TString
  \/ ParadoxParser.type t = ParadoxParser.TNumber.

Definition list_item (t : ParadoxParser.token) : value :=
  match ParadoxParser.type t with
  | ParadoxParser.TNumber => ParadoxParser.Number (ParadoxParser.tvalue t)
  | _ => VStr (ParadoxParser.tvalue t)
  end.

(** A character that is neither white space nor special. *)
Definition plain (c : ascii) : Prop :=
  ParadoxParser.isWhitespace c = false /\ ParadoxParser.isSpecial c = false.

(** The text of a token sequence: each token followed by one space.  A
    printable token is a well-formed token other than a quoted string. *)
Definition print_tokens (tokens : list ParadoxParser.token) : list ascii :=
  flat_map (fun t => list_ascii_of_string (ParadoxParser.tvalue t) ++ [" "%char]) tokens.

Definition printable (t : ParadoxParser.token) : Prop :=
  well_lexed t /\ ParadoxParser.type t ≠ ParadoxParser.TString.


(** Whether a number occurs in a value, at any depth. *)
Fixpoint holds_number (x : value) : bool :=
  match x with
  | VNum _ _ => true
  | VArr l =>
      (fix any (l : list value) : bool :=
         match l with
         | [] => false
         | v :: l' => holds_number v || any l'
         end) l
  | VObj ps =>
      (fix any (ps : list (string * value)) : bool :=
         match ps with
         | [] => false
         | (_, v) :: ps' => holds_number v || any ps'
         end) ps
  | _ => false
  end.

(** No object inside the value has an own entry named [toString]: the
    value, and every value inside it, converts to a string. *)
Fixpoint keeps_toString (v : value) : bool :=
  match v with
  | VArr l => forallb keeps_toString l
  | VObj ps =>
      negb (bool_decide ("toString" ∈ keys ps))
      && forallb (fun p => keeps_toString p.2) ps
  | _ => true
  end.

(** * Properties *)

(** ** Property lists *)

Section Assoc.
Context {A : Type}.
Implicit Types (ps : list (string * A)) (k : string) (v : A).

Lemma assoc_elem_of k v ps : assoc k ps = Some v -> (k, v) ∈ ps.
Proof.
  induction ps as [|[k' v'] ps IH]; simpl; [done|].
  case_decide; intros Hv; simplify_eq; [left | right; auto].
Qed.

Lemma assoc_is_Some k ps : is_Some (assoc k ps) <-> k ∈ keys ps.
Proof.
  unfold keys. induction ps as [|[k' v'] ps IH]; simpl.
  - split; [intros [? ?]; done | intros H; inversion H].
  - case_decide; subst.
    + split; [intros _; left | eauto].
    + rewrite IH. split; [intros; by right | intros H1; inversion H1; by subst].
Qed.

Lemma assoc_None k ps : assoc k ps = None <-> k ∉ keys ps.
Proof. rewrite <- assoc_is_Some, eq_None_not_Some. done. Qed.

Lemma assoc_fmap {B : Type} (g : string -> A -> B) k ps :
  assoc k ((fun '(k', v) => (k', g k' v)) <$> ps) = g k <$> assoc k ps.
Proof.
  induction ps as [|[k' v'] ps IH]; simpl; [done|].
  case_decide; subst; simpl; auto.
Qed.

Lemma keys_fmap {B : Type} (g : string -> A -> B) ps :
  keys ((fun '(k', v) => (k', g k' v)) <$> ps) = keys ps.
Proof.
  unfold keys. induction ps as [|[k' v'] ps IH]; simpl; [done|].
  f_equal. apply IH.
Qed.

Lemma assoc_assoc_set k k' v ps :
  assoc k' (assoc_set k v ps) = if decide (k = k') then Some v else assoc k' ps.
Proof.
  induction ps as [|[k0 v0] ps IH]; simpl.
  - repeat case_decide; simplify_eq; done.
  - repeat (case_decide; simpl; simplify_eq); try done.
Qed.

Lemma keys_assoc_set_in k v ps :
  k ∈ keys ps -> keys (assoc_set k v ps) = keys ps.
Proof.
  unfold keys. induction ps as [|[k0 v0] ps IH]; simpl; intros Hin.
  - inversion Hin.
  - destruct (decide (k0 = k)) as [->|Hne]; simpl; [done|].
    f_equal. apply IH. inversion Hin; by subst.
Qed.

Lemma keys_assoc_set_notin k v ps :
  k ∉ keys ps -> keys (assoc_set k v ps) = keys ps ++ [k].
Proof.
  unfold keys. induction ps as [|[k0 v0] ps IH]; simpl; intros Hin; [done|].
  apply not_elem_of_cons in Hin as [Hne Hin].
  destruct (decide (k0 = k)) as [->|_]; simpl; [done|].
  f_equal. by apply IH.
Qed.

Lemma elem_of_keys_assoc_set k k' v ps :
  k' ∈ keys (assoc_set k v ps) <-> k' = k \/ k' ∈ keys ps.
Proof.
  destruct (decide (k ∈ keys ps)) as [Hin|Hin].
  - rewrite keys_assoc_set_in by done. split; [by right | intros [->|?]; done].
  - rewrite keys_assoc_set_notin by done. rewrite elem_of_app, list_elem_of_singleton. tauto.
Qed.

Lemma NoDup_keys_assoc_set k v ps : NoDup (keys ps) -> NoDup (keys (assoc_set k v ps)).
Proof.
  intros H. destruct (decide (k ∈ keys ps)) as [Hin|Hin].
  - by rewrite keys_assoc_set_in.
  - rewrite keys_assoc_set_notin by done.
    apply NoDup_app. split_and!; [done | | apply NoDup_singleton].
    intros x Hx Hx'. apply list_elem_of_singleton in Hx'. by subst.
Qed.

Lemma assoc_obj_set k k' v ps :
  assoc k' (obj_set k v ps) =
    if decide (k = "__proto__") then assoc k' ps
    else if decide (k = k') then Some v else assoc k' ps.
Proof. unfold obj_set. case_decide; [done|]. apply assoc_assoc_set. Qed.

Lemma NoDup_keys_obj_set k v ps : NoDup (keys ps) -> NoDup (keys (obj_set k v ps)).
Proof. unfold obj_set. case_decide; [done|]. apply NoDup_keys_assoc_set. Qed.

Lemma assoc_NoDup k v ps : NoDup (keys ps) -> (k, v) ∈ ps -> assoc k ps = Some v.
Proof.
  unfold keys. induction ps as [|[k0 v0] ps IH]; simpl; intros Hnd Hin.
  - inversion Hin.
  - apply NoDup_cons in Hnd as [Hk Hnd].
    apply elem_of_cons in Hin as [Heq | Hin]; simplify_eq.
    + by rewrite decide_True.
    + case_decide; subst; [|auto].
      exfalso. apply Hk. apply list_elem_of_fmap. by exists (k, v).
Qed.
End Assoc.

(** ** Sets and sorting *)

Lemma elem_of_sort_strings x l : x ∈ sort_strings l <-> x ∈ l.
Proof. unfold sort_strings. by rewrite merge_sort_Permutation. Qed.

Lemma NoDup_sort_strings l : NoDup l -> NoDup (sort_strings l).
Proof. unfold sort_strings. by rewrite merge_sort_Permutation. Qed.

Lemma Sorted_sort_strings l : Sorted str_le (sort_strings l).
Proof. apply Sorted_merge_sort, _. Qed.

Lemma elem_of_sorted_members x s : x ∈ sorted_members s <-> x ∈ s.
Proof. unfold sorted_members. by rewrite elem_of_sort_strings, elem_of_elements. Qed.

Lemma NoDup_sorted_members s : NoDup (sorted_members s).
Proof. apply NoDup_sort_strings, NoDup_elements. Qed.

Lemma related_ensure k m a b : related (ensure k m) a b <-> related m a b.
Proof.
  unfold related, ensure. destruct (m !! k) eqn:Hk; [done|].
  destruct (decide (k = a)) as [->|Hne].
  - rewrite lookup_insert_eq, Hk. split; intros (s & Hs & Hb); simplify_eq. set_solver.
  - by rewrite lookup_insert_ne.
Qed.

Lemma ensure_is_Some k m : is_Some (ensure k m !! k).
Proof.
  unfold ensure. destruct (m !! k) eqn:Hk; [by rewrite Hk|].
  rewrite lookup_insert_eq. eauto.
Qed.

Lemma ensure_mono k k' m : is_Some (m !! k') -> is_Some (ensure k m !! k').
Proof.
  unfold ensure. destruct (m !! k) eqn:Hk; [done|]. intros H.
  destruct (decide (k = k')) as [->|Hne]; [by rewrite lookup_insert_eq|].
  by rewrite lookup_insert_ne.
Qed.

Lemma add_to_mono k x k' m : is_Some (m !! k') -> is_Some (add_to k x m !! k').
Proof.
  unfold add_to. intros [s Hs]. rewrite lookup_alter. case_decide; subst.
  - rewrite Hs. simpl. eauto.
  - rewrite Hs. eauto.
Qed.

Lemma add_to_is_Some k x k' m : is_Some (add_to k x m !! k') <-> is_Some (m !! k').
Proof.
  unfold add_to. rewrite lookup_alter. case_decide; subst; [|done].
  by rewrite fmap_is_Some.
Qed.

Lemma related_add_to k x m a b :
  is_Some (m !! k) ->
  related (add_to k x m) a b <-> related m a b \/ (a = k /\ b = x).
Proof.
  intros [s0 Hs0]. unfold related, add_to. rewrite lookup_alter.
  case_decide; subst.
  - rewrite Hs0. simpl. split.
    + intros (s & Hs & Hb). simplify_eq. apply elem_of_union in Hb as [Hb|Hb].
      * left. eauto.
      * right. set_solver.
    + intros [(s & Hs & Hb) | [_ ->]]; simplify_eq; eexists; (split; [done|]); set_solver.
  - split; [intros; by left | intros [?|[? ?]]; [done | congruence]].
Qed.

Lemma related_add_to_absent k x m : m !! k = None -> add_to k x m = m.
Proof.
  intros H. unfold add_to. apply map_eq. intros i. rewrite lookup_alter.
  case_decide; subst; [by rewrite H | done].
Qed.

(** ** The closure of [CivicsBuilder] *)

Section CivicsClosure.
Import CivicsBuilder.

(** What the first pass adds for one civic. *)
Lemma first_pass_inner civicName (l : list string) (m : gmap string (gset string)) :
  is_Some (m !! civicName) ->
  let m' := fold_left
              (fun m forbiddenCivic =>
                 add_to forbiddenCivic civicName
                   (ensure forbiddenCivic (add_to civicName forbiddenCivic m))) l m in
  (forall a b, related m' a b <->
               related m a b \/ (a = civicName /\ b ∈ l) \/ (b = civicName /\ a ∈ l))
  /\ (forall k, is_Some (m !! k) -> is_Some (m' !! k)).
Proof.
  revert m. induction l as [|f l IH]; intros m Hm; simpl.
  - split; [|done]. intros a b. split; [by left|].
    intros [?|[[_ H]|[_ H]]]; [done | inversion H | inversion H].
  - set (m1 := add_to f civicName (ensure f (add_to civicName f m))).
    assert (Hm1 : forall k, is_Some (m !! k) -> is_Some (m1 !! k)).
    { intros k Hk. by apply add_to_mono, ensure_mono, add_to_mono. }
    destruct (IH m1 (Hm1 _ Hm)) as [IH1 IH2]. split.
    + intros a b. rewrite IH1. unfold m1.
      rewrite related_add_to by apply ensure_is_Some.
      rewrite related_ensure, related_add_to by done.
      rewrite !elem_of_cons. naive_solver.
    + intros k Hk. by apply IH2, Hm1.
Qed.

Lemma first_pass_from (defs : list (string * def)) (m : gmap string (gset string)) :
  let m' := fold_left
    (fun m '(civicName, civicData) =>
       fold_left
         (fun m forbiddenCivic =>
            add_to forbiddenCivic civicName
              (ensure forbiddenCivic (add_to civicName forbiddenCivic m)))
         (civics (no civicData)) (ensure civicName m))
    defs m in
  (forall a b, related m' a b <->
     related m a b
     \/ (exists d, (a, d) ∈ defs /\ b ∈ civics (no d))
     \/ (exists d, (b, d) ∈ defs /\ a ∈ civics (no d)))
  /\ (forall k, is_Some (m !! k) -> is_Some (m' !! k))
  /\ (forall k, k ∈ keys defs -> is_Some (m' !! k)).
Proof.
  revert m. induction defs as [|[name d] defs IH]; intros m; simpl.
  - split_and!; [|done|].
    + intros a b. split; [by left|].
      intros [?|[(? & H & _)|(? & H & _)]]; [done | inversion H | inversion H].
    + intros k H. inversion H.
  - destruct (first_pass_inner name (civics (no d)) (ensure name m) (ensure_is_Some _ _))
      as [Hrel Hmono].
    match goal with |- context [fold_left _ defs ?m0] => set (m1 := m0) in * end.
    destruct (IH m1) as (IH1 & IH2 & IH3). split_and!.
    + intros a b. rewrite IH1, Hrel, related_ensure.
      setoid_rewrite elem_of_cons. split.
      * intros [[?|[[-> ?]|[-> ?]]]|[(d' & ? & ?)|(d' & ? & ?)]]; eauto 10.
      * intros [?|[(d' & [Heq|?] & ?)|(d' & [Heq|?] & ?)]];
          try (injection Heq as -> ->); eauto 10.
    + intros k Hk. by apply IH2, Hmono, ensure_mono.
    + intros k Hk. apply elem_of_cons in Hk as [->|Hk]; [|by apply IH3].
      apply IH2, Hmono, ensure_is_Some.
Qed.

Lemma first_pass_related (defs : list (string * def)) a b :
  related (first_pass defs) a b <->
     (exists d, (a, d) ∈ defs /\ b ∈ civics (no d))
  \/ (exists d, (b, d) ∈ defs /\ a ∈ civics (no d)).
Proof.
  unfold first_pass. destruct (first_pass_from defs ∅) as (H & _ & _).
  rewrite H. split; [|by right].
  intros [(s & Hs & _)|?]; [|done]. by rewrite lookup_empty in Hs.
Qed.

Lemma first_pass_symmetric (defs : list (string * def)) a b :
  related (first_pass defs) a b -> related (first_pass defs) b a.
Proof. rewrite !first_pass_related. tauto. Qed.

Lemma first_pass_keys (defs : list (string * def)) k :
  k ∈ keys defs -> is_Some (first_pass defs !! k).
Proof. unfold first_pass. destruct (first_pass_from defs ∅) as (_ & _ & H). apply H. Qed.

Lemma second_pass_fmap m (defs : list (string * def)) :
  second_pass m defs = (fun '(k, d) => (k, civics_closed_def m k d)) <$> defs.
Proof.
  unfold second_pass, civics_closed_def. apply list_fmap_ext. intros _ [k d] _.
  by destruct (m !! k).
Qed.

(** The entry of a key after the closure. *)
Lemma assoc_makeBidirectional (defs : list (string * def)) k d' :
  assoc k (_makeBidirectional defs) = Some d' <->
  exists d s, assoc k defs = Some d /\ first_pass defs !! k = Some s
              /\ d' = Def (yes d) (upd Civics (sorted_members s) (no d)).
Proof.
  unfold _makeBidirectional. rewrite second_pass_fmap, assoc_fmap. split.
  - intros H. apply fmap_Some in H as (d & Hd & ->).
    destruct (first_pass_keys defs k) as [s Hs].
    { apply assoc_is_Some. eauto. }
    exists d, s. unfold civics_closed_def. by rewrite Hs.
  - intros (d & s & Hd & Hs & ->). unfold civics_closed_def. by rewrite Hd, Hs.
Qed.

Lemma keys_makeBidirectional (defs : list (string * def)) :
  keys (_makeBidirectional defs) = keys defs.
Proof. unfold _makeBidirectional. by rewrite second_pass_fmap, keys_fmap. Qed.

Lemma closed_civics (defs : list (string * def)) a b d :
  assoc a (_makeBidirectional defs) = Some d ->
  (b ∈ civics (no d) <-> related (first_pass defs) a b).
Proof.
  intros H. apply assoc_makeBidirectional in H as (d0 & s & Hd0 & Hs & ->).
  simpl. rewrite elem_of_sorted_members. unfold related. rewrite Hs. naive_solver.
Qed.

End CivicsClosure.

(** C1. The closure of [CivicsBuilder.build] is symmetric: for any two
    civics [a] and [b] that are keys of the returned definitions, if [b]
    is in the forbidden civics of [a] then [a] is in the forbidden civics
    of [b]; and a declaration on the side of [a] alone (in the
    definitions collected before the closure) is enough for [a] to be
    forbidden by [b] in the result. *)
Theorem civics_closure_symmetric
    (civicsFile : list (string * value)) (filterFn : option (string -> value -> bool))
    (defs : list (string * CivicsBuilder.def)) :
  CivicsBuilder.build civicsFile filterFn = Some defs ->
  (forall a b da db,
      assoc a defs = Some da -> assoc b defs = Some db ->
      b ∈ CivicsBuilder.civics (CivicsBuilder.no da) ->
      a ∈ CivicsBuilder.civics (CivicsBuilder.no db))
  /\ (forall pre a b da db,
      CivicsBuilder.collect civicsFile filterFn = Some pre ->
      assoc a pre = Some da ->
      b ∈ CivicsBuilder.civics (CivicsBuilder.no da) ->
      assoc b defs = Some db ->
      a ∈ CivicsBuilder.civics (CivicsBuilder.no db)).
Proof.
  unfold CivicsBuilder.build. intros Hb.
  destruct (CivicsBuilder.collect civicsFile filterFn) as [pre|] eqn:Hpre; [|done].
  simpl in Hb. injection Hb as <-. split.
  - intros a b da db Ha Hb Hin.
    rewrite (closed_civics _ _ _ _ Ha) in Hin.
    rewrite (closed_civics _ _ _ _ Hb). by apply first_pass_symmetric.
  - intros pre' a b da db [= <-] Ha Hin Hb.
    rewrite (closed_civics _ _ _ _ Hb). apply first_pass_related. right.
    exists da. split; [by apply assoc_elem_of | done].
Qed.

(** ** The handlers *)

Lemma fold_push_group (nodes : list value) (yesArr : list value) :
  fold_left (fun acc orGroup => push_group acc (_gather orGroup)) nodes yesArr
  = yesArr ++ omap as_group (_gather <$> nodes).
Proof.
  revert yesArr. induction nodes as [|x nodes IH]; intros yesArr; simpl.
  - by rewrite app_nil_r.
  - rewrite IH. destruct (_gather x) as [|s g] eqn:Hg; simpl; [done|].
    by rewrite <- app_assoc.
Qed.

Lemma fold_push_flat (nodes : list value) (yesArr : list value) :
  fold_left (fun acc orGroup => acc ++ (atom <$> _gather orGroup)) nodes yesArr
  = yesArr ++ (atom <$> concat (_gather <$> nodes)).
Proof.
  revert yesArr. induction nodes as [|x nodes IH]; intros yesArr; simpl.
  - by rewrite app_nil_r.
  - rewrite IH, fmap_app, app_assoc. done.
Qed.

Lemma get_falsy block k : truthy block = false -> get block k = VUndef.
Proof. by destruct block. Qed.

Lemma truthy_get_obj v k : truthy (get v k) = true -> exists ps, v = VObj ps.
Proof. destruct v; try discriminate. eauto. Qed.

Lemma or_step_groups (OR : value) (yesArr : list value) :
  push_or_groups OR yesArr = yesArr ++ omap as_group (_gather <$> blocks_under OR).
Proof.
  unfold push_or_groups, blocks_under.
  destruct OR as [| |b|m s|s|l|ps]; try (simpl; by rewrite app_nil_r).
  - destruct b; simpl; by rewrite app_nil_r.
  - simpl. destruct (negb (m =? 0)%Z); simpl; by rewrite app_nil_r.
  - simpl. destruct (negb (String.eqb s EmptyString)); simpl; [done | by rewrite app_nil_r].
  - apply fold_push_group.
  - cbn [truthy]. unfold push_group. rewrite list_fmap_singleton.
    destruct (_gather (VObj ps)) eqn:Hg; simpl; [by rewrite app_nil_r | done].
Qed.

Lemma or_step_flat (OR : value) (yesArr : list value) :
  push_or_spread OR yesArr = yesArr ++ (atom <$> concat (_gather <$> blocks_under OR)).
Proof.
  unfold push_or_spread, blocks_under.
  destruct OR as [| |b|m s|s|l|ps]; try (simpl; by rewrite app_nil_r).
  - destruct b; simpl; by rewrite app_nil_r.
  - simpl. destruct (negb (m =? 0)%Z); simpl; by rewrite app_nil_r.
  - simpl. destruct (negb (String.eqb s EmptyString)); simpl; [done | by rewrite app_nil_r].
  - apply fold_push_flat.
Qed.

Lemma handle_keeps_groups : keeps_groups _handle.
Proof.
  intros block yesArr noArr. unfold _handle, required_groups, required_atoms,
    forbidden_atoms, or_nodes.
  destruct (truthy block) eqn:Hb; cbv beta iota zeta delta [negb].
  - rewrite or_step_groups. f_equal.
    + rewrite <- app_assoc. f_equal.
      destruct (truthy (get block "value")); by rewrite ?app_nil_r.
    + destruct (truthy (get block "NOR")), (truthy (get block "NOT"));
        simpl; rewrite ?app_nil_r, <- ?app_assoc; done.
  - rewrite !(get_falsy _ _ Hb). simpl. by rewrite !app_nil_r.
Qed.

Lemma handleCulture_flattens block yesArr noArr :
  _handleCulture block (yesArr, noArr) =
    (yesArr ++ flattened_groups block ++ required_atoms block,
     noArr ++ forbidden_atoms block).
Proof.
  unfold _handleCulture, flattened_groups, required_atoms, forbidden_atoms, or_nodes.
  destruct (truthy block) eqn:Hb; cbv beta iota zeta delta [negb].
  - rewrite or_step_flat. f_equal.
    + rewrite <- app_assoc. f_equal.
      destruct (truthy (get block "value")); by rewrite ?app_nil_r.
    + destruct (truthy (get block "NOR")), (truthy (get block "NOT"));
        simpl; rewrite ?app_nil_r, <- ?app_assoc; done.
  - rewrite !(get_falsy _ _ Hb). simpl. by rewrite !app_nil_r.
Qed.

(** ** Dispatch on the raw key *)

Section CivicsDispatch.
Import CivicsBuilder.

Lemma sel_upd_eq {A : Type} f (l : list A) r : sel f (upd f l r) = l.
Proof. by destruct f. Qed.

Lemma sel_upd_ne {A : Type} f f' (l : list A) r : f ≠ f' -> sel f' (upd f l r) = sel f' r.
Proof. by destruct f, f'. Qed.

Lemma sel_map_lists {A B : Type} (g : list A -> list B) f r :
  sel f (map_lists g r) = g (sel f r).
Proof. by destruct f. Qed.

Lemma yes_on_facet f h d :
  sel f (yes (on_facet f h d)) = (h (sel f (yes d), sel f (no d))).1.
Proof.
  unfold on_facet. destruct (h _) as [y n]. simpl. apply sel_upd_eq.
Qed.

Lemma no_on_facet f h d :
  sel f (no (on_facet f h d)) = (h (sel f (yes d), sel f (no d))).2.
Proof.
  unfold on_facet. destruct (h _) as [y n]. simpl. apply sel_upd_eq.
Qed.

Lemma dispatch_schema key f v d :
  (key, f) ∈ civics_schema -> dispatch key v d = on_facet f (_handle v) d.
Proof.
  unfold civics_schema. rewrite !elem_of_cons, elem_of_nil.
  intros H. repeat destruct H as [H|H]; try done; by injection H as -> ->.
Qed.

Lemma dispatch_culture v d :
  dispatch "graphical_culture" v d = on_facet Culture (_handleCulture v) d.
Proof. done. Qed.
End CivicsDispatch.

Section OriginsDispatch.
Import OriginsBuilder.

Lemma origins_sel_upd_eq {A : Type} f (l : list A) r : sel f (upd f l r) = l.
Proof. by destruct f. Qed.

Lemma origins_sel_upd_ne {A : Type} f f' (l : list A) r :
  f ≠ f' -> sel f' (upd f l r) = sel f' r.
Proof. by destruct f, f'. Qed.

Lemma origins_sel_map_lists {A B : Type} (g : list A -> list B) f r :
  sel f (map_lists g r) = g (sel f r).
Proof. by destruct f. Qed.

Lemma origins_yes_on_facet f h d :
  sel f (yes (on_facet f h d)) = (h (sel f (yes d), sel f (no d))).1.
Proof.
  unfold on_facet. destruct (h _) as [y n]. simpl. apply origins_sel_upd_eq.
Qed.

Lemma origins_dispatch_schema key f v d :
  (key, f) ∈ origins_schema -> dispatch key v d = on_facet f (_handle v) d.
Proof.
  unfold origins_schema. rewrite !elem_of_cons, elem_of_nil.
  intros H. repeat destruct H as [H|H]; try done; by injection H as -> ->.
Qed.

Lemma origins_dispatch_culture v d :
  dispatch "graphical_culture" v d = on_facet Culture (_handleCulture v) d.
Proof. done. Qed.
End OriginsDispatch.

Lemma required_groups_nonempty block g :
  g ∈ required_groups block -> exists ids, ids ≠ [] /\ g = group ids.
Proof.
  unfold required_groups. rewrite list_elem_of_omap. intros (ids & _ & H).
  destruct ids as [|s ids]; [done|]. injection H as <-.
  by exists (s :: ids).
Qed.

(** ** What a condition node contributes *)

Section CivicsNode.
Import CivicsBuilder.

Lemma yes_on_facet_ne f g h d : f ≠ g -> sel f (yes (on_facet g h d)) = sel f (yes d).
Proof.
  intros Hne. unfold on_facet. destruct (h _) as [y n]. simpl. by apply sel_upd_ne.
Qed.

Lemma civics_dispatch_required key v d f :
  sel f (yes (dispatch key v d)) = sel f (yes d) ++ civics_required f key v.
Proof.
  unfold civics_required.
  destruct (decide ((key, f) ∈ civics_schema)) as [Hin|Hout].
  - rewrite (dispatch_schema _ _ _ _ Hin), yes_on_facet. by rewrite handle_keeps_groups.
  - destruct (decide (key = "graphical_culture" /\ f = Culture)) as [[-> ->]|Hc].
    + rewrite dispatch_culture, yes_on_facet. by rewrite handleCulture_flattens.
    + rewrite app_nil_r. unfold dispatch.
      repeat case_decide; try done;
        (rewrite yes_on_facet_ne; [done|]); intros ->;
        first [ apply Hout; unfold civics_schema; rewrite !elem_of_cons;
                naive_solver
              | apply Hc; done ].
Qed.

Lemma civics_blocks_required key f (bs : list value) d :
  sel f (yes (fold_left (fun d v => dispatch key v d) bs d))
  = sel f (yes d) ++ (bs ≫= civics_required f key).
Proof.
  revert d. induction bs as [|v bs IH]; intros d; simpl.
  - by rewrite app_nil_r.
  - rewrite IH, civics_dispatch_required. by rewrite <- app_assoc.
Qed.

Lemma civics_extractReqs_required node ps d f :
  entries node = Some ps ->
  exists d', _extractReqs node d = Some d'
    /\ sel f (yes d') = sel f (yes d) ++ node_required (civics_required f) ps.
Proof.
  intros He. unfold _extractReqs. rewrite He. cbn [mbind option_bind].
  eexists. split; [done|]. unfold node_required.
  clear He. revert d. induction ps as [|[key val] ps IH]; intros d; simpl.
  - by rewrite app_nil_r.
  - rewrite IH, civics_blocks_required. by rewrite <- app_assoc.
Qed.
End CivicsNode.

Section OriginsNode.
Import OriginsBuilder.

Lemma origins_yes_on_facet_ne f g h d :
  f ≠ g -> sel f (yes (on_facet g h d)) = sel f (yes d).
Proof.
  intros Hne. unfold on_facet. destruct (h _) as [y n]. simpl. by apply origins_sel_upd_ne.
Qed.

Lemma origins_dispatch_required key v d f :
  sel f (yes (dispatch key v d)) = sel f (yes d) ++ origins_required f key v.
Proof.
  unfold origins_required.
  destruct (decide ((key, f) ∈ origins_schema)) as [Hin|Hout].
  - rewrite (origins_dispatch_schema _ _ _ _ Hin), origins_yes_on_facet.
    by rewrite handle_keeps_groups.
  - destruct (decide (key = "graphical_culture" /\ f = Culture)) as [[-> ->]|Hc].
    + rewrite origins_dispatch_culture, origins_yes_on_facet.
      by rewrite handleCulture_flattens.
    + rewrite app_nil_r. unfold dispatch.
      repeat case_decide; try done;
        (rewrite origins_yes_on_facet_ne; [done|]); intros ->;
        first [ apply Hout; unfold origins_schema; rewrite !elem_of_cons;
                naive_solver
              | apply Hc; done ].
Qed.

Lemma origins_blocks_required key f (bs : list value) d :
  sel f (yes (fold_left (fun d v => dispatch key v d) bs d))
  = sel f (yes d) ++ (bs ≫= origins_required f key).
Proof.
  revert d. induction bs as [|v bs IH]; intros d; simpl.
  - by rewrite app_nil_r.
  - rewrite IH, origins_dispatch_required. by rewrite <- app_assoc.
Qed.

Lemma origins_extractReqs_required node ps d f :
  entries node = Some ps ->
  exists d', _extractReqs node d = Some d'
    /\ sel f (yes d') = sel f (yes d) ++ node_required (origins_required f) ps.
Proof.
  intros He. unfold _extractReqs. rewrite He. cbn [mbind option_bind].
  eexists. split; [done|]. unfold node_required.
  clear He. revert d. induction ps as [|[key val] ps IH]; intros d; simpl.
  - by rewrite app_nil_r.
  - rewrite IH, origins_blocks_required. by rewrite <- app_assoc.
Qed.
End OriginsNode.

(** C3 (as the code has it).  For every condition node that
    [_extractReqs] processes, in both builders, the required list of
    every facet grows by what the blocks under the keys of the node
    contribute, key by key and block by block (a repeated key holding
    the list of its blocks).  Under every facet key handled by [_handle]
    (ethics, authorities, civics and the species facets) each [OR] block
    whose gathered list is not empty is appended as one alternative
    group, and empty groups are dropped.  Under [graphical_culture] the
    identifiers of the [OR] blocks are appended as bare atoms instead. *)
Theorem or_groups_kept_except_culture :
  keeps_groups _handle
  /\ (forall block g, g ∈ required_groups block -> exists ids, ids ≠ [] /\ g = group ids)
  /\ (forall node ps d f, entries node = Some ps ->
        exists d', CivicsBuilder._extractReqs node d = Some d'
          /\ CivicsBuilder.sel f (CivicsBuilder.yes d')
             = CivicsBuilder.sel f (CivicsBuilder.yes d)
               ++ node_required (civics_required f) ps)
  /\ (forall node ps d f, entries node = Some ps ->
        exists d', OriginsBuilder._extractReqs node d = Some d'
          /\ OriginsBuilder.sel f (OriginsBuilder.yes d')
             = OriginsBuilder.sel f (OriginsBuilder.yes d)
               ++ node_required (origins_required f) ps)
  /\ (forall key f v d, (key, f) ∈ civics_schema ->
        CivicsBuilder.sel f (CivicsBuilder.yes (CivicsBuilder.dispatch key v d))
        = CivicsBuilder.sel f (CivicsBuilder.yes d) ++ required_groups v ++ required_atoms v)
  /\ (forall key f v d, (key, f) ∈ origins_schema ->
        OriginsBuilder.sel f (OriginsBuilder.yes (OriginsBuilder.dispatch key v d))
        = OriginsBuilder.sel f (OriginsBuilder.yes d) ++ required_groups v ++ required_atoms v)
  /\ (forall v d,
        CivicsBuilder.culture (CivicsBuilder.yes (CivicsBuilder.dispatch "graphical_culture" v d))
        = CivicsBuilder.culture (CivicsBuilder.yes d) ++ flattened_groups v ++ required_atoms v)
  /\ (forall v d,
        OriginsBuilder.culture (OriginsBuilder.yes (OriginsBuilder.dispatch "graphical_culture" v d))
        = OriginsBuilder.culture (OriginsBuilder.yes d) ++ flattened_groups v ++ required_atoms v).
Proof.
  split_and!.
  - apply handle_keeps_groups.
  - apply required_groups_nonempty.
  - intros node ps d f He. by apply civics_extractReqs_required.
  - intros node ps d f He. by apply origins_extractReqs_required.
  - intros key f v d H. rewrite (dispatch_schema _ _ _ _ H), yes_on_facet.
    by rewrite handle_keeps_groups.
  - intros key f v d H. rewrite (origins_dispatch_schema _ _ _ _ H), origins_yes_on_facet.
    by rewrite handle_keeps_groups.
  - intros v d. rewrite dispatch_culture.
    change (CivicsBuilder.culture ?r) with (CivicsBuilder.sel CivicsBuilder.Culture r).
    rewrite yes_on_facet. by rewrite handleCulture_flattens.
  - intros v d. rewrite origins_dispatch_culture.
    change (OriginsBuilder.culture ?r) with (OriginsBuilder.sel OriginsBuilder.Culture r).
    rewrite origins_yes_on_facet. by rewrite handleCulture_flattens.
Qed.

(** C3 as stated fails for [graphical_culture]: the handler of that key
    does not keep the groups.  A single [OR] block gathering [a] and [b]
    yields the two bare atoms, not one group. *)
Lemma culture_groups_are_flattened :
  ~ keeps_groups _handleCulture
  /\ CivicsBuilder.culture (CivicsBuilder.yes (CivicsBuilder.dispatch "graphical_culture"
       (VObj [("OR", VObj [("value", VArr [VStr "a"; VStr "b"])])]) CivicsBuilder.empty_def))
     = [VStr "a"; VStr "b"]
  /\ (CivicsBuilder.culture ∘ CivicsBuilder.yes)
       <$> CivicsBuilder._extractReqs
             (VObj [("graphical_culture",
                     VObj [("OR", VObj [("value", VArr [VStr "a"; VStr "b"])])])])
             CivicsBuilder.empty_def
     = Some [VStr "a"; VStr "b"]
  /\ (OriginsBuilder.culture ∘ OriginsBuilder.yes)
       <$> OriginsBuilder._extractReqs
             (VObj [("graphical_culture",
                     VObj [("OR", VObj [("value", VArr [VStr "a"; VStr "b"])])])])
             OriginsBuilder.empty_def
     = Some [VStr "a"; VStr "b"].
Proof.
  split_and!; [|reflexivity..].
  intros H.
  specialize (H (VObj [("OR", VObj [("value", VArr [VStr "a"; VStr "b"])])]) [] []).
  vm_compute in H. discriminate H.
Qed.

(** ** The availability pre-filter *)

Section CivicsCollect.
Import CivicsBuilder.

Lemma scan_not_blocks_spec l b :
  scan_not_blocks l = Some b ->
  (b = true <-> exists notBlock, notBlock ∈ l /\ dlc_block notBlock).
Proof.
  revert b. induction l as [|x l IH]; intros b; simpl.
  - intros [= <-]. split; [done|]. intros (? & H & _). inversion H.
  - assert (Hrest : (exists nb, nb ∈ l /\ dlc_block nb) ->
                    exists nb, nb ∈ x :: l /\ dlc_block nb).
    { intros (nb & ? & ?). exists nb. split; [by right | done]. }
    assert (Hskip : ~ dlc_block x -> (exists nb, nb ∈ x :: l /\ dlc_block nb) ->
                    exists nb, nb ∈ l /\ dlc_block nb).
    { intros Hx (nb & Hin & Hnb). apply elem_of_cons in Hin as [->|Hin]; [done|eauto]. }
    destruct (typeof_object x) eqn:Hty.
    + destruct (getE x "host_has_dlc") as [dlc|] eqn:Hg; simpl; [|done].
      destruct (truthy dlc) eqn:Hd.
      * intros [= <-]. split; [|done]. intros _. exists x. split; [left|].
        destruct x as [| |b|m s|s|items|ps]; try discriminate.
        -- injection Hg as <-. discriminate.
        -- injection Hg as <-. split; [eauto | done].
      * intros H. rewrite (IH _ H). split; [done|]. apply Hskip.
        intros [[ps ->] Hx]. unfold getE in Hg. congruence.
    + intros H. rewrite (IH _ H). split; [done|]. apply Hskip.
      intros [[ps ->] _]. done.
Qed.

Lemma requiresNoDLC_spec civicData b :
  _requiresNoDLC civicData = Some b -> (b = true <-> requires_no_dlc civicData).
Proof.
  unfold _requiresNoDLC, requires_no_dlc.
  destruct (getE civicData "playable") as [playable|] eqn:Hp; [|done].
  assert (Hget : get civicData "playable" = playable).
  { destruct civicData; by simplify_eq/=. }
  rewrite Hget. clear Hp Hget. cbn [mbind option_bind].
  destruct (truthy playable) eqn:Ht; cbv beta iota delta [negb].
  - destruct (truthy (get playable "NOT")) eqn:Hn.
    + assert (Hb : match get playable "NOT" with VArr l => l | one => [one] end
                   = blocks_under (get playable "NOT")).
      { unfold blocks_under. rewrite Hn. by destruct (get playable "NOT"). }
      rewrite Hb. intros H. apply scan_not_blocks_spec in H. rewrite H.
      destruct (truthy_get_obj _ _ Hn) as [ps ->]. split.
      * intros (nb & Hin & Hnb). exists ps. split; [done|]. by exists nb.
      * intros (ps' & [= <-] & nb & Hin & Hnb). by exists nb.
    + intros [= <-]. split; [done|]. intros (ps & -> & nb & Hin & _).
      unfold blocks_under in Hin. rewrite Hn in Hin.
      destruct (get (VObj ps) "NOT"); by inversion Hin.
  - intros [= <-]. split; [done|]. intros (ps & -> & _). done.
Qed.

Lemma collect_from (civicsFile : list (string * value)) filterFn defs0 defs :
  for_each
    (fun defs '(civicName, civicData) =>
       skip ← _requiresNoDLC civicData;
       if skip : bool then Some defs else
       if rejected filterFn civicName civicData then Some defs else
       d ← extract civicData;
       Some (obj_set civicName d defs))
    civicsFile defs0 = Some defs ->
  (forall name data, (name, data) ∈ civicsFile -> is_Some (_requiresNoDLC data))
  /\ (forall name, name ∈ keys defs <->
        name ∈ keys defs0
        \/ exists data, (name, data) ∈ civicsFile /\ _requiresNoDLC data = Some false
              /\ rejected filterFn name data = false /\ name ≠ "__proto__")
  /\ (forall name d, assoc name defs = Some d ->
        assoc name defs0 = Some d
        \/ exists data, (name, data) ∈ civicsFile /\ _requiresNoDLC data = Some false
              /\ rejected filterFn name data = false /\ extract data = Some d).
Proof.
  revert defs0. induction civicsFile as [|[n0 data0] file IH]; intros defs0 H.
  - simpl in H. injection H as <-. split_and!.
    + intros ? ? Hin. inversion Hin.
    + intros name. split; [by left|]. intros [?|(? & Hin & _)]; [done | inversion Hin].
    + intros; by left.
  - cbn [for_each] in H.
    destruct (_requiresNoDLC data0) as [skip|] eqn:Hskip; [|done].
    cbn [mbind option_bind] in H.
    assert (Hcase : exists defs1, for_each
      (fun defs '(civicName, civicData) =>
       skip ← _requiresNoDLC civicData;
       if skip : bool then Some defs else
       if rejected filterFn civicName civicData then Some defs else
       d ← extract civicData;
       Some (obj_set civicName d defs)) file defs1 = Some defs
      /\ ((defs1 = defs0 /\ (skip = true \/ rejected filterFn n0 data0 = true))
          \/ (exists d, skip = false /\ rejected filterFn n0 data0 = false
                /\ extract data0 = Some d /\ defs1 = obj_set n0 d defs0))).
    { destruct skip; [eauto 10|].
      destruct (rejected filterFn n0 data0) eqn:Hrej; [eauto 10|].
      destruct (extract data0) as [d|] eqn:Hext; [|done].
      cbn [mbind option_bind] in H. eauto 10. }
    clear H. destruct Hcase as (defs1 & H & Hcase).
    destruct (IH _ H) as (IHa & IHb & IHc). split_and!.
    + intros name data Hin. apply elem_of_cons in Hin as [[= -> ->]|Hin]; eauto.
    + intros name. rewrite IHb. setoid_rewrite elem_of_cons.
      destruct Hcase as [[-> Hwhy]|(d & -> & Hrej & Hext & ->)].
      * split; [naive_solver|].
        intros [?|(data & [[= -> ->]|?] & Hs & Hr & ?)]; [by left | | eauto 10].
        rewrite Hskip in Hs. injection Hs as ->. destruct Hwhy; congruence.
      * unfold obj_set. destruct (decide (n0 = "__proto__")) as [->|Hne].
        -- split; [naive_solver|].
           intros [?|(data & [[= -> ->]|?] & Hs & Hr & ?)]; [by left | done | eauto 10].
        -- rewrite elem_of_keys_assoc_set. split.
           ++ intros [[->|?]|(data & ? & ?)]; eauto 10.
           ++ intros [?|(data & [[= -> ->]|?] & ?)]; eauto 10.
    + intros name d' Hd'. apply IHc in Hd' as [Hd'|(data & Hin & ?)].
      * destruct Hcase as [[-> Hwhy]|(d & -> & Hrej & Hext & ->)]; [by left|].
        rewrite assoc_obj_set in Hd'.
        destruct (decide (n0 = "__proto__")); [by left|].
        destruct (decide (n0 = name)) as [->|]; [|by left].
        injection Hd' as <-. right. exists data0. split_and!; try done. left.
      * right. exists data. split; [by right | done].
Qed.
End CivicsCollect.

Lemma civics_build_keys civicsFile filterFn defs :
  CivicsBuilder.build civicsFile filterFn = Some defs ->
  (forall name data, (name, data) ∈ civicsFile ->
     is_Some (CivicsBuilder._requiresNoDLC data))
  /\ (forall name, name ∈ keys defs <->
        exists data, (name, data) ∈ civicsFile
          /\ CivicsBuilder._requiresNoDLC data = Some false
          /\ CivicsBuilder.rejected filterFn name data = false /\ name ≠ "__proto__").
Proof.
  unfold CivicsBuilder.build. intros H.
  destruct (CivicsBuilder.collect civicsFile filterFn) as [pre|] eqn:Hpre; [|done].
  injection H as <-. apply collect_from in Hpre as (Ha & Hb & _).
  split; [done|]. intros name. rewrite keys_makeBidirectional, Hb.
  split; [|by right]. intros [H|?]; [inversion H | done].
Qed.

Lemma rejected_false filterFn name data :
  CivicsBuilder.rejected filterFn name data = false <-> accepted filterFn name data.
Proof.
  unfold CivicsBuilder.rejected, accepted. destruct filterFn as [f|].
  - rewrite negb_false_iff. split; [intros ? ? [= <-]; done | eauto].
  - split; [by intros | done].
Qed.

(** C9 (as the code has it).  When [CivicsBuilder.build] returns, a civic
    whose availability block requires the absence of a DLC is not a key of
    the result, and a civic without that pattern is a key of the result
    whenever the caller's filter, if there is one, accepts it. *)
Theorem dlc_prefilter
    (civicsFile : list (string * value)) (filterFn : option (string -> value -> bool))
    (defs : list (string * CivicsBuilder.def)) (name : string) (data : value) :
  CivicsBuilder.build civicsFile filterFn = Some defs ->
  NoDup (keys civicsFile) ->
  (name, data) ∈ civicsFile ->
  (requires_no_dlc data -> (name ∉ keys defs) /\ assoc name defs = None)
  /\ (~ requires_no_dlc data -> accepted filterFn name data -> name ≠ "__proto__" ->
      name ∈ keys defs).
Proof.
  intros Hb Hnd Hin. apply civics_build_keys in Hb as [Hsome Hkeys].
  destruct (Hsome _ _ Hin) as [b Hb]. pose proof (requiresNoDLC_spec _ _ Hb) as Hspec.
  split.
  - intros Hdlc. assert (Hnot : name ∉ keys defs).
    { rewrite Hkeys. intros (data' & Hin' & Hb' & _).
      assert (data' = data) as ->.
      { apply (assoc_NoDup _ _ _ Hnd) in Hin, Hin'. congruence. }
      apply Hspec in Hdlc. congruence. }
    split; [done | by apply assoc_None].
  - intros Hdlc Hacc Hne. apply Hkeys. exists data. split_and!; try done.
    + destruct b; [|done]. exfalso. by apply Hdlc, Hspec.
    + by apply rejected_false.
Qed.

(** C9 as stated fails when the caller passes a filter: a civic without
    any availability block is dropped when the filter rejects it. *)
Lemma filtered_civic_not_retained :
  ~ requires_no_dlc (VObj [])
  /\ CivicsBuilder.build [("civic_a", VObj [])] (Some (fun _ _ => false)) = Some [].
Proof.
  split; [|reflexivity]. intros (ps & H & _). discriminate H.
Qed.

Lemma dlc_prefilter_witness :
  "civic_old" ∉ keys (default [] (CivicsBuilder.build
      [("civic_old", VObj [("playable",
          VObj [("NOT", VObj [("host_has_dlc", VStr "Utopia")])])]);
       ("civic_new", VObj [])] None)).
Proof.
  refine (proj1 (proj1 (dlc_prefilter
    [("civic_old", VObj [("playable",
          VObj [("NOT", VObj [("host_has_dlc", VStr "Utopia")])])]);
     ("civic_new", VObj [])] None _ "civic_old" _ eq_refl _ _) _)).
  - apply (bool_decide_unpack _). vm_compute. exact I.
  - left.
  - eexists. split; [reflexivity|]. eexists. split; [left|].
    split; [eauto | reflexivity].
Defined.

(** ** The closure of [OriginsBuilder] *)

Section OriginsClosure.
Import OriginsBuilder.

Lemma origins_first_inner originName (l : list string) (m : gmap string (gset string)) :
  is_Some (m !! originName) ->
  let m' := fold_left (fun m forbiddenCivic => add_to originName forbiddenCivic m) l m in
  (forall a b, related m' a b <-> related m a b \/ (a = originName /\ b ∈ l))
  /\ (forall k, is_Some (m' !! k) <-> is_Some (m !! k)).
Proof.
  revert m. induction l as [|f l IH]; intros m Hm; simpl.
  - split; [|done]. intros a b. split; [by left|].
    intros [?|[_ H]]; [done | inversion H].
  - destruct (IH (add_to originName f m)) as [IH1 IH2]; [by apply add_to_mono|].
    split.
    + intros a b. rewrite IH1, related_add_to by done.
      rewrite elem_of_cons. naive_solver.
    + intros k. by rewrite IH2, add_to_is_Some.
Qed.

Lemma ensure_is_Some_iff k k' (m : gmap string (gset string)) :
  is_Some (ensure k m !! k') <-> is_Some (m !! k') \/ k' = k.
Proof.
  split.
  - unfold ensure. destruct (m !! k) eqn:Hk; [by left|].
    destruct (decide (k = k')) as [->|Hne]; [by right|].
    rewrite lookup_insert_ne by done. by left.
  - intros [H| ->]; [by apply ensure_mono | apply ensure_is_Some].
Qed.

Lemma origins_first_from (defs : list (string * def)) (m : gmap string (gset string)) :
  let m' := fold_left
    (fun m '(originName, originData) =>
       fold_left (fun m forbiddenCivic => add_to originName forbiddenCivic m)
                 (civics (no originData)) (ensure originName m))
    defs m in
  (forall a b, related m' a b <->
     related m a b \/ (exists d, (a, d) ∈ defs /\ b ∈ civics (no d)))
  /\ (forall k, is_Some (m' !! k) <-> is_Some (m !! k) \/ k ∈ keys defs).
Proof.
  revert m. induction defs as [|[name d] defs IH]; intros m; simpl.
  - split.
    + intros a b. split; [by left|]. intros [?|(? & H & _)]; [done | inversion H].
    + intros k. split; [by left|]. intros [?|H]; [done | inversion H].
  - destruct (origins_first_inner name (civics (no d)) (ensure name m) (ensure_is_Some _ _))
      as [Hrel Hdom].
    match goal with |- context [fold_left _ defs ?m0] => set (m1 := m0) in * end.
    destruct (IH m1) as (IH1 & IH2). split.
    + intros a b. rewrite IH1, Hrel, related_ensure.
      setoid_rewrite elem_of_cons. split.
      * intros [[?|[-> ?]]|(d' & ? & ?)]; eauto 10.
      * intros [?|(d' & [Heq|?] & ?)]; try (injection Heq as -> ->); eauto 10.
    + intros k. rewrite IH2, Hdom, ensure_is_Some_iff, elem_of_cons. tauto.
Qed.

Lemma origins_first_pass_related (defs : list (string * def)) a b :
  related (first_pass defs) a b <-> exists d, (a, d) ∈ defs /\ b ∈ civics (no d).
Proof.
  unfold first_pass. destruct (origins_first_from defs ∅) as (H & _).
  rewrite H. split; [|by right].
  intros [(s & Hs & _)|?]; [|done]. by rewrite lookup_empty in Hs.
Qed.

Lemma origins_first_pass_keys (defs : list (string * def)) k :
  is_Some (first_pass defs !! k) <-> k ∈ keys defs.
Proof.
  unfold first_pass. destruct (origins_first_from defs ∅) as (_ & H).
  rewrite H, lookup_empty. split; [intros [[? ?]|?]; done | by right].
Qed.

Lemma scan_civic_spec m civicName civicData m' :
  scan_civic m (civicName, civicData) = Some m' ->
  exists R, _extractOriginRestrictions civicData = Some R
    /\ (forall a b, related m' a b <->
          related m a b \/ (b = civicName /\ a ∈ R /\ is_Some (m !! a)))
    /\ (forall k, is_Some (m' !! k) <-> is_Some (m !! k)).
Proof.
  unfold scan_civic.
  destruct (_extractOriginRestrictions civicData) as [R|]; [|done].
  cbn [mbind option_bind]. intros [= <-]. exists R. split; [done|].
  clear. revert m. induction R as [|o R IH]; intros m; simpl.
  - split; [|done]. intros a b. split; [by left|].
    intros [?|(_ & H & _)]; [done | inversion H].
  - destruct (m !! o) as [s|] eqn:Ho.
    + destruct (IH (add_to o civicName m)) as [IH1 IH2]. split.
      * intros a b. rewrite IH1, related_add_to by eauto.
        rewrite add_to_is_Some, elem_of_cons. split.
        -- intros [[?|[-> ->]]|(-> & ? & ?)]; eauto 10.
        -- intros [?|(-> & [->|?] & ?)]; eauto 10.
      * intros k. by rewrite IH2, add_to_is_Some.
    + destruct (IH m) as [IH1 IH2]. split; [|done].
      intros a b. rewrite IH1, elem_of_cons. split.
      * intros [?|(-> & ? & ?)]; eauto 10.
      * intros [?|(-> & [->|?] & Hs)]; eauto 10.
        rewrite Ho in Hs. by destruct Hs.
Qed.

Lemma scan_file_spec (civicsFile : list (string * value)) m m' :
  for_each scan_civic civicsFile m = Some m' ->
  (forall a b, related m' a b <->
     related m a b
     \/ (exists data R, (b, data) ∈ civicsFile
           /\ _extractOriginRestrictions data = Some R /\ a ∈ R /\ is_Some (m !! a)))
  /\ (forall k, is_Some (m' !! k) <-> is_Some (m !! k)).
Proof.
  revert m. induction civicsFile as [|[c data] file IH]; intros m H.
  - injection H as <-. split; [|done]. intros a b. split; [by left|].
    intros [?|(? & ? & H & _)]; [done | inversion H].
  - cbn [for_each] in H.
    destruct (scan_civic m (c, data)) as [m1|] eqn:H1; [|done].
    cbn [mbind option_bind] in H.
    apply scan_civic_spec in H1 as (R & HR & H1a & H1b).
    destruct (IH _ H) as [IHa IHb]. split.
    + intros a b. rewrite IHa, H1a. setoid_rewrite elem_of_cons.
      setoid_rewrite H1b. split.
      * intros [[?|(-> & ? & ?)]|(d' & R' & ? & ? & ? & ?)]; eauto 15.
      * intros [?|(d' & R' & [Heq|?] & HR' & ? & ?)]; eauto 15.
        injection Heq as -> ->. rewrite HR in HR'. injection HR' as <-. eauto 10.
    + intros k. by rewrite IHb, H1b.
Qed.

Lemma second_pass_spec (civicsFiles : list (list (string * value))) m m' :
  second_pass civicsFiles m = Some m' ->
  (forall a b, related m' a b <->
     related m a b
     \/ (exists civicsFile data R, civicsFile ∈ civicsFiles /\ (b, data) ∈ civicsFile
           /\ _extractOriginRestrictions data = Some R /\ a ∈ R /\ is_Some (m !! a)))
  /\ (forall k, is_Some (m' !! k) <-> is_Some (m !! k)).
Proof.
  unfold second_pass. revert m.
  induction civicsFiles as [|file files IH]; intros m H.
  - injection H as <-. split; [|done]. intros a b. split; [by left|].
    intros [?|(? & ? & ? & H & _)]; [done | inversion H].
  - cbn [for_each] in H.
    destruct (for_each scan_civic file m) as [m1|] eqn:H1; [|done].
    cbn [mbind option_bind] in H.
    apply scan_file_spec in H1 as (H1a & H1b).
    destruct (IH _ H) as [IHa IHb]. split.
    + intros a b. rewrite IHa, H1a. setoid_rewrite elem_of_cons.
      setoid_rewrite H1b. split.
      * intros [[?|(d' & R' & ? & ? & ? & ?)]|(f' & d' & R' & ? & ? & ? & ? & ?)];
          eauto 15.
      * intros [?|(f' & d' & R' & [->|?] & ? & ? & ? & ?)]; eauto 15.
    + intros k. by rewrite IHb, H1b.
Qed.
End OriginsClosure.

Lemma gather_VArr l : _gather (VArr l) = flat_map _gather l.
Proof. simpl. induction l as [|v l IH]; simpl; [done | by rewrite IH]. Qed.

Section OriginRestrictions.
Import OriginsBuilder.

Lemma extractForbiddenValues_spec block O :
  O ∈ _extractForbiddenValues block <-> wraps block O.
Proof.
  unfold _extractForbiddenValues, wraps.
  destruct (truthy block) eqn:Hb; cbv beta iota delta [negb].
  - assert (Hnor : truthy (get block "NOR") = true ->
              flat_map _gather
                (match get block "NOR" with VArr l => l | one => [one] end)
              = _gather (get block "NOR")).
    { intros _. destruct (get block "NOR") eqn:E; rewrite ?gather_VArr; simpl;
        by rewrite ?app_nil_r. }
    destruct (truthy (get block "NOR")) eqn:Hn.
    + rewrite Hnor by done. rewrite elem_of_app. split.
      * intros [H|H].
        -- destruct (truthy (get block "NOT")) eqn:Ht; [|inversion H].
           exists "NOT". auto.
        -- exists "NOR". auto.
      * intros (k & [->| ->] & Ht & Hin); [|by right].
        left. by rewrite Ht.
    + split.
      * destruct (truthy (get block "NOT")) eqn:Ht; [|intros H; inversion H].
        intros H. exists "NOT". auto.
      * intros (k & [->| ->] & Ht & Hin); [by rewrite Ht | congruence].
  - split; [intros H; inversion H|].
    intros (k & _ & Ht & _). by rewrite (get_falsy _ _ Hb) in Ht.
Qed.

Lemma wraps_obj block O : wraps block O -> exists ps, block = VObj ps.
Proof. intros (k & _ & Ht & _). by apply truthy_get_obj in Ht. Qed.

Lemma possible_fold_spec (possibleBlocks : list value) (acc : list string) O :
  O ∈ fold_left
        (fun forbiddenOrigins possible =>
           if truthy possible && truthy (get possible "origin") then
             fold_left
               (fun acc originBlock => acc ++ _extractForbiddenValues originBlock)
               (blocks_of (get possible "origin")) forbiddenOrigins
           else forbiddenOrigins)
        possibleBlocks acc
  <-> O ∈ acc
      \/ exists possible originBlock,
           possible ∈ possibleBlocks
           /\ originBlock ∈ blocks_of (get possible "origin")
           /\ wraps originBlock O.
Proof.
  assert (Hinner : forall (bs : list value) (acc : list string),
    O ∈ fold_left (fun acc originBlock => acc ++ _extractForbiddenValues originBlock) bs acc
    <-> O ∈ acc \/ exists originBlock, originBlock ∈ bs /\ wraps originBlock O).
  { induction bs as [|b bs IH]; intros acc'; simpl.
    - split; [by left|]. intros [?|(? & H & _)]; [done | inversion H].
    - rewrite IH, elem_of_app, extractForbiddenValues_spec.
      setoid_rewrite elem_of_cons. naive_solver. }
  revert acc. induction possibleBlocks as [|p ps IH]; intros acc; simpl.
  - split; [by left|]. intros [?|(? & ? & H & _)]; [done | inversion H].
  - rewrite IH. setoid_rewrite elem_of_cons.
    destruct (truthy p && truthy (get p "origin")) eqn:Hp.
    + rewrite Hinner. naive_solver.
    + split; [naive_solver|].
      intros [?|(p' & ob & [->|?] & Hob & Hw)]; [by left | | eauto 10].
      exfalso. apply wraps_obj in Hw as [ops ->].
      apply andb_false_iff in Hp as [Hp|Hp].
      * rewrite (get_falsy _ _ Hp) in Hob. simpl in Hob.
        apply list_elem_of_singleton in Hob. done.
      * destruct (get p "origin") as [| |b|mt sc|s|l|qs] eqn:E;
          try (simpl in Hob; apply list_elem_of_singleton in Hob; done);
          discriminate Hp.
Qed.

Lemma declared_origin_extracted civicData R O :
  _extractOriginRestrictions civicData = Some R ->
  declares_forbidden_origin civicData O -> O ∈ R.
Proof.
  unfold _extractOriginRestrictions.
  destruct (getE civicData "potential") as [potential|] eqn:Hp; [|done].
  assert (Hget : get civicData "potential" = potential).
  { destruct civicData; by simplify_eq/=. }
  cbn [mbind option_bind]. intros [= <-] Hdecl.
  apply possible_fold_spec. destruct Hdecl as [ps Hpot Hw | possible ob Hpos Hob Hw].
  - left. rewrite Hget in Hpot. subst potential.
    destruct (wraps_obj _ _ Hw) as [qs Hq]. rewrite Hpot, Hq. simpl.
    rewrite <- Hq. by apply extractForbiddenValues_spec.
  - right. exists possible, ob. split; [|done].
    unfold blocks_under in Hpos. by destruct (get civicData "possible").
Qed.
End OriginRestrictions.

Section OriginsCollect.
Import OriginsBuilder.

Lemma third_pass_fmap m (defs : list (string * def)) :
  third_pass m defs = (fun '(k, d) => (k, origins_closed_def m k d)) <$> defs.
Proof.
  unfold third_pass, origins_closed_def. apply list_fmap_ext. intros _ [k d] _.
  by destruct (m !! k).
Qed.

Lemma origins_collect_from (originsFile : list (string * value)) filterFn traitsLookup
    defs0 defs :
  for_each
    (fun defs '(originName, originData) =>
       if rejected filterFn originName originData then Some defs else
       d ← extract originData traitsLookup;
       Some (obj_set originName (Def (_flattenSingleElementGroups (yes d)) (no d)) defs))
    originsFile defs0 = Some defs ->
  forall name d, assoc name defs = Some d ->
    assoc name defs0 = Some d
    \/ exists data d0, (name, data) ∈ originsFile
          /\ rejected filterFn name data = false
          /\ extract data traitsLookup = Some d0
          /\ d = Def (_flattenSingleElementGroups (yes d0)) (no d0).
Proof.
  revert defs0. induction originsFile as [|[n0 data0] file IH]; intros defs0 H name d Hd.
  - injection H as <-. by left.
  - cbn [for_each] in H.
    destruct (rejected filterFn n0 data0) eqn:Hrej.
    + cbn [mbind option_bind] in H.
      destruct (IH _ H _ _ Hd) as [?|(data & d0 & Hin & ?)]; [by left|].
      right. exists data, d0. split; [by right | done].
    + destruct (extract data0 traitsLookup) as [d0|] eqn:Hext; [|done].
      cbn [mbind option_bind] in H.
      destruct (IH _ H _ _ Hd) as [Hd0|(data & d1 & Hin & ?)].
      * rewrite assoc_obj_set in Hd0.
        destruct (decide (n0 = "__proto__")); [by left|].
        destruct (decide (n0 = name)) as [->|]; [|by left].
        injection Hd0 as <-. right. exists data0, d0. split_and!; try done. left.
      * right. exists data, d1. split; [by right | done].
Qed.

(** The entry of an origin after the closure. *)
Lemma origins_build_entry originsFile filterFn traitsLookup civicsFiles defs name d :
  build originsFile filterFn traitsLookup civicsFiles = Some defs ->
  assoc name defs = Some d ->
  exists pre m s data d0,
    collect originsFile filterFn traitsLookup = Some pre
    /\ second_pass civicsFiles (first_pass pre) = Some m
    /\ m !! name = Some s
    /\ (name, data) ∈ originsFile
    /\ rejected filterFn name data = false
    /\ extract data traitsLookup = Some d0
    /\ assoc name pre = Some (Def (_flattenSingleElementGroups (yes d0)) (no d0))
    /\ d = Def (_flattenSingleElementGroups (yes d0))
               (upd Civics (sorted_members s) (no d0)).
Proof.
  unfold build, _makeBidirectional. intros H Hd.
  destruct (collect originsFile filterFn traitsLookup) as [pre|] eqn:Hpre; [|done].
  cbn [mbind option_bind] in H.
  destruct (second_pass civicsFiles (first_pass pre)) as [m|] eqn:Hm; [|done].
  cbn [mbind option_bind] in H. injection H as <-.
  rewrite third_pass_fmap, assoc_fmap in Hd.
  apply fmap_Some in Hd as (dpre & Hdpre & ->).
  destruct (second_pass_spec _ _ _ Hm) as [_ Hdom].
  assert (Hs : is_Some (m !! name)).
  { apply Hdom, origins_first_pass_keys, assoc_is_Some. eauto. }
  destruct Hs as [s Hs].
  pose proof (origins_collect_from _ _ _ _ _ Hpre _ _ Hdpre) as [?|Hsrc]; [done|].
  destruct Hsrc as (data & d0 & Hin & Hrej & Hext & ->).
  exists pre, m, s, data, d0. unfold origins_closed_def. rewrite Hs. done.
Qed.
End OriginsCollect.

(** C2 (as the code has it).  When [OriginsBuilder.build] returns and [O]
    is an origin of the result, every civic [C] of a supplied civics file
    that declares [O] forbidden — in its single [potential] block, or in
    one of its [possible] blocks — is in the forbidden civics of [O],
    whether or not [O] declared any forbidden civic itself. *)
Theorem cross_collection_closure
    (originsFile : list (string * value)) (filterFn : option (string -> value -> bool))
    (traitsLookup : option (list (string * value)))
    (civicsFiles : list (list (string * value)))
    (defs : list (string * OriginsBuilder.def))
    (O C : string) (dO : OriginsBuilder.def)
    (civicsFile : list (string * value)) (civicData : value) :
  OriginsBuilder.build originsFile filterFn traitsLookup civicsFiles = Some defs ->
  assoc O defs = Some dO ->
  civicsFile ∈ civicsFiles ->
  (C, civicData) ∈ civicsFile ->
  declares_forbidden_origin civicData O ->
  C ∈ OriginsBuilder.civics (OriginsBuilder.no dO).
Proof.
  intros Hb HO Hfile HC Hdecl.
  destruct (origins_build_entry _ _ _ _ _ _ _ Hb HO)
    as (pre & m & s & data & d0 & Hpre & Hm & Hs & _ & _ & _ & _ & ->).
  simpl. apply elem_of_sorted_members.
  destruct (second_pass_spec _ _ _ Hm) as [Hrel Hdom].
  assert (HR : is_Some (OriginsBuilder._extractOriginRestrictions civicData)).
  { clear -Hm Hfile HC. unfold OriginsBuilder.second_pass in Hm.
    revert Hm. generalize (OriginsBuilder.first_pass pre). 
    induction civicsFiles as [|f fs IH]; intros m0 Hm; [inversion Hfile|].
    cbn [for_each] in Hm.
    destruct (for_each OriginsBuilder.scan_civic f m0) as [m1|] eqn:H1; [|done].
    cbn [mbind option_bind] in Hm.
    apply elem_of_cons in Hfile as [<-|Hfile]; [|by eapply IH].
    clear -H1 HC. revert m0 H1.
    induction civicsFile as [|[c dt] file IH]; intros m0 H1; [inversion HC|].
    cbn [for_each] in H1.
    destruct (OriginsBuilder.scan_civic m0 (c, dt)) as [m2|] eqn:H2; [|done].
    cbn [mbind option_bind] in H1.
    apply elem_of_cons in HC as [[= <- <-]|HC]; [|by eapply IH].
    apply scan_civic_spec in H2 as (R & -> & _). eauto. }
  destruct HR as [R HR].
  assert (Hrel' : related m O C).
  { apply Hrel. right. exists civicsFile, civicData, R. split_and!; try done.
    - by eapply declared_origin_extracted.
    - apply Hdom. eauto. }
  destruct Hrel' as (s' & Hs' & Hin). congruence.
Qed.

(** C2 as stated fails for a civic that has several [potential] blocks:
    the scan reads [potential.origin] on the array of blocks and finds
    nothing, although one of the blocks forbids the origin. *)
Lemma repeated_potential_not_scanned :
  let civicData :=
    VObj [("potential",
           VArr [VObj [("origin", VObj [("NOT", VObj [("value", VStr "origin_o")])])];
                 VObj [("ethics", VObj [("value", VStr "ethic_a")])]])] in
  (exists block, block ∈ blocks_under (get civicData "potential")
                 /\ wraps (get block "origin") "origin_o")
  /\ exists defs dO,
       OriginsBuilder.build [("origin_o", VObj [])] None None [[("civic_c", civicData)]]
         = Some defs
       /\ assoc "origin_o" defs = Some dO
       /\ "civic_c" ∉ OriginsBuilder.civics (OriginsBuilder.no dO).
Proof.
  split.
  - eexists. split; [left|]. exists "NOT". split_and!; [by left | reflexivity |].
    apply (bool_decide_unpack _). vm_compute. exact I.
  - eexists. eexists. split_and!; [vm_compute; reflexivity | reflexivity |].
    simpl. apply not_elem_of_nil.
Qed.

Lemma cross_collection_closure_witness :
  "civic_c" ∈ OriginsBuilder.civics (OriginsBuilder.no
     (OriginsBuilder.Def OriginsBuilder.empty_lists
        (OriginsBuilder.upd OriginsBuilder.Civics ["civic_c"] OriginsBuilder.empty_lists))).
Proof.
  refine (cross_collection_closure
    [("origin_o", VObj [])] None None
    [[("civic_c",
       VObj [("possible",
              VObj [("origin",
                     VArr [VObj [("NOT", VObj [("value", VStr "origin_o")])];
                           VObj [("NOT", VObj [("value", VStr "origin_z")])]])])])]]
    _ "origin_o" "civic_c" _ _ _ _ _ _ _ _).
  - vm_compute. reflexivity.
  - reflexivity.
  - left.
  - left.
  - eapply in_possible; [left | left |].
    exists "NOT". split_and!; [by left | reflexivity |].
    apply (bool_decide_unpack _). vm_compute. exact I.
Defined.

Lemma civics_closure_symmetric_witness :
  "civic_a" ∈ CivicsBuilder.civics (CivicsBuilder.no
     (CivicsBuilder.Def CivicsBuilder.empty_lists
        (CivicsBuilder.upd CivicsBuilder.Civics ["civic_a"] CivicsBuilder.empty_lists))).
Proof.
  refine (proj1 (civics_closure_symmetric
    [("civic_a", VObj [("possible",
        VObj [("civics", VObj [("NOT", VObj [("value", VStr "civic_b")])])])]);
     ("civic_b", VObj [])] None _ _) "civic_a" "civic_b" _ _ _ _ _).
  - vm_compute. reflexivity.
  - reflexivity.
  - reflexivity.
  - simpl. left.
Defined.

(** ** Deduplication *)

Lemma elem_of_first_occurrences x l : x ∈ first_occurrences l <-> x ∈ l.
Proof.
  induction l as [|y l IH]; simpl; [done|].
  rewrite !elem_of_cons, list_elem_of_filter, IH.
  destruct (decide (x = y)); naive_solver.
Qed.

Lemma NoDup_first_occurrences l : NoDup (first_occurrences l).
Proof.
  induction l as [|y l IH]; simpl; [constructor|].
  apply NoDup_cons. split.
  - rewrite list_elem_of_filter. naive_solver.
  - by apply NoDup_filter.
Qed.

Lemma fold_str_set_add l acc :
  fold_left str_set_add l acc = acc ++ filter (fun y => y ∉ acc) (first_occurrences l).
Proof.
  revert acc. induction l as [|x l IH]; intros acc; simpl.
  - by rewrite app_nil_r.
  - rewrite IH. unfold str_set_add. destruct (decide (x ∈ acc)) as [Hin|Hin].
    + rewrite filter_cons_False by (intros H; by apply H).
      f_equal. rewrite list_filter_filter. apply list_filter_iff.
      intros y. split; [|tauto]. intros Hy. split; [done | by intros ->].
    + rewrite filter_cons_True by done.
      rewrite <- app_assoc. simpl. do 2 f_equal.
      rewrite list_filter_filter. apply list_filter_iff.
      intros y. rewrite elem_of_app, list_elem_of_singleton. tauto.
Qed.

Lemma filter_all {A : Type} (P : A -> Prop) `{!forall x, Decision (P x)} (l : list A) :
  (forall x, P x) -> filter P l = l.
Proof.
  intros HP. induction l as [|x l IH]; [done|].
  rewrite filter_cons_True by done. by rewrite IH.
Qed.

Lemma dedupe_str_first_occurrences l : dedupe_str l = first_occurrences l.
Proof.
  unfold dedupe_str. rewrite fold_str_set_add. simpl.
  apply filter_all. intros y. apply not_elem_of_nil.
Qed.

Lemma includes_str acc s : includes acc (VStr s) = bool_decide (s ∈ bare_atoms acc).
Proof.
  unfold includes, bare_atoms. induction acc as [|v acc IH]; simpl; [done|].
  rewrite IH. destruct v as [| |b|m sc|s'|l|ps]; simpl; try done.
  rewrite String.eqb_sym. destruct (String.eqb_spec s' s) as [->|Hne].
  - symmetry. apply bool_decide_eq_true. left.
  - simpl. apply bool_decide_ext. rewrite elem_of_cons. naive_solver.
Qed.

Lemma includes_array acc v : isArray v = true -> includes acc v = false.
Proof.
  intros Hv. unfold includes. induction acc as [|w acc IH]; simpl; [done|].
  rewrite IH. destruct v; try discriminate. by destruct w.
Qed.

Lemma bare_atoms_app l1 l2 : bare_atoms (l1 ++ l2) = bare_atoms l1 ++ bare_atoms l2.
Proof. apply omap_app. Qed.

Lemma fold_set_add_atoms l acc :
  bare_atoms (fold_left set_add l acc)
  = fold_left str_set_add (bare_atoms l) (bare_atoms acc).
Proof.
  revert acc. induction l as [|x l IH]; intros acc; simpl; [done|].
  rewrite IH. unfold set_add.
  destruct x as [| |b|m sc|s|items|ps]; simpl;
    try (destruct (includes acc _); rewrite ?bare_atoms_app; simpl;
         by rewrite ?app_nil_r).
  rewrite includes_str. unfold str_set_add. case_bool_decide as Hin.
  - by rewrite decide_True.
  - rewrite decide_False by done. by rewrite bare_atoms_app.
Qed.

Lemma dedupe_atoms l : bare_atoms (dedupe l) = first_occurrences (bare_atoms l).
Proof.
  unfold dedupe. rewrite fold_set_add_atoms. apply dedupe_str_first_occurrences.
Qed.

Lemma groups_of_app l1 l2 : groups_of (l1 ++ l2) = groups_of l1 ++ groups_of l2.
Proof. apply filter_app. Qed.

Lemma fold_set_add_groups l acc :
  groups_of (fold_left set_add l acc) = groups_of acc ++ groups_of l.
Proof.
  revert acc. induction l as [|x l IH]; intros acc; simpl.
  - by rewrite app_nil_r.
  - rewrite IH. unfold set_add, groups_of at 4. rewrite filter_cons.
    destruct (decide (isArray x = true)) as [Hx|Hx].
    + rewrite includes_array by done. rewrite groups_of_app.
      unfold groups_of at 2. rewrite filter_cons, decide_True by done.
      rewrite filter_nil, <- app_assoc. done.
    + destruct (includes acc x); [done|]. rewrite groups_of_app.
      unfold groups_of at 2. rewrite filter_cons, decide_False by done.
      by rewrite filter_nil, app_nil_r.
Qed.

Lemma dedupe_groups l : groups_of (dedupe l) = groups_of l.
Proof. unfold dedupe. by rewrite fold_set_add_groups. Qed.

Lemma elem_of_set_add_fold x l acc :
  x ∈ fold_left set_add l acc -> x ∈ acc \/ x ∈ l.
Proof.
  revert acc. induction l as [|y l IH]; intros acc; simpl; [by left|].
  intros H. apply IH in H as [H|H]; [|right; by right].
  unfold set_add in H. destruct (includes acc y); [by left|].
  apply elem_of_app in H as [?|H]; [by left|].
  apply list_elem_of_singleton in H as ->. right. left.
Qed.

Lemma elem_of_dedupe x l : x ∈ dedupe l -> x ∈ l.
Proof.
  intros H. apply elem_of_set_add_fold in H as [H|H]; [inversion H | done].
Qed.

(** ** The entries of the results *)

Lemma civics_build_entry civicsFile filterFn defs name d :
  CivicsBuilder.build civicsFile filterFn = Some defs ->
  assoc name defs = Some d ->
  exists pre s data raw,
    CivicsBuilder.collect civicsFile filterFn = Some pre
    /\ CivicsBuilder.first_pass pre !! name = Some s
    /\ (name, data) ∈ civicsFile
    /\ CivicsBuilder.walk data = Some raw
    /\ assoc name pre = Some (CivicsBuilder.dedupe_def raw)
    /\ d = CivicsBuilder.Def
             (CivicsBuilder.map_lists dedupe (CivicsBuilder.yes raw))
             (CivicsBuilder.upd CivicsBuilder.Civics (sorted_members s)
                (CivicsBuilder.map_lists dedupe_str (CivicsBuilder.no raw))).
Proof.
  unfold CivicsBuilder.build. intros H Hd.
  destruct (CivicsBuilder.collect civicsFile filterFn) as [pre|] eqn:Hpre; [|done].
  injection H as <-. apply assoc_makeBidirectional in Hd as (d0 & s & Hd0 & Hs & ->).
  pose proof Hpre as Hc. apply collect_from in Hc as (_ & _ & Hc).
  destruct (Hc _ _ Hd0) as [?|(data & Hin & _ & _ & Hext)]; [done|].
  unfold CivicsBuilder.extract in Hext.
  destruct (CivicsBuilder.walk data) as [raw|] eqn:Hraw; [|done].
  injection Hext as <-. exists pre, s, data, raw. done.
Qed.

Lemma origins_extract_no data traitsLookup d0 :
  OriginsBuilder.extract data traitsLookup = Some d0 ->
  exists raw, OriginsBuilder.walk data = Some raw
    /\ OriginsBuilder.no d0 = OriginsBuilder.map_lists dedupe_str (OriginsBuilder.no raw)
    /\ OriginsBuilder.yes d0
       = OriginsBuilder.yes (OriginsBuilder.with_traits data traitsLookup
                               (OriginsBuilder.dedupe_def raw)).
Proof.
  unfold OriginsBuilder.extract.
  destruct (OriginsBuilder.walk data) as [raw|]; [|done].
  intros [= <-]. exists raw. split_and!; [done | | done].
  unfold OriginsBuilder.with_traits. destruct traitsLookup; [|done].
  by destruct (truthy (get data "traits")).
Qed.

Lemma Sorted_sorted_members s : Sorted str_le (sorted_members s).
Proof. apply Sorted_sort_strings. Qed.

(** ** First-occurrence order of a required list *)

Lemma first_atoms_ext seen seen' l :
  (forall s, s ∈ seen <-> s ∈ seen') -> first_atoms seen l = first_atoms seen' l.
Proof.
  revert seen seen'. induction l as [|v l IH]; intros seen seen' H; [done|].
  destruct v as [| |b|m sc|s|items|ps]; simpl; try (f_equal; by apply IH).
  destruct (decide (s ∈ seen)) as [Hin|Hout].
  - rewrite decide_True by (by apply H). by apply IH.
  - rewrite decide_False by (by rewrite <- H). f_equal. apply IH.
    intros s'. rewrite !elem_of_cons. by rewrite H.
Qed.

Lemma fold_set_add_first_atoms l :
  Forall atom_or_group l ->
  forall acc, fold_left set_add l acc = acc ++ first_atoms (bare_atoms acc) l.
Proof.
  induction 1 as [|v l Hv _ IH]; intros acc; simpl.
  - by rewrite app_nil_r.
  - rewrite IH. unfold set_add.
    destruct Hv as [[s ->]|(ids & _ & ->)].
    + unfold atom. rewrite includes_str. simpl. case_bool_decide as Hin.
      * by rewrite decide_True.
      * rewrite decide_False by done. rewrite <- app_assoc. simpl. do 2 f_equal.
        apply first_atoms_ext. intros s'.
        rewrite bare_atoms_app, elem_of_app, elem_of_cons. simpl.
        rewrite list_elem_of_singleton. naive_solver.
    + unfold group. rewrite includes_array by done. simpl.
      rewrite <- app_assoc. simpl. do 2 f_equal.
      rewrite bare_atoms_app. simpl. by rewrite app_nil_r.
Qed.

Lemma dedupe_first_atoms l :
  Forall atom_or_group l -> dedupe l = first_atoms [] l.
Proof. intros H. unfold dedupe. by rewrite fold_set_add_first_atoms. Qed.

Section CivicsShape.
Import CivicsBuilder.

Lemma civics_required_shape f key v : Forall atom_or_group (civics_required f key v).
Proof.
  unfold civics_required.
  assert (Hatoms : Forall atom_or_group (required_atoms v)).
  { unfold required_atoms. destruct (truthy (get v "value")); [|constructor].
    apply Forall_fmap, Forall_forall. intros s _. left. by exists s. }
  repeat case_decide; [| |constructor]; apply Forall_app; split; try done.
  - apply Forall_forall. intros g Hg. right. by eapply required_groups_nonempty.
  - apply Forall_fmap, Forall_forall. intros s _. left. by exists s.
Qed.

Lemma civics_node_required_shape f ps :
  Forall atom_or_group (node_required (civics_required f) ps).
Proof.
  unfold node_required. apply Forall_forall. intros x Hx.
  apply list_elem_of_bind in Hx as ([key val] & Hx & _).
  apply list_elem_of_bind in Hx as (v & Hx & _).
  pose proof (civics_required_shape f key v) as H.
  rewrite Forall_forall in H. by apply H.
Qed.

Lemma civics_extractReqs_shape node d d' f :
  _extractReqs node d = Some d' ->
  Forall atom_or_group (sel f (yes d)) -> Forall atom_or_group (sel f (yes d')).
Proof.
  intros H Hd. destruct (entries node) as [ps|] eqn:He.
  - destruct (civics_extractReqs_required node ps d f He) as (d1 & H1 & Hsel).
    rewrite H1 in H. injection H as <-. rewrite Hsel.
    apply Forall_app. split; [done | apply civics_node_required_shape].
  - unfold _extractReqs in H. by rewrite He in H.
Qed.

Lemma civics_walk_shape data raw f :
  walk data = Some raw -> Forall atom_or_group (sel f (yes raw)).
Proof.
  unfold walk. intros H.
  destruct (if truthy (get data "potential")
            then _extractReqs (get data "potential") empty_def
            else Some empty_def) as [d|] eqn:Hpot; [|done].
  cbn [mbind option_bind] in H.
  assert (Hd : Forall atom_or_group (sel f (yes d))).
  { destruct (truthy (get data "potential")).
    - eapply civics_extractReqs_shape; [done|]. destruct f; constructor.
    - injection Hpot as <-. destruct f; constructor. }
  destruct (truthy (get data "possible")); [|by injection H as <-].
  assert (Hone : _extractReqs (get data "possible") d = Some raw ->
                 Forall atom_or_group (sel f (yes raw))).
  { intros H1. by eapply civics_extractReqs_shape. }
  destruct (get data "possible") as [| |b|m sc|s|blocks|ps]; try by apply Hone.
  clear Hone Hpot. revert d Hd H.
  induction blocks as [|b bs IH]; intros d Hd H; simpl in H.
  - by injection H as <-.
  - destruct (_extractReqs b d) as [d1|] eqn:H1; [|done].
    cbn [mbind option_bind] in H. eapply IH; [|done].
    by eapply civics_extractReqs_shape.
Qed.
End CivicsShape.

(** C7 (as the code has it).  In the result of [CivicsBuilder.build],
    every required list is the extracted list in first-occurrence order:
    a bare identifier that occurred before is dropped and everything
    else, the groups among the identifiers, stays where it is; so it has
    no repeated bare identifier and keeps every group.  Every forbidden
    list is duplicate-free; the forbidden lists other than [civics] are
    in first-occurrence order, and the forbidden civics are the sorted
    closure, which contains the declared ones.  In the result of
    [OriginsBuilder.build] the same holds of the forbidden lists. *)
Theorem requirement_lists_deduplicated
    (civicsFile : list (string * value)) (civicsFilter : option (string -> value -> bool))
    (civicsDefs : list (string * CivicsBuilder.def))
    (originsFile : list (string * value)) (originsFilter : option (string -> value -> bool))
    (traitsLookup : option (list (string * value)))
    (civicsFiles : list (list (string * value)))
    (originsDefs : list (string * OriginsBuilder.def)) :
  CivicsBuilder.build civicsFile civicsFilter = Some civicsDefs ->
  OriginsBuilder.build originsFile originsFilter traitsLookup civicsFiles = Some originsDefs ->
  (forall name d, assoc name civicsDefs = Some d ->
     exists data raw,
       (name, data) ∈ civicsFile /\ CivicsBuilder.walk data = Some raw
       /\ forall f,
            CivicsBuilder.sel f (CivicsBuilder.yes d)
            = first_atoms [] (CivicsBuilder.sel f (CivicsBuilder.yes raw))
            /\ NoDup (bare_atoms (CivicsBuilder.sel f (CivicsBuilder.yes d)))
            /\ bare_atoms (CivicsBuilder.sel f (CivicsBuilder.yes d))
               = first_occurrences (bare_atoms (CivicsBuilder.sel f (CivicsBuilder.yes raw)))
            /\ groups_of (CivicsBuilder.sel f (CivicsBuilder.yes d))
               = groups_of (CivicsBuilder.sel f (CivicsBuilder.yes raw))
            /\ NoDup (CivicsBuilder.sel f (CivicsBuilder.no d))
            /\ (f ≠ CivicsBuilder.Civics ->
                CivicsBuilder.sel f (CivicsBuilder.no d)
                = first_occurrences (CivicsBuilder.sel f (CivicsBuilder.no raw)))
            /\ (f = CivicsBuilder.Civics ->
                Sorted str_le (CivicsBuilder.sel f (CivicsBuilder.no d))
                /\ forall x, x ∈ CivicsBuilder.sel f (CivicsBuilder.no raw) ->
                             x ∈ CivicsBuilder.sel f (CivicsBuilder.no d)))
  /\ (forall name d, assoc name originsDefs = Some d ->
     exists data raw,
       (name, data) ∈ originsFile /\ OriginsBuilder.walk data = Some raw
       /\ forall f,
            NoDup (OriginsBuilder.sel f (OriginsBuilder.no d))
            /\ (f ≠ OriginsBuilder.Civics ->
                OriginsBuilder.sel f (OriginsBuilder.no d)
                = first_occurrences (OriginsBuilder.sel f (OriginsBuilder.no raw)))
            /\ (f = OriginsBuilder.Civics ->
                Sorted str_le (OriginsBuilder.sel f (OriginsBuilder.no d))
                /\ forall x, x ∈ OriginsBuilder.sel f (OriginsBuilder.no raw) ->
                             x ∈ OriginsBuilder.sel f (OriginsBuilder.no d))).
Proof.
  intros Hc Ho. split.
  - intros name d Hd.
    destruct (civics_build_entry _ _ _ _ _ Hc Hd)
      as (pre & s & data & raw & Hpre & Hs & Hin & Hraw & Hpre_d & ->).
    exists data, raw. split_and!; try done. intros f. cbn [CivicsBuilder.yes CivicsBuilder.no].
    rewrite sel_map_lists, dedupe_atoms, dedupe_groups. split_and!; try done.
    + apply dedupe_first_atoms. by apply (civics_walk_shape data).
    + apply NoDup_first_occurrences.
    + destruct (decide (f = CivicsBuilder.Civics)) as [->|Hf].
      * rewrite sel_upd_eq. apply NoDup_sorted_members.
      * rewrite sel_upd_ne, sel_map_lists, dedupe_str_first_occurrences by done.
        apply NoDup_first_occurrences.
    + intros Hf. by rewrite sel_upd_ne, sel_map_lists, dedupe_str_first_occurrences.
    + intros ->. rewrite sel_upd_eq. split; [apply Sorted_sorted_members|].
      intros x Hx. apply elem_of_sorted_members.
      assert (Hrel : related (CivicsBuilder.first_pass pre) name x).
      { apply first_pass_related. left. eexists. split; [by apply assoc_elem_of|].
        cbn [CivicsBuilder.dedupe_def CivicsBuilder.no].
        change (CivicsBuilder.civics ?r) with (CivicsBuilder.sel CivicsBuilder.Civics r).
        rewrite sel_map_lists, dedupe_str_first_occurrences.
        by apply elem_of_first_occurrences. }
      destruct Hrel as (s' & Hs' & Hx'). congruence.
  - intros name d Hd.
    destruct (origins_build_entry _ _ _ _ _ _ _ Ho Hd)
      as (pre & m & s & data & d0 & Hpre & Hm & Hs & Hin & Hrej & Hext & Hpre_d & ->).
    destruct (origins_extract_no _ _ _ Hext) as (raw & Hraw & Hno & _).
    exists data, raw. split_and!; try done. intros f. cbn [OriginsBuilder.no].
    rewrite Hno. split_and!.
    + destruct (decide (f = OriginsBuilder.Civics)) as [->|Hf].
      * rewrite origins_sel_upd_eq. apply NoDup_sorted_members.
      * rewrite origins_sel_upd_ne, origins_sel_map_lists, dedupe_str_first_occurrences
          by done.
        apply NoDup_first_occurrences.
    + intros Hf.
      by rewrite origins_sel_upd_ne, origins_sel_map_lists, dedupe_str_first_occurrences.
    + intros ->. rewrite origins_sel_upd_eq. split; [apply Sorted_sorted_members|].
      intros x Hx. apply elem_of_sorted_members.
      assert (Hrel : related m name x).
      { apply (second_pass_spec _ _ _ Hm). left. apply origins_first_pass_related.
        eexists. split; [by apply assoc_elem_of|]. cbn [OriginsBuilder.no].
        rewrite Hno.
        change (OriginsBuilder.civics ?r) with (OriginsBuilder.sel OriginsBuilder.Civics r).
        rewrite origins_sel_map_lists, dedupe_str_first_occurrences.
        by apply elem_of_first_occurrences. }
      destruct Hrel as (s' & Hs' & Hx'). congruence.
Qed.

(** C7 as stated fails for the forbidden civics: the closure returns them
    sorted, not in first-occurrence order. *)
Lemma forbidden_civics_are_sorted :
  let data :=
    VObj [("possible",
           VObj [("civics", VObj [("NOT", VObj [("value", VArr [VStr "z"; VStr "b"])])])])] in
  exists defs d raw,
    CivicsBuilder.build [("civic_a", data)] None = Some defs
    /\ assoc "civic_a" defs = Some d
    /\ CivicsBuilder.walk data = Some raw
    /\ CivicsBuilder.civics (CivicsBuilder.no raw) = ["z"; "b"]
    /\ CivicsBuilder.civics (CivicsBuilder.no d) = ["b"; "z"]
    /\ CivicsBuilder.civics (CivicsBuilder.no d)
       ≠ first_occurrences (CivicsBuilder.civics (CivicsBuilder.no raw)).
Proof.
  do 3 eexists. split_and!; [vm_compute; reflexivity | reflexivity | reflexivity
                            | reflexivity | reflexivity | discriminate].
Qed.

Lemma requirement_lists_deduplicated_witness : NoDup ["b"; "z"].
Proof.
  destruct (proj1 (requirement_lists_deduplicated
    [("civic_a",
      VObj [("possible",
             VObj [("civics",
                    VObj [("NOT", VObj [("value", VArr [VStr "z"; VStr "b"; VStr "z"])])])])])]
    None _ [("origin_o", VObj [])] None None [] _ eq_refl eq_refl) "civic_a" _ eq_refl)
    as (data & raw & _ & _ & H).
  destruct (H CivicsBuilder.Civics) as (_ & _ & _ & _ & Hnd & _). exact Hnd.
Defined.

(** In [OriginsBuilder.build] the required lists are deduplicated before
    single-element groups are flattened, so a flattened group can repeat a
    bare identifier. *)
Lemma origins_required_can_repeat :
  exists defs d,
    OriginsBuilder.build
      [("origin_o",
        VObj [("possible",
               VObj [("ethics",
                      VObj [("OR", VObj [("value", VStr "ethic_a")]);
                            ("value", VStr "ethic_a")])])])]
      None None [] = Some defs
    /\ assoc "origin_o" defs = Some d
    /\ OriginsBuilder.ethics (OriginsBuilder.yes d) = [VStr "ethic_a"; VStr "ethic_a"].
Proof. do 2 eexists. split_and!; [vm_compute; reflexivity | reflexivity | reflexivity]. Qed.

(** ** Flattening of single-element groups *)

Lemma Forall_atom_or_group_handle block yesArr noArr :
  Forall atom_or_group yesArr -> Forall atom_or_group (_handle block (yesArr, noArr)).1.
Proof.
  intros H. rewrite handle_keeps_groups. simpl. rewrite !Forall_app. split_and!; [done | |].
  - apply Forall_forall. intros g Hg. right. by eapply required_groups_nonempty.
  - unfold required_atoms. destruct (truthy (get block "value")); [|constructor].
    apply Forall_fmap, Forall_forall. intros s _. left. by exists s.
Qed.

Lemma Forall_atom_or_group_culture block yesArr noArr :
  Forall atom_or_group yesArr ->
  Forall atom_or_group (_handleCulture block (yesArr, noArr)).1.
Proof.
  intros H. rewrite handleCulture_flattens. simpl. rewrite !Forall_app. split_and!; [done | |].
  - apply Forall_fmap, Forall_forall. intros s _. left. by exists s.
  - unfold required_atoms. destruct (truthy (get block "value")); [|constructor].
    apply Forall_fmap, Forall_forall. intros s _. left. by exists s.
Qed.

Lemma Forall_atom_or_group_dedupe l :
  Forall atom_or_group l -> Forall atom_or_group (dedupe l).
Proof.
  rewrite !Forall_forall. intros H x Hx. by apply H, elem_of_dedupe.
Qed.

Section OriginsShape.
Import OriginsBuilder.

Lemma well_shaped_on_facet f h d :
  (forall y n, Forall atom_or_group y -> Forall atom_or_group (h (y, n)).1) ->
  well_shaped d -> well_shaped (on_facet f h d).
Proof.
  intros Hh Hd f'. destruct (decide (f = f')) as [<-|Hne].
  - rewrite origins_yes_on_facet. apply Hh, Hd.
  - unfold on_facet. destruct (h _) as [y n]. simpl.
    rewrite origins_sel_upd_ne by done. apply Hd.
Qed.

Lemma well_shaped_dispatch key v d : well_shaped d -> well_shaped (dispatch key v d).
Proof.
  intros Hd. unfold dispatch.
  repeat case_decide; try done;
    apply well_shaped_on_facet; try done; intros y n;
    first [apply Forall_atom_or_group_handle | apply Forall_atom_or_group_culture].
Qed.

Lemma well_shaped_extractReqs node d d' :
  _extractReqs node d = Some d' -> well_shaped d -> well_shaped d'.
Proof.
  unfold _extractReqs. destruct (entries node) as [ps|]; [|done].
  cbn [mbind option_bind]. intros [= <-]. revert d.
  induction ps as [|[key val] ps IH]; intros d Hd; simpl; [done|].
  apply IH. generalize (blocks_of val). intros bs. revert d Hd.
  induction bs as [|b bs IHb]; intros d Hd; simpl; [done|].
  by apply IHb, well_shaped_dispatch.
Qed.

Lemma well_shaped_section section d d' :
  extract_section section d = Some d' -> well_shaped d -> well_shaped d'.
Proof.
  unfold extract_section. destruct (truthy section); [|by intros [= <-]].
  assert (Hone : _extractReqs section d = Some d' -> well_shaped d -> well_shaped d')
    by apply well_shaped_extractReqs.
  destruct section; try done.
  clear Hone. revert d. induction items as [|b bs IH]; intros d; simpl.
  - by intros [= <-].
  - destruct (_extractReqs b d) as [d1|] eqn:H1; [|done].
    cbn [mbind option_bind]. intros H Hd. eapply IH; [done|].
    by eapply well_shaped_extractReqs.
Qed.

Lemma well_shaped_walk data raw : walk data = Some raw -> well_shaped raw.
Proof.
  unfold walk. destruct (getE data "potential") as [potential|]; [|done].
  cbn [mbind option_bind].
  destruct (extract_section potential empty_def) as [d1|] eqn:H1; [|done].
  cbn [mbind option_bind]. intros H2.
  eapply well_shaped_section; [done|]. eapply well_shaped_section; [done|].
  intros f. destruct f; constructor.
Qed.

Lemma with_traits_other data traitsLookup d f :
  traitsLookup = None \/ f ≠ SpeciesArchetype ->
  sel f (yes (with_traits data traitsLookup d)) = sel f (yes d).
Proof.
  intros [->|Hf]; [done|]. unfold with_traits.
  destruct traitsLookup as [lookup|]; [|done].
  destruct (truthy (get data "traits")); [|done]. simpl.
  unfold _extractTraitRequirements.
  generalize (_gather (get (get data "traits") "trait")). intros ids.
  generalize (yes d). induction ids as [|t ids IH]; intros y; simpl; [done|].
  rewrite IH.
  destruct (negb (truthy (default VUndef (assoc t lookup)))); [done|].
  destruct (truthy (get (default VUndef (assoc t lookup)) "allowed_archetypes"));
    [|done].
  by destruct f.
Qed.

Lemma flatten_item_shape v :
  atom_or_group v ->
  (exists s, flatten_item v = atom s)
  \/ (exists ids, 2 <= length ids /\ flatten_item v = group ids).
Proof.
  intros [[s ->]|(ids & Hne & ->)]; [left; by exists s|].
  destruct ids as [|s [|s' ids]]; [done | left; by exists s |].
  right. exists (s :: s' :: ids). split; [simpl; lia | done].
Qed.
End OriginsShape.

Lemma flatten_lookup (l : list value) i v :
  l !! i = Some v -> (OriginsBuilder.flatten_item <$> l) !! i = Some (OriginsBuilder.flatten_item v).
Proof. intros H. by rewrite list_lookup_fmap, H. Qed.

Section TraitGroups.
Import OriginsBuilder.

(** Where the elements of a required list come from once the traits of
    the origin have been looked up. *)
Lemma trait_requirements_elem traitsBlock lookup f v : forall y,
  v ∈ sel f (_extractTraitRequirements traitsBlock y lookup) ->
  v ∈ sel f y
  \/ (f = SpeciesArchetype
      /\ exists traitId traitData,
           traitId ∈ _gather (get traitsBlock "trait")
           /\ assoc traitId lookup = Some traitData
           /\ truthy (get traitData "allowed_archetypes") = true
           /\ v = VArr (match get traitData "allowed_archetypes" with
                        | VArr l => l
                        | one => [one]
                        end)).
Proof.
  unfold _extractTraitRequirements.
  induction (_gather (get traitsBlock "trait")) as [|t ids IH]; intros y Hv;
    cbn [fold_left] in Hv.
  - by left.
  - apply IH in Hv as [Hv|(-> & traitId & traitData & Hin & ?)].
    + destruct (assoc t lookup) as [traitData|] eqn:Ht; simpl in Hv; [|by left].
      destruct (truthy traitData); simpl in Hv; [|by left].
      destruct (truthy (get traitData "allowed_archetypes")) eqn:Ha; [|by left].
      destruct f; simpl in Hv; try (by left).
      apply elem_of_app in Hv as [Hv|Hv]; [by left|].
      apply list_elem_of_singleton in Hv as ->. right. split; [done|].
      exists t, traitData. split_and!; try done. left.
    + right. split; [done|]. exists traitId, traitData. split; [by right | done].
Qed.

Lemma flatten_single_group v0 s :
  flatten_item v0 = group [s] -> v0 = VArr [group [s]].
Proof.
  unfold flatten_item. destruct v0 as [| |b|m sc|s'|[|x [|x' l]]|ps]; try done.
  by intros ->.
Qed.

(** A group of one identifier survives the flattening only as the single
    element of a trait's [allowed_archetypes] list. *)
Lemma single_group_origin data traitsLookup d0 f s :
  extract data traitsLookup = Some d0 ->
  group [s] ∈ flatten_item <$> sel f (yes d0) ->
  f = SpeciesArchetype
  /\ exists lookup traitId traitData,
       traitsLookup = Some lookup
       /\ traitId ∈ _gather (get (get data "traits") "trait")
       /\ assoc traitId lookup = Some traitData
       /\ get traitData "allowed_archetypes" = VArr [group [s]].
Proof.
  intros Hext Hin. apply list_elem_of_fmap in Hin as (v0 & Hv0 & Hin).
  symmetry in Hv0. apply flatten_single_group in Hv0 as ->.
  destruct (origins_extract_no _ _ _ Hext) as (raw & Hraw & _ & Hyes).
  rewrite Hyes in Hin.
  assert (Hraw_shape : VArr [group [s]] ∉ sel f (yes (dedupe_def raw))).
  { intros H. cbn [dedupe_def yes] in H. rewrite origins_sel_map_lists in H.
    pose proof (well_shaped_walk _ _ Hraw f) as Hshape.
    apply Forall_atom_or_group_dedupe in Hshape.
    rewrite Forall_forall in Hshape.
    destruct (Hshape _ H) as [[s' Hs']|(ids & _ & Hids)]; [done|].
    unfold group in Hids. injection Hids as Hids.
    destruct ids as [|i [|i' ids]]; done. }
  unfold with_traits in Hin. destruct traitsLookup as [lookup|]; [|done].
  destruct (truthy (get data "traits")); [|done].
  cbn [yes] in Hin.
  apply trait_requirements_elem in Hin
    as [?|(-> & traitId & traitData & Hid & Hlook & Htruthy & Heq)]; [done|].
  split; [done|]. exists lookup, traitId, traitData. split_and!; try done.
  injection Heq as Heq.
  destruct (get traitData "allowed_archetypes") as [| |b|m sc|s'|l|ps]; try done.
  by rewrite Heq.
Qed.
End TraitGroups.

(** C8 (as the code has it).  In the result of [OriginsBuilder.build]
    every required list is the extracted list with each single-element
    group replaced, in place, by its element: a group of one identifier
    becomes that identifier as a bare atom, groups of two or more
    identifiers and bare atoms are unchanged, and the forbidden lists
    are those of the extraction (the forbidden civics being the
    closure).  Lists that no trait feeds hold no single-element group at
    all, and a group of one identifier is left in a list only where a
    trait's [allowed_archetypes] is a list whose single element is that
    group: the flattening unwraps one level.  In the result of
    [CivicsBuilder.build] the groups of every required list are exactly
    the extracted groups, single-element ones included. *)
Theorem single_element_groups_flattened
    (civicsFile : list (string * value)) (civicsFilter : option (string -> value -> bool))
    (civicsDefs : list (string * CivicsBuilder.def))
    (originsFile : list (string * value)) (originsFilter : option (string -> value -> bool))
    (traitsLookup : option (list (string * value)))
    (civicsFiles : list (list (string * value)))
    (originsDefs : list (string * OriginsBuilder.def)) :
  CivicsBuilder.build civicsFile civicsFilter = Some civicsDefs ->
  OriginsBuilder.build originsFile originsFilter traitsLookup civicsFiles = Some originsDefs ->
  (forall name d, assoc name originsDefs = Some d ->
     exists data d0,
       (name, data) ∈ originsFile
       /\ OriginsBuilder.extract data traitsLookup = Some d0
       /\ forall f,
            let before := OriginsBuilder.sel f (OriginsBuilder.yes d0) in
            let after := OriginsBuilder.sel f (OriginsBuilder.yes d) in
            length after = length before
            /\ (forall i s, before !! i = Some (group [s]) -> after !! i = Some (atom s))
            /\ (forall i ids, 2 <= length ids ->
                  before !! i = Some (group ids) -> after !! i = Some (group ids))
            /\ (forall i s, before !! i = Some (atom s) -> after !! i = Some (atom s))
            /\ (f ≠ OriginsBuilder.Civics ->
                OriginsBuilder.sel f (OriginsBuilder.no d)
                = OriginsBuilder.sel f (OriginsBuilder.no d0))
            /\ (traitsLookup = None \/ f ≠ OriginsBuilder.SpeciesArchetype ->
                forall v, v ∈ after ->
                  (exists s, v = atom s) \/ (exists ids, 2 <= length ids /\ v = group ids))
            /\ (forall s, group [s] ∈ after ->
                f = OriginsBuilder.SpeciesArchetype
                /\ exists lookup traitId traitData,
                     traitsLookup = Some lookup
                     /\ traitId ∈ _gather (get (get data "traits") "trait")
                     /\ assoc traitId lookup = Some traitData
                     /\ get traitData "allowed_archetypes" = VArr [group [s]]))
  /\ (forall name d, assoc name civicsDefs = Some d ->
     exists data raw,
       (name, data) ∈ civicsFile /\ CivicsBuilder.walk data = Some raw
       /\ forall f, groups_of (CivicsBuilder.sel f (CivicsBuilder.yes d))
                    = groups_of (CivicsBuilder.sel f (CivicsBuilder.yes raw))).
Proof.
  intros Hc Ho. split.
  - intros name d Hd.
    destruct (origins_build_entry _ _ _ _ _ _ _ Ho Hd)
      as (pre & m & s & data & d0 & Hpre & Hm & Hs & Hin & Hrej & Hext & Hpre_d & ->).
    exists data, d0. split_and!; try done. intros f.
    cbn [OriginsBuilder.yes OriginsBuilder.no].
    unfold OriginsBuilder._flattenSingleElementGroups.
    rewrite origins_sel_map_lists. cbv zeta. split_and!.
    + by rewrite length_fmap.
    + intros i s0 Hi. by rewrite (flatten_lookup _ _ _ Hi).
    + intros i ids Hlen Hi. rewrite (flatten_lookup _ _ _ Hi).
      destruct ids as [|a [|b ids]]; simpl in Hlen; try lia. done.
    + intros i s0 Hi. by rewrite (flatten_lookup _ _ _ Hi).
    + intros Hf. by rewrite origins_sel_upd_ne.
    + intros Hwhy v Hv. apply list_elem_of_fmap in Hv as (v0 & -> & Hv0).
      apply flatten_item_shape.
      destruct (origins_extract_no _ _ _ Hext) as (raw & Hraw & _ & Hyes).
      rewrite Hyes, with_traits_other in Hv0 by done.
      cbn [OriginsBuilder.dedupe_def OriginsBuilder.yes] in Hv0.
      rewrite origins_sel_map_lists in Hv0.
      pose proof (well_shaped_walk _ _ Hraw f) as Hshape.
      apply Forall_atom_or_group_dedupe in Hshape.
      rewrite Forall_forall in Hshape. by apply Hshape.
    + intros s0 Hs0. by apply (single_group_origin data traitsLookup d0).
  - intros name d Hd.
    destruct (civics_build_entry _ _ _ _ _ Hc Hd)
      as (pre & s & data & raw & Hpre & Hs & Hin & Hraw & Hpre_d & ->).
    exists data, raw. split_and!; try done. intros f. cbn [CivicsBuilder.yes].
    by rewrite sel_map_lists, dedupe_groups.
Qed.

Lemma single_element_groups_flattened_witness :
  [VStr "auth_hive_mind"; VArr [VStr "auth_a"; VStr "auth_b"]] !! 0
  = Some (atom "auth_hive_mind").
Proof.
  destruct (proj1 (single_element_groups_flattened
    [("civic_a", VObj [])] None _
    [("origin_o",
      VObj [("possible",
             VObj [("authority",
                    VObj [("OR", VArr [VObj [("value", VStr "auth_hive_mind")];
                                       VObj [("value", VArr [VStr "auth_a"; VStr "auth_b"])]])])])])]
    None None [] _ eq_refl eq_refl) "origin_o" _ eq_refl)
    as (data & d0 & Hin & Hext & H).
  apply list_elem_of_singleton in Hin. injection Hin as ->.
  vm_compute in Hext. injection Hext as <-.
  destruct (H OriginsBuilder.Authorities) as (_ & Hsingle & _).
  exact (Hsingle 0 "auth_hive_mind" eq_refl).
Defined.

(** C8 as stated fails for a trait whose [allowed_archetypes] is a list
    holding one list of one identifier, as the parser returns for
    [allowed_archetypes = { { X } }]: the flattening unwraps the outer
    list and the group of the single identifier [X] is emitted. *)
Lemma nested_trait_group_remains :
  OriginsBuilder.build
    [("origin_o", VObj [("traits", VObj [("trait", VStr "trait_x")])])]
    None
    (Some [("trait_x", VObj [("allowed_archetypes", VArr [VArr [VStr "X"]])])])
    []
  = Some [("origin_o",
           OriginsBuilder.Def
             (OriginsBuilder.Lists [] [] [] [] [group ["X"]] [])
             (OriginsBuilder.Lists [] [] [] [] [] []))]
  /\ ParadoxParser.parse "trait_x = { allowed_archetypes = { { X } } }"
     = Some (VObj [("trait_x", VObj [("allowed_archetypes", VArr [VArr [VStr "X"]])])]).
Proof. split; [vm_compute; reflexivity | reflexivity]. Qed.

(** ** The closure of [TraitsBuilder] *)

Lemma includes_str_elem_of l s : includes l (VStr s) = true <-> VStr s ∈ l.
Proof.
  rewrite includes_str, bool_decide_eq_true. unfold bare_atoms.
  rewrite list_elem_of_omap. split.
  - intros (v & Hv & Hs). destruct v; try done. by injection Hs as ->.
  - intros H. by exists (VStr s).
Qed.

Section TraitsClosure.
Context {cost_info : Type}.
Implicit Types (defs : list (string * @TraitsBuilder.traitDef cost_info)).
Import TraitsBuilder.

Lemma push_no_fmap target id defs :
  push_no target id defs
  = (fun '(k, d) =>
       (k, if decide (k = target)
           then TraitDef (cost d) (no d ++ [VStr id]) (species_class d) else d)) <$> defs.
Proof.
  unfold push_no. apply list_fmap_ext. intros _ [k d] _. by destruct (decide (k = target)).
Qed.

Lemma keys_push_no target id defs : keys (push_no target id defs) = keys defs.
Proof. by rewrite push_no_fmap, keys_fmap. Qed.

Lemma opposes_push_no target id defs a b :
  opposes (push_no target id defs) a b
  <-> opposes defs a b \/ (a = target /\ b = id /\ target ∈ keys defs).
Proof.
  unfold opposes. rewrite push_no_fmap, assoc_fmap. split.
  - intros (d & Hd & Hb). apply fmap_Some in Hd as (d0 & Hd0 & ->).
    destruct (decide (a = target)) as [->|Hne]; [|left; eauto].
    simpl in Hb. apply elem_of_app in Hb as [Hb|Hb]; [left; eauto|].
    apply list_elem_of_singleton in Hb. injection Hb as ->.
    right. split_and!; try done. apply assoc_is_Some. eauto.
  - intros [(d & Hd & Hb)|(-> & -> & Hk)].
    + rewrite Hd. simpl. eexists. split; [done|].
      destruct (decide (a = target)); [|done]. simpl. apply elem_of_app. by left.
    + apply assoc_is_Some in Hk as [d Hd]. rewrite Hd. simpl. eexists. split; [done|].
      rewrite decide_True by done. simpl. apply elem_of_app. right. left.
Qed.

Lemma keys_reverse_entry id defs o : keys (reverse_entry id defs o) = keys defs.
Proof.
  unfold reverse_entry. destruct o; try done.
  destruct (assoc s defs); [|done].
  destruct (includes _ _); [done|]. apply keys_push_no.
Qed.

Lemma opposes_reverse_entry id defs o a b :
  opposes (reverse_entry id defs o) a b
  <-> opposes defs a b \/ (o = VStr a /\ b = id /\ a ∈ keys defs).
Proof.
  unfold reverse_entry. destruct o as [| |x|m sc|t|l|ps];
    try (split; [by left | intros [?|[? _]]; done]).
  destruct (assoc t defs) as [od|] eqn:Ht.
  - destruct (includes (no od) (VStr id)) eqn:Hinc.
    + split; [by left|]. intros [?|([= <-] & -> & _)]; [done|].
      exists od. split; [done|]. by apply includes_str_elem_of.
    + rewrite opposes_push_no. split.
      * intros [?|(-> & -> & ?)]; [by left | right; done].
      * intros [?|([= <-] & -> & ?)]; [by left | right; done].
  - split; [by left|]. intros [?|([= <-] & -> & Hk)]; [done|].
    apply assoc_is_Some in Hk as [? Hk]. congruence.
Qed.

Lemma keys_inner id (l : list value) defs :
  keys (fold_left (reverse_entry id) l defs) = keys defs.
Proof.
  revert defs. induction l as [|o l IH]; intros defs; simpl; [done|].
  by rewrite IH, keys_reverse_entry.
Qed.

Lemma opposes_inner id (l : list value) defs a b :
  opposes (fold_left (reverse_entry id) l defs) a b
  <-> opposes defs a b \/ (VStr a ∈ l /\ b = id /\ a ∈ keys defs).
Proof.
  revert defs. induction l as [|o l IH]; intros defs; simpl.
  - split; [by left|]. intros [?|(H & _)]; [done | inversion H].
  - rewrite IH, opposes_reverse_entry, keys_reverse_entry, elem_of_cons. naive_solver.
Qed.

(** The array a round iterates is not changed by that round. *)
Lemma own_list_stable id (l : list value) defs d :
  assoc id defs = Some d ->
  (forall o, o ∈ l -> o ∈ no d) ->
  no <$> assoc id (fold_left (reverse_entry id) l defs) = Some (no d).
Proof.
  revert defs d. induction l as [|o l IH]; intros defs d Hd Hl; simpl.
  - by rewrite Hd.
  - assert (Hstep : exists d', assoc id (reverse_entry id defs o) = Some d'
                               /\ no d' = no d).
    { unfold reverse_entry. destruct o as [| |x|m sc|t|ol|ps]; eauto.
      destruct (assoc t defs) as [od|] eqn:Ht; [|eauto].
      destruct (includes (no od) (VStr id)) eqn:Hinc; [eauto|].
      rewrite push_no_fmap, assoc_fmap, Hd. simpl.
      destruct (decide (id = t)) as [->|Hne]; [|eauto].
      exfalso. assert (od = d) as -> by congruence.
      assert (Hin : VStr t ∈ no d) by (apply Hl; left).
      apply includes_str_elem_of in Hin. congruence. }
    destruct Hstep as (d' & Hd' & Hno). rewrite <- Hno. apply IH; [done|].
    intros o' Ho'. rewrite Hno. apply Hl. by right.
Qed.

Lemma keys_round defs id : keys (round defs id) = keys defs.
Proof. unfold round. destruct (assoc id defs); [apply keys_inner | done]. Qed.

Lemma opposes_round defs id a b :
  opposes (round defs id) a b
  <-> opposes defs a b \/ (b = id /\ a ∈ keys defs /\ opposes defs id a).
Proof.
  unfold round. destruct (assoc id defs) as [d|] eqn:Hd.
  - rewrite opposes_inner. unfold opposes at 3. rewrite Hd. split.
    + intros [?|(? & ? & ?)]; [by left | right]. split_and!; eauto.
    + intros [?|(? & ? & d' & [= <-] & ?)]; [by left | right]. done.
  - split; [by left|]. intros [?|(_ & _ & d' & Hd' & _)]; [done | congruence].
Qed.

(** After the rounds of the keys [ids], every opposite declared by one of
    them that is itself a key is reciprocated. *)
Lemma rounds_spec (ids : list string) defs :
  let out := fold_left round ids defs in
  keys out = keys defs
  /\ (forall a b, opposes defs a b -> opposes out a b)
  /\ (forall (reciprocated : string -> Prop),
        (forall a b, reciprocated a -> b ∈ keys defs -> opposes defs a b ->
                     opposes defs b a) ->
        forall a b, (reciprocated a \/ a ∈ ids) -> b ∈ keys defs ->
                    opposes out a b -> opposes out b a).
Proof.
  revert defs. induction ids as [|id ids IH]; intros defs; simpl.
  - split_and!; try done. intros R HR a b [Ha|Ha] Hb; [by apply HR | inversion Ha].
  - destruct (IH (round defs id)) as (IHk & IHm & IHr).
    split_and!; try done.
    + by rewrite IHk, keys_round.
    + intros a b H. apply IHm, opposes_round. by left.
    + intros R HR a b Ha Hb.
      apply (IHr (fun x => R x \/ x = id)).
      * intros x y Hx Hy. rewrite keys_round in Hy. rewrite !opposes_round.
        intros [Hxy|(-> & Hxk & Hidx)].
        -- destruct Hx as [Hx| ->].
           ++ left. by apply HR.
           ++ right. done.
        -- left. done.
      * rewrite elem_of_cons in Ha. tauto.
      * by rewrite keys_round.
Qed.

Lemma makeBidirectional_spec defs :
  keys (_makeBidirectional defs) = keys defs
  /\ (forall a b, opposes defs a b -> opposes (_makeBidirectional defs) a b)
  /\ (forall a b, a ∈ keys defs -> b ∈ keys defs ->
        opposes (_makeBidirectional defs) a b -> opposes (_makeBidirectional defs) b a).
Proof.
  unfold _makeBidirectional.
  destruct (rounds_spec (keys defs) defs) as (Hk & Hm & Hr).
  split_and!; try done. intros a b Ha Hb.
  apply (Hr (fun _ => False)); [done | by right | done].
Qed.
End TraitsClosure.

(** C10.  In the result of [TraitsBuilder.build], for any two traits [a]
    and [b] that are keys of the result, if [b] is in the [no] list of [a]
    then [a] is in the [no] list of [b].  The closure creates no entry:
    the keys of the result are the keys collected by the first pass, so
    an opposite that is not a key gets no entry; and it removes nothing
    from the collected lists. *)
Theorem traits_closure_symmetric {cost_info : Type}
    (_extractCost : value -> option cost_info)
    (parsedData : list (string * value)) (filterFn : option (string -> value -> bool))
    (out : list (string * @TraitsBuilder.traitDef cost_info)) :
  TraitsBuilder.build _extractCost parsedData filterFn = Some out ->
  (forall a b da db,
      assoc a out = Some da -> assoc b out = Some db ->
      VStr b ∈ TraitsBuilder.no da -> VStr a ∈ TraitsBuilder.no db)
  /\ (forall pre,
        TraitsBuilder.collect _extractCost parsedData filterFn = Some pre ->
        keys out = keys pre
        /\ forall a b, opposes pre a b -> opposes out a b).
Proof.
  unfold TraitsBuilder.build. intros H.
  destruct (TraitsBuilder.collect _extractCost parsedData filterFn) as [pre|] eqn:Hpre;
    [|done].
  injection H as <-. destruct (makeBidirectional_spec pre) as (Hk & Hm & Hs). split.
  - intros a b da db Ha Hb Hin.
    assert (Hopp : opposes (TraitsBuilder._makeBidirectional pre) b a).
    { apply Hs.
      - rewrite <- Hk. apply assoc_is_Some. eauto.
      - rewrite <- Hk. apply assoc_is_Some. eauto.
      - exists da. done. }
    destruct Hopp as (db' & Hdb' & Hin'). congruence.
  - intros pre' [= <-]. done.
Qed.

Lemma traits_closure_symmetric_witness :
  VStr "trait_strong" ∈ [VStr "trait_strong"].
Proof.
  refine (proj1 (traits_closure_symmetric (fun _ => Some tt)
    [("trait_strong", VObj [("cost", VNum 1 0); ("opposites", VArr [VStr "trait_weak"])]);
     ("trait_weak", VObj [("cost", VNum (-1) 0)])] None _ _)
    "trait_strong" "trait_weak"
    (TraitsBuilder.TraitDef tt [VStr "trait_weak"] None)
    (TraitsBuilder.TraitDef tt [VStr "trait_strong"] None) _ _ _).
  - vm_compute. reflexivity.
  - reflexivity.
  - reflexivity.
  - left.
Defined.

(** ** The lexer terminates *)

Section Lexer.
Import ParadoxParser.

Lemma skip_to_newline_ge rest i : i <= skip_to_newline rest i.
Proof.
  revert i. induction rest as [|c rest IH]; intros i; simpl; [lia|].
  case_decide; [lia|]. specialize (IH (S i)). lia.
Qed.

Lemma strip_loop_total fuel src i inQuote out :
  length src - i < fuel -> is_Some (strip_loop fuel src i inQuote out).
Proof.
  revert i inQuote out. induction fuel as [|fuel IH]; intros i q out Hf; [lia|].
  simpl. destruct (src !! i) as [ch|] eqn:Hch; [|eauto].
  apply lookup_lt_Some in Hch.
  case_decide; [apply IH; lia|].
  destruct (negb q && bool_decide (ch = hash)).
  - apply IH. pose proof (skip_to_newline_ge (drop i src) i). lia.
  - apply IH. lia.
Qed.

Lemma stripComments_total src : is_Some (_stripComments src).
Proof. apply strip_loop_total. lia. Qed.

Lemma read_string_ge src rest j str : j <= (read_string src rest j str).1.
Proof.
  revert j str. induction rest as [|c rest IH]; intros j str; simpl; [lia|].
  destruct (bool_decide (c = dquote) && Nat.even (backslashes_before src j)); simpl; [lia|].
  specialize (IH (S j) (str ++ [c])). lia.
Qed.

Lemma word_end_ge rest j : j <= word_end rest j.
Proof.
  revert j. induction rest as [|c rest IH]; intros j; simpl; [lia|].
  destruct (isWhitespace c || isSpecial c); [lia|]. specialize (IH (S j)). lia.
Qed.

(** A character that starts a word is consumed by the word. *)
Lemma word_end_progress src i ch :
  src !! i = Some ch -> isWhitespace ch = false -> isSpecial ch = false ->
  i < word_end (drop i src) i.
Proof.
  intros Hch Hw Hs. rewrite (drop_S _ _ _ Hch). simpl. rewrite Hw, Hs. simpl.
  pose proof (word_end_ge (drop (S i) src) (S i)). lia.
Qed.

Lemma tokenize_loop_total fuel src i tokens :
  length src - i < fuel -> is_Some (tokenize_loop fuel src i tokens).
Proof.
  revert i tokens. induction fuel as [|fuel IH]; intros i tokens Hf; [lia|].
  simpl. destruct (src !! i) as [ch|] eqn:Hch; [|eauto].
  pose proof (lookup_lt_Some _ _ _ Hch) as Hlt.
  destruct (isWhitespace ch) eqn:Hws; [apply IH; lia|].
  destruct (decide (ch = "{"%char)) as [|H1]; [apply IH; lia|].
  destruct (decide (ch = "}"%char)) as [|H2]; [apply IH; lia|].
  destruct (decide (ch = "="%char)) as [|H3]; [apply IH; lia|].
  destruct (decide (ch = dquote)) as [|H4].
  { pose proof (read_string_ge src (drop (S i) src) (S i) []) as Hge.
    destruct (read_string src (drop (S i) src) (S i) []) as [j str]. simpl in Hge.
    apply IH. lia. }
  case_bool_decide as H5.
  { case_decide; apply IH; lia. }
  apply IH. assert (i < word_end (drop i src) i); [|lia].
  apply (word_end_progress _ _ ch); [done | done |].
  unfold isSpecial. apply bool_decide_eq_false.
  rewrite !elem_of_cons, elem_of_nil. naive_solver.
Qed.

Lemma tokenize_total src : is_Some (_tokenize src).
Proof. apply tokenize_loop_total. lia. Qed.
End Lexer.

(** ** The parser: unfolding equations *)

Section ParserEquations.
Import ParadoxParser.

Lemma parseValue_nil fuel : _parseValue (S fuel) [] = Some (VNull, []).
Proof. reflexivity. Qed.

Lemma parseValue_cons fuel tk ts :
  _parseValue (S fuel) (tk :: ts) =
    match type tk with
    | TOpen => _parseBlock fuel ts
    | TString => Some (VStr (tvalue tk), ts)
    | TNumber => Some (Number (tvalue tk), ts)
    | TWord => Some (word_value (tvalue tk), ts)
    | TOp | TClose | TEquals => Some (VStr (tvalue tk), ts)
    end.
Proof. destruct tk as [[] v]; reflexivity. Qed.

Lemma parseBlock_S fuel ts :
  _parseBlock (S fuel) ts =
    match block_loop fuel [] [] ts with
    | Some (collected, rest) => Some (resolve collected.1 collected.2, rest)
    | None => None
    end.
Proof. reflexivity. Qed.

Lemma block_loop_nil fuel obj list :
  block_loop (S fuel) obj list [] = Some ((obj, list), []).
Proof. reflexivity. Qed.

Lemma block_loop_cons fuel obj list tk ts :
  block_loop (S fuel) obj list (tk :: ts) =
    match type tk with
    | TClose => Some ((obj, list), ts)
    | TWord =>
        match ts with
        | nxt :: ts' =>
            match type nxt with
            | TEquals =>
                match _parseValue fuel ts' with
                | Some (val, rest) => block_loop fuel (_assign obj (tvalue tk) val) list rest
                | None => None
                end
            | TOp =>
                match ts' with
                | operand :: rest =>
                    block_loop fuel obj
                      (list ++ [VStr
                         (if decide (type operand = TString)
                          then tvalue tk +:+ space +:+ tvalue nxt +:+ space
                               +:+ quoted (tvalue operand)
                          else tvalue tk +:+ space +:+ tvalue nxt +:+ space
                               +:+ tvalue operand)]) rest
                | [] =>
                    block_loop fuel obj
                      (list ++ [VStr (tvalue tk +:+ space +:+ tvalue nxt)]) []
                end
            | TOpen =>
                match _parseValue fuel ts with
                | Some (val, rest) => block_loop fuel (_assign obj (tvalue tk) val) list rest
                | None => None
                end
            | TClose | TString | TNumber | TWord =>
                block_loop fuel obj (list ++ [VStr (tvalue tk)]) ts
            end
        | [] => block_loop fuel obj (list ++ [VStr (tvalue tk)]) []
        end
    | TOpen =>
        match _parseValue fuel (tk :: ts) with
        | Some (val, rest) => block_loop fuel obj (list ++ [val]) rest
        | None => None
        end
    | TString | TOp | TEquals => block_loop fuel obj (list ++ [VStr (tvalue tk)]) ts
    | TNumber => block_loop fuel obj (list ++ [Number (tvalue tk)]) ts
    end.
Proof.
  destruct tk as [ty v]. destruct ty; try reflexivity.
  destruct ts as [|[ty' v'] ts']; [reflexivity|].
  destruct ty'; try reflexivity.
  destruct ts' as [|operand rest]; reflexivity.
Qed.

Lemma parse_loop_nil fuel out : parse_loop (S fuel) out [] = Some (out, []).
Proof. reflexivity. Qed.

Lemma parse_loop_cons fuel out tk ts :
  parse_loop (S fuel) out (tk :: ts) =
    if bool_decide (type tk = TWord) then
      match ts with
      | nxt :: ts' =>
          if bool_decide (type nxt = TEquals) then
            match _parseValue fuel ts' with
            | Some (val, rest) => parse_loop fuel (_assign out (tvalue tk) val) rest
            | None => None
            end
          else parse_loop fuel (_assign out (tvalue tk) (VBool true)) ts
      | [] => parse_loop fuel (_assign out (tvalue tk) (VBool true)) []
      end
    else parse_loop fuel out ts.
Proof.
  destruct tk as [ty v]. destruct ty; try reflexivity.
  destruct ts as [|[ty' v'] ts']; [reflexivity|].
  destruct ty'; reflexivity.
Qed.
End ParserEquations.

(** ** The parser terminates and never throws *)

Section ParserTotal.
Import ParadoxParser.

Lemma parser_total fuel :
  (forall ts, 3 * length ts + 1 <= fuel ->
     exists v ts', _parseValue fuel ts = Some (v, ts')
                   /\ length ts' <= length ts /\ (ts ≠ [] -> length ts' < length ts))
  /\ (forall ts, 3 * length ts + 3 <= fuel ->
        exists v ts', _parseBlock fuel ts = Some (v, ts') /\ length ts' <= length ts)
  /\ (forall ts obj list, 3 * length ts + 2 <= fuel ->
        exists c ts', block_loop fuel obj list ts = Some (c, ts')
                      /\ length ts' <= length ts).
Proof.
  induction fuel as [|fuel (IHv & IHb & IHl)]; [split_and!; intros; lia|].
  assert (Hl : forall ts obj list n, length ts <= n -> 3 * n + 2 <= fuel ->
            exists c ts', block_loop fuel obj list ts = Some (c, ts')
                          /\ length ts' <= n).
  { intros ts obj list n Hn Hf. destruct (IHl ts obj list) as (c & ts' & H & Hlen); [lia|].
    exists c, ts'. split; [done | lia]. }
  split_and!.
  - intros [|tk ts] Hf.
    + exists VNull, []. rewrite parseValue_nil. split_and!; [done | done | done].
    + rewrite parseValue_cons. simpl in Hf.
      destruct (type tk);
        try (eexists _, ts; split_and!; [done | simpl; lia | simpl; lia]).
      destruct (IHb ts) as (v & ts' & H & Hlen); [lia|].
      exists v, ts'. rewrite H. split_and!; [done | simpl; lia | simpl; lia].
  - intros ts Hf. rewrite parseBlock_S.
    destruct (IHl ts [] []) as (c & ts' & -> & Hlen); [lia|]. eauto.
  - intros [|tk ts] obj list Hf.
    + rewrite block_loop_nil. eauto.
    + rewrite block_loop_cons. simpl in Hf.
      assert (Hskip : forall l', exists c ts',
                block_loop fuel obj l' ts = Some (c, ts')
                /\ length ts' <= length (tk :: ts)).
      { intros l'. destruct (Hl ts obj l' (length ts)) as (c & ts' & H & Hlen);
          [lia | lia |].
        exists c, ts'. split; [done | simpl; lia]. }
      destruct (type tk); try apply Hskip.
      * destruct (IHv (tk :: ts)) as (val & rest & -> & Hlen & Hlt); [simpl; lia|].
        specialize (Hlt ltac:(done)). simpl in Hlt.
        destruct (Hl rest obj (list ++ [val]) (length ts)) as (c & ts' & H & Hlen');
          [lia | lia |].
        exists c, ts'. split; [done | simpl; lia].
      * eexists _, ts. split; [done | simpl; lia].
      * destruct ts as [|nxt ts']; [apply Hskip|]. simpl in Hf.
        destruct (type nxt); try apply Hskip.
        -- destruct (IHv (nxt :: ts')) as (val & rest & -> & Hlen & Hlt); [simpl; lia|].
           simpl in Hlen.
           destruct (Hl rest (_assign obj (tvalue tk) val) list (S (length ts')))
             as (c & ts'' & H & Hlen'); [lia | lia |].
           exists c, ts''. split; [done | simpl; lia].
        -- destruct (IHv ts') as (val & rest & -> & Hlen & _); [lia|].
           destruct (Hl rest (_assign obj (tvalue tk) val) list (length ts'))
             as (c & ts'' & H & Hlen'); [lia | lia |].
           exists c, ts''. split; [done | simpl; lia].
        -- destruct ts' as [|operand rest].
           ++ destruct (Hl [] obj (list ++ [VStr (tvalue tk +:+ space +:+ tvalue nxt)]) 0)
                as (c & ts'' & H & Hlen'); [simpl; lia | lia |].
              exists c, ts''. split; [done | simpl; lia].
           ++ simpl in Hf.
              match goal with |- context [block_loop fuel obj ?l' rest] =>
                destruct (Hl rest obj l' (length rest)) as (c & ts'' & H & Hlen');
                  [lia | lia |]
              end.
              exists c, ts''. split; [done | simpl; lia].
Qed.

Lemma parse_loop_total fuel ts out :
  3 * length ts + 1 <= fuel -> exists out', parse_loop fuel out ts = Some (out', []).
Proof.
  revert ts out. induction fuel as [|fuel IH]; intros ts out Hf; [lia|].
  destruct ts as [|tk ts]; [rewrite parse_loop_nil; eauto|].
  rewrite parse_loop_cons. simpl in Hf.
  case_bool_decide; [|apply IH; lia].
  destruct ts as [|nxt ts']; [apply IH; simpl; lia|]. simpl in Hf.
  case_bool_decide; [|apply IH; simpl; lia].
  destruct (proj1 (parser_total fuel) ts') as (val & rest & -> & Hl & _); [lia|].
  apply IH. lia.
Qed.

Lemma parse_tokens_total tokens : is_Some (parse_tokens tokens).
Proof.
  unfold parse_tokens, enough.
  destruct (parse_loop_total (3 * length tokens + 3) tokens []) as [out ->]; [lia|].
  simpl. eauto.
Qed.

(** More fuel does not change a result. *)
Lemma parser_mono fuel :
  (forall ts r, _parseValue fuel ts = Some r ->
     forall fuel', fuel <= fuel' -> _parseValue fuel' ts = Some r)
  /\ (forall ts r, _parseBlock fuel ts = Some r ->
        forall fuel', fuel <= fuel' -> _parseBlock fuel' ts = Some r)
  /\ (forall ts obj list r, block_loop fuel obj list ts = Some r ->
        forall fuel', fuel <= fuel' -> block_loop fuel' obj list ts = Some r).
Proof.
  induction fuel as [|fuel (IHv & IHb & IHl)]; [split_and!; intros; discriminate|].
  assert (Hbind : forall fuel' ts r
            (k k' : value -> list token -> option (containers * list token)),
    fuel <= fuel' ->
    (forall val rest, k val rest = Some r -> k' val rest = Some r) ->
    match _parseValue fuel ts with Some (val, rest) => k val rest | None => None end = Some r ->
    match _parseValue fuel' ts with Some (val, rest) => k' val rest | None => None end = Some r).
  { intros fuel' ts r k k' Hle Hk H.
    destruct (_parseValue fuel ts) as [[val rest]|] eqn:Hv; [|done].
    rewrite (IHv _ _ Hv fuel' Hle). by apply Hk. }
  split_and!.
  - intros ts r H [|fuel'] Hle; [lia|].
    destruct ts as [|tk ts]; [by rewrite parseValue_nil in *|].
    rewrite parseValue_cons in *. destruct (type tk); try done.
    apply IHb; [done | lia].
  - intros ts r H [|fuel'] Hle; [lia|]. rewrite parseBlock_S in *.
    destruct (block_loop fuel [] [] ts) as [[c rest]|] eqn:Hc; [|done].
    by rewrite (IHl _ _ _ _ Hc fuel' ltac:(lia)).
  - intros ts obj list r H [|fuel'] Hle; [lia|].
    destruct ts as [|tk ts]; [by rewrite block_loop_nil in *|].
    rewrite block_loop_cons in *.
    assert (Hle' : fuel <= fuel') by lia.
    destruct (type tk); try done; try (by apply IHl).
    + revert H. apply Hbind; [done|]. intros val rest Hk. by apply IHl.
    + destruct ts as [|nxt ts']; [by apply IHl|].
      destruct (type nxt); try (by apply IHl).
      * revert H. apply Hbind; [done|]. intros val rest Hk. by apply IHl.
      * revert H. apply Hbind; [done|]. intros val rest Hk. by apply IHl.
      * destruct ts' as [|operand rest]; by apply IHl.
Qed.

Lemma parse_loop_mono fuel ts out r :
  parse_loop fuel out ts = Some r ->
  forall fuel', fuel <= fuel' -> parse_loop fuel' out ts = Some r.
Proof.
  revert ts out. induction fuel as [|fuel IH]; intros ts out H [|fuel'] Hle;
    try done; try lia.
  destruct ts as [|tk ts]; [by rewrite parse_loop_nil in *|].
  rewrite parse_loop_cons in *. assert (Hle' : fuel <= fuel') by lia.
  case_bool_decide; [|by apply IH].
  destruct ts as [|nxt ts']; [by apply IH|].
  case_bool_decide; [|by apply IH].
  destruct (_parseValue fuel ts') as [[val rest]|] eqn:Hv; [|done].
  rewrite (proj1 (parser_mono fuel) _ _ Hv fuel' Hle'). by apply IH.
Qed.

(** The result of [parse_tokens] is the result of the loop at any
    sufficient fuel. *)
Lemma parse_tokens_any_fuel fuel tokens out rest :
  parse_loop fuel [] tokens = Some (out, rest) -> parse_tokens tokens = Some out.
Proof.
  intros H. unfold parse_tokens.
  destruct (parse_loop_total (enough tokens) tokens []) as [out' Hout'];
    [unfold enough; lia|].
  rewrite Hout'. simpl. f_equal.
  pose proof (parse_loop_mono _ _ _ _ H (Nat.max fuel (enough tokens)) ltac:(lia)) as H1.
  pose proof (parse_loop_mono _ _ _ _ Hout' (Nat.max fuel (enough tokens)) ltac:(lia)) as H2.
  congruence.
Qed.
(** Parsing only moves forward: what is left is a suffix of the tokens. *)
Lemma parser_suffix fuel :
  (forall ts v rest, _parseValue fuel ts = Some (v, rest) -> rest `suffix_of` ts)
  /\ (forall ts v rest, _parseBlock fuel ts = Some (v, rest) -> rest `suffix_of` ts)
  /\ (forall ts obj list c rest,
        block_loop fuel obj list ts = Some (c, rest) -> rest `suffix_of` ts).
Proof.
  induction fuel as [|fuel (IHv & IHb & IHl)]; [split_and!; intros; discriminate|].
  assert (Hval : forall ts ts0 c rest
            (k : value -> list token -> option (containers * list token)),
    ts `suffix_of` ts0 ->
    (forall val rest', k val rest' = Some (c, rest) -> rest `suffix_of` rest') ->
    match _parseValue fuel ts with Some (val, rest') => k val rest' | None => None end
      = Some (c, rest) ->
    rest `suffix_of` ts0).
  { intros ts ts0 c rest k Hts Hk H.
    destruct (_parseValue fuel ts) as [[val rest']|] eqn:Hv; [|done].
    etrans; [exact (Hk _ _ H)|]. etrans; [exact (IHv _ _ _ Hv) | done]. }
  split_and!.
  - intros [|tk ts] v rest H.
    + rewrite parseValue_nil in H. by injection H as <- <-.
    + rewrite parseValue_cons in H.
      destruct (type tk); try (injection H as <- <-; by apply suffix_cons_r).
      apply suffix_cons_r. by eapply IHb.
  - intros ts v rest H. rewrite parseBlock_S in H.
    destruct (block_loop fuel [] [] ts) as [[c rest']|] eqn:Hc; [|done].
    injection H as <- <-. by eapply IHl.
  - intros [|tk ts] obj list c rest H.
    + rewrite block_loop_nil in H. by injection H as <- <-.
    + rewrite block_loop_cons in H.
      assert (Hskip : forall l', block_loop fuel obj l' ts = Some (c, rest) ->
                rest `suffix_of` tk :: ts).
      { intros l' H'. apply suffix_cons_r. by eapply IHl. }
      destruct (type tk); try (by eapply Hskip).
      * revert H. apply Hval; [done|]. intros val rest' Hk. by eapply IHl.
      * injection H as <- <-. by apply suffix_cons_r.
      * destruct ts as [|nxt ts']; [by eapply Hskip|].
        destruct (type nxt); try (by eapply Hskip).
        -- revert H. apply Hval; [by apply suffix_cons_r|].
           intros val rest' Hk. by eapply IHl.
        -- revert H. apply Hval; [by do 2 apply suffix_cons_r|].
           intros val rest' Hk. by eapply IHl.
        -- destruct ts' as [|operand rest0].
           ++ apply suffix_cons_r. apply suffix_cons_r. by eapply IHl.
           ++ do 3 apply suffix_cons_r. by eapply IHl.
Qed.
End ParserTotal.

(** ** The parser on a call stack *)

Section ParserStack.
Import ParadoxParser.

Lemma opens_cons tk ts :
  opens (tk :: ts) = (if decide (type tk = TOpen) then S (opens ts) else opens ts).
Proof. unfold opens. rewrite filter_cons. by case_decide. Qed.

Lemma opens_cons_le tk ts : opens ts <= opens (tk :: ts).
Proof. rewrite opens_cons. case_decide; lia. Qed.

Lemma opens_suffix rest ts : rest `suffix_of` ts -> opens rest <= opens ts.
Proof.
  intros [pre ->]. unfold opens. rewrite filter_app, length_app. lia.
Qed.

Lemma within_stack_mono {A : Type} b b' frames (o : outcome A) r :
  within_stack b frames o r -> b <= b' -> within_stack b' frames o r.
Proof. intros [H|[H Hlt]] Hle; [by left | right; split; [done | lia]]. Qed.

Lemma within_stack_overflow {A : Type} b frames (r : A * list token) :
  frames < b -> within_stack b frames (Throws RangeError) r.
Proof. intros H. by right. Qed.

Lemma parseValue_on_0 fuel ts : _parseValue_on (S fuel) 0 ts = Throws RangeError.
Proof. reflexivity. Qed.

Lemma parseValue_on_1 fuel ts : _parseValue_on (S fuel) 1 ts = Throws RangeError.
Proof. reflexivity. Qed.

Lemma parseValue_on_nil fuel frames : _parseValue_on (S fuel) (S (S frames)) [] = Returns VNull [].
Proof. reflexivity. Qed.

Lemma parseValue_on_cons fuel frames tk ts :
  _parseValue_on (S fuel) (S (S frames)) (tk :: ts) =
    match type tk with
    | TOpen => _parseBlock_on fuel (S frames) ts
    | TString => Returns (VStr (tvalue tk)) ts
    | TNumber => Returns (Number (tvalue tk)) ts
    | TWord => Returns (word_value (tvalue tk)) ts
    | TOp | TClose | TEquals => Returns (VStr (tvalue tk)) ts
    end.
Proof. destruct tk as [[] v]; reflexivity. Qed.

Lemma parseBlock_on_0 fuel ts : _parseBlock_on (S fuel) 0 ts = Throws RangeError.
Proof. reflexivity. Qed.

Lemma parseBlock_on_S fuel frames ts :
  _parseBlock_on (S fuel) (S frames) ts =
    and_then (block_loop_on fuel frames [] [] ts)
             (fun collected ts => Returns (resolve collected.1 collected.2) ts).
Proof. reflexivity. Qed.

Lemma block_loop_on_0 fuel obj list ts :
  block_loop_on (S fuel) 0 obj list ts = Throws RangeError.
Proof. reflexivity. Qed.

Lemma block_loop_on_nil fuel frames obj list :
  block_loop_on (S fuel) (S frames) obj list [] = Returns (obj, list) [].
Proof. reflexivity. Qed.

Lemma block_loop_on_cons fuel frames obj list tk ts :
  block_loop_on (S fuel) (S frames) obj list (tk :: ts) =
    match type tk with
    | TClose => Returns (obj, list) ts
    | TWord =>
        match ts with
        | nxt :: ts' =>
            match type nxt with
            | TEquals =>
                and_then (_parseValue_on fuel (S frames) ts') (fun val rest =>
                block_loop_on fuel (S frames) (_assign obj (tvalue tk) val) list rest)
            | TOp =>
                match ts' with
                | operand :: rest =>
                    block_loop_on fuel (S frames) obj
                      (list ++ [VStr
                         (if decide (type operand = TString)
                          then tvalue tk +:+ space +:+ tvalue nxt +:+ space
                               +:+ quoted (tvalue operand)
                          else tvalue tk +:+ space +:+ tvalue nxt +:+ space
                               +:+ tvalue operand)]) rest
                | [] =>
                    block_loop_on fuel (S frames) obj
                      (list ++ [VStr (tvalue tk +:+ space +:+ tvalue nxt)]) []
                end
            | TOpen =>
                and_then (_parseValue_on fuel (S frames) ts) (fun val rest =>
                block_loop_on fuel (S frames) (_assign obj (tvalue tk) val) list rest)
            | TClose | TString | TNumber | TWord =>
                block_loop_on fuel (S frames) obj (list ++ [VStr (tvalue tk)]) ts
            end
        | [] => block_loop_on fuel (S frames) obj (list ++ [VStr (tvalue tk)]) []
        end
    | TOpen =>
        and_then (_parseValue_on fuel (S frames) (tk :: ts)) (fun val rest =>
        block_loop_on fuel (S frames) obj (list ++ [val]) rest)
    | TString | TOp | TEquals =>
        block_loop_on fuel (S frames) obj (list ++ [VStr (tvalue tk)]) ts
    | TNumber => block_loop_on fuel (S frames) obj (list ++ [Number (tvalue tk)]) ts
    end.
Proof.
  destruct tk as [ty v]. destruct ty; try reflexivity.
  destruct ts as [|[ty' v'] ts']; [reflexivity|].
  destruct ty'; try reflexivity.
  destruct ts' as [|operand rest]; reflexivity.
Qed.

Lemma parse_loop_on_0 fuel out ts : parse_loop_on (S fuel) 0 out ts = Throws RangeError.
Proof. reflexivity. Qed.

Lemma parse_loop_on_nil fuel frames out :
  parse_loop_on (S fuel) (S frames) out [] = Returns out [].
Proof. reflexivity. Qed.

Lemma parse_loop_on_cons fuel frames out tk ts :
  parse_loop_on (S fuel) (S frames) out (tk :: ts) =
    if bool_decide (type tk = TWord) then
      match ts with
      | nxt :: ts' =>
          if bool_decide (type nxt = TEquals) then
            and_then (_parseValue_on fuel (S frames) ts') (fun val rest =>
            parse_loop_on fuel (S frames) (_assign out (tvalue tk) val) rest)
          else parse_loop_on fuel (S frames) (_assign out (tvalue tk) (VBool true)) ts
      | [] => parse_loop_on fuel (S frames) (_assign out (tvalue tk) (VBool true)) []
      end
    else parse_loop_on fuel (S frames) out ts.
Proof.
  destruct tk as [ty v]. destruct ty; try reflexivity.
  destruct ts as [|[ty' v'] ts']; [reflexivity|].
  destruct ty'; reflexivity.
Qed.

(** With the stack, the parser returns what it returns without, or
    overflows where the stack holds fewer than two frames for every open
    brace and two more. *)
Lemma parser_within_stack fuel :
  (forall frames ts r, _parseValue fuel ts = Some r ->
     within_stack (2 * opens ts + 2) frames (_parseValue_on fuel frames ts) r)
  /\ (forall frames ts r, _parseBlock fuel ts = Some r ->
        within_stack (2 * opens ts + 3) frames (_parseBlock_on fuel frames ts) r)
  /\ (forall frames ts obj list r, block_loop fuel obj list ts = Some r ->
        within_stack (2 * opens ts + 2) frames (block_loop_on fuel frames obj list ts) r).
Proof.
  induction fuel as [|fuel (IHv & IHb & IHl)]; [split_and!; intros; discriminate|].
  assert (Hbind : forall frames ts1 b r
            (k : value -> list token -> option (containers * list token))
            (k' : value -> list token -> outcome containers),
    2 * opens ts1 + 2 <= b ->
    (forall val rest, opens rest <= opens ts1 -> k val rest = Some r ->
       within_stack b frames (k' val rest) r) ->
    match _parseValue fuel ts1 with Some (val, rest) => k val rest | None => None end = Some r ->
    within_stack b frames (and_then (_parseValue_on fuel frames ts1) k') r).
  { intros frames ts1 b r k k' Hb Hk H.
    destruct (_parseValue fuel ts1) as [[val rest]|] eqn:Hv; [|done].
    destruct (IHv frames _ _ Hv) as [Hret|[Hof Hlt]].
    - simpl in Hret. rewrite Hret. simpl. apply Hk; [|done].
      apply opens_suffix. by apply (proj1 (parser_suffix fuel) _ _ _ Hv).
    - rewrite Hof. simpl. right. split; [done | lia]. }
  split_and!.
  - intros [|[|frames]] ts [v rest] H.
    + rewrite parseValue_on_0. apply within_stack_overflow. lia.
    + rewrite parseValue_on_1. apply within_stack_overflow. lia.
    + destruct ts as [|tk ts].
      * rewrite parseValue_nil in H. injection H as <- <-. by left.
      * rewrite parseValue_cons in H. rewrite parseValue_on_cons.
        destruct (type tk) eqn:Hty; try (injection H as <- <-; by left).
        destruct (IHb (S frames) _ _ H) as [Hret|[Hof Hlt]]; [by left|].
        right. split; [done|]. rewrite opens_cons, decide_True by done. lia.
  - intros [|frames] ts [v rest] H.
    + rewrite parseBlock_on_0. apply within_stack_overflow. lia.
    + rewrite parseBlock_S in H. rewrite parseBlock_on_S.
      destruct (block_loop fuel [] [] ts) as [[c rest']|] eqn:Hc; [|done].
      injection H as <- <-.
      destruct (IHl frames _ _ _ _ Hc) as [Hret|[Hof Hlt]].
      * rewrite Hret. by left.
      * rewrite Hof. right. split; [done | lia].
  - intros [|frames] ts obj list [c rest] H.
    + rewrite block_loop_on_0. apply within_stack_overflow. lia.
    + destruct ts as [|tk ts].
      * rewrite block_loop_nil in H. injection H as <- <-. by left.
      * rewrite block_loop_cons in H. rewrite block_loop_on_cons.
        assert (Hskip : forall l' ts1, opens ts1 <= opens (tk :: ts) ->
                  block_loop fuel obj l' ts1 = Some (c, rest) ->
                  within_stack (2 * opens (tk :: ts) + 2) (S frames)
                    (block_loop_on fuel (S frames) obj l' ts1) (c, rest)).
        { intros l' ts1 Hle H'. eapply within_stack_mono; [by apply IHl | lia]. }
        pose proof (opens_cons_le tk ts) as Hts.
        destruct (type tk); try (by apply Hskip).
        -- revert H. apply Hbind; [lia|]. intros val rest1 Hle Hk.
           eapply within_stack_mono; [by apply IHl | lia].
        -- injection H as <- <-. by left.
        -- destruct ts as [|nxt ts']; [by apply Hskip|].
           pose proof (opens_cons_le nxt ts') as Hts'.
           destruct (type nxt); try (by apply Hskip).
           ++ revert H. apply Hbind; [lia|]. intros val rest1 Hle Hk.
              eapply within_stack_mono; [by apply IHl | lia].
           ++ revert H. apply Hbind; [lia|]. intros val rest1 Hle Hk.
              eapply within_stack_mono; [by apply IHl | lia].
           ++ destruct ts' as [|operand rest0].
              ** apply Hskip; [|done]. unfold opens. simpl. lia.
              ** pose proof (opens_cons_le operand rest0). apply Hskip; [lia | done].
Qed.

Lemma parse_loop_within_stack fuel : forall frames ts out r,
  parse_loop fuel out ts = Some r ->
  within_stack (2 * opens ts + 2) frames (parse_loop_on fuel frames out ts) r.
Proof.
  induction fuel as [|fuel IH]; intros frames ts out [out' rest] H; [done|].
  destruct frames as [|frames].
  { rewrite parse_loop_on_0. apply within_stack_overflow. lia. }
  destruct ts as [|tk ts].
  { rewrite parse_loop_nil in H. injection H as <- <-. by left. }
  rewrite parse_loop_cons in H. rewrite parse_loop_on_cons.
  pose proof (opens_cons_le tk ts) as Hts.
  assert (Hskip : forall o ts1, opens ts1 <= opens (tk :: ts) ->
            parse_loop fuel o ts1 = Some (out', rest) ->
            within_stack (2 * opens (tk :: ts) + 2) (S frames)
              (parse_loop_on fuel (S frames) o ts1) (out', rest)).
  { intros o ts1 Hle H'. eapply within_stack_mono; [by apply IH | lia]. }
  case_bool_decide; [|by apply Hskip].
  destruct ts as [|nxt ts']; [apply Hskip; [|done]; unfold opens; simpl; lia|].
  pose proof (opens_cons_le nxt ts') as Hts'.
  case_bool_decide; [|by apply Hskip].
  destruct (_parseValue fuel ts') as [[val rest1]|] eqn:Hv; [|done].
  destruct (proj1 (parser_within_stack fuel) (S frames) _ _ Hv) as [Hret|[Hof Hlt]].
  - simpl in Hret. rewrite Hret. simpl. apply Hskip; [|done].
    pose proof (opens_suffix _ _ (proj1 (parser_suffix fuel) _ _ _ Hv)). lia.
  - rewrite Hof. simpl. right. split; [done | lia].
Qed.

(** Nested open braces overflow a stack that holds no more frames than
    there are braces. *)
Lemma open_braces_overflow : forall frames n fuel,
  frames <= n -> 3 * frames + 1 <= fuel ->
  _parseValue_on fuel frames (replicate n (Token TOpen "{")) = Throws RangeError.
Proof.
  intros frames. induction frames as [frames IH] using lt_wf_ind.
  intros n fuel Hn Hf.
  destruct fuel as [|fuel]; [lia|].
  destruct frames as [|[|frames]]; [reflexivity | reflexivity |].
  destruct n as [|n]; [lia|]. cbn [replicate]. rewrite parseValue_on_cons. cbn [type].
  destruct fuel as [|fuel]; [lia|]. rewrite parseBlock_on_S.
  destruct fuel as [|fuel]; [lia|].
  destruct frames as [|frames]; [reflexivity|].
  destruct n as [|n]; [lia|]. cbn [replicate]. rewrite block_loop_on_cons. cbn [type].
  change (Token TOpen "{" :: replicate n (Token TOpen "{"))
    with (replicate (S n) (Token TOpen "{")).
  rewrite (IH (S frames)) by lia. reflexivity.
Qed.

Lemma deep_overflows frames : parse_tokens_on frames (deep frames) = Throws RangeError.
Proof.
  unfold parse_tokens_on, enough, deep.
  destruct frames as [|frames]; [reflexivity|].
  cbn [length]. rewrite length_replicate.
  replace (3 * S (S (S frames)) + 3) with (S (3 * S frames + 8)) by lia.
  rewrite parse_loop_on_cons. cbn [type]. rewrite !bool_decide_true by done.
  rewrite open_braces_overflow by lia. reflexivity.
Qed.
End ParserStack.

(** C6 (as the code has it).  On every token sequence and every text
    the parser returns a mapping or overflows the call stack, and it
    overflows only where the stack holds fewer than two frames for every
    open brace of the input and two more (three more for a text, whose
    lexer nests three calls): whatever the braces, the quotes and the
    last token are, no [TypeError] is thrown and no loop runs on.  The
    comment stripper and the lexer return on every text, and the loop of
    a block that meets the end of the input stops there with what it has
    collected. *)
Theorem parse_returns_within_stack :
  (forall frames tokens, exists out,
     ParadoxParser.parse_tokens tokens = Some out
     /\ within_stack (2 * opens tokens + 2) frames
          (ParadoxParser.parse_tokens_on frames tokens) (out, []))
  /\ (forall frames text, exists out tokens,
        ParadoxParser.parse text = Some (VObj out)
        /\ lex text = Some tokens
        /\ within_stack (2 * opens tokens + 3) frames
             (ParadoxParser.parse_on frames text) (VObj out, []))
  /\ (forall src, is_Some (ParadoxParser._stripComments src)
                  /\ is_Some (ParadoxParser._tokenize src))
  /\ (forall fuel frames obj list,
        ParadoxParser.block_loop (S fuel) obj list [] = Some ((obj, list), [])
        /\ ParadoxParser.block_loop_on (S fuel) (S frames) obj list []
           = ParadoxParser.Returns (obj, list) []).
Proof.
  assert (Htokens : forall frames tokens, exists out,
    ParadoxParser.parse_tokens tokens = Some out
    /\ within_stack (2 * opens tokens + 2) frames
         (ParadoxParser.parse_tokens_on frames tokens) (out, [])).
  { intros frames tokens. unfold ParadoxParser.parse_tokens, ParadoxParser.parse_tokens_on.
    destruct (parse_loop_total (ParadoxParser.enough tokens) tokens [])
      as [out Hout]; [unfold ParadoxParser.enough; lia|].
    exists out. rewrite Hout. split; [done|].
    by apply (parse_loop_within_stack _ frames _ _ _ Hout). }
  split_and!.
  - exact Htokens.
  - intros frames text. unfold ParadoxParser.parse, ParadoxParser.parse_on, lex.
    destruct (stripComments_total
                (ParadoxParser.normalize_newlines (list_ascii_of_string text))) as [src ->].
    cbn [mbind option_bind].
    destruct (tokenize_total src) as [tokens ->]. cbn [mbind option_bind].
    destruct (Htokens frames tokens) as (out & -> & Hw). cbn [mbind option_bind].
    exists out, tokens. split_and!; [done | done |].
    assert (Hdepth : ParadoxParser.lexer_depth src <= 3) by (destruct src; simpl; lia).
    destruct (Nat.ltb_spec frames (ParadoxParser.lexer_depth src)) as [Hlt|Hge].
    + right. split; [done | lia].
    + destruct Hw as [Hret|[Hof Hlt]].
      * left. simpl in Hret. by rewrite Hret.
      * right. rewrite Hof. split; [done | lia].
  - intros src. split; [apply stripComments_total | apply tokenize_total].
  - intros. split; [apply block_loop_nil | apply block_loop_on_nil].
Qed.

(** C6 as stated fails on blocks that nest deeper than the call stack
    holds: [_parseValue] and [_parseBlock] call each other for every open
    brace, and an unbalanced input of a word, an equals sign and open
    braces overflows a stack of as many frames as it has braces. *)
Lemma deep_nesting_overflows :
  ParadoxParser.parse_on 8 "a = { { { {" = ParadoxParser.Throws ParadoxParser.RangeError
  /\ lex "a = { { { {" = Some (deep 4)
  /\ ParadoxParser.parse_tokens_on 8 (deep 4) = ParadoxParser.Throws ParadoxParser.RangeError
  /\ (forall frames,
        ParadoxParser.parse_tokens_on frames (deep frames)
        = ParadoxParser.Throws ParadoxParser.RangeError).
Proof. split_and!; [reflexivity | reflexivity | reflexivity | apply deep_overflows]. Qed.

(** ** Blocks and documents made of items *)

Section Items.
Import ParadoxParser.

Lemma tokens_of_cons it items : tokens_of (it :: items) = item_tokens it ++ tokens_of items.
Proof. reflexivity. Qed.

Lemma top_tokens_of_cons it items :
  top_tokens_of (it :: items) = top_item_tokens it ++ top_tokens_of items.
Proof. reflexivity. Qed.

(** What [_parseValue] read is a value at the place where it stopped. *)
Lemma value_at_run fuel ts v rest :
  _parseValue fuel ts = Some (v, rest) ->
  exists pre, ts = pre ++ rest /\ value_at pre rest v.
Proof.
  intros H. destruct (proj1 (parser_suffix fuel) _ _ _ H) as [pre ->].
  exists pre. split; [done|]. exists fuel. intros fuel' Hf.
  by apply (proj1 (parser_mono fuel) _ _ H).
Qed.

Lemma has_type_head ty tk ts : has_type ty (head (tk :: ts)) = bool_decide (type tk = ty).
Proof. reflexivity. Qed.

(** The loop of a block on a sequence of items. *)
Lemma block_of_items items : forall tail rest,
  items_ok items tail -> closes tail rest ->
  exists F, forall fuel obj list,
    F <= fuel ->
    block_loop fuel obj list (tokens_of items ++ tail)
    = Some ((assign_all obj (assignments items), list ++ bare_items items), rest).
Proof.
  induction items as [|it items IH]; intros tail rest Hok Hc.
  - exists 1. intros [|fuel] obj list Hf; [lia|].
    change (tokens_of [] ++ tail) with tail.
    change (assign_all obj (assignments [])) with obj.
    change (bare_items []) with (@nil value). rewrite app_nil_r.
    destruct Hc as [[-> ->]|[c ->]]; [apply block_loop_nil|].
    by rewrite block_loop_cons.
  - destruct Hok as [Hit Hok]. destruct (IH tail rest Hok Hc) as [F HF].
    set (after := tokens_of items ++ tail) in *.
    assert (Hnext : forall fuel obj list x,
      F <= fuel ->
      block_loop fuel obj (list ++ [x]) after
      = Some ((assign_all obj (assignments items), list ++ x :: bare_items items), rest)).
    { intros fuel obj list x Hf. rewrite (HF fuel obj (list ++ [x]) Hf).
      by rewrite <- app_assoc. }
    destruct it as [w|k e ts v|k ts v|w op operand|ts v|t]; simpl in Hit.
    + exists (S F). intros [|fuel] obj list Hf; [lia|].
      rewrite tokens_of_cons, <- app_assoc. fold after. simpl app.
      rewrite block_loop_cons. cbn [type tvalue].
      destruct Hit as (He & Ho & Hb).
      destruct after as [|nxt ts'] eqn:Hafter.
      * apply Hnext. lia.
      * rewrite has_type_head in He, Ho, Hb.
        apply bool_decide_eq_false in He, Ho, Hb.
        destruct (type nxt); try done; apply Hnext; lia.
    + destruct Hit as [Fv Hv]. exists (S (Nat.max F Fv)).
      intros [|fuel] obj list Hf; [lia|].
      rewrite tokens_of_cons, <- app_assoc. fold after. simpl app.
      rewrite block_loop_cons. cbn [type tvalue].
      rewrite Hv by lia. apply HF. lia.
    + destruct Hit as [Hopen [Fv Hv]]. exists (S (Nat.max F Fv)).
      intros [|fuel] obj list Hf; [lia|].
      destruct ts as [|t ts']; [done|]. rewrite has_type_head in Hopen.
      apply bool_decide_eq_true in Hopen.
      rewrite tokens_of_cons, <- app_assoc. fold after.
      change (item_tokens (Implicit k (t :: ts') v) ++ after)
        with (Token TWord k :: t :: ts' ++ after).
      rewrite block_loop_cons. cbn [type tvalue]. rewrite Hopen.
      change (t :: ts' ++ after) with ((t :: ts') ++ after).
      rewrite Hv by lia. apply HF. lia.
    + exists (S F). intros [|fuel] obj list Hf; [lia|].
      rewrite tokens_of_cons, <- app_assoc. fold after. simpl app.
      rewrite block_loop_cons. cbn [type tvalue].
      destruct operand as [t|]; simpl.
      * apply Hnext. lia.
      * rewrite (Hit eq_refl). rewrite (Hit eq_refl) in Hnext. apply Hnext. lia.
    + destruct Hit as [Hopen [Fv Hv]]. exists (S (Nat.max F Fv)).
      intros [|fuel] obj list Hf; [lia|].
      destruct ts as [|t ts']; [done|]. rewrite has_type_head in Hopen.
      apply bool_decide_eq_true in Hopen.
      rewrite tokens_of_cons, <- app_assoc. fold after.
      change (item_tokens (Anonymous (t :: ts') v) ++ after)
        with (t :: ts' ++ after).
      rewrite block_loop_cons, Hopen.
      change (t :: ts' ++ after) with ((t :: ts') ++ after).
      rewrite Hv by lia. apply Hnext. lia.
    + exists (S F). intros [|fuel] obj list Hf; [lia|].
      rewrite tokens_of_cons, <- app_assoc. fold after. simpl app.
      rewrite block_loop_cons. unfold literal_value.
      destruct Hit as [Ht|[Ht|[Ht|Ht]]]; rewrite Ht; apply Hnext; lia.
Qed.

Lemma parseBlock_of_items items tail rest :
  items_ok items tail -> closes tail rest ->
  exists F, forall fuel,
    F <= fuel ->
    _parseBlock fuel (tokens_of items ++ tail)
    = Some (resolve (assign_all [] (assignments items)) (bare_items items), rest).
Proof.
  intros Hok Hc. destruct (block_of_items items tail rest Hok Hc) as [F HF]. exists (S F).
  intros [|fuel] Hf; [lia|]. rewrite parseBlock_S.
  by rewrite (HF fuel [] []) by lia.
Qed.

(** The loop of [parse] on a sequence of top-level items. *)
Lemma document_of_items items :
  top_items_ok items ->
  exists F, forall fuel out,
    F <= fuel ->
    parse_loop fuel out (top_tokens_of items)
    = Some (assign_all out (top_assignments items), []).
Proof.
  induction items as [|it items IH]; intros Hok.
  - exists 1. intros [|fuel] out Hf; [lia|]. apply parse_loop_nil.
  - destruct Hok as [Hit Hok]. destruct (IH Hok) as [F HF].
    destruct it as [t|k e ts v|w]; simpl in Hit.
    + exists (S F). intros [|fuel] out Hf; [lia|].
      rewrite top_tokens_of_cons. simpl app. rewrite parse_loop_cons.
      rewrite bool_decide_false by done. apply HF. lia.
    + destruct Hit as [Fv Hv]. exists (S (Nat.max F Fv)).
      intros [|fuel] out Hf; [lia|].
      rewrite top_tokens_of_cons. simpl app. rewrite parse_loop_cons. cbn [type tvalue].
      rewrite !bool_decide_true by done. rewrite Hv by lia. apply HF. lia.
    + exists (S F). intros [|fuel] out Hf; [lia|].
      rewrite top_tokens_of_cons. simpl app. rewrite parse_loop_cons. cbn [type tvalue].
      rewrite bool_decide_true by done.
      change (assign_all out (top_assignments (TopBare w :: items)))
        with (assign_all (_assign out w (VBool true)) (top_assignments items)).
      destruct (top_tokens_of items) as [|nxt ts'] eqn:Hts.
      * apply HF. lia.
      * rewrite has_type_head in Hit. rewrite Hit. apply HF. lia.
Qed.

Lemma parse_tokens_items items :
  top_items_ok items ->
  parse_tokens (top_tokens_of items) = Some (assign_all [] (top_assignments items)).
Proof.
  intros Hok. destruct (document_of_items items Hok) as [F HF].
  eapply parse_tokens_any_fuel. apply (HF F). lia.
Qed.

(** Every token sequence is a sequence of items of a block, up to the
    brace that closes the block or to the end of the input. *)
Lemma block_items_exist n : forall ts,
  length ts <= n ->
  exists items tail rest,
    ts = tokens_of items ++ tail /\ closes tail rest /\ items_ok items tail.
Proof.
  induction n as [|n IH]; intros ts Hn.
  { destruct ts; [|simpl in Hn; lia]. exists [], [], []. split_and!; [done | by left | done]. }
  assert (Hval : forall ts0, length ts0 <= S n -> ts0 ≠ [] ->
    exists v pre rest0, ts0 = pre ++ rest0 /\ value_at pre rest0 v
                        /\ length rest0 <= n /\ head pre = head ts0).
  { intros ts0 Hlen Hne.
    destruct (proj1 (parser_total (3 * length ts0 + 1)) ts0 ltac:(lia))
      as (v & rest0 & Hrun & _ & Hlt).
    specialize (Hlt Hne).
    destruct (value_at_run _ _ _ _ Hrun) as (pre & -> & Hat).
    exists v, pre, rest0. split_and!; [done | done | lia |].
    destruct pre; [|done]. simpl in Hlt. lia. }
  assert (Hstep : forall it ts1,
    length ts1 <= n -> ts = item_tokens it ++ ts1 ->
    (forall items tail, ts1 = tokens_of items ++ tail -> item_ok it (tokens_of items ++ tail)) ->
    exists items tail rest,
      ts = tokens_of items ++ tail /\ closes tail rest /\ items_ok items tail).
  { intros it ts1 Hlen -> Hit.
    destruct (IH ts1 Hlen) as (items & tail & rest & Hts1 & Hc & Hok).
    exists (it :: items), tail, rest. split_and!; [|done|].
    - by rewrite tokens_of_cons, <- app_assoc, <- Hts1.
    - split; [by apply Hit | done]. }
  destruct ts as [|tk ts1].
  { exists [], [], []. split_and!; [done | by left | done]. }
  simpl in Hn. destruct tk as [ty w]. destruct ty.
  - (* an open brace: a block without a name *)
    destruct (Hval (Token TOpen w :: ts1)) as (v & pre & rest0 & Hts & Hat & Hlen & Hhead);
      [simpl; lia | done |].
    apply (Hstep (Anonymous pre v) rest0); [done | done |].
    intros items tail ->. simpl. split; [by rewrite Hhead | done].
  - (* a closing brace *)
    exists [], (Token TClose w :: ts1), ts1. split_and!; [done | right; eauto | done].
  - (* an equals sign, a quoted string or a number standing alone *)
    apply (Hstep (Literal (Token TEquals w)) ts1); [lia | done |].
    intros items tail _. simpl. eauto.
  - apply (Hstep (Literal (Token TString w)) ts1); [lia | done |].
    intros items tail _. simpl. eauto.
  - apply (Hstep (Literal (Token TNumber w)) ts1); [lia | done |].
    intros items tail _. simpl. eauto.
  - (* a word *)
    destruct ts1 as [|[ty' w'] ts2].
    { apply (Hstep (Bare w) []); [simpl; lia | done |].
      intros items tail Heq. by rewrite <- Heq. }
    simpl in Hn.
    assert (Hbare : ty' ≠ TEquals -> ty' ≠ TOp -> ty' ≠ TOpen ->
      exists items tail rest,
        Token TWord w :: Token ty' w' :: ts2 = tokens_of items ++ tail
        /\ closes tail rest /\ items_ok items tail).
    { intros H1 H2 H3. apply (Hstep (Bare w) (Token ty' w' :: ts2)); [simpl; lia | done |].
      intros items tail Heq. rewrite <- Heq. simpl.
      rewrite !bool_decide_false by done. done. }
    destruct ty'; try (by apply Hbare).
    + (* k { ... } *)
      destruct (Hval (Token TOpen w' :: ts2)) as (v & pre & rest0 & Hts & Hat & Hlen & Hhead);
        [simpl; lia | done |].
      apply (Hstep (Implicit w pre v) rest0); [lia | by rewrite Hts |].
      intros items tail ->. simpl. split; [by rewrite Hhead | done].
    + (* k = value *)
      destruct ts2 as [|tk2 ts3].
      * apply (Hstep (Pair w w' [] VNull) []); [simpl; lia | done |].
        intros items tail Heq. rewrite <- Heq. simpl. exists 1.
        intros [|fuel] Hf; [lia | apply parseValue_nil].
      * destruct (Hval (tk2 :: ts3)) as (v & pre & rest0 & Hts & Hat & Hlen & _);
          [simpl in *; lia | done |].
        apply (Hstep (Pair w w' pre v) rest0); [lia | by rewrite Hts |].
        by intros items tail ->.
    + (* w op operand *)
      destruct ts2 as [|operand ts3].
      * apply (Hstep (Comparison w w' None) []); [simpl; lia | done |].
        intros items tail Heq _. by rewrite <- Heq.
      * apply (Hstep (Comparison w w' (Some operand)) ts3); [simpl in *; lia | done |].
        by intros items tail _ [=].
  - (* an operator standing alone *)
    apply (Hstep (Literal (Token TOp w)) ts1); [lia | done |].
    intros items tail _. simpl. eauto.
Qed.

(** Every token sequence is a sequence of items of the top level. *)
Lemma top_items_exist n : forall ts,
  length ts <= n -> exists items, ts = top_tokens_of items /\ top_items_ok items.
Proof.
  induction n as [|n IH]; intros ts Hn.
  { destruct ts; [|simpl in Hn; lia]. by exists []. }
  assert (Hstep : forall it ts1,
    length ts1 <= n -> ts = top_item_tokens it ++ ts1 ->
    (forall items, ts1 = top_tokens_of items -> top_item_ok it (top_tokens_of items)) ->
    exists items, ts = top_tokens_of items /\ top_items_ok items).
  { intros it ts1 Hlen -> Hit. destruct (IH ts1 Hlen) as (items & Hts1 & Hok).
    exists (it :: items). split; [by rewrite top_tokens_of_cons, <- Hts1|].
    split; [by apply Hit | done]. }
  destruct ts as [|tk ts1]; [by exists []|]. simpl in Hn.
  destruct (decide (type tk = TWord)) as [Hw|Hw].
  - destruct tk as [ty w]. simpl in Hw. subst ty.
    destruct ts1 as [|[ty' e] ts2].
    { apply (Hstep (TopBare w) []); [simpl; lia | done |].
      intros items Heq. by rewrite <- Heq. }
    simpl in Hn. destruct (decide (ty' = TEquals)) as [->|Hne].
    + destruct (proj1 (parser_total (3 * length ts2 + 1)) ts2 ltac:(lia))
        as (v & rest0 & Hrun & Hle & _).
      destruct (value_at_run _ _ _ _ Hrun) as (pre & -> & Hat).
      apply (Hstep (TopPair w e pre v) rest0); [lia | done |].
      by intros items ->.
    + apply (Hstep (TopBare w) (Token ty' e :: ts2)); [simpl; lia | done |].
      intros items Heq. rewrite <- Heq. simpl. by rewrite bool_decide_false.
  - apply (Hstep (Stray tk) ts1); [lia | done |]. by intros items _.
Qed.
End Items.

(** ** Duplicate keys *)

Section Coalescing.
Import ParadoxParser.

Lemma assoc_assign obj k v k' :
  k' ≠ "__proto__" ->
  assoc k' (_assign obj k v)
  = if decide (k = k') then coalesce_step (assoc k' obj) v else assoc k' obj.
Proof.
  intros Hk'. unfold _assign, coalesce_step.
  destruct (assoc k obj) as [old|] eqn:Hold.
  - rewrite assoc_assoc_set. destruct (decide (k = k')) as [->|]; [|done].
    by rewrite Hold.
  - rewrite assoc_obj_set. destruct (decide (k = "__proto__")) as [->|].
    + destruct (decide ("__proto__" = k')); [done|done].
    + destruct (decide (k = k')) as [->|]; [|done]. by rewrite Hold.
Qed.

Lemma assoc_assign_all obj l k :
  k ≠ "__proto__" ->
  assoc k (assign_all obj l) = coalesce (assoc k obj) (values_of k l).
Proof.
  intros Hk. unfold assign_all, coalesce, values_of.
  revert obj. induction l as [|[k0 v0] l IH]; intros obj; [done|].
  simpl fold_left at 1. rewrite IH, assoc_assign by done.
  rewrite filter_cons. simpl. destruct (decide (k0 = k)) as [->|]; done.
Qed.

Lemma coalesce_array l vs : coalesce (Some (VArr l)) vs = Some (VArr (l ++ vs)).
Proof.
  unfold coalesce. revert l. induction vs as [|v vs IH]; intros l; simpl.
  - by rewrite app_nil_r.
  - change (coalesce_step (Some (VArr l)) v) with (Some (VArr (l ++ [v]))).
    by rewrite IH, <- app_assoc.
Qed.

(** From the second assignment on the key holds the sequence of all the
    assigned values, when the first one is not itself a sequence. *)
Lemma coalesce_fresh v1 vs :
  isArray v1 = false -> vs ≠ [] -> coalesce None (v1 :: vs) = Some (VArr (v1 :: vs)).
Proof.
  intros Hv1 Hvs. destruct vs as [|v2 vs]; [done|].
  unfold coalesce. simpl.
  change (coalesce_step (coalesce_step None v1) v2)
    with (Some (VArr ((match v1 with VArr l => l | _ => [v1] end) ++ [v2]))).
  fold (coalesce (Some (VArr ((match v1 with VArr l => l | _ => [v1] end) ++ [v2]))) vs).
  rewrite coalesce_array. by destruct v1.
Qed.

Lemma assoc_assign_all_keys obj l k :
  assoc k obj = None -> values_of k l = [] -> assoc k (assign_all obj l) = None.
Proof.
  unfold assign_all, values_of. revert obj.
  induction l as [|[k0 v0] l IH]; intros obj Hobj Hl; [done|].
  simpl. rewrite filter_cons in Hl. simpl in Hl.
  destruct (decide (k0 = k)) as [->|Hne]; [done|].
  apply IH; [|done]. unfold _assign.
  destruct (assoc k0 obj) eqn:H0.
  - rewrite assoc_assoc_set. by rewrite decide_False.
  - rewrite assoc_obj_set. destruct (decide (k0 = "__proto__")); [done|].
    by rewrite decide_False.
Qed.
End Coalescing.

(** ** Resolution of a block *)

Lemma resolve_cases obj list :
  (obj = [] -> ParadoxParser.resolve obj list = VArr list)
  /\ (obj ≠ [] -> list = [] -> ParadoxParser.resolve obj list = VObj obj)
  /\ (obj ≠ [] -> list ≠ [] ->
      ParadoxParser.resolve obj list = VObj (obj_set "items" (VArr list) obj)).
Proof.
  split_and!.
  - by intros ->.
  - intros Hobj ->. by destruct obj.
  - intros Hobj Hlist. destruct obj; [done|]. by destruct list.
Qed.

Lemma resolve_keeps obj list k x :
  obj ≠ [] -> assoc k obj = Some x -> k ≠ "items" \/ list = [] ->
  get (ParadoxParser.resolve obj list) k = x.
Proof.
  intros Hobj Hk Hwhy. destruct (resolve_cases obj list) as (_ & H2 & H3).
  destruct list as [|y list'].
  - rewrite H2 by done. simpl. by rewrite Hk.
  - rewrite H3 by done. destruct Hwhy as [Hne|]; [|done]. unfold get.
    rewrite assoc_obj_set. repeat case_decide; try done; by rewrite Hk.
Qed.

Lemma resolve_items obj list :
  obj ≠ [] -> list ≠ [] -> get (ParadoxParser.resolve obj list) "items" = VArr list.
Proof.
  intros Hobj Hlist. destruct (resolve_cases obj list) as (_ & _ & H3).
  rewrite H3 by done. unfold get. rewrite assoc_obj_set.
  repeat case_decide; done.
Qed.

(** C4 fails on the code.  The resolution at the end of [_parseBlock]
    does not keep a value that the block assigned to the key [items]
    when the block also has bare items, although the statement carries
    the comment "mixed block -> keep keyed props and an items array":
    the list of the bare items replaces the value. *)
Lemma items_key_is_overwritten :
  ParadoxParser.parse "w = { items = 5 q }"
    = Some (VObj [("w", VObj [("items", VArr [VStr "q"])])])
  /\ let its := [Pair "items" "=" [ParadoxParser.Token ParadoxParser.TNumber "5"] (VNum 5 0);
                 Bare "q"] in
     items_ok its [ParadoxParser.Token ParadoxParser.TClose "}"]
     /\ assoc "items" (assign_all [] (assignments its)) = Some (VNum 5 0)
     /\ get (ParadoxParser.resolve (assign_all [] (assignments its)) (bare_items its)) "items"
        = VArr [VStr "q"].
Proof.
  split; [reflexivity|]. cbv zeta. split_and!; [|reflexivity..].
  split; [|done]. simpl. exists 1.
  intros [|fuel] Hf; [lia | reflexivity].
Qed.

(** C5 (as the code has it).  Every token sequence is a sequence of
    items, of the top level and of a block.  When a key other than
    [__proto__] is assigned two or more times among the items and its
    first value is not itself a sequence, the parsed mapping holds the
    sequence of all the assigned values in source order: at the top level
    of a document, and in a block (for the key [items], when the block
    has no bare item).  In a block the assignments are those written
    [k = value] and those written [k { ... }]. *)
Theorem duplicate_keys_coalesce (k : string) (v1 : value) (vs : list value) :
  k ≠ "__proto__" ->
  isArray v1 = false ->
  vs ≠ [] ->
  (forall tokens, exists items, tokens = top_tokens_of items /\ top_items_ok items)
  /\ (forall items,
        top_items_ok items ->
        values_of k (top_assignments items) = v1 :: vs ->
        exists out, ParadoxParser.parse_tokens (top_tokens_of items) = Some out
                    /\ assoc k out = Some (VArr (v1 :: vs)))
  /\ (forall text items,
        lex text = Some (top_tokens_of items) ->
        top_items_ok items ->
        values_of k (top_assignments items) = v1 :: vs ->
        exists out, ParadoxParser.parse text = Some (VObj out)
                    /\ assoc k out = Some (VArr (v1 :: vs)))
  /\ (forall tokens, exists items tail rest,
        tokens = tokens_of items ++ tail /\ closes tail rest /\ items_ok items tail)
  /\ (forall items tail rest,
        items_ok items tail -> closes tail rest ->
        values_of k (assignments items) = v1 :: vs ->
        k ≠ "items" \/ bare_items items = [] ->
        exists F v,
          (forall fuel, F <= fuel ->
             ParadoxParser._parseBlock fuel (tokens_of items ++ tail) = Some (v, rest))
          /\ get v k = VArr (v1 :: vs)).
Proof.
  intros Hk Hv1 Hvs.
  assert (Htop : forall items,
    top_items_ok items -> values_of k (top_assignments items) = v1 :: vs ->
    exists out, ParadoxParser.parse_tokens (top_tokens_of items) = Some out
                /\ assoc k out = Some (VArr (v1 :: vs))).
  { intros items Hok Hvals. eexists. split; [by apply parse_tokens_items|].
    rewrite assoc_assign_all, Hvals by done. by apply coalesce_fresh. }
  split_and!.
  - intros tokens. by apply (top_items_exist (length tokens)).
  - exact Htop.
  - intros text items Hlex Hok Hvals. destruct (Htop items Hok Hvals) as (out & Hp & Hout).
    exists out. split; [|done]. unfold ParadoxParser.parse. unfold lex in Hlex.
    destruct (ParadoxParser._stripComments _) as [src|]; [|done].
    cbn [mbind option_bind] in Hlex |- *. rewrite Hlex. cbn [mbind option_bind].
    by rewrite Hp.
  - intros tokens. by apply (block_items_exist (length tokens)).
  - intros items tail rest Hok Hc Hvals Hwhy.
    destruct (parseBlock_of_items items tail rest Hok Hc) as [F HF].
    exists F. eexists. split; [exact HF|].
    assert (Hassoc : assoc k (assign_all [] (assignments items)) = Some (VArr (v1 :: vs))).
    { rewrite assoc_assign_all, Hvals by done. by apply coalesce_fresh. }
    apply resolve_keeps; [|done|done].
    intros Hnil. by rewrite Hnil in Hassoc.
Qed.

(** C5 as stated fails when the first value assigned to the key is a
    list: the later values are pushed into that list. *)
Lemma first_list_value_absorbs :
  ParadoxParser.parse "k = { a b } k = c"
    = Some (VObj [("k", VArr [VStr "a"; VStr "b"; VStr "c"])])
  /\ ParadoxParser.parse "k = { } k = b" = Some (VObj [("k", VArr [VStr "b"])]).
Proof. split; reflexivity. Qed.

Lemma duplicate_keys_coalesce_witness :
  exists F v,
    (forall fuel, F <= fuel ->
       ParadoxParser._parseBlock fuel
         (tokens_of [Pair "k" "=" [ParadoxParser.Token ParadoxParser.TWord "a"] (VStr "a");
                     Comparison "n" ">" (Some (ParadoxParser.Token ParadoxParser.TNumber "3"));
                     Implicit "k" [ParadoxParser.Token ParadoxParser.TOpen "{";
                                   ParadoxParser.Token ParadoxParser.TClose "}"] (VArr []);
                     Pair "k" "=" [ParadoxParser.Token ParadoxParser.TWord "yes"] (VBool true)]
          ++ [ParadoxParser.Token ParadoxParser.TClose "}"])
       = Some (v, []))
    /\ get v "k" = VArr [VStr "a"; VArr []; VBool true].
Proof.
  refine (proj2 (proj2 (proj2 (proj2 (duplicate_keys_coalesce
    "k" (VStr "a") [VArr []; VBool true] _ _ _))))
    [Pair "k" "=" [ParadoxParser.Token ParadoxParser.TWord "a"] (VStr "a");
     Comparison "n" ">" (Some (ParadoxParser.Token ParadoxParser.TNumber "3"));
     Implicit "k" [ParadoxParser.Token ParadoxParser.TOpen "{";
                   ParadoxParser.Token ParadoxParser.TClose "}"] (VArr []);
     Pair "k" "=" [ParadoxParser.Token ParadoxParser.TWord "yes"] (VBool true)]
    [ParadoxParser.Token ParadoxParser.TClose "}"] [] _ _ _ _).
  - done.
  - reflexivity.
  - done.
  - simpl. split_and!; try done.
    + exists 1. intros [|fuel] Hf; [lia | reflexivity].
    + exists 3. intros [|[|[|fuel]]] Hf; try lia. reflexivity.
    + exists 1. intros [|fuel] Hf; [lia | reflexivity].
  - right. eauto.
  - reflexivity.
  - by left.
Defined.

(** ** The model on the examples of the specification *)

Example parse_repeated_key :
  ParadoxParser.parse "k = 1 k = 2 k = 3"
  = Some (VObj [("k", VArr [VNum 1 0; VNum 2 0; VNum 3 0])]).
Proof. reflexivity. Qed.

Example parse_list_mapping_mixed :
  ParadoxParser.parse "l = { a b c } m = { a = 1 b = yes } x = { a = 1 b }"
  = Some (VObj [("l", VArr [VStr "a"; VStr "b"; VStr "c"]);
                ("m", VObj [("a", VNum 1 0); ("b", VBool true)]);
                ("x", VObj [("a", VNum 1 0); ("items", VArr [VStr "b"])])]).
Proof. reflexivity. Qed.

Example parse_hash_in_quotes :
  ParadoxParser.parse ("x = " +:+ ParadoxParser.quoted "a # b" +:+ " # real comment")
  = Some (VObj [("x", VStr "a # b")]).
Proof. reflexivity. Qed.

Example parse_comparison_and_implicit_block :
  ParadoxParser.parse "t = { num_pops > 3 name { a } -1.50 }"
  = Some (VObj [("t", VObj [("name", VArr [VStr "a"]);
                            ("items", VArr [VStr "num_pops > 3"; VNum (-150) 2])])]).
Proof. reflexivity. Qed.

Example parse_unbalanced_braces :
  ParadoxParser.parse "a = { b = { c = "
  = Some (VObj [("a", VObj [("b", VObj [("c", VNull)])])]).
Proof. reflexivity. Qed.

Example parse_truncated_quote :
  ParadoxParser.parse ("a = " +:+ String ParadoxParser.dquote "unterminated")
  = Some (VObj [("a", VStr "unterminated")]).
Proof. reflexivity. Qed.

Example parse_stray_tokens :
  ParadoxParser.parse "} } = = a" = Some (VObj [("a", VBool true)]).
Proof. reflexivity. Qed.

Example walk_or_and_nor :
  CivicsBuilder.walk
    (VObj [("possible",
            VObj [("ethics",
                   VObj [("OR", VObj [("value", VArr [VStr "ethic_a"; VStr "ethic_b"])]);
                         ("NOR", VObj [("value", VStr "ethic_c")])])])])
  = Some (CivicsBuilder.Def
            (CivicsBuilder.Lists [] [] [group ["ethic_a"; "ethic_b"]] [] [])
            (CivicsBuilder.Lists [] [] ["ethic_c"] [] [])).
Proof. reflexivity. Qed.

Example extractReqs_repeated_key :
  CivicsBuilder.walk
    (VObj [("possible",
            VObj [("civics",
                   VArr [VObj [("NOT", VObj [("value", VStr "civic_b")])];
                         VObj [("NOT", VObj [("value", VStr "civic_c")])]])])])
  = Some (CivicsBuilder.Def
            (CivicsBuilder.Lists [] [] [] [] [])
            (CivicsBuilder.Lists [] ["civic_b"; "civic_c"] [] [] [])).
Proof. reflexivity. Qed.

Example origin_restrictions_repeated_key :
  OriginsBuilder._extractOriginRestrictions
    (VObj [("possible",
            VObj [("origin",
                   VArr [VObj [("NOT", VObj [("value", VStr "origin_a")])];
                         VObj [("NOT", VObj [("value", VStr "origin_b")])]])])])
  = Some ["origin_a"; "origin_b"]
  /\ OriginsBuilder._extractOriginRestrictions
       (VObj [("possible",
               VObj [("origin", VArr [VObj [("NOT", VObj [("value", VStr "origin_a")])]])])])
     = Some ["origin_a"].
Proof. split; reflexivity. Qed.

Example civics_keep_single_groups :
  CivicsBuilder.build
    [("civic_a",
      VObj [("possible",
             VObj [("authority", VObj [("OR", VObj [("value", VStr "auth_hive_mind")])])])])]
    None
  = Some [("civic_a",
           CivicsBuilder.Def
             (CivicsBuilder.Lists [group ["auth_hive_mind"]] [] [] [] [])
             (CivicsBuilder.Lists [] [] [] [] []))].
Proof. vm_compute. reflexivity. Qed.

Example origins_flatten_trait_group :
  OriginsBuilder.build
    [("origin_o", VObj [("traits", VObj [("trait", VStr "trait_lithoid")])])]
    None
    (Some [("trait_lithoid", VObj [("allowed_archetypes", VArr [VStr "LITHOID"])])])
    []
  = Some [("origin_o",
           OriginsBuilder.Def
             (OriginsBuilder.Lists [] [] [] [] [VStr "LITHOID"] [])
             (OriginsBuilder.Lists [] [] [] [] [] []))].
Proof. vm_compute. reflexivity. Qed.

Example traits_reverse_only_for_keys :
  TraitsBuilder.build (fun _ => Some tt)
    [("trait_a", VObj [("opposites", VArr [VStr "trait_b"; VStr "trait_missing"])]);
     ("trait_b", VObj [("initial", VBool true)]);
     ("trait_c", VObj [("initial", VBool false); ("opposites", VStr "trait_a")])]
    None
  = Some [("trait_a", TraitsBuilder.TraitDef tt [VStr "trait_b"; VStr "trait_missing"] None);
          ("trait_b", TraitsBuilder.TraitDef tt [VStr "trait_a"] None)].
Proof. reflexivity. Qed.

(** * Further properties of the code *)

(** ** The queries on trait data *)

Lemma own_list_string_or_array field :
  truthy field = true -> TraitsBuilder.own_list field = TraitsBuilder.string_or_array field.
Proof. unfold TraitsBuilder.string_or_array. intros ->. by destruct field. Qed.

(** X1.  [hasSpeciesClass] throws on [null] and [undefined] data only,
    and otherwise tells whether one of the species classes that [build]
    extracts from the trait ([_extractSpeciesClass]) is among the
    classes asked for, given as one value or as an array. *)
Theorem hasSpeciesClass_extracted (data speciesClasses : value) :
  TraitsBuilder.hasSpeciesClass data speciesClasses
  = match data with
    | VUndef | VNull => None
    | _ =>
        Some (existsb (fun tc => includes (TraitsBuilder.as_array speciesClasses) tc)
                      (TraitsBuilder._extractSpeciesClass data))
    end.
Proof.
  unfold TraitsBuilder.hasSpeciesClass, TraitsBuilder._extractSpeciesClass.
  assert (H : forall field,
    (if negb (truthy field) then Some false
     else Some (existsb (fun tc => includes (TraitsBuilder.as_array speciesClasses) tc)
                        (TraitsBuilder.own_list field)))
    = Some (existsb (fun tc => includes (TraitsBuilder.as_array speciesClasses) tc)
                    (TraitsBuilder.string_or_array field))).
  { intros field. destruct (truthy field) eqn:Ht; simpl.
    - by rewrite own_list_string_or_array.
    - unfold TraitsBuilder.string_or_array. by rewrite Ht. }
  destruct data; try done; apply H.
Qed.

(** X2.  A trait that is only for the given archetypes has one of them:
    whenever [isOnlyForArchetypes] answers [true], so does
    [hasAllowedArchetype]. *)
Theorem only_for_implies_allowed (data archetypes : value) :
  TraitsBuilder.isOnlyForArchetypes data archetypes = Some true ->
  TraitsBuilder.hasAllowedArchetype data archetypes = Some true.
Proof.
  unfold TraitsBuilder.isOnlyForArchetypes, TraitsBuilder.hasAllowedArchetype.
  destruct (getE data "allowed_archetypes") as [field|]; [|done].
  cbn [mbind option_bind]. destruct (negb (truthy field)); [done|].
  intros [= H]. f_equal. apply andb_true_iff in H as [Hlen Hall].
  apply bool_decide_eq_true in Hlen.
  destruct (TraitsBuilder.own_list field) as [|ta l]; [simpl in Hlen; lia|].
  simpl in *. apply andb_true_iff in Hall as [-> _]. done.
Qed.

Lemma only_for_implies_allowed_witness :
  TraitsBuilder.hasAllowedArchetype
    (VObj [("allowed_archetypes", VArr [VStr "LITHOID"])])
    (VArr [VStr "BIOLOGICAL"; VStr "LITHOID"]) = Some true.
Proof.
  apply (only_for_implies_allowed
           (VObj [("allowed_archetypes", VArr [VStr "LITHOID"])])
           (VArr [VStr "BIOLOGICAL"; VStr "LITHOID"])).
  reflexivity.
Defined.

(** ** The closure on the parsed trait data *)

Section ParsedDataClosure.
Import TraitsBuilder.
Implicit Types (pd : list (string * trait_block)) (d : trait_block).

Lemma listed_add_opposite id d :
  listed (add_opposite id d)
  = if includes (listed d) (VStr id) then listed d else listed d ++ [VStr id].
Proof.
  unfold listed, add_opposite. rewrite assoc_obj_set.
  rewrite decide_False by done. rewrite decide_True by done.
  cbn [default truthy as_array].
  by destruct (truthy (default VUndef (assoc "opposites" d))).
Qed.

Lemma elem_of_listed_add_opposite id d x :
  x ∈ listed (add_opposite id d) <-> x ∈ listed d \/ x = VStr id.
Proof.
  rewrite listed_add_opposite. destruct (includes (listed d) (VStr id)) eqn:Hinc.
  - apply includes_str_elem_of in Hinc. split; [by left | by intros [?| ->]].
  - by rewrite elem_of_app, list_elem_of_singleton.
Qed.

Lemma listed_add_opposite_prefix id d : listed d `prefix_of` listed (add_opposite id d).
Proof.
  rewrite listed_add_opposite. destruct (includes _ _); [done|]. by apply prefix_app_r.
Qed.

Lemma assoc_add_opposite id d k :
  k ≠ "opposites" -> assoc k (add_opposite id d) = assoc k d.
Proof.
  intros Hk. unfold add_opposite. rewrite assoc_obj_set.
  rewrite decide_False by done. by rewrite decide_False by done.
Qed.

Lemma keys_mirror_opposite id pd o : keys (mirror_opposite id pd o) = keys pd.
Proof.
  unfold mirror_opposite. destruct o as [| |x|m sc|t|l|ps]; try done.
  destruct (assoc t pd) eqn:Ht; [|done].
  apply keys_assoc_set_in, assoc_is_Some. eauto.
Qed.

Lemma lists_mirror_opposite id pd o a b :
  lists_opposite (mirror_opposite id pd o) a b
  <-> lists_opposite pd a b \/ (o = VStr a /\ b = id /\ a ∈ keys pd).
Proof.
  unfold mirror_opposite. destruct o as [| |x|m sc|t|l|ps];
    try (split; [by left | intros [?|[? _]]; done]).
  destruct (assoc t pd) as [od|] eqn:Ht.
  - unfold lists_opposite. setoid_rewrite assoc_assoc_set.
    destruct (decide (t = a)) as [->|Hne].
    + split.
      * intros (d & [= <-] & Hb). apply elem_of_listed_add_opposite in Hb as [Hb| [= ->]].
        -- left. eauto.
        -- right. split_and!; try done. apply assoc_is_Some. eauto.
      * intros [(d & Hd & Hb)|(_ & -> & _)]; eexists; (split; [done|]);
          apply elem_of_listed_add_opposite; [left | by right]. congruence.
    + split; [by left|]. intros [?|([= <-] & _)]; done.
  - split; [by left|]. intros [?|([= <-] & -> & Hk)]; [done|].
    apply assoc_is_Some in Hk as [? Hk]. congruence.
Qed.

Lemma grow_refl pd : only_opposites_grow pd pd.
Proof. split; [done|]. intros a d Hd. exists d. done. Qed.

Lemma grow_trans pd1 pd2 pd3 :
  only_opposites_grow pd1 pd2 -> only_opposites_grow pd2 pd3 -> only_opposites_grow pd1 pd3.
Proof.
  intros [Hk1 H1] [Hk2 H2]. split; [congruence|].
  intros a d Hd. destruct (H1 _ _ Hd) as (d' & Hd' & Hf' & Hp').
  destruct (H2 _ _ Hd') as (d'' & Hd'' & Hf'' & Hp'').
  exists d''. split_and!; [done | | by etrans].
  intros k Hk. rewrite Hf'' by done. by apply Hf'.
Qed.

Lemma grow_mirror_opposite id pd o : only_opposites_grow pd (mirror_opposite id pd o).
Proof.
  split; [apply keys_mirror_opposite|].
  unfold mirror_opposite. destruct o as [| |x|m sc|t|l|ps]; try (intros a d Hd; by exists d).
  destruct (assoc t pd) as [od|] eqn:Ht; [|intros a d Hd; by exists d].
  intros a d Hd. rewrite assoc_assoc_set. destruct (decide (t = a)) as [->|Hne].
  - assert (od = d) as -> by congruence. eexists. split_and!; [done | |].
    + intros k Hk. by apply assoc_add_opposite.
    + apply listed_add_opposite_prefix.
  - by exists d.
Qed.

Lemma fold_mirror_opposite id (l : list value) pd :
  let out := fold_left (mirror_opposite id) l pd in
  only_opposites_grow pd out
  /\ forall a b, lists_opposite out a b
       <-> lists_opposite pd a b \/ (VStr a ∈ l /\ b = id /\ a ∈ keys pd).
Proof.
  revert pd. induction l as [|o l IH]; intros pd; simpl.
  - split; [apply grow_refl|]. intros a b. split; [by left|].
    intros [?|(H & _)]; [done | inversion H].
  - destruct (IH (mirror_opposite id pd o)) as [IHg IHl]. split.
    + eapply grow_trans; [apply grow_mirror_opposite | done].
    + intros a b. rewrite IHl, lists_mirror_opposite, keys_mirror_opposite, elem_of_cons.
      naive_solver.
Qed.

Lemma mirror_round_spec pd id :
  only_opposites_grow pd (mirror_round pd id)
  /\ forall a b, lists_opposite (mirror_round pd id) a b
       <-> lists_opposite pd a b \/ (b = id /\ a ∈ keys pd /\ lists_opposite pd id a).
Proof.
  unfold mirror_round. destruct (assoc id pd) as [data|] eqn:Hd.
  - assert (Hfold :
      (if truthy (default VUndef (assoc "opposites" data))
       then fold_left (mirror_opposite id)
              (as_array (default VUndef (assoc "opposites" data))) pd
       else pd) = fold_left (mirror_opposite id) (listed data) pd).
    { unfold listed. by destruct (truthy _). }
    cbv zeta. rewrite Hfold.
    destruct (fold_mirror_opposite id (listed data) pd) as [Hg Hl]. split; [done|].
    intros a b. rewrite Hl. unfold lists_opposite at 3. rewrite Hd. split.
    + intros [?|(? & ? & ?)]; [by left | right]. split_and!; eauto.
    + intros [?|(? & ? & d' & [= <-] & ?)]; [by left | right]. done.
  - split; [apply grow_refl|]. intros a b. split; [by left|].
    intros [?|(_ & _ & d' & Hd' & _)]; [done | congruence].
Qed.

Lemma mirror_rounds_spec (ids : list string) pd :
  let out := fold_left mirror_round ids pd in
  only_opposites_grow pd out
  /\ (forall a b, lists_opposite pd a b -> lists_opposite out a b)
  /\ (forall a b, lists_opposite out a b ->
        lists_opposite pd a b \/ (a ∈ keys pd /\ lists_opposite pd b a))
  /\ (forall a b, b ∈ ids -> a ∈ keys pd -> lists_opposite pd b a ->
        lists_opposite out a b).
Proof.
  revert pd. induction ids as [|id ids IH]; intros pd; simpl.
  - split_and!; [apply grow_refl | done | by left |]. intros a b H. inversion H.
  - destruct (IH (mirror_round pd id)) as (IHg & IHm & IHs & IHc).
    destruct (mirror_round_spec pd id) as [[Hk Hg] Hl].
    split_and!.
    + eapply grow_trans; [split; [exact Hk | exact Hg] | done].
    + intros a b H. apply IHm, Hl. by left.
    + intros a b H. apply IHs in H as [H|[Ha H]]; apply Hl in H.
      * destruct H as [?|(-> & ? & ?)]; [by left | by right].
      * rewrite Hk in Ha. destruct H as [?|(-> & ? & ?)]; [by right | by left].
    + intros a b Hb Ha H. apply elem_of_cons in Hb as [->|Hb].
      * apply IHm, Hl. by right.
      * apply IHc; [done | by rewrite Hk | apply Hl; by left].
Qed.

End ParsedDataClosure.

(** X3.  [applyBidirectionalToParsedData] makes the opposites of the
    traits of the file symmetric and invents nothing: afterwards a trait
    [a] of the file lists [b] exactly when [a] listed [b] or [b] listed
    [a] before; so two traits of the file list each other or neither
    does. *)
Theorem parsed_data_closure (parsedData : list (string * TraitsBuilder.trait_block))
    (a b : string) :
  a ∈ keys parsedData ->
  (lists_opposite (TraitsBuilder.applyBidirectionalToParsedData parsedData) a b
   <-> lists_opposite parsedData a b \/ lists_opposite parsedData b a)
  /\ (b ∈ keys parsedData ->
      lists_opposite (TraitsBuilder.applyBidirectionalToParsedData parsedData) a b ->
      lists_opposite (TraitsBuilder.applyBidirectionalToParsedData parsedData) b a).
Proof.
  intros Ha. unfold TraitsBuilder.applyBidirectionalToParsedData.
  destruct (mirror_rounds_spec (keys parsedData) parsedData) as (_ & Hm & Hs & Hc).
  assert (Hiff : forall x y, x ∈ keys parsedData ->
    lists_opposite (fold_left TraitsBuilder.mirror_round (keys parsedData) parsedData) x y
    <-> lists_opposite parsedData x y \/ lists_opposite parsedData y x).
  { intros x y Hx. split.
    - intros H. apply Hs in H as [?|[_ ?]]; [by left | by right].
    - intros [H|H]; [by apply Hm|]. apply Hc; [|done|done].
      destruct H as (d & Hd & _). apply assoc_is_Some. eauto. }
  split; [by apply Hiff|]. intros Hb. rewrite !Hiff by done. tauto.
Qed.

Lemma parsed_data_closure_witness :
  lists_opposite
    (TraitsBuilder.applyBidirectionalToParsedData
       [("trait_weak", [("cost", VNum (-1) 0)]);
        ("trait_strong", [("opposites", VStr "trait_weak")])])
    "trait_weak" "trait_strong".
Proof.
  apply (proj1 (parsed_data_closure
    [("trait_weak", [("cost", VNum (-1) 0)]);
     ("trait_strong", [("opposites", VStr "trait_weak")])]
    "trait_weak" "trait_strong" ltac:(left))).
  right. eexists. split; [reflexivity|]. left.
Defined.

(** X4.  [applyBidirectionalToParsedData] adds and removes no trait and
    touches nothing but the [opposites] entries: every other entry of
    every trait block is unchanged, and the opposites a trait listed stay
    in place at the front of its list. *)
Theorem parsed_data_closure_frame (parsedData : list (string * TraitsBuilder.trait_block)) :
  only_opposites_grow parsedData (TraitsBuilder.applyBidirectionalToParsedData parsedData).
Proof.
  unfold TraitsBuilder.applyBidirectionalToParsedData.
  by destruct (mirror_rounds_spec (keys parsedData) parsedData) as (H & _).
Qed.

(** ** EthicsBuilder *)

Section EthicNames.
Import EthicsBuilder.

Lemma append_cons a s t : String a s +:+ t = String a (s +:+ t).
Proof. reflexivity. Qed.

Lemma append_assoc_string s t u : (s +:+ t) +:+ u = s +:+ (t +:+ u).
Proof. induction s as [|a s IH]; [done|]. rewrite !append_cons. by f_equal. Qed.

Lemma length_append_string s t :
  String.length (s +:+ t) = String.length s + String.length t.
Proof. induction s as [|a s IH]; [done|]. rewrite append_cons. simpl. by f_equal. Qed.

Lemma strip_prefix_app p q x : strip_prefix (p +:+ q) (p +:+ x) = strip_prefix q x.
Proof.
  induction p as [|a p IH]; [done|]. rewrite !append_cons. cbn [strip_prefix].
  by rewrite decide_True.
Qed.

Lemma strip_prefix_exact p x : strip_prefix p (p +:+ x) = Some x.
Proof.
  induction p as [|a p IH]; [done|]. rewrite !append_cons. cbn [strip_prefix].
  by rewrite decide_True.
Qed.

Lemma strip_prefix_Some p s rest : strip_prefix p s = Some rest -> s = p +:+ rest.
Proof.
  revert s. induction p as [|a p IH]; intros s; cbn [strip_prefix].
  - by intros [= ->].
  - destruct s as [|b s]; [done|]. case_decide; [|done]. subst.
    intros H. rewrite append_cons. f_equal. by apply IH.
Qed.

Lemma replace_unfold p r s :
  replace p r s =
    match strip_prefix p s with
    | Some rest => r +:+ rest
    | None => match s with EmptyString => s | String c s' => String c (replace p r s') end
    end.
Proof. by destruct s. Qed.

Lemma replace_prefix p r x : replace p r (p +:+ x) = r +:+ x.
Proof. by rewrite replace_unfold, strip_prefix_exact. Qed.

Lemma startsWith_true s p : startsWith s p = true <-> exists rest, s = p +:+ rest.
Proof.
  unfold startsWith. rewrite bool_decide_eq_true. split.
  - intros [rest H]. exists rest. by apply strip_prefix_Some.
  - intros [rest ->]. rewrite strip_prefix_exact. eauto.
Qed.

Lemma fanatic_regular x : fanatic x = regular ("fanatic_" +:+ x).
Proof. reflexivity. Qed.

Lemma startsWith_fanatic x : startsWith (fanatic x) "ethic_fanatic_" = true.
Proof. apply startsWith_true. by exists x. Qed.

Lemma startsWith_regular x :
  startsWith (regular x) "ethic_fanatic_" = startsWith x "fanatic_".
Proof.
  unfold startsWith, regular.
  change "ethic_fanatic_" with ("ethic_" +:+ "fanatic_"). by rewrite strip_prefix_app.
Qed.

Lemma regular_inj x y : regular x = regular y -> x = y.
Proof.
  intros H. apply (f_equal (strip_prefix "ethic_")) in H.
  unfold regular in H. rewrite !strip_prefix_exact in H. congruence.
Qed.

Lemma fanatic_inj x y : fanatic x = fanatic y -> x = y.
Proof.
  intros H. apply (f_equal (strip_prefix "ethic_fanatic_")) in H.
  unfold fanatic in H. rewrite !strip_prefix_exact in H. congruence.
Qed.

Lemma fanatic_ne_regular x : fanatic x ≠ regular x.
Proof.
  rewrite fanatic_regular. intros H. apply regular_inj in H.
  apply (f_equal String.length) in H. rewrite length_append_string in H. simpl in H. lia.
Qed.

Lemma regular_not_inherited x : regular x ∉ object_prototype_names.
Proof.
  intros H. assert (Hs : startsWith (regular x) "ethic_" = true).
  { apply startsWith_true. by exists x. }
  revert Hs. generalize (regular x) H. clear. intros s H.
  unfold object_prototype_names in H. rewrite !elem_of_cons, elem_of_nil in H.
  destruct_or!; try done; subst; by vm_compute.
Qed.

(** The table of opposites is symmetric and holds regular names. *)
Lemma opposites_symmetric a o :
  assoc a opposites = Some o ->
  assoc o opposites = Some a
  /\ exists x y, a = regular x /\ o = regular y
       /\ startsWith x "fanatic_" = false /\ startsWith y "fanatic_" = false.
Proof.
  intros H. apply assoc_elem_of in H. unfold opposites in H.
  rewrite !elem_of_cons, elem_of_nil in H.
  destruct_or!; try done; simplify_eq; (split; [reflexivity|]).
  - by exists "authoritarian", "egalitarian".
  - by exists "egalitarian", "authoritarian".
  - by exists "xenophobe", "xenophile".
  - by exists "xenophile", "xenophobe".
  - by exists "militarist", "pacifist".
  - by exists "pacifist", "militarist".
  - by exists "spiritualist", "materialist".
  - by exists "materialist", "spiritualist".
Qed.

Lemma elem_of_str_set_add acc x y : y ∈ str_set_add acc x <-> y ∈ acc \/ y = x.
Proof.
  unfold str_set_add. case_decide.
  - split; [by left | by intros [?| ->]].
  - by rewrite elem_of_app, list_elem_of_singleton.
Qed.

Lemma NoDup_str_set_add acc x : NoDup acc -> NoDup (str_set_add acc x).
Proof.
  intros H. unfold str_set_add. case_decide; [done|].
  apply NoDup_app. split_and!; [done | | apply NoDup_singleton].
  intros y Hy Hy'. apply list_elem_of_singleton in Hy'. by subst.
Qed.

Lemma length_str_set_add acc x :
  length acc <= length (str_set_add acc x) <= S (length acc).
Proof. unfold str_set_add. case_decide; [lia|]. rewrite length_app. simpl. lia. Qed.

Lemma str_set_add_nil x : str_set_add [] x = [x].
Proof. unfold str_set_add. rewrite decide_False; [done|]. apply not_elem_of_nil. Qed.

Lemma incompatible_of_regular x :
  startsWith x "fanatic_" = false ->
  incompatible_of (regular x) = with_opposites (fanatic x) x.
Proof.
  intros Hx. unfold incompatible_of, with_opposites.
  rewrite startsWith_regular, Hx, !str_set_add_nil.
  assert (Hrep : replace "ethic_" EmptyString (regular x) = x) by apply replace_prefix.
  rewrite Hrep. fold (fanatic x).
  destruct (assoc (regular x) opposites); [done|].
  by rewrite decide_False by apply regular_not_inherited.
Qed.

Lemma incompatible_of_fanatic x :
  incompatible_of (fanatic x) = with_opposites (regular x) x.
Proof.
  unfold incompatible_of, with_opposites.
  rewrite startsWith_fanatic, !str_set_add_nil.
  assert (Hrep : replace "ethic_fanatic_" EmptyString (fanatic x) = x)
    by apply replace_prefix.
  assert (Hbase : replace "ethic_fanatic_" "ethic_" (fanatic x) = regular x)
    by apply replace_prefix.
  rewrite Hrep, Hbase. fold (regular x).
  destruct (assoc (regular x) opposites); [done|].
  by rewrite decide_False by apply regular_not_inherited.
Qed.

Lemma with_opposites_members first x l b :
  with_opposites first x = Some l ->
  (b ∈ l <-> b = first
         \/ exists y, assoc (regular x) opposites = Some (regular y)
                      /\ (b = regular y \/ b = fanatic y)).
Proof.
  unfold with_opposites. destruct (assoc (regular x) opposites) as [o|] eqn:Ho.
  - destruct (opposites_symmetric _ _ Ho) as (_ & x1 & y & _ & -> & _ & _).
    assert (Hrep : replace "ethic_" EmptyString (regular y) = y) by apply replace_prefix.
    rewrite Hrep. fold (fanatic y). intros Hl. apply (inj Some) in Hl. subst l.
    rewrite !elem_of_str_set_add, list_elem_of_singleton. split.
    + intros [[?|?]|?]; [by left | right; exists y; split; [done | by left]
                         | right; exists y; split; [done | by right]].
    + intros [?|(y' & Hy & Hb)]; [by left; left|].
      apply (inj Some) in Hy. apply regular_inj in Hy as <-. destruct Hb; [left; by right | by right].
  - intros [= <-]. rewrite list_elem_of_singleton. split; [by left|].
    intros [?|(y & ? & _)]; done.
Qed.

End EthicNames.

Section EthicIncompatibilities.
Import EthicsBuilder.

Lemma opposites_distinct a o : assoc a opposites = Some o -> a ≠ o.
Proof.
  intros H. apply assoc_elem_of in H. unfold opposites in H.
  rewrite !elem_of_cons, elem_of_nil in H.
  destruct_or!; try done; simplify_eq; done.
Qed.

Lemma opposite_regular x o :
  assoc (regular x) opposites = Some o ->
  exists y, o = regular y /\ assoc (regular y) opposites = Some (regular x)
            /\ startsWith x "fanatic_" = false /\ startsWith y "fanatic_" = false
            /\ x ≠ y.
Proof.
  intros H. destruct (opposites_symmetric _ _ H) as (Hsym & x' & y & Hx & -> & Hx' & Hy).
  apply regular_inj in Hx as <-. exists y. split_and!; try done.
  intros ->. by apply opposites_distinct in H.
Qed.

Lemma with_opposites_is_Some first x : is_Some (with_opposites first x).
Proof. unfold with_opposites. destruct (assoc _ _); eauto. Qed.

Lemma incompatible_of_None a :
  incompatible_of a = None <-> a ∈ object_prototype_names.
Proof.
  split.
  - intros H. destruct (startsWith a "ethic_fanatic_") eqn:Hf.
    + apply startsWith_true in Hf as [x ->]. fold (fanatic x) in H.
      rewrite incompatible_of_fanatic in H.
      destruct (with_opposites_is_Some (regular x) x) as [? ?]. congruence.
    + unfold incompatible_of in H. rewrite Hf in H.
      destruct (assoc a opposites); [done|]. by case_decide.
  - unfold object_prototype_names. rewrite !elem_of_cons, elem_of_nil.
    intros H. destruct_or!; try done; subst; by vm_compute.
Qed.

Lemma incompatible_symmetric a b la lb :
  well_named a -> incompatible_of a = Some la -> b ∈ la ->
  incompatible_of b = Some lb -> a ∈ lb.
Proof.
  intros (x & Hx & Ha) Hla Hb Hlb.
  assert (Hcross : forall y first l,
    assoc (regular x) opposites = Some (regular y) ->
    with_opposites first y = Some l -> regular x ∈ l /\ fanatic x ∈ l).
  { intros y first l Hy Hl. destruct (opposite_regular _ _ Hy) as (y' & Hy' & Hback & _).
    apply regular_inj in Hy' as <-.
    split; apply (with_opposites_members _ _ _ _ Hl); right; exists x; eauto. }
  assert (Hnonfan : forall y, assoc (regular x) opposites = Some (regular y) ->
            startsWith y "fanatic_" = false).
  { intros y Hy. destruct (opposite_regular _ _ Hy) as (y' & Hy' & _ & _ & ? & _).
    by apply regular_inj in Hy' as <-. }
  destruct Ha as [-> | ->].
  - rewrite incompatible_of_regular in Hla by done.
    apply (with_opposites_members _ _ _ b Hla) in Hb as [-> | (y & Hy & [-> | ->])].
    + rewrite incompatible_of_fanatic in Hlb.
      apply (with_opposites_members _ _ _ _ Hlb). by left.
    + rewrite incompatible_of_regular in Hlb by eauto. by apply (Hcross _ _ _ Hy Hlb).
    + rewrite incompatible_of_fanatic in Hlb. by apply (Hcross _ _ _ Hy Hlb).
  - rewrite incompatible_of_fanatic in Hla.
    apply (with_opposites_members _ _ _ b Hla) in Hb as [-> | (y & Hy & [-> | ->])].
    + rewrite incompatible_of_regular in Hlb by done.
      apply (with_opposites_members _ _ _ _ Hlb). by left.
    + rewrite incompatible_of_regular in Hlb by eauto. by apply (Hcross _ _ _ Hy Hlb).
    + rewrite incompatible_of_fanatic in Hlb. by apply (Hcross _ _ _ Hy Hlb).
Qed.

Lemma with_opposites_shape first x l :
  with_opposites first x = Some l -> NoDup l /\ 1 <= length l <= 3.
Proof.
  unfold with_opposites. destruct (assoc _ _) as [o|]; intros [= <-].
  - split; [apply NoDup_str_set_add, NoDup_str_set_add, NoDup_singleton|].
    pose proof (length_str_set_add [first] o).
    pose proof (length_str_set_add (str_set_add [first] o)
                  ("ethic_fanatic_" +:+ replace "ethic_" EmptyString o)).
    simpl in *. lia.
  - split; [apply NoDup_singleton | simpl; lia].
Qed.

Lemma incompatible_shape a l :
  incompatible_of a = Some l -> NoDup l /\ (a ∉ l) /\ (1 <= length l <= 3).
Proof.
  intros H. destruct (startsWith a "ethic_fanatic_") eqn:Hf.
  - apply startsWith_true in Hf as [x ->]. fold (fanatic x) in *.
    rewrite incompatible_of_fanatic in H.
    destruct (with_opposites_shape _ _ _ H) as [Hnd Hlen].
    split; [done|]. split; [|done].
    intros Hin. apply (with_opposites_members _ _ _ _ H) in Hin as [Hin|(y & Hy & Hin)].
    + by apply fanatic_ne_regular in Hin.
    + destruct (opposite_regular _ _ Hy) as (y' & Hy' & _ & _ & Hny & Hne).
      apply regular_inj in Hy' as <-. destruct Hin as [Hin|Hin].
      * rewrite fanatic_regular in Hin. apply regular_inj in Hin as <-.
        assert (startsWith ("fanatic_" +:+ x) "fanatic_" = true); [|congruence].
        apply startsWith_true. by exists x.
      * by apply fanatic_inj in Hin.
  - assert (Hnot : forall s, a ≠ "ethic_fanatic_" +:+ s).
    { intros s ->. assert (startsWith ("ethic_fanatic_" +:+ s) "ethic_fanatic_" = true);
        [|congruence]. apply startsWith_true. by exists s. }
    unfold incompatible_of in H. rewrite Hf, !str_set_add_nil in H.
    destruct (assoc a opposites) as [o|] eqn:Ho.
    + injection H as <-. split; [|split].
      * apply NoDup_str_set_add, NoDup_str_set_add, NoDup_singleton.
      * rewrite !elem_of_str_set_add, list_elem_of_singleton.
        intros [[Hin|Hin]|Hin]; [by apply Hnot in Hin | | by apply Hnot in Hin].
        by apply opposites_distinct in Ho.
      * match goal with |- context [str_set_add (str_set_add ?l ?o) ?f] =>
          pose proof (length_str_set_add l o);
          pose proof (length_str_set_add (str_set_add l o) f)
        end.
        simpl in *. lia.
    + case_decide; [done|]. injection H as <-. split; [|split].
      * apply NoDup_singleton.
      * rewrite list_elem_of_singleton. apply Hnot.
      * simpl. lia.
Qed.

End EthicIncompatibilities.

Section EthicsBuild.
Import EthicsBuilder.
Context {number : Type}.
Variable finite : Z -> nat -> number.
Variable numeric : string -> option number.
Variable toString : Z -> nat -> string.

Lemma ethics_build_from (ethicsFile authoritiesFile : list (string * value))
    (defs0 : list (string * @ethicDef number)) :
  match
    for_each
      (fun defs '(ethicName, ethicData) =>
         if decide (ethicName = "ethic_gestalt_consciousness") then Some defs else
         let cost :=
           _toNumberOrDefault finite numeric (optional_get ethicData "cost") (finite 1 0) in
         let allowedAuthorities :=
           (filter (fun auth => allows toString ethicName auth.2 = true) authoritiesFile).*1 in
         incompatible ← incompatible_of ethicName;
         Some (obj_set ethicName (EthicDef cost incompatible allowedAuthorities) defs))
      ethicsFile defs0
  with
  | Some defs =>
      (forall name, name ∈ keys ethicsFile -> name ∉ object_prototype_names)
      /\ (forall name d, assoc name defs = Some d ->
            assoc name defs0 = Some d
            \/ (exists data, (name, data) ∈ ethicsFile
                  /\ cost d = _toNumberOrDefault finite numeric
                                (optional_get data "cost") (finite 1 0))
               /\ name ≠ "ethic_gestalt_consciousness"
               /\ incompatible_of name = Some (incompatible_ethics d)
               /\ required_authorities d
                  = (filter (fun auth => allows toString name auth.2 = true)
                            authoritiesFile).*1)
      /\ (NoDup (keys defs0 ++ keys ethicsFile) ->
          keys defs = keys defs0
                      ++ filter (fun name => name ≠ "ethic_gestalt_consciousness")
                                (keys ethicsFile))
  | None => exists name, name ∈ keys ethicsFile /\ name ∈ object_prototype_names
  end.
Proof.
  revert defs0. induction ethicsFile as [|[n0 data0] file IH]; intros defs0.
  - simpl. split_and!.
    + intros name H. inversion H.
    + intros; by left.
    + intros _. by rewrite app_nil_r.
  - cbn [for_each].
    destruct (decide (n0 = "ethic_gestalt_consciousness")) as [->|Hn0].
    + cbn [mbind option_bind]. specialize (IH defs0).
      destruct (for_each _ file defs0) as [defs|].
      * destruct IH as (IH1 & IH2 & IH3). split_and!.
        -- intros name Hin. apply elem_of_cons in Hin as [Hin|Hin]; [|by apply IH1].
           simpl in Hin. subst name.
           intros H. apply incompatible_of_None in H. by vm_compute in H.
        -- intros name d Hd. apply IH2 in Hd as [?|((data & Hin & Hc) & ?)]; [by left|].
           right. split; [|done]. exists data. split; [by right | done].
        -- intros Hnd. simpl in Hnd. rewrite IH3.
           ++ simpl. rewrite filter_cons. by rewrite decide_False by (intros H; by apply H).
           ++ apply NoDup_app in Hnd as (H1 & H2 & H3). apply NoDup_cons in H3 as [_ H3].
              apply NoDup_app. split_and!; [done | | done].
              intros x Hx Hx'. apply (H2 x Hx). by right.
      * destruct IH as (name & Hin & Hp). exists name. split; [by right | done].
    + destruct (incompatible_of n0) as [inc|] eqn:Hinc.
      * cbn [mbind option_bind].
        match goal with |- context [for_each _ file ?d1] => specialize (IH d1) end.
        destruct (for_each _ file _) as [defs|].
        -- destruct IH as (IH1 & IH2 & IH3). split_and!.
           ++ intros name Hin. apply elem_of_cons in Hin as [Hin|Hin]; [|by apply IH1].
              simpl in Hin. subst name.
              intros H. apply incompatible_of_None in H. congruence.
           ++ intros name d Hd. apply IH2 in Hd as [Hd|((data & Hin & Hc) & ?)].
              ** rewrite assoc_obj_set in Hd.
                 destruct (decide (n0 = "__proto__")); [by left|].
                 destruct (decide (n0 = name)) as [->|]; [|by left].
                 injection Hd as <-. right. split; [|done]. exists data0. split; [left|done].
              ** right. split; [|done]. exists data. split; [by right | done].
           ++ intros Hnd. simpl in Hnd.
              assert (Hproto : n0 ≠ "__proto__").
              { intros ->. by vm_compute in Hinc. }
              assert (Hfresh : n0 ∉ keys defs0).
              { apply NoDup_app in Hnd as (_ & H2 & _). intros H. apply (H2 _ H). left. }
              rewrite IH3.
              ** unfold obj_set. rewrite decide_False by done.
                 rewrite keys_assoc_set_notin by done. simpl. rewrite filter_cons.
                 rewrite decide_True by done. by rewrite <- app_assoc.
              ** unfold obj_set. rewrite decide_False by done.
                 rewrite keys_assoc_set_notin by done. rewrite <- app_assoc. done.
        -- destruct IH as (name & Hin & Hp). exists name. split; [by right | done].
      * cbn [mbind option_bind]. exists n0. split; [left|]. by apply incompatible_of_None.
Qed.

Lemma ethics_build_spec (ethicsFile authoritiesFile : list (string * value)) :
  match build finite numeric toString ethicsFile authoritiesFile with
  | Some defs =>
      (forall name, name ∈ keys ethicsFile -> name ∉ object_prototype_names)
      /\ (forall name d, assoc name defs = Some d ->
            (exists data, (name, data) ∈ ethicsFile
               /\ cost d = _toNumberOrDefault finite numeric
                             (optional_get data "cost") (finite 1 0))
            /\ name ≠ "ethic_gestalt_consciousness"
            /\ incompatible_of name = Some (incompatible_ethics d)
            /\ required_authorities d
               = (filter (fun auth => allows toString name auth.2 = true)
                         authoritiesFile).*1)
      /\ (NoDup (keys ethicsFile) ->
          keys defs = filter (fun name => name ≠ "ethic_gestalt_consciousness")
                             (keys ethicsFile))
  | None => exists name, name ∈ keys ethicsFile /\ name ∈ object_prototype_names
  end.
Proof.
  pose proof (ethics_build_from ethicsFile authoritiesFile []) as H.
  unfold build. destruct (for_each _ ethicsFile []) as [defs|]; [|done].
  destruct H as (H1 & H2 & H3). split_and!; [done | | done].
  intros name d Hd. by destruct (H2 _ _ Hd).
Qed.

End EthicsBuild.


(** X6.  The result of [EthicsBuilder.build] has one entry for every
    ethic of the file except [ethic_gestalt_consciousness], in the order
    of the file. *)
Theorem ethics_build_keys {number : Type}
    (finite : Z -> nat -> number) (numeric : string -> option number)
    (toString : Z -> nat -> string)
    (ethicsFile authoritiesFile : list (string * value))
    (defs : list (string * @EthicsBuilder.ethicDef number)) :
  NoDup (keys ethicsFile) ->
  EthicsBuilder.build finite numeric toString ethicsFile authoritiesFile = Some defs ->
  keys defs = filter (fun name => name ≠ "ethic_gestalt_consciousness") (keys ethicsFile).
Proof.
  intros Hnd Hb.
  pose proof (ethics_build_spec finite numeric toString ethicsFile authoritiesFile) as H.
  rewrite Hb in H. destruct H as (_ & _ & H). by apply H.
Qed.

Lemma ethics_build_keys_witness :
  keys (default [] (EthicsBuilder.build (fun m s => (m, s)) (fun _ => None)
                      (fun _ _ => EmptyString)
                      [("ethic_militarist", VObj [("cost", VNum 1 0)]);
                       ("ethic_gestalt_consciousness", VObj [("cost", VNum 3 0)]);
                       ("ethic_fanatic_militarist", VObj [])] []))
  = ["ethic_militarist"; "ethic_fanatic_militarist"].
Proof.
  refine (ethics_build_keys (fun m s => (m, s)) (fun _ => None) (fun _ _ => EmptyString)
            [("ethic_militarist", VObj [("cost", VNum 1 0)]);
             ("ethic_gestalt_consciousness", VObj [("cost", VNum 3 0)]);
             ("ethic_fanatic_militarist", VObj [])] [] _ _ _).
  - apply (bool_decide_unpack _). vm_compute. exact I.
  - vm_compute. reflexivity.
Defined.

(** X7.  The incompatibilities that [EthicsBuilder.build] derives from
    the names are symmetric on names of the forms [ethic_x] and
    [ethic_fanatic_x] in which [x] does not itself begin with
    [fanatic_]: if such an ethic [a] of the result names the ethic [b]
    of the result as incompatible, then [b] names [a]. *)
Theorem ethics_incompatibility_symmetric {number : Type}
    (finite : Z -> nat -> number) (numeric : string -> option number)
    (toString : Z -> nat -> string)
    (ethicsFile authoritiesFile : list (string * value))
    (defs : list (string * @EthicsBuilder.ethicDef number))
    (a b : string) (da db : @EthicsBuilder.ethicDef number) :
  EthicsBuilder.build finite numeric toString ethicsFile authoritiesFile = Some defs ->
  assoc a defs = Some da -> assoc b defs = Some db ->
  well_named a ->
  b ∈ EthicsBuilder.incompatible_ethics da ->
  a ∈ EthicsBuilder.incompatible_ethics db.
Proof.
  intros Hb Ha Hdb Hwn Hin.
  pose proof (ethics_build_spec finite numeric toString ethicsFile authoritiesFile) as H.
  rewrite Hb in H. destruct H as (_ & H & _).
  destruct (H _ _ Ha) as (_ & _ & Hia & _).
  destruct (H _ _ Hdb) as (_ & _ & Hib & _).
  by apply (incompatible_symmetric a b _ _ Hwn Hia Hin Hib).
Qed.

Lemma ethics_incompatibility_symmetric_witness :
  "ethic_fanatic_pacifist" ∈ ["ethic_militarist"; "ethic_pacifist"; "ethic_fanatic_pacifist"].
Proof.
  refine (ethics_incompatibility_symmetric
            (fun m s => (m, s)) (fun _ => None) (fun _ _ => EmptyString)
            [("ethic_fanatic_pacifist", VObj []); ("ethic_fanatic_militarist", VObj [])] []
            _ "ethic_fanatic_pacifist" "ethic_fanatic_militarist"
            (EthicsBuilder.EthicDef (1%Z, 0)
               ["ethic_pacifist"; "ethic_militarist"; "ethic_fanatic_militarist"] [])
            (EthicsBuilder.EthicDef (1%Z, 0)
               ["ethic_militarist"; "ethic_pacifist"; "ethic_fanatic_pacifist"] [])
            _ _ _ _ _).
  - vm_compute. reflexivity.
  - reflexivity.
  - reflexivity.
  - exists "pacifist". split; [reflexivity | by right].
  - right. right. left.
Defined.

(** The condition on the name is needed: [ethic_fanatic_fanatic_x] names
    [ethic_fanatic_x], which names [ethic_x] only. *)
Example ethics_incompatibility_needs_names :
  EthicsBuilder.incompatible_of "ethic_fanatic_fanatic_x" = Some ["ethic_fanatic_x"]
  /\ EthicsBuilder.incompatible_of "ethic_fanatic_x" = Some ["ethic_x"].
Proof. split; reflexivity. Qed.

(** X8.  Every entry of the result of [EthicsBuilder.build] names between
    one and three incompatible ethics, without repetition, and never the
    ethic itself. *)
Theorem ethics_incompatibility_shape {number : Type}
    (finite : Z -> nat -> number) (numeric : string -> option number)
    (toString : Z -> nat -> string)
    (ethicsFile authoritiesFile : list (string * value))
    (defs : list (string * @EthicsBuilder.ethicDef number))
    (a : string) (d : @EthicsBuilder.ethicDef number) :
  EthicsBuilder.build finite numeric toString ethicsFile authoritiesFile = Some defs ->
  assoc a defs = Some d ->
  NoDup (EthicsBuilder.incompatible_ethics d)
  /\ (a ∉ EthicsBuilder.incompatible_ethics d)
  /\ (1 <= length (EthicsBuilder.incompatible_ethics d) <= 3).
Proof.
  intros Hb Ha.
  pose proof (ethics_build_spec finite numeric toString ethicsFile authoritiesFile) as H.
  rewrite Hb in H. destruct H as (_ & H & _).
  destruct (H _ _ Ha) as (_ & _ & Hia & _).
  by apply incompatible_shape.
Qed.

Lemma ethics_incompatibility_shape_witness :
  NoDup ["ethic_fanatic_xenophile"; "ethic_xenophobe"; "ethic_fanatic_xenophobe"]
  /\ ("ethic_xenophile"
        ∉ ["ethic_fanatic_xenophile"; "ethic_xenophobe"; "ethic_fanatic_xenophobe"])
  /\ (1 <= 3 <= 3).
Proof.
  refine (ethics_incompatibility_shape
            (fun m s => (m, s)) (fun _ => None) (fun _ _ => EmptyString)
            [("ethic_xenophile", VObj [])] [] _ "ethic_xenophile"
            (EthicsBuilder.EthicDef (1%Z, 0)
               ["ethic_fanatic_xenophile"; "ethic_xenophobe"; "ethic_fanatic_xenophobe"] [])
            _ _).
  - vm_compute. reflexivity.
  - reflexivity.
Defined.

(** X9.  The required authorities of an ethic are authorities of the
    authorities file, in the order of the file, and only authorities that
    carry a condition on ethics: an authority without a truthy
    [possible.ethics] node is never listed, nor is one whose [NOR] list
    names the ethic. *)
Theorem ethics_required_authorities {number : Type}
    (finite : Z -> nat -> number) (numeric : string -> option number)
    (toString : Z -> nat -> string)
    (ethicsFile authoritiesFile : list (string * value))
    (defs : list (string * @EthicsBuilder.ethicDef number))
    (e : string) (d : @EthicsBuilder.ethicDef number) :
  EthicsBuilder.build finite numeric toString ethicsFile authoritiesFile = Some defs ->
  assoc e defs = Some d ->
  EthicsBuilder.required_authorities d `sublist_of` keys authoritiesFile
  /\ forall auth, auth ∈ EthicsBuilder.required_authorities d ->
       exists authData ethicsNode,
         (auth, authData) ∈ authoritiesFile
         /\ ethicsNode = EthicsBuilder.optional_get
                           (EthicsBuilder.optional_get authData "possible") "ethics"
         /\ truthy ethicsNode = true
         /\ (e ∉ (EthicsBuilder._extractOrNor toString ethicsNode).2)
         /\ ((EthicsBuilder._extractOrNor toString ethicsNode).1 = []
             \/ e ∈ (EthicsBuilder._extractOrNor toString ethicsNode).1).
Proof.
  intros Hb Ha.
  pose proof (ethics_build_spec finite numeric toString ethicsFile authoritiesFile) as H.
  rewrite Hb in H. destruct H as (_ & H & _).
  destruct (H _ _ Ha) as (_ & _ & _ & ->). split.
  - unfold keys. apply fmap_sublist, sublist_filter.
  - intros auth Hin. apply list_elem_of_fmap in Hin as ([auth' authData] & -> & Hin).
    apply list_elem_of_filter in Hin as [Hallows Hin]. simpl in *.
    exists authData. eexists. split; [done|]. split; [done|].
    unfold EthicsBuilder.allows in Hallows.
    destruct (truthy _) eqn:Ht; [|done]. simpl in Hallows.
    destruct (EthicsBuilder._extractOrNor toString _) as [orList norList]. simpl.
    case_bool_decide as Hnor; [done|].
    case_bool_decide as Hlen; simpl in Hallows.
    + case_bool_decide as Hor; [|done]. split_and!; try done. by right.
    + split_and!; try done. left. destruct orList; [done | simpl in Hlen; lia].
Qed.

Lemma ethics_required_authorities_witness :
  ["auth_democratic"] `sublist_of` ["auth_democratic"; "auth_imperial"].
Proof.
  refine (proj1 (ethics_required_authorities
            (fun m s => (m, s)) (fun _ => None) (fun _ _ => EmptyString)
            [("ethic_egalitarian", VObj [])]
            [("auth_democratic",
              VObj [("possible",
                     VObj [("ethics", VObj [("NOR", VObj [("value", VStr "ethic_authoritarian")])])])]);
             ("auth_imperial", VObj [])]
            _ "ethic_egalitarian"
            (EthicsBuilder.EthicDef (1%Z, 0)
               ["ethic_fanatic_egalitarian"; "ethic_authoritarian"; "ethic_fanatic_authoritarian"]
               ["auth_democratic"])
            _ _)).
  - vm_compute. reflexivity.
  - reflexivity.
Defined.

(** ** More on the closure of [CivicsBuilder] *)

Section CivicsClosureAgain.
Import CivicsBuilder.

Lemma elem_of_makeBidirectional (defs : list (string * def)) a d' :
  (a, d') ∈ _makeBidirectional defs
  <-> exists d, (a, d) ∈ defs /\ d' = civics_closed_def (first_pass defs) a d.
Proof.
  unfold _makeBidirectional. rewrite second_pass_fmap, list_elem_of_fmap. split.
  - intros ([k d] & [= -> ->] & Hin). eauto.
  - intros (d & Hin & ->). by exists (a, d).
Qed.

Lemma civics_of_closed (defs : list (string * def)) a d b :
  a ∈ keys defs ->
  b ∈ civics (no (civics_closed_def (first_pass defs) a d))
  <-> related (first_pass defs) a b.
Proof.
  intros Ha. destruct (first_pass_keys defs a Ha) as [s Hs].
  unfold civics_closed_def, related. rewrite Hs. simpl.
  rewrite elem_of_sorted_members. naive_solver.
Qed.

Lemma elem_of_keys_pair {A : Type} (ps : list (string * A)) k :
  k ∈ keys ps <-> exists v, (k, v) ∈ ps.
Proof.
  unfold keys. rewrite list_elem_of_fmap. split.
  - intros ([k' v] & -> & Hin). eauto.
  - intros (v & Hin). by exists (k, v).
Qed.

(** The incompatibility sets of a closed collection are those of the
    collection. *)
Lemma closure_related_stable (defs : list (string * def)) k b :
  k ∈ keys defs ->
  related (first_pass (_makeBidirectional defs)) k b <-> related (first_pass defs) k b.
Proof.
  intros Hk. rewrite (first_pass_related (_makeBidirectional defs)).
  setoid_rewrite elem_of_makeBidirectional. split.
  - intros [(d' & (d & Hin & ->) & Hb)|(d' & (d & Hin & ->) & Hb)].
    + by apply civics_of_closed in Hb.
    + apply first_pass_symmetric. apply civics_of_closed in Hb; [done|].
      apply elem_of_keys_pair. eauto.
  - intros H. left. apply elem_of_keys_pair in Hk as [d Hd].
    eexists. split; [eauto|]. apply civics_of_closed; [|done].
    apply elem_of_keys_pair. eauto.
Qed.

Lemma closure_sets_stable (defs : list (string * def)) k :
  k ∈ keys defs ->
  first_pass (_makeBidirectional defs) !! k = first_pass defs !! k.
Proof.
  intros Hk. destruct (first_pass_keys defs k Hk) as [s Hs].
  destruct (first_pass_keys (_makeBidirectional defs) k) as [s' Hs'].
  { by rewrite keys_makeBidirectional. }
  rewrite Hs, Hs'. f_equal. apply set_eq. intros b.
  pose proof (closure_related_stable defs k b Hk) as H. unfold related in H.
  rewrite Hs, Hs' in H. split.
  - intros Hb. destruct (proj1 H) as (? & [= <-] & ?); eauto.
  - intros Hb. destruct (proj2 H) as (? & [= <-] & ?); eauto.
Qed.

Lemma closed_def_twice m k d : civics_closed_def m k (civics_closed_def m k d)
                               = civics_closed_def m k d.
Proof. unfold civics_closed_def. destruct (m !! k); [|done]. by destruct d as [? []]. Qed.

End CivicsClosureAgain.

(** X10.  The closure of [CivicsBuilder] is idempotent: closing a closed
    collection of definitions changes nothing. *)
Theorem civics_closure_idempotent (defs : list (string * CivicsBuilder.def)) :
  CivicsBuilder._makeBidirectional (CivicsBuilder._makeBidirectional defs)
  = CivicsBuilder._makeBidirectional defs.
Proof.
  unfold CivicsBuilder._makeBidirectional at 1. rewrite second_pass_fmap.
  rewrite <- (list_fmap_id (CivicsBuilder._makeBidirectional defs)) at 2.
  apply list_fmap_ext. intros i [k d'] Hi. unfold id. f_equal.
  apply list_elem_of_lookup_2 in Hi.
  apply elem_of_makeBidirectional in Hi as (d & Hin & ->).
  unfold civics_closed_def at 1.
  rewrite closure_sets_stable by (apply elem_of_keys_pair; eauto).
  apply closed_def_twice.
Qed.

(** X11.  The closure of [CivicsBuilder] adds, removes and reorders no
    entry and rewrites nothing but the forbidden civics: the required
    lists and the other forbidden lists of every entry are unchanged, and
    every forbidden civic that was declared is still forbidden. *)
Theorem civics_closure_frame (defs : list (string * CivicsBuilder.def)) :
  keys (CivicsBuilder._makeBidirectional defs) = keys defs
  /\ forall k d', assoc k (CivicsBuilder._makeBidirectional defs) = Some d' ->
       exists d, assoc k defs = Some d
         /\ CivicsBuilder.yes d' = CivicsBuilder.yes d
         /\ (forall f, f ≠ CivicsBuilder.Civics ->
               CivicsBuilder.sel f (CivicsBuilder.no d')
               = CivicsBuilder.sel f (CivicsBuilder.no d))
         /\ (forall b, b ∈ CivicsBuilder.civics (CivicsBuilder.no d) ->
               b ∈ CivicsBuilder.civics (CivicsBuilder.no d')).
Proof.
  split; [apply keys_makeBidirectional|].
  intros k d' Hd'. pose proof Hd' as Hentry.
  apply assoc_makeBidirectional in Hentry as (d & s & Hd & Hs & ->).
  exists d. split_and!; try done.
  - intros f Hf. cbn [CivicsBuilder.no]. by apply sel_upd_ne.
  - intros b Hb. apply (closed_civics _ _ _ _ Hd'). apply first_pass_related.
    left. exists d. split; [by apply assoc_elem_of | done].
Qed.

(** ** When the builders throw *)





Lemma getE_is_Some v k : ~ missing v -> getE v k = Some (get v k).
Proof. unfold missing. destruct v; simpl; eauto; intros H; exfalso; apply H; eauto. Qed.

Lemma getE_missing v k : missing v -> getE v k = None.
Proof. by intros [-> | ->]. Qed.

Section CivicsThrows.
Import CivicsBuilder.





Lemma collect_keys_from (civicsFile : list (string * value)) filterFn defs0 defs :
  for_each
    (fun defs '(civicName, civicData) =>
       skip ← _requiresNoDLC civicData;
       if skip : bool then Some defs else
       if rejected filterFn civicName civicData then Some defs else
       d ← extract civicData;
       Some (obj_set civicName d defs))
    civicsFile defs0 = Some defs ->
  NoDup (keys defs0 ++ keys civicsFile) ->
  exists kept, kept `sublist_of` keys civicsFile /\ keys defs = keys defs0 ++ kept.
Proof.
  revert defs0. induction civicsFile as [|[n0 data0] file IH]; intros defs0 H Hnd.
  - injection H as <-. exists []. by rewrite app_nil_r.
  - cbn [for_each] in H. simpl in Hnd.
    assert (Hnd0 : NoDup (keys defs0 ++ keys file)).
    { apply NoDup_app in Hnd as (H1 & H2 & H3). apply NoDup_cons in H3 as [_ H3].
      apply NoDup_app. split_and!; [done | | done].
      intros x Hx Hx'. apply (H2 x Hx). by right. }
    assert (Hskip : for_each
      (fun defs '(civicName, civicData) =>
         skip ← _requiresNoDLC civicData;
         if skip : bool then Some defs else
         if rejected filterFn civicName civicData then Some defs else
         d ← extract civicData;
         Some (obj_set civicName d defs)) file defs0 = Some defs ->
      exists kept, kept `sublist_of` keys ((n0, data0) :: file)
                   /\ keys defs = keys defs0 ++ kept).
    { intros H'. destruct (IH _ H' Hnd0) as (kept & Hsub & Hk).
      exists kept. split; [by apply sublist_cons | done]. }
    destruct (_requiresNoDLC data0) as [skip|]; [|done].
    cbn [mbind option_bind] in H. destruct skip; [by apply Hskip|].
    destruct (rejected filterFn n0 data0); [by apply Hskip|].
    destruct (extract data0) as [d|]; [|done]. cbn [mbind option_bind] in H.
    unfold obj_set in H. destruct (decide (n0 = "__proto__")); [by apply Hskip|].
    assert (Hfresh : n0 ∉ keys defs0).
    { apply NoDup_app in Hnd as (_ & H2 & _). intros Hin. apply (H2 _ Hin). left. }
    destruct (IH _ H) as (kept & Hsub & Hk).
    { rewrite keys_assoc_set_notin by done. by rewrite <- app_assoc. }
    exists (n0 :: kept). split; [by apply sublist_skip|].
    rewrite Hk, keys_assoc_set_notin by done. by rewrite <- app_assoc.
Qed.

End CivicsThrows.



(** X13.  [CivicsBuilder.build] keeps the order of the file and invents
    no civic: the names of the result are names of the file, in the same
    order. *)
Theorem civics_build_order (civicsFile : list (string * value))
    (filterFn : option (string -> value -> bool)) (defs : list (string * CivicsBuilder.def)) :
  NoDup (keys civicsFile) ->
  CivicsBuilder.build civicsFile filterFn = Some defs ->
  keys defs `sublist_of` keys civicsFile.
Proof.
  unfold CivicsBuilder.build. intros Hnd H.
  destruct (CivicsBuilder.collect civicsFile filterFn) as [pre|] eqn:Hpre; [|done].
  injection H as <-. rewrite keys_makeBidirectional.
  apply collect_keys_from in Hpre as (kept & Hsub & ->); done.
Qed.

Lemma civics_build_order_witness :
  ["civic_b"; "civic_c"] `sublist_of` ["civic_a"; "civic_b"; "civic_c"].
Proof.
  refine (civics_build_order
    [("civic_a", VObj [("playable", VObj [("NOT", VObj [("host_has_dlc", VStr "Utopia")])])]);
     ("civic_b", VObj []); ("civic_c", VObj [])] None
    [("civic_b", CivicsBuilder.empty_def); ("civic_c", CivicsBuilder.empty_def)] _ _).
  - apply (bool_decide_unpack _). vm_compute. exact I.
  - vm_compute. reflexivity.
Defined.

(** ** The extractor only appends *)

Lemma handle_appends block yesArr noArr :
  yesArr `prefix_of` (_handle block (yesArr, noArr)).1
  /\ noArr `prefix_of` (_handle block (yesArr, noArr)).2.
Proof. rewrite handle_keeps_groups. simpl. split; by apply prefix_app_r. Qed.

Lemma handleCulture_appends block yesArr noArr :
  yesArr `prefix_of` (_handleCulture block (yesArr, noArr)).1
  /\ noArr `prefix_of` (_handleCulture block (yesArr, noArr)).2.
Proof. rewrite handleCulture_flattens. simpl. split; by apply prefix_app_r. Qed.

Section CivicsAppends.
Import CivicsBuilder.

Lemma civics_extends_refl d : civics_extends d d.
Proof. by intros f. Qed.

Lemma civics_extends_trans d1 d2 d3 :
  civics_extends d1 d2 -> civics_extends d2 d3 -> civics_extends d1 d3.
Proof. intros H1 H2 f. destruct (H1 f), (H2 f). split; by etrans. Qed.

Lemma civics_on_facet_extends f h d :
  (forall y n, y `prefix_of` (h (y, n)).1 /\ n `prefix_of` (h (y, n)).2) ->
  civics_extends d (on_facet f h d).
Proof.
  intros Hh f'. destruct (decide (f = f')) as [<-|Hne].
  - rewrite yes_on_facet, no_on_facet. apply Hh.
  - unfold on_facet. destruct (h _) as [y n]. simpl. by rewrite !sel_upd_ne.
Qed.

Lemma civics_dispatch_extends key v d : civics_extends d (dispatch key v d).
Proof.
  unfold dispatch.
  repeat case_decide; try apply civics_extends_refl;
    apply civics_on_facet_extends; intros y n;
    (apply handle_appends || apply handleCulture_appends).
Qed.

Lemma civics_extractReqs_extends node d d' :
  _extractReqs node d = Some d' -> civics_extends d d'.
Proof.
  unfold _extractReqs. destruct (entries node) as [ps|]; [|done]. simpl.
  intros [= <-]. revert d. induction ps as [|[key val] ps IH]; intros d; simpl.
  - apply civics_extends_refl.
  - eapply civics_extends_trans; [|apply IH].
    generalize (blocks_of val). intros l. revert d.
    induction l as [|v l IHl]; intros d; simpl; [apply civics_extends_refl|].
    eapply civics_extends_trans; [apply civics_dispatch_extends | apply IHl].
Qed.

End CivicsAppends.

Section OriginsAppends.
Import OriginsBuilder.

Lemma origins_extends_refl d : origins_extends d d.
Proof. by intros f. Qed.

Lemma origins_extends_trans d1 d2 d3 :
  origins_extends d1 d2 -> origins_extends d2 d3 -> origins_extends d1 d3.
Proof. intros H1 H2 f. destruct (H1 f), (H2 f). split; by etrans. Qed.

Lemma origins_on_facet_extends f h d :
  (forall y n, y `prefix_of` (h (y, n)).1 /\ n `prefix_of` (h (y, n)).2) ->
  origins_extends d (on_facet f h d).
Proof.
  intros Hh f'. specialize (Hh (sel f (yes d)) (sel f (no d))).
  unfold on_facet. destruct (h _) as [y n]. simpl in *.
  destruct (decide (f = f')) as [<-|Hne].
  - by rewrite !origins_sel_upd_eq.
  - by rewrite !origins_sel_upd_ne.
Qed.

Lemma origins_dispatch_extends key v d : origins_extends d (dispatch key v d).
Proof.
  unfold dispatch.
  repeat case_decide; try apply origins_extends_refl;
    apply origins_on_facet_extends; intros y n;
    (apply handle_appends || apply handleCulture_appends).
Qed.

Lemma origins_extractReqs_extends node d d' :
  _extractReqs node d = Some d' -> origins_extends d d'.
Proof.
  unfold _extractReqs. destruct (entries node) as [ps|]; [|done]. simpl.
  intros [= <-]. revert d. induction ps as [|[key val] ps IH]; intros d; simpl.
  - apply origins_extends_refl.
  - eapply origins_extends_trans; [|apply IH].
    generalize (blocks_of val). intros l. revert d.
    induction l as [|v l IHl]; intros d; simpl; [apply origins_extends_refl|].
    eapply origins_extends_trans; [apply origins_dispatch_extends | apply IHl].
Qed.

End OriginsAppends.

(** X14.  [_extractReqs] only appends, in [CivicsBuilder] and in
    [OriginsBuilder]: whatever the node, every required and every
    forbidden list it returns starts with the list it was given, so what
    an earlier section contributed is neither removed nor reordered. *)
Theorem extractReqs_appends :
  (forall node d d', CivicsBuilder._extractReqs node d = Some d' -> civics_extends d d')
  /\ (forall node d d', OriginsBuilder._extractReqs node d = Some d' -> origins_extends d d').
Proof. split; [apply civics_extractReqs_extends | apply origins_extractReqs_extends]. Qed.

(** ** What the closure of [OriginsBuilder] adds *)

Section OriginsClosureAgain.
Import OriginsBuilder.

Lemma origins_collect_NoDup (originsFile : list (string * value)) filterFn traitsLookup
    defs0 defs :
  for_each
    (fun defs '(originName, originData) =>
       if rejected filterFn originName originData then Some defs else
       d ← extract originData traitsLookup;
       Some (obj_set originName (Def (_flattenSingleElementGroups (yes d)) (no d)) defs))
    originsFile defs0 = Some defs ->
  NoDup (keys defs0) -> NoDup (keys defs).
Proof.
  revert defs0. induction originsFile as [|[n0 data0] file IH]; intros defs0 H Hnd.
  - by injection H as <-.
  - cbn [for_each] in H. destruct (rejected filterFn n0 data0).
    + by apply (IH defs0).
    + destruct (extract data0 traitsLookup) as [d0|]; [|done].
      cbn [mbind option_bind] in H. apply (IH _ H). by apply NoDup_keys_obj_set.
Qed.

End OriginsClosureAgain.

(** X15.  The closure of [OriginsBuilder] adds to the forbidden civics
    of an origin the civics of the supplied files that restrict it, and
    nothing else: a civic is forbidden by an origin of the result exactly
    when the origin declared it or when the origin restrictions read
    from that civic name the origin. *)
Theorem origins_closure_exact
    (originsFile : list (string * value)) (filterFn : option (string -> value -> bool))
    (traitsLookup : option (list (string * value)))
    (civicsFiles : list (list (string * value)))
    (defs pre : list (string * OriginsBuilder.def)) (O : string) (d : OriginsBuilder.def) :
  OriginsBuilder.build originsFile filterFn traitsLookup civicsFiles = Some defs ->
  OriginsBuilder.collect originsFile filterFn traitsLookup = Some pre ->
  assoc O defs = Some d ->
  exists dpre, assoc O pre = Some dpre
    /\ forall C,
         C ∈ OriginsBuilder.civics (OriginsBuilder.no d)
         <-> C ∈ OriginsBuilder.civics (OriginsBuilder.no dpre)
             \/ exists civicsFile data R,
                  civicsFile ∈ civicsFiles /\ (C, data) ∈ civicsFile
                  /\ OriginsBuilder._extractOriginRestrictions data = Some R /\ O ∈ R.
Proof.
  intros Hb Hpre Hd.
  destruct (origins_build_entry _ _ _ _ _ _ _ Hb Hd)
    as (pre' & m & s & data & d0 & Hpre' & Hm & Hs & _ & _ & _ & Hdpre & ->).
  rewrite Hpre in Hpre'. injection Hpre' as <-.
  eexists. split; [exact Hdpre|]. intros C. cbn [OriginsBuilder.no OriginsBuilder.civics].
  assert (Hnd : NoDup (keys pre)).
  { unfold OriginsBuilder.collect in Hpre.
    apply (origins_collect_NoDup _ _ _ _ _ Hpre). apply NoDup_nil_2. }
  assert (HO : O ∈ keys pre) by (apply assoc_is_Some; eauto).
  destruct (second_pass_spec _ _ _ Hm) as [Hrel _].
  assert (Hs' : C ∈ sorted_members s <-> related m O C).
  { rewrite elem_of_sorted_members. unfold related. rewrite Hs. naive_solver. }
  change (OriginsBuilder.civics
            (OriginsBuilder.upd OriginsBuilder.Civics (sorted_members s) (OriginsBuilder.no d0)))
    with (sorted_members s).
  rewrite Hs', Hrel, origins_first_pass_related. split.
  - intros [(d' & Hin & HC)|(f & cd & R & ? & ? & ? & ? & _)].
    + left. apply (assoc_NoDup _ _ _ Hnd) in Hin. by simplify_eq.
    + right. eauto 10.
  - intros [HC|(f & cd & R & ? & ? & ? & ?)].
    + left. eexists. split; [by apply assoc_elem_of | done].
    + right. exists f, cd, R. split_and!; try done. by apply origins_first_pass_keys.
Qed.

Lemma origins_closure_exact_witness :
  exists dpre,
    assoc "origin_o"
      [("origin_o", OriginsBuilder.Def OriginsBuilder.empty_lists OriginsBuilder.empty_lists)]
    = Some dpre
    /\ forall C,
         C ∈ ["civic_c"]
         <-> C ∈ OriginsBuilder.civics (OriginsBuilder.no dpre)
             \/ exists civicsFile data R,
                  civicsFile ∈ [[("civic_c",
                     VObj [("potential",
                            VObj [("origin", VObj [("NOT", VObj [("value", VStr "origin_o")])])])])]]
                  /\ (C, data) ∈ civicsFile
                  /\ OriginsBuilder._extractOriginRestrictions data = Some R
                  /\ "origin_o" ∈ R.
Proof.
  refine (origins_closure_exact
    [("origin_o", VObj [])] None None
    [[("civic_c",
       VObj [("potential",
              VObj [("origin", VObj [("NOT", VObj [("value", VStr "origin_o")])])])])]]
    [("origin_o", OriginsBuilder.Def OriginsBuilder.empty_lists
        (OriginsBuilder.Lists [] ["civic_c"] [] [] [] []))]
    [("origin_o", OriginsBuilder.Def OriginsBuilder.empty_lists OriginsBuilder.empty_lists)]
    "origin_o"
    (OriginsBuilder.Def OriginsBuilder.empty_lists
        (OriginsBuilder.Lists [] ["civic_c"] [] [] [] [])) _ _ _).
  - vm_compute. reflexivity.
  - vm_compute. reflexivity.
  - reflexivity.
Defined.

(** ** More on the closure of [TraitsBuilder] *)

Section TraitsClosureAgain.
Context {cost_info : Type}.
Implicit Types (defs : list (string * @TraitsBuilder.traitDef cost_info)).
Import TraitsBuilder.

Lemma no_grows_refl defs : only_no_grows defs defs.
Proof. split; [done|]. intros a d Hd. by exists d. Qed.

Lemma no_grows_trans defs1 defs2 defs3 :
  only_no_grows defs1 defs2 -> only_no_grows defs2 defs3 -> only_no_grows defs1 defs3.
Proof.
  intros [Hk1 H1] [Hk2 H2]. split; [congruence|].
  intros a d Hd. destruct (H1 _ _ Hd) as (d' & Hd' & Hc' & Hs' & Hp').
  destruct (H2 _ _ Hd') as (d'' & Hd'' & Hc'' & Hs'' & Hp'').
  exists d''. split_and!; [done | congruence | congruence | by etrans].
Qed.

Lemma no_grows_push_no target id defs : only_no_grows defs (push_no target id defs).
Proof.
  split; [apply keys_push_no|]. intros a d Hd.
  rewrite push_no_fmap, assoc_fmap, Hd. simpl. eexists. split; [done|].
  destruct (decide (a = target)); [|done]. simpl. split_and!; try done.
  by apply prefix_app_r.
Qed.

Lemma no_grows_reverse_entry id defs o : only_no_grows defs (reverse_entry id defs o).
Proof.
  unfold reverse_entry. destruct o; try apply no_grows_refl.
  destruct (assoc s defs); [|apply no_grows_refl].
  destruct (includes _ _); [apply no_grows_refl | apply no_grows_push_no].
Qed.

Lemma no_grows_round defs id : only_no_grows defs (round defs id).
Proof.
  unfold round. destruct (assoc id defs) as [d|]; [|apply no_grows_refl].
  generalize (no d). intros l. revert defs.
  induction l as [|o l IH]; intros defs; simpl; [apply no_grows_refl|].
  eapply no_grows_trans; [apply no_grows_reverse_entry | apply IH].
Qed.

Lemma trait_rounds_sound (ids : list string) defs :
  let out := fold_left round ids defs in
  only_no_grows defs out
  /\ forall a b, opposes out a b -> opposes defs a b \/ opposes defs b a.
Proof.
  revert defs. induction ids as [|id ids IH]; intros defs; simpl.
  - split; [apply no_grows_refl | by left].
  - destruct (IH (round defs id)) as [IHg IHs]. split.
    + eapply no_grows_trans; [apply no_grows_round | done].
    + intros a b H. apply IHs in H as [H|H]; apply opposes_round in H.
      * destruct H as [?|(-> & _ & ?)]; [by left | by right].
      * destruct H as [?|(-> & _ & ?)]; [by right | by left].
Qed.

Variable _extractCost : value -> option cost_info.

Lemma traits_collect_from (parsedData : list (string * value)) filterFn result0 result :
  for_each
    (fun result '(id, data) =>
       initial ← getE data "initial";
       if not_initial initial then Some result else
       if rejected filterFn id data then Some result else
       c ← _extractCost data;
       let speciesClass := _extractSpeciesClass data in
       let traitDef :=
         TraitDef c (_extractOpposites data)
                  (match speciesClass with [] => None | _ => Some speciesClass end) in
       Some (obj_set id traitDef result))
    parsedData result0 = Some result ->
  (forall id data, (id, data) ∈ parsedData -> ~ missing data)
  /\ (forall id, id ∈ keys result <->
        id ∈ keys result0
        \/ exists data, (id, data) ∈ parsedData
             /\ not_initial (get data "initial") = false
             /\ rejected filterFn id data = false /\ id ≠ "__proto__")
  /\ (forall id d, assoc id result = Some d ->
        assoc id result0 = Some d
        \/ exists data, (id, data) ∈ parsedData
             /\ _extractCost data = Some (cost d)
             /\ no d = _extractOpposites data
             /\ species_class d = match _extractSpeciesClass data with
                                  | [] => None
                                  | l => Some l
                                  end).
Proof.
  revert result0. induction parsedData as [|[id0 data0] file IH]; intros result0 H.
  - simpl in H. injection H as <-. split_and!.
    + intros ? ? Hin. inversion Hin.
    + intros id. split; [by left|]. intros [?|(? & Hin & _)]; [done | inversion Hin].
    + intros; by left.
  - cbn [for_each] in H.
    destruct (getE data0 "initial") as [initial|] eqn:Hinit; [|done].
    assert (Hpresent : ~ missing data0).
    { intros Hm. by rewrite getE_missing in Hinit. }
    rewrite getE_is_Some in Hinit by done. injection Hinit as <-.
    cbn [mbind option_bind] in H.
    assert (Hcase : exists result1, for_each
      (fun result '(id, data) =>
         initial ← getE data "initial";
         if not_initial initial then Some result else
         if rejected filterFn id data then Some result else
         c ← _extractCost data;
         let speciesClass := _extractSpeciesClass data in
         let traitDef :=
           TraitDef c (_extractOpposites data)
                    (match speciesClass with [] => None | _ => Some speciesClass end) in
         Some (obj_set id traitDef result)) file result1 = Some result
      /\ ((result1 = result0
           /\ (not_initial (get data0 "initial") = true \/ rejected filterFn id0 data0 = true))
          \/ (exists c, not_initial (get data0 "initial") = false
                /\ rejected filterFn id0 data0 = false
                /\ _extractCost data0 = Some c
                /\ result1 = obj_set id0
                     (TraitDef c (_extractOpposites data0)
                        (match _extractSpeciesClass data0 with
                         | [] => None
                         | l => Some l
                         end)) result0))).
    { destruct (not_initial (get data0 "initial")) eqn:Hni; [eauto 10|].
      destruct (rejected filterFn id0 data0) eqn:Hrej; [eauto 10|].
      destruct (_extractCost data0) as [c|] eqn:Hc; [|done].
      cbn [mbind option_bind] in H. eexists. split; [exact H|]. right. exists c.
      split_and!; try done. by destruct (_extractSpeciesClass data0). }
    clear H. destruct Hcase as (result1 & H & Hcase).
    destruct (IH _ H) as (IHa & IHb & IHc). split_and!.
    + intros id data Hin. apply elem_of_cons in Hin as [[= -> ->]|Hin]; eauto.
    + intros id. rewrite IHb. setoid_rewrite elem_of_cons.
      destruct Hcase as [[-> Hwhy]|(c & Hni & Hrej & Hc & ->)].
      * split; [naive_solver|].
        intros [?|(data & [[= -> ->]|?] & Hs & Hr & ?)]; [by left | | eauto 10].
        destruct Hwhy; congruence.
      * unfold obj_set. destruct (decide (id0 = "__proto__")) as [->|Hne].
        -- split; [naive_solver|].
           intros [?|(data & [[= -> ->]|?] & Hs & Hr & ?)]; [by left | done | eauto 10].
        -- rewrite elem_of_keys_assoc_set. split.
           ++ intros [[->|?]|(data & ? & ?)]; eauto 10.
           ++ intros [?|(data & [[= -> ->]|?] & ?)]; eauto 10.
    + intros id d' Hd'. apply IHc in Hd' as [Hd'|(data & Hin & ?)].
      * destruct Hcase as [[-> Hwhy]|(c & Hni & Hrej & Hc & ->)]; [by left|].
        rewrite assoc_obj_set in Hd'.
        destruct (decide (id0 = "__proto__")); [by left|].
        destruct (decide (id0 = id)) as [->|]; [|by left].
        injection Hd' as <-. right. exists data0. split_and!; try done. left.
      * right. exists data. split; [by right | done].
Qed.

End TraitsClosureAgain.

(** X16.  The closure of [TraitsBuilder.build] only appends reverse
    opposites: every entry keeps its cost and species classes and the
    opposites collected from the data, in place at the front of its [no]
    list, and every opposite in the result was collected for one of the
    two traits. *)
Theorem traits_closure_conservative {cost_info : Type}
    (_extractCost : value -> option cost_info)
    (parsedData : list (string * value)) (filterFn : option (string -> value -> bool))
    (pre out : list (string * @TraitsBuilder.traitDef cost_info)) :
  TraitsBuilder.build _extractCost parsedData filterFn = Some out ->
  TraitsBuilder.collect _extractCost parsedData filterFn = Some pre ->
  only_no_grows pre out
  /\ forall a b, opposes out a b -> opposes pre a b \/ opposes pre b a.
Proof.
  unfold TraitsBuilder.build. intros H Hpre. rewrite Hpre in H. injection H as <-.
  apply trait_rounds_sound.
Qed.

Lemma traits_closure_conservative_witness :
  only_no_grows
    [("trait_weak", TraitsBuilder.TraitDef tt [] None);
     ("trait_strong", TraitsBuilder.TraitDef tt [VStr "trait_weak"] None)]
    [("trait_weak", TraitsBuilder.TraitDef tt [VStr "trait_strong"] None);
     ("trait_strong", TraitsBuilder.TraitDef tt [VStr "trait_weak"] None)].
Proof.
  refine (proj1 (traits_closure_conservative (fun _ => Some tt)
    [("trait_weak", VObj []); ("trait_strong", VObj [("opposites", VStr "trait_weak")])]
    None _ _ _ _)).
  - vm_compute. reflexivity.
  - vm_compute. reflexivity.
Defined.

(** X17.  When [TraitsBuilder.build] returns, a trait of the data is in
    the result exactly when its [initial] entry is neither [false] nor
    the string [no] and the filter, if there is one, accepts it (its
    name not being [__proto__]): a trait marked [initial = no] is left
    out whatever the filter answers.  The [no] list collected for a trait
    of the result holds the opposites of its data, before the closure
    appends to it. *)
Theorem traits_build_keys {cost_info : Type}
    (_extractCost : value -> option cost_info)
    (parsedData : list (string * value)) (filterFn : option (string -> value -> bool))
    (out : list (string * @TraitsBuilder.traitDef cost_info)) (id : string) (data : value) :
  TraitsBuilder.build _extractCost parsedData filterFn = Some out ->
  NoDup (keys parsedData) ->
  (id, data) ∈ parsedData ->
  (id ∈ keys out <->
     TraitsBuilder.not_initial (get data "initial") = false
     /\ TraitsBuilder.rejected filterFn id data = false /\ id ≠ "__proto__")
  /\ forall d, assoc id out = Some d ->
       TraitsBuilder._extractOpposites data `prefix_of` TraitsBuilder.no d.
Proof.
  unfold TraitsBuilder.build. intros H Hnd Hin.
  destruct (TraitsBuilder.collect _extractCost parsedData filterFn) as [pre|] eqn:Hpre;
    [|done].
  injection H as <-.
  destruct (traits_collect_from _extractCost _ _ _ _ Hpre) as (_ & Hkeys & Hentry).
  destruct (trait_rounds_sound (keys pre) pre) as [[Hk Hg] _].
  fold (TraitsBuilder._makeBidirectional pre) in Hk, Hg.
  assert (Hsame : forall data', (id, data') ∈ parsedData -> data' = data).
  { intros data' Hin'. apply (assoc_NoDup _ _ _ Hnd) in Hin, Hin'. congruence. }
  split.
  - rewrite Hk, Hkeys. split.
    + intros [H|(data' & Hin' & ?)]; [inversion H|]. by rewrite <- (Hsame _ Hin').
    + intros ?. right. by exists data.
  - intros d Hd.
    assert (Hpd : is_Some (assoc id pre)).
    { apply assoc_is_Some. rewrite <- Hk. apply assoc_is_Some. eauto. }
    destruct Hpd as [dpre Hdpre].
    destruct (Hg _ _ Hdpre) as (d' & Hd' & _ & _ & Hprefix).
    assert (d' = d) as -> by congruence.
    destruct (Hentry _ _ Hdpre) as [?|(data' & Hin' & _ & Hno & _)]; [done|].
    rewrite (Hsame _ Hin') in Hno. by rewrite <- Hno.
Qed.

Lemma traits_build_keys_witness :
  "trait_old" ∈ keys
    (default [] (TraitsBuilder.build (fun _ => Some tt)
                   [("trait_old", VObj [("initial", VStr "no")]); ("trait_new", VObj [])]
                   (Some (fun _ _ => true))))
  <-> TraitsBuilder.not_initial (get (VObj [("initial", VStr "no")]) "initial") = false
      /\ TraitsBuilder.rejected (Some (fun _ _ => true)) "trait_old"
           (VObj [("initial", VStr "no")]) = false
      /\ "trait_old" ≠ "__proto__".
Proof.
  refine (proj1 (traits_build_keys (fun _ => Some tt)
    [("trait_old", VObj [("initial", VStr "no")]); ("trait_new", VObj [])]
    (Some (fun _ _ => true)) _ "trait_old" (VObj [("initial", VStr "no")]) _ _ _)).
  - vm_compute. reflexivity.
  - apply (bool_decide_unpack _). vm_compute. exact I.
  - left.
Defined.

(** ** The text before the lexer *)

Section Preprocessing.
Import ParadoxParser.

Lemma normalize_newlines_spec n : forall src, length src <= n ->
  (carriage_return ∉ normalize_newlines src)
  /\ (carriage_return ∉ src -> normalize_newlines src = src).
Proof.
  induction n as [|n IH]; intros src Hn.
  - destruct src; [|simpl in Hn; lia]. simpl. split; [apply not_elem_of_nil | done].
  - destruct src as [|c rest]; [simpl; split; [apply not_elem_of_nil | done]|].
    simpl in Hn. simpl. destruct (decide (c = carriage_return)) as [->|Hc].
    + assert (Hnl : carriage_return ≠ newline) by done.
      destruct rest as [|c' rest'].
      * split; [|intros H; exfalso; apply H; left].
        rewrite list_elem_of_singleton. done.
      * split; [|intros H; exfalso; apply H; left].
        destruct (decide (c' = newline)).
        -- destruct (IH rest') as [H _]; [simpl in Hn; lia|].
           rewrite not_elem_of_cons. done.
        -- destruct (IH (c' :: rest')) as [H _]; [simpl in *; lia|].
           rewrite not_elem_of_cons. done.
    + destruct (IH rest) as [H1 H2]; [lia|]. split.
      * rewrite not_elem_of_cons. done.
      * intros H. apply not_elem_of_cons in H as [_ H]. by rewrite H2.
Qed.

Lemma normalize_newlines_idemp src :
  normalize_newlines (normalize_newlines src) = normalize_newlines src.
Proof.
  destruct (normalize_newlines_spec (length src) src) as [H _]; [done|].
  by destruct (normalize_newlines_spec (length (normalize_newlines src))
                 (normalize_newlines src)) as [_ ->].
Qed.

Lemma line_breaks_app l1 l2 : line_breaks (l1 ++ l2) = line_breaks l1 + line_breaks l2.
Proof. unfold line_breaks. by rewrite filter_app, length_app. Qed.

Lemma line_breaks_none l : newline ∉ l -> line_breaks l = 0.
Proof.
  unfold line_breaks. induction l as [|c l IH]; [done|]. intros H.
  apply not_elem_of_cons in H as [Hc H]. rewrite filter_cons.
  rewrite decide_False by done. by apply IH.
Qed.

Lemma skip_to_newline_split rest i :
  exists pre post, rest = pre ++ post
    /\ skip_to_newline rest i = i + length pre
    /\ (newline ∉ pre)
    /\ (post = [] \/ exists post', post = newline :: post').
Proof.
  revert i. induction rest as [|c rest IH]; intros i; simpl.
  - exists [], []. split_and!; [done | simpl; lia | apply not_elem_of_nil | by left].
  - destruct (decide (c = newline)) as [->|Hc].
    + exists [], (newline :: rest).
      split_and!; [done | simpl; lia | apply not_elem_of_nil | right; eauto].
    + destruct (IH (S i)) as (pre & post & -> & Hj & Hpre & Hpost).
      exists (c :: pre), post. split_and!; [done | simpl; lia | | done].
      rewrite not_elem_of_cons. done.
Qed.

Lemma strip_loop_spec fuel : forall src i inQuote out res,
  strip_loop fuel src i inQuote out = Some res ->
  exists tail, res = out ++ tail
    /\ tail `sublist_of` drop i src
    /\ line_breaks tail = line_breaks (drop i src)
    /\ (hash ∉ drop i src -> tail = drop i src).
Proof.
  induction fuel as [|fuel IH]; intros src i q out res H; [done|].
  simpl in H. destruct (src !! i) as [ch|] eqn:Hch.
  - rewrite (drop_S _ _ _ Hch).
    assert (Hkeep : forall q',
      strip_loop fuel src (S i) q' (out ++ [ch]) = Some res ->
      exists tail, res = out ++ tail
        /\ tail `sublist_of` ch :: drop (S i) src
        /\ line_breaks tail = line_breaks (ch :: drop (S i) src)
        /\ (hash ∉ ch :: drop (S i) src -> tail = ch :: drop (S i) src)).
    { intros q' H'. destruct (IH _ _ _ _ _ H') as (tail & -> & Hsub & Hbr & Hid).
      exists (ch :: tail). split_and!.
      - by rewrite <- app_assoc.
      - by apply sublist_skip.
      - change (ch :: tail) with ([ch] ++ tail).
        change (ch :: drop (S i) src) with ([ch] ++ drop (S i) src).
        rewrite !line_breaks_app. by f_equal.
      - intros Hh. apply not_elem_of_cons in Hh as [_ Hh]. f_equal. by apply Hid. }
    destruct (decide (ch = dquote)); [by eapply Hkeep|].
    destruct (negb q && bool_decide (ch = hash)) eqn:Hc; [|by eapply Hkeep].
    apply andb_true_iff in Hc as [_ Hc]. apply bool_decide_eq_true in Hc. subst ch.
    clear Hkeep.
    destruct (skip_to_newline_split (drop i src) i) as (pre & post & Hsplit & Hj & Hpre & Hpost).
    rewrite Hj in H. rewrite (drop_S _ _ _ Hch) in Hsplit.
    assert (Hlen : length src = i + (length pre + length post)).
    { pose proof (lookup_lt_Some _ _ _ Hch) as Hlt.
      assert (Hl : length (drop i src) = length pre + length post).
      { rewrite (drop_S _ _ _ Hch), Hsplit. by rewrite length_app. }
      rewrite length_drop in Hl. lia. }
    assert (Hdrop : drop (i + length pre) src = post).
    { rewrite <- drop_drop, (drop_S _ _ _ Hch), Hsplit. apply drop_app_length. }
    assert (Hnext : drop (S (i + length pre)) src = drop 1 post).
    { by rewrite <- Hdrop, drop_drop, Nat.add_1_r. }
    apply IH in H as (tail & -> & Hsub & Hbr & _). rewrite Hnext in Hsub, Hbr.
    rewrite Hsplit.
    destruct Hpost as [->|[post' ->]].
    + rewrite decide_False by (simpl in Hlen; lia).
      exists tail. simpl in Hsub, Hbr. apply sublist_nil_r in Hsub. subst tail.
      split_and!; [done | apply sublist_nil_l | |].
      * rewrite app_nil_r. by rewrite (line_breaks_none pre).
      * intros Hh. exfalso. apply Hh. rewrite <- Hsplit. left.
    + rewrite decide_True by (simpl in Hlen; lia).
      exists (newline :: tail). simpl in Hsub, Hbr. split_and!.
      * by rewrite <- app_assoc.
      * apply sublist_inserts_l. by apply sublist_skip.
      * change (newline :: tail) with ([newline] ++ tail).
        change (newline :: post') with ([newline] ++ post').
        rewrite !line_breaks_app, (line_breaks_none pre) by done. simpl. by f_equal.
      * intros Hh. exfalso. apply Hh. rewrite <- Hsplit. left.
  - injection H as <-. exists []. rewrite app_nil_r.
    rewrite (drop_ge src i) by (by apply lookup_ge_None_1). done.
Qed.

End Preprocessing.

(** X18.  [_stripComments] only deletes characters, and never a line
    break: its result is a subsequence of the text with as many line
    breaks as the text, and a text without [#] is returned as it is. *)
Theorem stripComments_only_deletes (src : list ascii) :
  exists out, ParadoxParser._stripComments src = Some out
    /\ out `sublist_of` src
    /\ line_breaks out = line_breaks src
    /\ (ParadoxParser.hash ∉ src -> out = src).
Proof.
  destruct (stripComments_total src) as [out Hout]. exists out. split; [done|].
  unfold ParadoxParser._stripComments in Hout.
  apply strip_loop_spec in Hout as (tail & -> & H). by rewrite drop_0 in H.
Qed.

(** X19.  [parse] does not depend on the style of the line endings: the
    text with every [\r\n] and every lone [\r] replaced by [\n] has the
    same parse, the replacement leaving no [\r] and changing nothing in
    a text without [\r]. *)
Theorem parse_line_endings (text : string) :
  ParadoxParser.parse
    (string_of_list_ascii (ParadoxParser.normalize_newlines (list_ascii_of_string text)))
  = ParadoxParser.parse text
  /\ (ParadoxParser.carriage_return
        ∉ ParadoxParser.normalize_newlines (list_ascii_of_string text))
  /\ (ParadoxParser.carriage_return ∉ list_ascii_of_string text ->
      ParadoxParser.normalize_newlines (list_ascii_of_string text)
      = list_ascii_of_string text).
Proof.
  split; [|apply (normalize_newlines_spec _ _ (le_n _))].
  unfold ParadoxParser.parse.
  by rewrite list_ascii_of_string_of_list_ascii, normalize_newlines_idemp.
Qed.

(** ** What the lexer guarantees *)

Section LexerInvariant.
Import ParadoxParser.

Lemma word_end_split rest j :
  exists pre post, rest = pre ++ post
    /\ word_end rest j = j + length pre
    /\ Forall (fun c => isWhitespace c = false /\ isSpecial c = false) pre.
Proof.
  revert j. induction rest as [|c rest IH]; intros j; simpl.
  - exists [], []. split_and!; [done | simpl; lia | done].
  - destruct (isWhitespace c || isSpecial c) eqn:Hc.
    + exists [], (c :: rest). split_and!; [done | simpl; lia | done].
    + apply orb_false_iff in Hc. destruct (IH (S j)) as (pre & post & -> & Hj & Hpre).
      exists (c :: pre), post. split_and!; [done | simpl; lia | by constructor].
Qed.

Lemma well_lexed_push tokens t text :
  Forall well_lexed tokens ->
  well_lexed (Token t (string_of_list_ascii text)) ->
  Forall well_lexed (push tokens t text).
Proof. intros H1 H2. unfold push. apply Forall_app. split; [done | by constructor]. Qed.

Lemma tokenize_loop_well_lexed fuel : forall src i tokens res,
  Forall well_lexed tokens ->
  tokenize_loop fuel src i tokens = Some res -> Forall well_lexed res.
Proof.
  induction fuel as [|fuel IH]; intros src i tokens res Htok H; [done|].
  simpl in H. destruct (src !! i) as [ch|] eqn:Hch; [|by injection H as <-].
  destruct (isWhitespace ch) eqn:Hws; [by eapply IH|].
  destruct (decide (ch = "{"%char)) as [->|H1].
  { eapply IH; [|exact H]. by apply well_lexed_push. }
  destruct (decide (ch = "}"%char)) as [->|H2].
  { eapply IH; [|exact H]. by apply well_lexed_push. }
  destruct (decide (ch = "="%char)) as [->|H3].
  { eapply IH; [|exact H]. by apply well_lexed_push. }
  destruct (decide (ch = dquote)) as [->|H4].
  { destruct (read_string src (drop (S i) src) (S i) []) as [j str].
    eapply IH; [|exact H]. by apply well_lexed_push. }
  case_bool_decide as H5.
  { case_decide; (eapply IH; [|exact H]); apply well_lexed_push; try done;
      unfold well_lexed; cbn [type tvalue];
      destruct H5 as [->|[->| ->]]; cbn; set_solver. }
  eapply IH; [|exact H]. apply well_lexed_push; [done|].
  assert (Hsp : isSpecial ch = false).
  { unfold isSpecial. apply bool_decide_eq_false.
    rewrite !elem_of_cons, elem_of_nil. naive_solver. }
  destruct (word_end_split (drop i src) i) as (pre & post & Hsplit & Hj & Hpre).
  assert (Hword : slice src i (word_end (drop i src) i) = pre).
  { unfold slice. rewrite Hj, Hsplit.
    replace (i + length pre - i) with (length pre) by lia. apply take_app_length. }
  rewrite Hword.
  assert (Hne : pre ≠ []).
  { intros ->. pose proof (word_end_progress src i ch Hch Hws Hsp) as Hlt.
    rewrite Hj in Hlt. simpl in Hlt. lia. }
  unfold well_lexed.
  destruct (is_number_literal pre) eqn:Hnum; cbn [type tvalue];
    rewrite list_ascii_of_string_of_list_ascii; done.
Qed.

End LexerInvariant.

(** X20.  Every token the lexer returns is well formed: a brace or an
    equals sign carries its own character, an operator is one of [>],
    [<], [!], [>=], [<=], [!=], a number token matches the number
    pattern (so [Number] never meets anything else), and a word is a
    non-empty run without white space or special characters that does
    not match the number pattern. *)
Theorem tokens_well_lexed (src : list ascii) :
  exists tokens, ParadoxParser._tokenize src = Some tokens /\ Forall well_lexed tokens.
Proof.
  destruct (tokenize_total src) as [tokens Htok]. exists tokens. split; [done|].
  by apply (tokenize_loop_well_lexed _ _ _ _ _ (Forall_nil_2 _) Htok).
Qed.

(** ** What the parser reads and what it names *)

Section ParserForward.
Import ParadoxParser.

Lemma word_of_suffix ts ts0 k : ts `suffix_of` ts0 -> word_of ts k -> word_of ts0 k.
Proof.
  intros [pre ->] (tk & Hin & ?). exists tk. split; [|done].
  apply elem_of_app. by right.
Qed.

Lemma word_of_head tk ts : type tk = TWord -> word_of (tk :: ts) (tvalue tk).
Proof. intros H. exists tk. split; [left | done]. Qed.

Section Keys.
Variable W : string -> Prop.

Lemma keyed_assign obj key val :
  Forall (fun kv => W kv.1 /\ keyed_by W kv.2) obj ->
  W key -> keyed_by W val ->
  Forall (fun kv => W kv.1 /\ keyed_by W kv.2) (_assign obj key val).
Proof.
  intros Hobj Hkey Hval. unfold _assign.
  assert (Hset : forall v, keyed_by W v ->
            Forall (fun kv => W kv.1 /\ keyed_by W kv.2) (assoc_set key v obj)).
  { intros v Hv. clear -Hobj Hkey Hv.
    induction Hobj as [|[k0 v0] ps [H1 H2] Hps IH]; simpl.
    - by repeat constructor.
    - case_decide; (constructor; [by split | done]). }
  destruct (assoc key obj) as [old|] eqn:Hold.
  - apply Hset. constructor. apply Forall_app. split; [|by constructor].
    apply assoc_elem_of in Hold. rewrite Forall_forall in Hobj.
    destruct (Hobj _ Hold) as [_ Hk]. simpl in Hk.
    destruct old as [| |b|m s|s|l|ps];
      try (constructor; [exact Hk | constructor]).
    by inversion Hk.
  - unfold obj_set. case_decide; [done | by apply Hset].
Qed.

Lemma keyed_resolve obj list :
  W "items" ->
  Forall (fun kv => W kv.1 /\ keyed_by W kv.2) obj -> Forall (keyed_by W) list ->
  keyed_by W (resolve obj list).
Proof.
  intros Hitems Hobj Hlist. unfold resolve.
  destruct obj as [|kv obj]; [by constructor|].
  destruct list as [|x list]; [by constructor|].
  constructor. unfold obj_set. rewrite decide_False by done.
  remember (kv :: obj) as ps eqn:E. clear E.
  induction Hobj as [|[k0 v0] ps [H1 H2] Hps IH]; simpl.
  - constructor; [split; [done | by constructor] | constructor].
  - case_decide.
    + constructor; [split; [done | by constructor] | done].
    + constructor; [by split | done].
Qed.

End Keys.

Lemma Number_is_number literal : exists m s, Number literal = VNum m s.
Proof.
  unfold Number. generalize (list_ascii_of_string literal). intros w.
  destruct (match w with
            | "-"%char :: b => (true, b)
            | b => (false, b)
            end) as [negative body].
  destruct (span_digits body) as [int_part rest]. eauto.
Qed.

Lemma keyed_Number W literal : keyed_by W (Number literal).
Proof. destruct (Number_is_number literal) as (m & s & ->). constructor. Qed.

Lemma keyed_word_value W w : keyed_by W (word_value w).
Proof. unfold word_value. repeat case_decide; constructor. Qed.

Section KeysOfWords.
Variable all : list token.
Variable W : string -> Prop.
Hypothesis W_items : W "items".
Hypothesis W_words : forall k, word_of all k -> W k.

Lemma parser_keys fuel :
  (forall ts v rest, ts `suffix_of` all ->
     _parseValue fuel ts = Some (v, rest) -> keyed_by W v)
  /\ (forall ts v rest, ts `suffix_of` all ->
        _parseBlock fuel ts = Some (v, rest) -> keyed_by W v)
  /\ (forall ts obj list c rest, ts `suffix_of` all ->
        Forall (fun kv => W kv.1 /\ keyed_by W kv.2) obj -> Forall (keyed_by W) list ->
        block_loop fuel obj list ts = Some (c, rest) ->
        Forall (fun kv => W kv.1 /\ keyed_by W kv.2) c.1 /\ Forall (keyed_by W) c.2).
Proof using W_items W_words.
  induction fuel as [|fuel (IHv & IHb & IHl)]; [split_and!; intros; discriminate|].
  split_and!.
  - intros [|tk ts] v rest Hts H.
    + rewrite parseValue_nil in H. injection H as <- <-. constructor.
    + rewrite parseValue_cons in H.
      destruct (type tk);
        try (injection H as <- <-;
             first [constructor | apply keyed_Number | apply keyed_word_value]).
      eapply IHb; [|exact H]. etrans; [by apply suffix_cons_r | done].
  - intros ts v rest Hts H. rewrite parseBlock_S in H.
    destruct (block_loop fuel [] [] ts) as [[c rest']|] eqn:Hc; [|done].
    injection H as <- <-.
    destruct (IHl _ _ _ _ _ Hts (Forall_nil_2 _) (Forall_nil_2 _) Hc) as [H1 H2].
    apply keyed_resolve; [done | done | done].
  - intros [|tk ts] obj list c rest Hts Hobj Hlist H.
    + rewrite block_loop_nil in H. by injection H as <- <-.
    + rewrite block_loop_cons in H.
      assert (Hts' : ts `suffix_of` all).
      { etrans; [by apply suffix_cons_r | done]. }
      assert (Hpush : forall x ts1, ts1 `suffix_of` all -> keyed_by W x ->
                block_loop fuel obj (list ++ [x]) ts1 = Some (c, rest) ->
                Forall (fun kv => W kv.1 /\ keyed_by W kv.2) c.1 /\ Forall (keyed_by W) c.2).
      { intros x ts1 Hts1 Hx H'. eapply IHl; [exact Hts1 | done | | exact H'].
        apply Forall_app. split; [done | by constructor]. }
      assert (Hassign : forall ts1, ts1 `suffix_of` all -> type tk = TWord ->
        match _parseValue fuel ts1 with
        | Some (val, rest') => block_loop fuel (_assign obj (tvalue tk) val) list rest'
        | None => None
        end = Some (c, rest) ->
        Forall (fun kv => W kv.1 /\ keyed_by W kv.2) c.1 /\ Forall (keyed_by W) c.2).
      { intros ts1 Hts1 Hty H'.
        destruct (_parseValue fuel ts1) as [[val rest']|] eqn:Hv; [|done].
        apply (IHl rest' (_assign obj (tvalue tk) val) list c rest); [| | done | exact H'].
        - etrans; [exact (proj1 (parser_suffix fuel) _ _ _ Hv) | done].
        - apply keyed_assign; [done | | exact (IHv _ _ _ Hts1 Hv)].
          apply W_words. eapply word_of_suffix; [exact Hts|]. by apply word_of_head. }
      destruct (type tk) eqn:Hty;
        try (refine (Hpush _ _ Hts' _ H); first [constructor | apply keyed_Number]).
      * destruct (_parseValue fuel (tk :: ts)) as [[val rest']|] eqn:Hv; [|done].
        apply (Hpush val rest'); [| exact (IHv _ _ _ Hts Hv) | exact H].
        etrans; [exact (proj1 (parser_suffix fuel) _ _ _ Hv) | done].
      * by injection H as <- <-.
      * destruct ts as [|nxt ts']; [refine (Hpush _ _ Hts' _ H); constructor|].
        assert (Hts'' : ts' `suffix_of` all).
        { etrans; [by apply suffix_cons_r | done]. }
        destruct (type nxt);
          try (refine (Hpush _ _ Hts' _ H); constructor).
        -- exact (Hassign _ Hts' eq_refl H).
        -- exact (Hassign _ Hts'' eq_refl H).
        -- destruct ts' as [|operand rest0].
           ++ refine (Hpush _ _ _ _ H); [apply suffix_nil | constructor].
           ++ refine (Hpush _ _ _ _ H); [|constructor].
              etrans; [by apply suffix_cons_r | done].
Qed.

Lemma parse_loop_keys fuel : forall ts out out' rest,
  ts `suffix_of` all ->
  Forall (fun kv => W kv.1 /\ keyed_by W kv.2) out ->
  parse_loop fuel out ts = Some (out', rest) ->
  Forall (fun kv => W kv.1 /\ keyed_by W kv.2) out'.
Proof using W_items W_words.
  induction fuel as [|fuel IH]; intros ts out out' rest Hts Hout H; [done|].
  destruct ts as [|tk ts]; [rewrite parse_loop_nil in H; by injection H as <- <-|].
  rewrite parse_loop_cons in H.
  assert (Hts' : ts `suffix_of` all).
  { etrans; [by apply suffix_cons_r | done]. }
  case_bool_decide as Hty; [|by eapply IH].
  assert (Hw : W (tvalue tk)).
  { apply W_words. eapply word_of_suffix; [exact Hts|]. by apply word_of_head. }
  assert (Htrue : forall ts1, ts1 `suffix_of` all ->
            parse_loop fuel (_assign out (tvalue tk) (VBool true)) ts1 = Some (out', rest) ->
            Forall (fun kv => W kv.1 /\ keyed_by W kv.2) out').
  { intros ts1 Hts1 H'. eapply IH; [exact Hts1 | | exact H'].
    apply keyed_assign; [done | done | constructor]. }
  destruct ts as [|nxt ts']; [eapply Htrue; [apply suffix_nil | done]|].
  case_bool_decide; [|by eapply Htrue].
  destruct (_parseValue fuel ts') as [[val rest']|] eqn:Hv; [|done].
  assert (Hts'' : ts' `suffix_of` all).
  { etrans; [by apply suffix_cons_r | done]. }
  apply (IH rest' (_assign out (tvalue tk) val) out' rest); [| | exact H].
  - etrans; [exact (proj1 (parser_suffix fuel) _ _ _ Hv) | done].
  - apply keyed_assign; [done | done |].
    exact (proj1 (parser_keys fuel) _ _ _ Hts'' Hv).
Qed.

End KeysOfWords.

Lemma list_block_loop ts :
  Forall scalar_token ts ->
  forall fuel tail rest obj list,
    length ts < fuel -> closes tail rest ->
    block_loop fuel obj list (ts ++ tail) = Some ((obj, list ++ (list_item <$> ts)), rest).
Proof.
  induction 1 as [|tk ts Htk Hts IH]; intros [|fuel] tail rest obj list Hf Hc;
    try (simpl in Hf; lia).
  - rewrite fmap_nil, app_nil_r. simpl app. destruct Hc as [[-> ->]|[c ->]].
    + apply block_loop_nil.
    + by rewrite block_loop_cons.
  - simpl in Hf. simpl app. rewrite block_loop_cons.
    assert (Hnext : forall x, list_item tk = x ->
      block_loop fuel obj (list ++ [x]) (ts ++ tail)
      = Some ((obj, list ++ (list_item <$> tk :: ts)), rest)).
    { intros x <-. rewrite (IH fuel tail rest) by (done || lia).
      rewrite fmap_cons. by rewrite <- app_assoc. }
    unfold list_item in Hnext.
    destruct Htk as [Hty|[Hty|Hty]]; rewrite Hty in *; try by apply Hnext.
    destruct (ts ++ tail) as [|nxt ts'] eqn:E; [by apply Hnext|].
    assert (Hnxt : type nxt = TWord \/ type nxt = TString \/ type nxt = TNumber
                   \/ type nxt = TClose).
    { destruct ts as [|t1 ts1].
      - simpl in E. destruct Hc as [[-> _]|[c ->]]; [done|].
        injection E as <- _. tauto.
      - simpl in E. injection E as <- _. apply Forall_cons in Hts as [Ht1 _].
        unfold scalar_token in Ht1. tauto. }
    destruct Hnxt as [->|[->|[->| ->]]]; by apply Hnext.
Qed.

End ParserForward.

(** X21.  The parser invents no key but [items]: every key of the
    mapping that [parse] builds from a token sequence, at every depth,
    is the text of a word token of the sequence or the reserved key
    [items]. *)
Theorem parsed_keys_are_words (tokens : list ParadoxParser.token) :
  exists out, ParadoxParser.parse_tokens tokens = Some out
    /\ keyed_by (fun k => k = "items" \/ word_of tokens k) (VObj out).
Proof.
  destruct (parse_loop_total (ParadoxParser.enough tokens) tokens []) as [out Hout].
  { unfold ParadoxParser.enough. lia. }
  exists out. unfold ParadoxParser.parse_tokens. rewrite Hout. split; [done|].
  constructor.
  apply (parse_loop_keys tokens (fun k => k = "items" \/ word_of tokens k)
           (or_introl eq_refl) (fun k H => or_intror H)
           _ tokens [] out [] (reflexivity _) (Forall_nil_2 _) Hout).
Qed.

(** X22.  A block of bare words, quoted strings and numbers is the list
    of its items in source order, whether it is closed by a brace or by
    the end of the input.  The words stay strings: [yes] and [no] become
    booleans as assigned values only, not as items of a list. *)
Theorem list_block (ts rest : list ParadoxParser.token) (fuel : nat) :
  Forall scalar_token ts ->
  length ts + 1 < fuel ->
  ParadoxParser._parseBlock fuel
    (ts ++ ParadoxParser.Token ParadoxParser.TClose "}" :: rest)
  = Some (VArr (list_item <$> ts), rest)
  /\ ParadoxParser._parseBlock fuel ts = Some (VArr (list_item <$> ts), []).
Proof.
  intros Hts Hf. destruct fuel as [|fuel]; [lia|]. rewrite !parseBlock_S. split.
  - rewrite (list_block_loop ts Hts fuel _ rest [] []); [done | lia | right; eauto].
  - rewrite <- (app_nil_r ts) at 1.
    rewrite (list_block_loop ts Hts fuel [] [] [] []); [done | lia | by left].
Qed.

Lemma list_block_witness :
  ParadoxParser._parseBlock 5
    [ParadoxParser.Token ParadoxParser.TWord "yes";
     ParadoxParser.Token ParadoxParser.TNumber "2";
     ParadoxParser.Token ParadoxParser.TClose "}"]
  = Some (VArr [VStr "yes"; VNum 2 0], []).
Proof.
  refine (proj1 (list_block
    [ParadoxParser.Token ParadoxParser.TWord "yes";
     ParadoxParser.Token ParadoxParser.TNumber "2"] [] 5 _ _)).
  - constructor; [by left|]. constructor; [by right; right | constructor].
  - simpl. lia.
Defined.

(** X23.  At the top level, the tokens before the first word are
    dropped: stray braces, equals signs, operators, numbers and quoted
    strings at the start of a document do not change its parse. *)
Theorem leading_tokens_dropped (junk tokens : list ParadoxParser.token) :
  Forall (fun tk => ParadoxParser.type tk ≠ ParadoxParser.TWord) junk ->
  ParadoxParser.parse_tokens (junk ++ tokens) = ParadoxParser.parse_tokens tokens.
Proof.
  induction 1 as [|tk junk Htk _ IH]; [done|]. rewrite <- IH. clear IH.
  simpl app. generalize (junk ++ tokens). intros ts.
  destruct (parse_loop_total (ParadoxParser.enough ts) ts []) as [out Hout].
  { unfold ParadoxParser.enough. lia. }
  transitivity (Some out).
  - apply (parse_tokens_any_fuel (S (ParadoxParser.enough ts)) _ _ []).
    rewrite parse_loop_cons. by rewrite bool_decide_false.
  - symmetry. by apply (parse_tokens_any_fuel _ _ _ _ Hout).
Qed.

Lemma leading_tokens_dropped_witness :
  ParadoxParser.parse_tokens
    ([ParadoxParser.Token ParadoxParser.TClose "}"; ParadoxParser.Token ParadoxParser.TNumber "3"]
     ++ [ParadoxParser.Token ParadoxParser.TWord "a"])
  = ParadoxParser.parse_tokens [ParadoxParser.Token ParadoxParser.TWord "a"].
Proof.
  apply (leading_tokens_dropped
    [ParadoxParser.Token ParadoxParser.TClose "}"; ParadoxParser.Token ParadoxParser.TNumber "3"]
    [ParadoxParser.Token ParadoxParser.TWord "a"]).
  repeat constructor; discriminate.
Defined.

(** ** Lexing a printed token sequence *)

Section LexPrinted.
Import ParadoxParser.

Lemma digit_plain c : isDigit c = true -> plain c.
Proof.
  destruct c as [[] [] [] [] [] [] [] []]; intros H; try discriminate H;
    split; reflexivity.
Qed.

Lemma all_digits_plain l : all_digits l = true -> Forall plain l.
Proof.
  induction l as [|c l IH]; simpl; [done|]. intros H.
  apply andb_true_iff in H as [Hc Hl]. constructor; [by apply digit_plain | by apply IH].
Qed.

Lemma digits1_plain l : digits1 l = true -> l ≠ [] /\ Forall plain l.
Proof. destruct l; [done|]. intros H. split; [done | by apply all_digits_plain]. Qed.

Lemma span_digits_spec l :
  l = (span_digits l).1 ++ (span_digits l).2.
Proof.
  induction l as [|c l IH]; simpl; [done|].
  destruct (isDigit c); [|done].
  destruct (span_digits l) as [ds rest]. simpl in *. by f_equal.
Qed.

Lemma number_literal_plain w : is_number_literal w = true -> w ≠ [] /\ Forall plain w.
Proof.
  unfold is_number_literal.
  assert (Hbody : forall body,
    (let '(int_part, rest) := span_digits body in
     digits1 int_part &&
     match rest with
     | [] => true
     | "."%char :: frac => digits1 frac
     | _ => false
     end) = true -> body ≠ [] /\ Forall plain body).
  { intros body. pose proof (span_digits_spec body) as Hs.
    destruct (span_digits body) as [int_part rest]. simpl in Hs. intros H.
    apply andb_true_iff in H as [Hint Hrest].
    apply digits1_plain in Hint as [Hne Hint]. rewrite Hs. split.
    - destruct int_part; done.
    - apply Forall_app. split; [done|].
      destruct rest as [|c frac]; [done|].
      destruct (decide (c = "."%char)) as [->|Hc].
      + apply digits1_plain in Hrest as [_ Hfrac]. constructor; [by split | done].
      + exfalso. destruct c as [[] [] [] [] [] [] [] []]; done. }
  destruct w as [|c w]; [intros H; by apply Hbody in H|].
  destruct (decide (c = "-"%char)) as [->|Hc].
  - intros H. apply Hbody in H as [_ H]. split; [done|]. constructor; [by split | done].
  - intros H. apply Hbody.
    destruct c as [[] [] [] [] [] [] [] []]; done.
Qed.

Lemma word_end_plain chars c rest j :
  Forall plain chars -> isWhitespace c = true ->
  word_end (chars ++ c :: rest) j = j + length chars.
Proof.
  intros Hchars Hc. revert j. induction Hchars as [|x chars [Hx1 Hx2] _ IH]; intros j; simpl.
  - rewrite Hc. simpl. lia.
  - rewrite Hx1, Hx2. simpl. rewrite IH. lia.
Qed.

Lemma tokenize_printed ts : Forall printable ts ->
  forall fuel pre acc res,
    tokenize_loop fuel (pre ++ print_tokens ts) (length pre) acc = Some res ->
    res = acc ++ ts.
Proof.
  induction 1 as [|t ts [Ht Hty] _ IH]; intros fuel pre acc res H.
  - destruct fuel as [|fuel]; [done|]. simpl in H. rewrite app_nil_r in H.
    rewrite lookup_ge_None_2 in H by done. injection H as <-. by rewrite app_nil_r.
  - change (print_tokens (t :: ts))
      with ((list_ascii_of_string (tvalue t) ++ [" "%char]) ++ print_tokens ts) in H.
    rewrite <- app_assoc in H.
    assert (Hspace : forall fuel' chars,
      chars = list_ascii_of_string (tvalue t) ->
      tokenize_loop fuel' (pre ++ chars ++ [" "%char] ++ print_tokens ts)
        (length pre + length chars) (acc ++ [t]) = Some res ->
      res = acc ++ t :: ts).
    { intros fuel' chars -> H'. destruct fuel' as [|fuel']; [done|]. simpl in H'.
      rewrite (cons_middle t acc ts), app_assoc.
      rewrite lookup_app_r in H' by lia.
      replace (length pre + length (list_ascii_of_string (tvalue t)) - length pre)
        with (length (list_ascii_of_string (tvalue t)) + 0) in H' by lia.
      rewrite lookup_app_r in H' by lia.
      replace (length (list_ascii_of_string (tvalue t)) + 0
               - length (list_ascii_of_string (tvalue t))) with 0 in H' by lia.
      simpl in H'.
      apply (IH fuel' (pre ++ list_ascii_of_string (tvalue t) ++ [" "%char])).
      rewrite <- !app_assoc. rewrite !length_app. simpl.
      replace (length pre + (length (list_ascii_of_string (tvalue t)) + 1))
        with (S (length pre + length (list_ascii_of_string (tvalue t)))) by lia.
      exact H'. }
    destruct fuel as [|fuel]; [done|].
    destruct t as [ty text]. unfold well_lexed in Ht. cbn [type tvalue] in *.
    destruct ty; try done.
    + subst text. simpl in H. rewrite lookup_app_r in H by lia.
      rewrite Nat.sub_diag in H. simpl in H.
      apply (Hspace fuel ["{"%char] eq_refl).
      simpl. by rewrite Nat.add_1_r.
    + subst text. simpl in H. rewrite lookup_app_r in H by lia.
      rewrite Nat.sub_diag in H. simpl in H.
      apply (Hspace fuel ["}"%char] eq_refl).
      simpl. by rewrite Nat.add_1_r.
    + subst text. simpl in H. rewrite lookup_app_r in H by lia.
      rewrite Nat.sub_diag in H. simpl in H.
      apply (Hspace fuel ["="%char] eq_refl).
      simpl. by rewrite Nat.add_1_r.
    + destruct (number_literal_plain _ Ht) as [Hne Hplain].
      remember (list_ascii_of_string text) as chars eqn:Hchars.
      destruct chars as [|ch chars]; [done|].
      pose proof Hplain as Hall. apply Forall_cons in Hplain as [[Hws Hsp] _].
      assert (Hfirst : (pre ++ (ch :: chars) ++ [" "%char] ++ print_tokens ts) !! length pre
                       = Some ch).
      { rewrite lookup_app_r by lia. by rewrite Nat.sub_diag. }
      assert (Hdrop : drop (length pre) (pre ++ (ch :: chars) ++ [" "%char] ++ print_tokens ts)
                      = (ch :: chars) ++ " "%char :: print_tokens ts).
      { by rewrite drop_app_length. }
      cbn [tokenize_loop] in H. rewrite Hfirst, Hws in H.
      assert (Hnot : forall x, isSpecial x = true -> ch ≠ x).
      { intros x Hx ->. congruence. }
      rewrite !decide_False in H by (by apply Hnot).
      rewrite bool_decide_false in H.
      2: { intros [->|[->| ->]]; done. }
      rewrite Hdrop, word_end_plain in H by done.
      unfold slice in H. rewrite Hdrop in H.
      replace (length pre + length (ch :: chars) - length pre)
        with (length (ch :: chars)) in H by lia.
      rewrite take_app_length, Ht in H.
      unfold push in H. rewrite Hchars, string_of_list_ascii_of_string in H.
      apply (Hspace fuel _ eq_refl). rewrite Hchars. exact H.
    + destruct Ht as (Hne & Hplain & Hnum).
      remember (list_ascii_of_string text) as chars eqn:Hchars.
      destruct chars as [|ch chars]; [done|].
      pose proof Hplain as Hall. apply Forall_cons in Hplain as [[Hws Hsp] _].
      assert (Hfirst : (pre ++ (ch :: chars) ++ [" "%char] ++ print_tokens ts) !! length pre
                       = Some ch).
      { rewrite lookup_app_r by lia. by rewrite Nat.sub_diag. }
      assert (Hdrop : drop (length pre) (pre ++ (ch :: chars) ++ [" "%char] ++ print_tokens ts)
                      = (ch :: chars) ++ " "%char :: print_tokens ts).
      { by rewrite drop_app_length. }
      cbn [tokenize_loop] in H. rewrite Hfirst, Hws in H.
      assert (Hnot : forall x, isSpecial x = true -> ch ≠ x).
      { intros x Hx ->. congruence. }
      rewrite !decide_False in H by (by apply Hnot).
      rewrite bool_decide_false in H.
      2: { intros [->|[->| ->]]; done. }
      rewrite Hdrop, word_end_plain in H by done.
      unfold slice in H. rewrite Hdrop in H.
      replace (length pre + length (ch :: chars) - length pre)
        with (length (ch :: chars)) in H by lia.
      rewrite take_app_length, Hnum in H.
      unfold push in H. rewrite Hchars, string_of_list_ascii_of_string in H.
      apply (Hspace fuel _ eq_refl). rewrite Hchars. exact H.
    + rewrite !elem_of_cons, elem_of_nil in Ht.
      destruct_or!; try done; subst text; simpl in H;
        rewrite lookup_app_r in H by lia; rewrite Nat.sub_diag in H; simpl in H;
        rewrite lookup_app_r in H by lia;
        replace (S (length pre) - length pre) with 1 in H by lia; simpl in H.
      * apply (Hspace fuel [">"%char] eq_refl). exact H.
      * apply (Hspace fuel ["<"%char] eq_refl). exact H.
      * apply (Hspace fuel ["!"%char] eq_refl). exact H.
      * apply (Hspace fuel [">"%char; "="%char] eq_refl). exact H.
      * apply (Hspace fuel ["<"%char; "="%char] eq_refl). exact H.
      * apply (Hspace fuel ["!"%char; "="%char] eq_refl). exact H.
Qed.

End LexPrinted.

Lemma printable_chars t c :
  printable t -> c ∈ list_ascii_of_string (ParadoxParser.tvalue t) ->
  plain c \/ ParadoxParser.isSpecial c = true.
Proof.
  intros [Ht Hty] Hc. destruct t as [ty text]. unfold well_lexed in Ht.
  cbn [ParadoxParser.type ParadoxParser.tvalue] in *. destruct ty; try done.
  - subst text. right. apply list_elem_of_singleton in Hc. by subst c.
  - subst text. right. apply list_elem_of_singleton in Hc. by subst c.
  - subst text. right. apply list_elem_of_singleton in Hc. by subst c.
  - left. apply number_literal_plain in Ht as [_ Ht]. rewrite Forall_forall in Ht. by apply Ht.
  - left. destruct Ht as (_ & Ht & _). rewrite Forall_forall in Ht. by apply Ht.
  - right. rewrite !elem_of_cons, elem_of_nil in Ht.
    destruct_or!; try done; subst text; simpl in Hc;
      rewrite ?elem_of_cons, ?elem_of_nil in Hc; destruct_or!; try done; by subst c.
Qed.

Lemma print_tokens_chars ts c :
  c ∈ print_tokens ts ->
  c = " "%char \/ exists t, t ∈ ts /\ c ∈ list_ascii_of_string (ParadoxParser.tvalue t).
Proof.
  induction ts as [|t ts IH]; [intros H; inversion H|].
  change (print_tokens (t :: ts))
    with ((list_ascii_of_string (ParadoxParser.tvalue t) ++ [" "%char]) ++ print_tokens ts).
  rewrite !elem_of_app, list_elem_of_singleton. intros [[Hc|Hc]|Hc].
  - right. exists t. split; [left | done].
  - by left.
  - destruct (IH Hc) as [?|(t' & Ht' & ?)]; [by left|].
    right. exists t'. split; [by right | done].
Qed.

(** X24.  The lexer reads back a printed token sequence: for braces,
    equals signs, operators, numbers and words as the lexer itself
    produces them, written one after the other with a space after each,
    [_tokenize] returns exactly the sequence. *)
Theorem tokenize_printed_tokens (tokens : list ParadoxParser.token) :
  Forall printable tokens ->
  ParadoxParser._tokenize (print_tokens tokens) = Some tokens.
Proof.
  intros H. destruct (tokenize_total (print_tokens tokens)) as [res Hres].
  rewrite Hres. f_equal. unfold ParadoxParser._tokenize in Hres.
  exact (tokenize_printed tokens H _ [] [] res Hres).
Qed.

Lemma tokenize_printed_tokens_witness :
  ParadoxParser._tokenize
    (print_tokens [ParadoxParser.Token ParadoxParser.TWord "cost";
                   ParadoxParser.Token ParadoxParser.TOp ">=";
                   ParadoxParser.Token ParadoxParser.TNumber "-1.5"])
  = Some [ParadoxParser.Token ParadoxParser.TWord "cost";
          ParadoxParser.Token ParadoxParser.TOp ">=";
          ParadoxParser.Token ParadoxParser.TNumber "-1.5"].
Proof.
  apply (tokenize_printed_tokens
    [ParadoxParser.Token ParadoxParser.TWord "cost";
     ParadoxParser.Token ParadoxParser.TOp ">=";
     ParadoxParser.Token ParadoxParser.TNumber "-1.5"]).
  repeat (apply Forall_cons; split); try apply Forall_nil_2;
    (split; [|discriminate]); unfold well_lexed; cbn.
  - split_and!; [done | | reflexivity]. repeat constructor.
  - set_solver.
  - reflexivity.
Defined.

(** X25.  [parse] on a printed token sequence is the token loop on the
    sequence: when no token holds a [#], the line-ending replacement and
    the comment stripper leave the text as it is, the lexer returns the
    sequence, and the mapping is the one [parse_tokens] builds. *)
Theorem parse_printed_tokens (tokens : list ParadoxParser.token) :
  Forall printable tokens ->
  Forall (fun t => ParadoxParser.hash ∉ list_ascii_of_string (ParadoxParser.tvalue t))
         tokens ->
  ParadoxParser.parse (string_of_list_ascii (print_tokens tokens))
  = VObj <$> ParadoxParser.parse_tokens tokens.
Proof.
  intros Hp Hh. unfold ParadoxParser.parse.
  rewrite list_ascii_of_string_of_list_ascii.
  assert (Hcr : ParadoxParser.carriage_return ∉ print_tokens tokens).
  { intros Hc. apply print_tokens_chars in Hc as [Hc|(t & Ht & Hc)]; [done|].
    rewrite Forall_forall in Hp. destruct (printable_chars _ _ (Hp _ Ht) Hc) as [[? _]|?]; done. }
  assert (Hhash : ParadoxParser.hash ∉ print_tokens tokens).
  { intros Hc. apply print_tokens_chars in Hc as [Hc|(t & Ht & Hc)]; [done|].
    rewrite Forall_forall in Hh. by apply (Hh _ Ht). }
  destruct (normalize_newlines_spec _ (print_tokens tokens) (le_n _)) as [_ ->]; [|done].
  destruct (stripComments_total (print_tokens tokens)) as [src Hsrc]. rewrite Hsrc.
  unfold ParadoxParser._stripComments in Hsrc.
  apply strip_loop_spec in Hsrc as (tail & -> & _ & _ & Hid).
  rewrite drop_0 in Hid. rewrite (Hid Hhash). cbn [mbind option_bind app].
  destruct (tokenize_total (print_tokens tokens)) as [res Hres]. rewrite Hres.
  unfold ParadoxParser._tokenize in Hres.
  pose proof (tokenize_printed tokens Hp _ [] [] res Hres) as Heq.
  simpl in Heq. subst res.
  cbn [mbind option_bind].
  by destruct (ParadoxParser.parse_tokens tokens).
Qed.

Lemma parse_printed_tokens_witness :
  ParadoxParser.parse
    (string_of_list_ascii
       (print_tokens [ParadoxParser.Token ParadoxParser.TWord "a";
                      ParadoxParser.Token ParadoxParser.TEquals "=";
                      ParadoxParser.Token ParadoxParser.TNumber "1"]))
  = VObj <$> ParadoxParser.parse_tokens
               [ParadoxParser.Token ParadoxParser.TWord "a";
                ParadoxParser.Token ParadoxParser.TEquals "=";
                ParadoxParser.Token ParadoxParser.TNumber "1"].
Proof.
  apply (parse_printed_tokens
    [ParadoxParser.Token ParadoxParser.TWord "a";
     ParadoxParser.Token ParadoxParser.TEquals "=";
     ParadoxParser.Token ParadoxParser.TNumber "1"]).
  - repeat (apply Forall_cons; split); try apply Forall_nil_2;
      (split; [|discriminate]); unfold well_lexed; cbn.
    + split_and!; [done | | reflexivity]. repeat constructor.
    + reflexivity.
    + reflexivity.
  - repeat (apply Forall_cons; split); try apply Forall_nil_2;
      apply (bool_decide_unpack _); vm_compute; exact I.
Defined.

(** ** When [OriginsBuilder] throws *)

Section OriginsThrows.
Import OriginsBuilder.






End OriginsThrows.



(** ** The two copies of [_gather] *)

Lemma value_nested_ind (P : value -> Prop) :
  P VUndef -> P VNull -> (forall b, P (VBool b)) -> (forall m s, P (VNum m s)) ->
  (forall s, P (VStr s)) ->
  (forall l, Forall P l -> P (VArr l)) ->
  (forall ps, Forall (fun kv => P kv.2) ps -> P (VObj ps)) ->
  forall v, P v.
Proof.
  intros HU HN HB HNum HS HA HO. fix IH 1.
  intros [| |b|m s|s|l|ps];
    [exact HU | exact HN | apply HB | apply HNum | apply HS | | ].
  - apply HA. induction l as [|v l IHl]; constructor; [apply IH | exact IHl].
  - apply HO. induction ps as [|[k v] ps IHps]; constructor; [apply IH | exact IHps].
Qed.

(** X27.  The copy of [_gather] in [EthicsBuilder] and the one shared by
    [CivicsBuilder] and [OriginsBuilder] return the same identifiers on
    every value that holds no number; they differ on numbers only, which
    the first turns into strings and the second drops. *)
Theorem gather_copies_agree (toString : Z -> nat -> string) (x : value) :
  holds_number x = false -> EthicsBuilder._gather toString x = _gather x.
Proof.
  induction x as [| |b|m s|s|l IH|ps IH] using value_nested_ind; try done.
  - intros H. cbn [EthicsBuilder._gather _gather].
    induction IH as [|v l Hv _ IHl]; [done|].
    cbn [holds_number] in H. apply orb_false_iff in H as [H1 H2].
    rewrite Hv by done. f_equal. by apply IHl.
  - intros H. cbn [EthicsBuilder._gather _gather].
    assert (Hfind :
      (fix find (ps : list (string * value)) : option (list string) :=
         match ps with
         | [] => None
         | (k, v) :: ps' =>
             if decide (k = "value") then Some (EthicsBuilder._gather toString v)
             else find ps'
         end) ps
      = (fix find (ps : list (string * value)) : option (list string) :=
           match ps with
           | [] => None
           | (k, v) :: ps' => if decide (k = "value") then Some (_gather v) else find ps'
           end) ps).
    { clear -IH H. induction IH as [|[k v] ps Hv _ IHps]; [done|].
      cbn [holds_number] in H. apply orb_false_iff in H as [H1 H2]. simpl in Hv.
      case_decide; [by rewrite Hv | by apply IHps]. }
    rewrite Hfind.
    match goal with |- match ?e with Some _ => _ | None => _ end = _ =>
      destruct e as [out|]; [done|]
    end.
    clear Hfind. induction IH as [|[k v] ps Hv _ IHps]; [done|].
    cbn [holds_number] in H. apply orb_false_iff in H as [H1 H2]. simpl in Hv.
    rewrite Hv by done. f_equal. by apply IHps.
Qed.

Lemma gather_copies_agree_witness :
  EthicsBuilder._gather (fun _ _ => "7")
    (VObj [("OR", VArr [VStr "ethic_a"; VObj [("value", VStr "ethic_b")]])])
  = ["ethic_a"; "ethic_b"].
Proof.
  apply (gather_copies_agree (fun _ _ => "7")
           (VObj [("OR", VArr [VStr "ethic_a"; VObj [("value", VStr "ethic_b")]])])).
  reflexivity.
Defined.

(** ** The closure of [TraitsBuilder] repeats nothing *)

Section TraitsNoDup.
Context {cost_info : Type}.
Implicit Types (defs : list (string * @TraitsBuilder.traitDef cost_info)).
Import TraitsBuilder.

Lemma NoDup_reverse_entry id defs o :
  (forall a d, assoc a defs = Some d -> NoDup (no d)) ->
  forall a d, assoc a (reverse_entry id defs o) = Some d -> NoDup (no d).
Proof.
  intros Hnd a d. unfold reverse_entry. destruct o as [| |x|m sc|t|l|ps]; try apply Hnd.
  destruct (assoc t defs) as [od|] eqn:Ht; [|apply Hnd].
  destruct (includes (no od) (VStr id)) eqn:Hinc; [apply Hnd|].
  rewrite push_no_fmap, assoc_fmap. intros Hd.
  apply fmap_Some in Hd as (d0 & Hd0 & ->).
  destruct (decide (a = t)) as [->|Hne]; [|by apply (Hnd a)].
  simpl. assert (d0 = od) as -> by congruence.
  apply NoDup_app. split_and!; [by apply (Hnd t) | | apply NoDup_singleton].
  intros x Hx Hx'. apply list_elem_of_singleton in Hx'. subst x.
  apply includes_str_elem_of in Hx. congruence.
Qed.

Lemma NoDup_round defs id :
  (forall a d, assoc a defs = Some d -> NoDup (no d)) ->
  forall a d, assoc a (round defs id) = Some d -> NoDup (no d).
Proof.
  unfold round. destruct (assoc id defs) as [d0|]; [|done].
  generalize (no d0). intros l. revert defs.
  induction l as [|o l IH]; intros defs Hnd; simpl; [done|].
  apply IH. by apply NoDup_reverse_entry.
Qed.

Lemma NoDup_rounds (ids : list string) defs :
  (forall a d, assoc a defs = Some d -> NoDup (no d)) ->
  forall a d, assoc a (fold_left round ids defs) = Some d -> NoDup (no d).
Proof.
  revert defs. induction ids as [|id ids IH]; intros defs Hnd; simpl; [done|].
  apply IH. by apply NoDup_round.
Qed.

End TraitsNoDup.

(** X28.  The closure of [TraitsBuilder] never lists an opposite twice:
    if no [no] list repeats an element before the closure, none does
    after it. *)
Theorem traits_closure_no_repetition {cost_info : Type}
    (definitions : list (string * @TraitsBuilder.traitDef cost_info)) :
  (forall a d, assoc a definitions = Some d -> NoDup (TraitsBuilder.no d)) ->
  forall a d, assoc a (TraitsBuilder._makeBidirectional definitions) = Some d ->
              NoDup (TraitsBuilder.no d).
Proof. apply NoDup_rounds. Qed.

Lemma traits_closure_no_repetition_witness :
  NoDup [VStr "trait_a"].
Proof.
  refine (traits_closure_no_repetition
    [("trait_a", TraitsBuilder.TraitDef tt [VStr "trait_b"] None);
     ("trait_b", TraitsBuilder.TraitDef tt [] None)] _
    "trait_b" (TraitsBuilder.TraitDef tt [VStr "trait_a"] None) _).
  - intros a d. simpl. repeat case_decide; intros [= <-]; simpl;
      (apply NoDup_singleton || apply NoDup_nil_2).
  - reflexivity.
Defined.
(** ** Cost and modifiers of a trait *)

Lemma forallb_elem {A : Type} (f : A -> bool) (l : list A) (x : A) :
  forallb f l = true -> x ∈ l -> f x = true.
Proof.
  induction l as [|y l IH]; intros H Hin; [inversion Hin|].
  simpl in H. apply andb_true_iff in H as [H1 H2].
  apply elem_of_cons in Hin as [->|Hin]; [done | by apply IH].
Qed.

Lemma keeps_stringifies (v : value) :
  keeps_toString v = true -> TraitsBuilder.stringifies v = true.
Proof.
  induction v as [| |b|m s|s|l IH|ps IH] using value_nested_ind; try done.
  - intros Hk. cbn [keeps_toString TraitsBuilder.stringifies] in *.
    induction IH as [|v l Hv _ IHl]; [done|].
    simpl in Hk |- *. apply andb_true_iff in Hk as [H1 H2].
    rewrite Hv by done. by apply IHl.
  - intros Hk. cbn [keeps_toString TraitsBuilder.stringifies] in *.
    by apply andb_true_iff in Hk as [-> _].
Qed.

Lemma keeps_get (v : value) (k : string) :
  keeps_toString v = true -> keeps_toString (get v k) = true.
Proof.
  destruct v as [| |b|m s|s|l|ps]; try done.
  cbn [get keeps_toString]. intros H. apply andb_true_iff in H as [_ H].
  induction ps as [|[k' v'] ps IH]; [done|].
  simpl in H |- *. apply andb_true_iff in H as [H1 H2].
  case_decide; [done | by apply IH].
Qed.

Lemma keeps_as_array (v b : value) :
  keeps_toString v = true -> b ∈ TraitsBuilder.as_array v -> keeps_toString b = true.
Proof.
  intros H Hin.
  destruct v as [| |b'|m s|s|l|ps];
    try (apply list_elem_of_singleton in Hin as ->; exact H).
  exact (forallb_elem _ _ _ H Hin).
Qed.

Lemma indexed_elem {A : Type} (l : list A) (k : string) (x : A) :
  (k, x) ∈ indexed l -> x ∈ l.
Proof.
  unfold indexed.
  assert (H : forall (f : nat -> A -> string * A),
             (forall i y, (f i y).2 = y) -> (k, x) ∈ imap f l -> x ∈ l).
  { induction l as [|y l IH]; intros f Hf Hin; [inversion Hin|].
    simpl in Hin. apply elem_of_cons in Hin as [Heq|Hin].
    - pose proof (Hf 0 y) as H0. rewrite <- Heq in H0. simpl in H0. subst. left.
    - right. apply (IH (f ∘ S)); [intros; apply Hf | exact Hin]. }
  apply H. done.
Qed.

Lemma keeps_entries (block : value) ps (key : string) (cv : value) :
  keeps_toString block = true -> entries block = Some ps -> (key, cv) ∈ ps ->
  keeps_toString cv = true.
Proof.
  intros Hk He Hin. destruct block as [| |b|m s|s|l|ps']; simpl in He; try done;
    injection He as <-.
  - inversion Hin.
  - inversion Hin.
  - apply indexed_elem, list_elem_of_fmap in Hin as (c & -> & _). done.
  - apply indexed_elem in Hin. exact (forallb_elem _ _ _ Hk Hin).
  - cbn [keeps_toString] in Hk. apply andb_true_iff in Hk as [_ Hk].
    exact (forallb_elem _ _ _ Hk Hin).
Qed.

Section TraitCost.
Import TraitsBuilder.
Context {number : Type}.
Variable finite : Z -> nat -> number.
Variable parseInt : value -> number.
Variable is_zero : number -> bool.
Variable toPropertyKey : value -> string.

Lemma parseIntE_keeps (v : value) :
  keeps_toString v = true -> parseIntE parseInt v = Some (parseInt v).
Proof. intros H. unfold parseIntE. by rewrite keeps_stringifies. Qed.

Lemma key_of_keeps (v : value) :
  keeps_toString v = true -> is_Some (key_of toPropertyKey v).
Proof.
  intros H. apply keeps_stringifies in H. destruct v; simpl in *; eauto.
  - by rewrite H.
  - by rewrite H.
Qed.

(** The inner loop of [_extractModifiers]. *)
Lemma block_conditions_return (block : value) (ps : list (string * value)) :
  keeps_toString (get block "add") = true ->
  (forall key cv, (key, cv) ∈ ps -> keeps_toString cv = true) ->
  forall acc : list (string * number),
    is_Some (for_each
      (fun modifiers '(key, conditionValue) =>
         if startsWith key "has_" then
           if is_undefined (get block "add") then Some modifiers
           else
             name ← key_of toPropertyKey conditionValue;
             n ← parseIntE parseInt (get block "add");
             Some (obj_set name n modifiers)
         else Some modifiers)
      ps acc).
Proof.
  intros Hadd. rewrite (parseIntE_keeps _ Hadd).
  induction ps as [|[key cv] ps IH]; intros Hps acc; [by eexists|].
  cbn [for_each].
  assert (Hrest : forall key' cv', (key', cv') ∈ ps -> keeps_toString cv' = true).
  { intros key' cv' Hin. apply (Hps key' cv'). by right. }
  destruct (startsWith key "has_"); [|by apply IH].
  destruct (is_undefined (get block "add")); [by apply IH|].
  destruct (key_of_keeps cv) as [name ->]; [apply (Hps key cv); left|].
  by apply IH.
Qed.

Lemma extractModifiers_None_from (l : list value) :
  (forall b, b ∈ l -> keeps_toString b = true) ->
  forall acc : list (string * number),
    for_each
      (fun modifiers block =>
         if typeof_object block then
           ps ← entries block;
           for_each
             (fun modifiers '(key, conditionValue) =>
                if startsWith key "has_" then
                  if is_undefined (get block "add") then Some modifiers
                  else
                    name ← key_of toPropertyKey conditionValue;
                    n ← parseIntE parseInt (get block "add");
                    Some (obj_set name n modifiers)
                else Some modifiers)
             ps modifiers
         else Some modifiers)
      l acc = None
    <-> VNull ∈ l.
Proof.
  induction l as [|block l IH]; intros Hl acc.
  - split; [done | intros H; inversion H].
  - assert (Hb : keeps_toString block = true) by (apply Hl; left).
    assert (Hrest : forall b, b ∈ l -> keeps_toString b = true).
    { intros b Hin. apply Hl. by right. }
    cbn [for_each].
    destruct (typeof_object block) eqn:Hty.
    + destruct (entries block) as [ps|] eqn:Hps.
      * cbn [mbind option_bind].
        destruct (block_conditions_return block ps (keeps_get _ _ Hb)
                    (fun key cv Hin => keeps_entries _ _ _ _ Hb Hps Hin) acc) as [acc' ->].
        cbn [mbind option_bind]. rewrite (IH Hrest). rewrite elem_of_cons.
        split; [by right|]. intros [<-|?]; [done | done].
      * split; [|done]. intros _. destruct block; try done. left.
    + cbn [mbind option_bind]. rewrite (IH Hrest). rewrite elem_of_cons.
      split; [by right|]. intros [<-|?]; [done | done].
Qed.

Lemma extractModifiers_None (modifierData : value) :
  keeps_toString modifierData = true ->
  _extractModifiers parseInt toPropertyKey modifierData = None
  <-> VNull ∈ as_array modifierData.
Proof.
  intros H. apply extractModifiers_None_from.
  intros b Hin. by apply (keeps_as_array modifierData).
Qed.

Lemma assoc_set_elem (ps : list (string * number)) (k k0 : string) (n v0 : number) :
  (k, n) ∈ assoc_set k0 v0 ps -> (k, n) ∈ ps \/ (k = k0 /\ n = v0).
Proof.
  induction ps as [|[k1 v1] ps IH]; simpl.
  - rewrite list_elem_of_singleton. intros [= -> ->]. by right.
  - case_decide; rewrite !elem_of_cons.
    + intros [[= -> ->]|?]; [right; by subst | left; by right].
    + intros [?|Hk]; [left; by left|].
      apply IH in Hk as [?|?]; [left; by right | by right].
Qed.

Lemma block_conditions_sound (block : value) (k : string) (n : number) :
  forall (ps : list (string * value)) (acc mods : list (string * number)),
    for_each
      (fun modifiers '(key, conditionValue) =>
         if startsWith key "has_" then
           if is_undefined (get block "add") then Some modifiers
           else
             name ← key_of toPropertyKey conditionValue;
             n ← parseIntE parseInt (get block "add");
             Some (obj_set name n modifiers)
         else Some modifiers)
      ps acc = Some mods ->
    (k, n) ∈ mods ->
    (k, n) ∈ acc
    \/ exists key conditionValue,
         (key, conditionValue) ∈ ps /\ startsWith key "has_" = true
         /\ get block "add" ≠ VUndef
         /\ key_of toPropertyKey conditionValue = Some k
         /\ parseIntE parseInt (get block "add") = Some n.
Proof.
  induction ps as [|[key cv] ps IH]; intros acc mods H Hin.
  - injection H as <-. by left.
  - cbn [for_each] in H.
    assert (Hlater : forall acc',
      for_each
        (fun modifiers '(key, conditionValue) =>
           if startsWith key "has_" then
             if is_undefined (get block "add") then Some modifiers
             else
               name ← key_of toPropertyKey conditionValue;
               n ← parseIntE parseInt (get block "add");
               Some (obj_set name n modifiers)
           else Some modifiers)
        ps acc' = Some mods ->
      (k, n) ∈ acc'
      \/ exists key' cv',
           (key', cv') ∈ (key, cv) :: ps /\ startsWith key' "has_" = true
           /\ get block "add" ≠ VUndef
           /\ key_of toPropertyKey cv' = Some k
           /\ parseIntE parseInt (get block "add") = Some n).
    { intros acc' H'. destruct (IH _ _ H' Hin) as [?|(key' & cv' & ? & ?)]; [by left|].
      right. exists key', cv'. split; [by right | done]. }
    destruct (startsWith key "has_") eqn:Hs;
      [|cbn [mbind option_bind] in H; by apply Hlater].
    destruct (is_undefined (get block "add")) eqn:Hu;
      [cbn [mbind option_bind] in H; by apply Hlater|].
    destruct (key_of toPropertyKey cv) as [name|] eqn:Hname; [|done].
    destruct (parseIntE parseInt (get block "add")) as [m|] eqn:Hm; [|done].
    cbn [mbind option_bind] in H.
    destruct (Hlater _ H) as [Hk|?]; [|by right].
    unfold obj_set in Hk. case_decide; [by left|].
    apply assoc_set_elem in Hk as [?|[-> ->]]; [by left|].
    right. exists key, cv. split_and!; try done; [left|].
    intros Hadd. by rewrite Hadd in Hu.
Qed.

Lemma extractModifiers_entries (k : string) (n : number) (l : list value) :
  forall acc mods : list (string * number),
  for_each
    (fun modifiers block =>
       if typeof_object block then
         ps ← entries block;
         for_each
           (fun modifiers '(key, conditionValue) =>
              if startsWith key "has_" then
                if is_undefined (get block "add") then Some modifiers
                else
                  name ← key_of toPropertyKey conditionValue;
                  n ← parseIntE parseInt (get block "add");
                  Some (obj_set name n modifiers)
              else Some modifiers)
           ps modifiers
       else Some modifiers)
    l acc = Some mods ->
  (k, n) ∈ mods ->
  (k, n) ∈ acc
  \/ exists block ps key conditionValue,
       block ∈ l /\ entries block = Some ps /\ (key, conditionValue) ∈ ps
       /\ startsWith key "has_" = true
       /\ get block "add" ≠ VUndef
       /\ key_of toPropertyKey conditionValue = Some k
       /\ parseIntE parseInt (get block "add") = Some n.
Proof.
  induction l as [|block l IH]; intros acc mods H Hin.
  - injection H as <-. by left.
  - cbn [for_each] in H.
    destruct (typeof_object block) eqn:Hty.
    + destruct (entries block) as [ps|] eqn:Hps; [|done]. cbn [mbind option_bind] in H.
      match type of H with
      | (?e ≫= _) = _ => destruct e as [acc'|] eqn:Hblock; [|done]
      end.
      cbn [mbind option_bind] in H.
      destruct (IH _ _ H Hin) as [Hk|(b & ps' & key & cv & Hb & ?)].
      * destruct (block_conditions_sound _ _ _ _ _ _ Hblock Hk)
          as [?|(key & cv & ? & ?)]; [by left|].
        right. exists block, ps, key, cv. split; [left | done].
      * right. exists b, ps', key, cv. split; [by right | done].
    + cbn [mbind option_bind] in H.
      destruct (IH _ _ H Hin) as [?|(b & ps' & key & cv & Hb & ?)]; [by left|].
      right. exists b, ps', key, cv. split; [by right | done].
Qed.

End TraitCost.

(** X29.  On trait data whose [cost] entry holds no object with an entry
    named [toString], [_extractCost] throws in three cases only: the
    trait data is [null] or [undefined]; its [cost] entry is [null]; or
    its [cost] entry is a block whose [modifier] entry is a list with
    [null] among its blocks.  In every other case it returns. *)
Theorem extractCost_throws {number : Type}
    (finite : Z -> nat -> number) (parseInt : value -> number)
    (is_zero : number -> bool) (toPropertyKey : value -> string) (data : value) :
  keeps_toString (get data "cost") = true ->
  TraitsBuilder._extractCost finite parseInt is_zero toPropertyKey data = None
  <-> missing data
      \/ get data "cost" = VNull
      \/ (typeof_object (get data "cost") = true
          /\ truthy (get (get data "cost") "modifier") = true
          /\ VNull ∈ TraitsBuilder.as_array (get (get data "cost") "modifier")).
Proof.
  intros Hkeep. unfold TraitsBuilder._extractCost.
  assert (Hdec : missing data \/ ~ missing data).
  { unfold missing. destruct data; eauto; right; intros [?|?]; done. }
  destruct Hdec as [Hm|Hm].
  { rewrite getE_missing by done. split; [by left | done]. }
  rewrite getE_is_Some by done. cbn [mbind option_bind].
  assert (Hobj : forall dcost, keeps_toString dcost = true -> ~ missing dcost ->
    ((getE dcost "base" ≫= fun base =>
      (if TraitsBuilder.is_undefined base then Some (finite 0%Z 0%nat)
       else TraitsBuilder.parseIntE parseInt base) ≫= fun cost =>
      (if truthy (get dcost "modifier")
       then TraitsBuilder._extractModifiers parseInt toPropertyKey (get dcost "modifier")
       else Some []) ≫= fun modifiers =>
      (if is_zero cost && negb (truthy base)
       then TraitsBuilder.parseIntE parseInt dcost else Some cost) ≫= fun cost =>
      Some (cost, modifiers)) = None
     <-> truthy (get dcost "modifier") = true
         /\ VNull ∈ TraitsBuilder.as_array (get dcost "modifier"))).
  { intros dcost Hk Hn.
    rewrite getE_is_Some by done. cbn [mbind option_bind].
    assert (Hbase : exists c,
      (if TraitsBuilder.is_undefined (get dcost "base") then Some (finite 0%Z 0%nat)
       else TraitsBuilder.parseIntE parseInt (get dcost "base")) = Some c).
    { destruct (TraitsBuilder.is_undefined _); [by eexists|].
      rewrite parseIntE_keeps by apply keeps_get, Hk. by eexists. }
    destruct Hbase as [c ->]. cbn [mbind option_bind].
    assert (Hlast : exists c',
      (if is_zero c && negb (truthy (get dcost "base"))
       then TraitsBuilder.parseIntE parseInt dcost else Some c) = Some c').
    { destruct (_ && _); [|by eexists]. rewrite parseIntE_keeps by done. by eexists. }
    destruct Hlast as [c' ->].
    destruct (truthy (get dcost "modifier")) eqn:Ht.
    - pose proof (extractModifiers_None parseInt toPropertyKey (get dcost "modifier")
                    (keeps_get _ _ Hk)) as Hx.
      destruct (TraitsBuilder._extractModifiers _ _ _) as [mods|]; simpl.
      + split; [done|]. intros [_ H]. by apply Hx in H.
      + split; [|done]. intros _. split; [done | by apply Hx].
    - simpl. split; [done | by intros [? _]]. }
  destruct (get data "cost") as [| |b|m s|s|l|ps] eqn:Hc; cbn [TraitsBuilder.is_undefined].
  - split; [done|]. intros [?|[?|(H & _)]]; done.
  - split; [by right; left | done].
  - split; [done|]. intros [?|[?|(H & _)]]; done.
  - split; [done|]. intros [?|[?|(H & _)]]; done.
  - split; [done|]. intros [?|[?|(H & _)]]; done.
  - rewrite (Hobj (VArr l)) by (done || intros [?|?]; done).
    split; [intros [? ?]; right; right; done | intros [?|[?|(_ & ? & ?)]]; done].
  - rewrite (Hobj (VObj ps)) by (done || intros [?|?]; done).
    split; [intros [? ?]; right; right; done | intros [?|[?|(_ & ? & ?)]]; done].
Qed.

Lemma extractCost_throws_witness :
  keeps_toString (get (VObj [("cost", VObj [("base", VNum 2 0); ("modifier", VNull)])]) "cost")
    = true
  /\ (TraitsBuilder._extractCost (fun m _ => m) (fun _ => 0%Z) (Z.eqb 0) (fun _ => EmptyString)
        (VObj [("cost", VObj [("base", VNum 2 0); ("modifier", VNull)])]) = None
      <-> missing (VObj [("cost", VObj [("base", VNum 2 0); ("modifier", VNull)])])
          \/ get (VObj [("cost", VObj [("base", VNum 2 0); ("modifier", VNull)])]) "cost"
             = VNull
          \/ (typeof_object
                (get (VObj [("cost", VObj [("base", VNum 2 0); ("modifier", VNull)])]) "cost")
              = true
              /\ truthy
                   (get (get (VObj [("cost", VObj [("base", VNum 2 0); ("modifier", VNull)])])
                           "cost") "modifier") = true
              /\ VNull ∈ TraitsBuilder.as_array
                   (get (get (VObj [("cost", VObj [("base", VNum 2 0); ("modifier", VNull)])])
                           "cost") "modifier"))).
Proof.
  split; [reflexivity|].
  apply (extractCost_throws (fun m _ => m) (fun _ => 0%Z) (Z.eqb 0) (fun _ => EmptyString)
           (VObj [("cost", VObj [("base", VNum 2 0); ("modifier", VNull)])])).
  reflexivity.
Defined.

(** X30.  [_extractModifiers] reports a modifier only for a condition of
    a block that has an [add] entry: every entry of its result is named
    by the value stored under a key that starts with [has_], in a block
    of the modifier data whose [add] entry is defined, and holds
    [parseInt] of that [add] entry. *)
Theorem extractModifiers_sound {number : Type}
    (parseInt : value -> number) (toPropertyKey : value -> string)
    (modifierData : value) (modifiers : list (string * number)) (k : string) (n : number) :
  TraitsBuilder._extractModifiers parseInt toPropertyKey modifierData = Some modifiers ->
  (k, n) ∈ modifiers ->
  exists block ps key conditionValue,
    block ∈ TraitsBuilder.as_array modifierData
    /\ entries block = Some ps /\ (key, conditionValue) ∈ ps
    /\ startsWith key "has_" = true
    /\ get block "add" ≠ VUndef
    /\ TraitsBuilder.key_of toPropertyKey conditionValue = Some k
    /\ TraitsBuilder.parseIntE parseInt (get block "add") = Some n.
Proof.
  unfold TraitsBuilder._extractModifiers. intros H Hin.
  destruct (extractModifiers_entries parseInt toPropertyKey _ _ _ _ _ H Hin) as [Hnil|?];
    [inversion Hnil | done].
Qed.

Lemma extractModifiers_sound_witness :
  exists block ps key conditionValue,
    block ∈ TraitsBuilder.as_array
              (VObj [("has_origin", VStr "origin_mechanists"); ("add", VNum 2 0)])
    /\ entries block = Some ps /\ (key, conditionValue) ∈ ps
    /\ startsWith key "has_" = true
    /\ get block "add" ≠ VUndef
    /\ TraitsBuilder.key_of (fun _ => EmptyString) conditionValue = Some "origin_mechanists"
    /\ TraitsBuilder.parseIntE
         (fun v => match v with VNum m _ => m | _ => 0%Z end) (get block "add") = Some 2%Z.
Proof.
  refine (extractModifiers_sound
    (fun v => match v with VNum m _ => m | _ => 0%Z end) (fun _ => EmptyString)
    (VObj [("has_origin", VStr "origin_mechanists"); ("add", VNum 2 0)])
    [("origin_mechanists", 2%Z)] "origin_mechanists" 2%Z _ _).
  - reflexivity.
  - left.
Defined.
